(** * O1Heap: a shallow embedding of the constant-time allocator

    The development follows [o1heap.c]: machine integers are [Z] with the
    wrap-around of [size_t] written out, the arena is a word-addressed memory
    [Z -> Z] in which fragment headers and free-list links live next to the
    user payload, and every public function is a state transformer on the
    instance record. *)

From Stdlib Require Import ZArith Lia List Bool Permutation.
Import ListNotations.
Open Scope Z_scope.

(** ** Platform and data model *)

(** The code is parametric in the pointer width; [size_t], [uintptr_t] and
    pointers all have that width, [CHAR_BIT] is 8. *)
Inductive Platform : Type := P16 | P32 | P64.

(** [sizeof(void* )] *)
Definition ptr_size (pl : Platform) : Z :=
  match pl with P16 => 2 | P32 => 4 | P64 => 8 end.

(** [O1HeapDiagnostics]; [oom_count] is a [uint64_t], the rest are [size_t]. *)
Record O1HeapDiagnostics : Type := mkDiag {
  capacity : Z;
  allocated : Z;
  peak_allocated : Z;
  peak_request_size : Z;
  oom_count : Z
}.

(** [struct O1HeapInstance]. The arena that follows the instance in memory is
    the field [mem]: a map from byte addresses to machine words. A [Fragment]
    at address [f] keeps [header.next] at [f], [header.prev_used] at
    [f + sizeof(void* )], [next_free] at [f + 2 * sizeof(void* )] and [prev_free]
    at [f + 3 * sizeof(void* )]; the last two overlap the payload, which starts
    at [f + O1HEAP_ALIGNMENT]. The null pointer is 0. *)
Record O1HeapInstance : Type := mkHeap {
  bins : Z -> Z;
  nonempty_bin_mask : Z;
  arena_end : Z;
  diagnostics : O1HeapDiagnostics;
  mem : Z -> Z
}.

Definition store (m : Z -> Z) (a v : Z) : Z -> Z :=
  fun x => if x =? a then v else m x.

Definition set_mem (h : O1HeapInstance) (m : Z -> Z) : O1HeapInstance :=
  mkHeap (bins h) (nonempty_bin_mask h) (arena_end h) (diagnostics h) m.

Definition set_diag (h : O1HeapInstance) (d : O1HeapDiagnostics) : O1HeapInstance :=
  mkHeap (bins h) (nonempty_bin_mask h) (arena_end h) d (mem h).

Definition set_bins (h : O1HeapInstance) (b : Z -> Z) (mask : Z) : O1HeapInstance :=
  mkHeap b mask (arena_end h) (diagnostics h) (mem h).

Definition set_allocated (d : O1HeapDiagnostics) (v : Z) : O1HeapDiagnostics :=
  mkDiag (capacity d) v (peak_allocated d) (peak_request_size d) (oom_count d).

Definition set_peak_allocated (d : O1HeapDiagnostics) (v : Z) : O1HeapDiagnostics :=
  mkDiag (capacity d) (allocated d) v (peak_request_size d) (oom_count d).

Definition set_peak_request_size (d : O1HeapDiagnostics) (v : Z) : O1HeapDiagnostics :=
  mkDiag (capacity d) (allocated d) (peak_allocated d) v (oom_count d).

Definition set_oom_count (d : O1HeapDiagnostics) (v : Z) : O1HeapDiagnostics :=
  mkDiag (capacity d) (allocated d) (peak_allocated d) (peak_request_size d) v.

(** [uint64_t] increment. *)
Definition wrap64 (x : Z) : Z := x mod 2 ^ 64.

Definition larger (a b : Z) : Z := if a >? b then a else b.

(** [memmove(dst, src, n)] and, on disjoint ranges, [memcpy]: every byte of
    the destination range receives the byte the source range held before
    the call. *)
Definition memmove (m : Z -> Z) (dst src n : Z) : Z -> Z :=
  fun x => if (dst <=? x) && (x <? dst + n) then m (x - dst + src) else m x.

Section O1Heap.

Variable pl : Platform.

Definition PTR : Z := ptr_size pl.

(** [sizeof(size_t) * CHAR_BIT] *)
Definition WORD_BITS : Z := 8 * PTR.

Definition wrap (x : Z) : Z := x mod 2 ^ WORD_BITS.

Definition SIZE_MAX : Z := 2 ^ WORD_BITS - 1.

(** Bitwise complement of a [size_t] or [uintptr_t]. *)
Definition lnotW (x : Z) : Z := wrap (Z.lnot x).

Definition O1HEAP_ALIGNMENT : Z := PTR * 2.

Definition FRAGMENT_SIZE_MIN : Z := O1HEAP_ALIGNMENT * 2.

Definition FRAGMENT_SIZE_MAX : Z := wrap (Z.shiftr SIZE_MAX 1 + 1).

Definition NUM_BINS_MAX : Z := WORD_BITS.

(** [sizeof(O1HeapInstance)] on the usual ABIs, where the record has no
    interior padding: the bins, the mask, [arena_end], four [size_t]
    diagnostics and the 64-bit [oom_count]. *)
Definition sizeof_O1HeapInstance : Z :=
  NUM_BINS_MAX * PTR + PTR + PTR + (4 * PTR + 8).

Definition INSTANCE_SIZE_PADDED : Z :=
  Z.land (wrap (sizeof_O1HeapInstance + O1HEAP_ALIGNMENT - 1))
         (lnotW (wrap (O1HEAP_ALIGNMENT - 1))).

(** The software [O1HEAP_CLZ]: the loop runs until the probe bit [t] meets a
    set bit of [x]; [fuel] bounds the number of iterations. *)
Fixpoint clz_loop (fuel : nat) (x t r : Z) : Z :=
  match fuel with
  | O => r
  | S k => if Z.land x t =? 0 then clz_loop k x (Z.shiftr t 1) (r + 1) else r
  end.

Definition O1HEAP_CLZ (x : Z) : Z :=
  clz_loop (Z.to_nat WORD_BITS) x (wrap (Z.shiftl 1 (WORD_BITS - 1))) 0.

Definition log2Floor (x : Z) : Z := (WORD_BITS - 1) - O1HEAP_CLZ x.

Definition pow2 (power : Z) : Z := wrap (Z.shiftl 1 power).

Definition roundUpToPowerOf2 (x : Z) : Z :=
  wrap (Z.shiftl 1 (WORD_BITS - O1HEAP_CLZ (wrap (x - 1)))).

(** ** Fragment header accessors *)

Definition off_prev_used : Z := PTR.
Definition off_next_free : Z := 2 * PTR.
Definition off_prev_free : Z := 3 * PTR.

Definition fragGetNext (m : Z -> Z) (frag : Z) : Z := m frag.

Definition fragGetPrev (m : Z -> Z) (frag : Z) : Z :=
  Z.land (m (frag + off_prev_used)) (lnotW 1).

Definition fragIsUsed (m : Z -> Z) (frag : Z) : bool :=
  negb (Z.land (m (frag + off_prev_used)) 1 =? 0).

Definition fragGetSize (handle : O1HeapInstance) (frag : Z) : Z :=
  if fragGetNext (mem handle) frag =? 0
  then wrap (arena_end handle - frag)
  else wrap (fragGetNext (mem handle) frag - frag).

Definition fragSetNext (m : Z -> Z) (frag value : Z) : Z -> Z :=
  store m frag value.

Definition fragSetPrev (m : Z -> Z) (frag value : Z) : Z -> Z :=
  store m (frag + off_prev_used)
        (Z.lor (Z.land (m (frag + off_prev_used)) 1) value).

Definition fragSetUsed (m : Z -> Z) (frag : Z) (value : bool) : Z -> Z :=
  store m (frag + off_prev_used)
        (if value then Z.lor (m (frag + off_prev_used)) 1
         else Z.land (m (frag + off_prev_used)) (lnotW 1)).

(** ** Fragment management *)

Definition interlink (m : Z -> Z) (left right : Z) : Z -> Z :=
  let m1 := if left =? 0 then m else fragSetNext m left right in
  if right =? 0 then m1 else fragSetPrev m1 right left.

Definition upd (b : Z -> Z) (i v : Z) : Z -> Z :=
  fun j => if j =? i then v else b j.

Definition rebin (handle : O1HeapInstance) (fragment fragment_size : Z) : O1HeapInstance :=
  let idx := log2Floor (fragment_size / FRAGMENT_SIZE_MIN) in
  let head := bins handle idx in
  let m1 := store (mem handle) (fragment + off_next_free) head in
  let m2 := store m1 (fragment + off_prev_free) 0 in
  let m3 := if head =? 0 then m2 else store m2 (head + off_prev_free) fragment in
  mkHeap (upd (bins handle) idx fragment)
         (Z.lor (nonempty_bin_mask handle) (pow2 idx))
         (arena_end handle) (diagnostics handle) m3.

Definition unbin (handle : O1HeapInstance) (fragment fragment_size : Z) : O1HeapInstance :=
  let idx := log2Floor (fragment_size / FRAGMENT_SIZE_MIN) in
  let m0 := mem handle in
  let m1 := if m0 (fragment + off_next_free) =? 0 then m0
            else store m0 (m0 (fragment + off_next_free) + off_prev_free)
                       (m0 (fragment + off_prev_free)) in
  let m2 := if m1 (fragment + off_prev_free) =? 0 then m1
            else store m1 (m1 (fragment + off_prev_free) + off_next_free)
                       (m1 (fragment + off_next_free)) in
  if bins handle idx =? fragment then
    let nf := m2 (fragment + off_next_free) in
    mkHeap (upd (bins handle) idx nf)
           (if nf =? 0 then Z.land (nonempty_bin_mask handle) (lnotW (pow2 idx))
            else nonempty_bin_mask handle)
           (arena_end handle) (diagnostics handle) m2
  else set_mem handle m2.

(** ** Public API *)

Definition o1heapMinArenaSize : Z := wrap (INSTANCE_SIZE_PADDED + FRAGMENT_SIZE_MIN).

(** [while ((capacity % FRAGMENT_SIZE_MIN) != 0) capacity--;] *)
Fixpoint align_loop (fuel : nat) (capacity : Z) : Z :=
  match fuel with
  | O => capacity
  | S k => if capacity mod FRAGMENT_SIZE_MIN =? 0 then capacity
           else align_loop k (wrap (capacity - 1))
  end.

(** [o1heapInit]; [m] is the content of the memory when the call is made. *)
Definition o1heapInit (m : Z -> Z) (base size : Z) : option O1HeapInstance :=
  if negb (base =? 0) && (base mod O1HEAP_ALIGNMENT =? 0) && (o1heapMinArenaSize <=? size)
  then
    let capacity0 := wrap (size - INSTANCE_SIZE_PADDED) in
    let capacity1 := if capacity0 >? FRAGMENT_SIZE_MAX then FRAGMENT_SIZE_MAX else capacity0 in
    let capacity2 := align_loop (Z.to_nat FRAGMENT_SIZE_MIN) capacity1 in
    let arena_start := base + INSTANCE_SIZE_PADDED in
    let frag := arena_start in
    let m1 := fragSetNext m frag 0 in
    let m2 := fragSetPrev m1 frag 0 in
    let m3 := fragSetUsed m2 frag false in
    let m4 := store m3 (frag + off_next_free) 0 in
    let m5 := store m4 (frag + off_prev_free) 0 in
    let out := mkHeap (fun _ => 0) 0 (arena_start + capacity2)
                      (mkDiag capacity2 0 0 0 0) m5 in
    Some (rebin out frag capacity2)
  else None.

Definition o1heapAllocate (handle : O1HeapInstance) (amount : Z) : Z * O1HeapInstance :=
  let '(out, h1) :=
    if (amount >? 0) &&
       (amount <=? wrap (capacity (diagnostics handle) - O1HEAP_ALIGNMENT))
    then
      let alloc_size := roundUpToPowerOf2 (wrap (amount + O1HEAP_ALIGNMENT)) in
      let alloc_bins := alloc_size / FRAGMENT_SIZE_MIN in
      let optimal_bin_index := log2Floor alloc_bins in
      let candidate_bin_mask := lnotW (wrap (pow2 optimal_bin_index - 1)) in
      let suitable_bins := Z.land (nonempty_bin_mask handle) candidate_bin_mask in
      let smallest_bin_mask := Z.land suitable_bins (lnotW (wrap (suitable_bins - 1))) in
      if smallest_bin_mask =? 0 then (0, handle)
      else
        let bin_index := log2Floor smallest_bin_mask in
        let frag := bins handle bin_index in
        let frag_size := fragGetSize handle frag in
        let h2 := unbin handle frag frag_size in
        let leftover := wrap (frag_size - alloc_size) in
        let h3 :=
          if leftover >=? FRAGMENT_SIZE_MIN then
            let new_frag := frag + alloc_size in
            let m1 := fragSetUsed (mem h2) new_frag false in
            let m2 := interlink m1 new_frag (fragGetNext m1 frag) in
            let m3 := interlink m2 frag new_frag in
            rebin (set_mem h2 m3) new_frag leftover
          else h2 in
        let d3 := diagnostics h3 in
        let d4 := set_allocated d3 (wrap (allocated d3 + alloc_size)) in
        let d5 := set_peak_allocated d4 (larger (peak_allocated d4) (allocated d4)) in
        let h5 := set_diag h3 d5 in
        (frag + O1HEAP_ALIGNMENT, set_mem h5 (fragSetUsed (mem h5) frag true))
    else (0, handle) in
  let d := diagnostics h1 in
  let d' := set_peak_request_size d (larger (peak_request_size d) amount) in
  if (out =? 0) && (amount >? 0)
  then (out, set_diag h1 (set_oom_count d' (wrap64 (oom_count d' + 1))))
  else (out, set_diag h1 d').

Definition o1heapFree (handle : O1HeapInstance) (pointer : Z) : O1HeapInstance :=
  if pointer =? 0 then handle
  else
    let frag := pointer - O1HEAP_ALIGNMENT in
    let frag_size := fragGetSize handle frag in
    let h1 := set_mem handle (fragSetUsed (mem handle) frag false) in
    let d1 := diagnostics h1 in
    let h2 := set_diag h1 (set_allocated d1 (wrap (allocated d1 - frag_size))) in
    let prev := fragGetPrev (mem h2) frag in
    let next := fragGetNext (mem h2) frag in
    let join_left := negb (prev =? 0) && negb (fragIsUsed (mem h2) prev) in
    let join_right := negb (next =? 0) && negb (fragIsUsed (mem h2) next) in
    if join_left && join_right then
      let prev_size := fragGetSize h2 prev in
      let next_size := fragGetSize h2 next in
      let h3 := unbin h2 prev prev_size in
      let h4 := unbin h3 next next_size in
      let h5 := set_mem h4 (interlink (mem h4) prev (fragGetNext (mem h4) next)) in
      rebin h5 prev (wrap (wrap (prev_size + frag_size) + next_size))
    else if join_left then
      let prev_size := fragGetSize h2 prev in
      let h3 := unbin h2 prev prev_size in
      let h4 := set_mem h3 (interlink (mem h3) prev next) in
      rebin h4 prev (wrap (prev_size + frag_size))
    else if join_right then
      let next_size := fragGetSize h2 next in
      let h3 := unbin h2 next next_size in
      let h4 := set_mem h3 (interlink (mem h3) frag (fragGetNext (mem h3) next)) in
      rebin h4 frag (wrap (frag_size + next_size))
    else rebin h2 frag frag_size.

Definition add_allocated (h : O1HeapInstance) (delta : Z) : O1HeapInstance :=
  set_diag h (set_allocated (diagnostics h) (wrap (allocated (diagnostics h) + delta))).

Definition sub_allocated (h : O1HeapInstance) (delta : Z) : O1HeapInstance :=
  set_diag h (set_allocated (diagnostics h) (wrap (allocated (diagnostics h) - delta))).

Definition update_peak_allocated (h : O1HeapInstance) : O1HeapInstance :=
  set_diag h (set_peak_allocated (diagnostics h)
                (larger (peak_allocated (diagnostics h)) (allocated (diagnostics h)))).

Definition o1heapReallocate (handle : O1HeapInstance) (pointer new_amount : Z)
  : Z * O1HeapInstance :=
  if pointer =? 0 then o1heapAllocate handle new_amount
  else if new_amount =? 0 then (0, o1heapFree handle pointer)
  else
    let d0 := diagnostics handle in
    let h0 := set_diag handle
                (set_peak_request_size d0 (larger (peak_request_size d0) new_amount)) in
    if new_amount >? wrap (capacity (diagnostics h0) - O1HEAP_ALIGNMENT) then
      (0, set_diag h0 (set_oom_count (diagnostics h0)
                         (wrap64 (oom_count (diagnostics h0) + 1))))
    else
      let frag := pointer - O1HEAP_ALIGNMENT in
      let frag_size := fragGetSize h0 frag in
      let old_amount := wrap (frag_size - O1HEAP_ALIGNMENT) in
      let new_frag_size := roundUpToPowerOf2 (wrap (new_amount + O1HEAP_ALIGNMENT)) in
      let prev := fragGetPrev (mem h0) frag in
      let next := fragGetNext (mem h0) frag in
      let prev_free := negb (prev =? 0) && negb (fragIsUsed (mem h0) prev) in
      let next_free := negb (next =? 0) && negb (fragIsUsed (mem h0) next) in
      let prev_size := if prev_free then fragGetSize h0 prev else 0 in
      let next_size := if next_free then fragGetSize h0 next else 0 in
      if new_frag_size <=? frag_size then
        (* shrink or same size *)
        let leftover := wrap (frag_size - new_frag_size) in
        if leftover >=? FRAGMENT_SIZE_MIN then
          let h1 := sub_allocated h0 leftover in
          let new_frag := frag + new_frag_size in
          let m1 := fragSetUsed (mem h1) new_frag false in
          let h2 := set_mem h1 (interlink m1 frag new_frag) in
          if next_free then
            let h3 := unbin h2 next next_size in
            let h4 := set_mem h3 (interlink (mem h3) new_frag (fragGetNext (mem h3) next)) in
            (pointer, rebin h4 new_frag (wrap (leftover + next_size)))
          else
            let h3 := set_mem h2 (interlink (mem h2) new_frag next) in
            (pointer, rebin h3 new_frag leftover)
        else (pointer, h0)
      else if next_free && (wrap (frag_size + next_size) >=? new_frag_size) then
        (* expand forward *)
        let h1 := unbin h0 next next_size in
        let leftover := wrap (wrap (frag_size + next_size) - new_frag_size) in
        let h2 :=
          if leftover >=? FRAGMENT_SIZE_MIN then
            let new_frag := frag + new_frag_size in
            let m1 := fragSetUsed (mem h1) new_frag false in
            let m2 := interlink m1 new_frag (fragGetNext m1 next) in
            let m3 := interlink m2 frag new_frag in
            add_allocated (rebin (set_mem h1 m3) new_frag leftover)
                          (wrap (new_frag_size - frag_size))
          else
            add_allocated
              (set_mem h1 (interlink (mem h1) frag (fragGetNext (mem h1) next)))
              next_size in
        (pointer, update_peak_allocated h2)
      else if prev_free &&
              (wrap (wrap (prev_size + frag_size) + next_size) >=? new_frag_size) then
        (* expand backward and forward *)
        let h1 := unbin h0 prev prev_size in
        let h2 := if next_free then unbin h1 next next_size else h1 in
        let out := prev + O1HEAP_ALIGNMENT in
        let m3 := memmove (mem h2) out pointer old_amount in
        let m4 := fragSetUsed m3 prev true in
        let leftover :=
          wrap (wrap (wrap (prev_size + frag_size) + next_size) - new_frag_size) in
        let h5 :=
          if leftover >=? FRAGMENT_SIZE_MIN then
            let new_frag := prev + new_frag_size in
            let m5 := fragSetUsed m4 new_frag false in
            let m6 := interlink m5 new_frag
                        (if next_free then fragGetNext m5 next else next) in
            let m7 := interlink m6 prev new_frag in
            add_allocated (rebin (set_mem h2 m7) new_frag leftover)
                          (wrap (new_frag_size - frag_size))
          else
            add_allocated
              (set_mem h2 (interlink m4 prev
                             (if next_free then fragGetNext m4 next else next)))
              (wrap (prev_size + next_size)) in
        (out, update_peak_allocated h5)
      else
        (* allocate new block, copy data, free old block *)
        let '(out, h1) := o1heapAllocate h0 new_amount in
        if out =? 0 then (out, h1)
        else (out, o1heapFree (set_mem h1 (memmove (mem h1) out pointer old_amount))
                              pointer).

Definition o1heapGetMaxAllocationSize (handle : O1HeapInstance) : Z :=
  wrap (pow2 (log2Floor (capacity (diagnostics handle))) - O1HEAP_ALIGNMENT).

Definition bin_indices : list Z := map Z.of_nat (seq 0 (Z.to_nat NUM_BINS_MAX)).

Definition o1heapDoInvariantsHold (handle : O1HeapInstance) : bool :=
  let valid0 :=
    fold_left
      (fun valid i =>
         let mask_bit_set := negb (Z.land (nonempty_bin_mask handle) (pow2 i) =? 0) in
         let bin_nonempty := negb (bins handle i =? 0) in
         valid && Bool.eqb mask_bit_set bin_nonempty)
      bin_indices true in
  let diag := diagnostics handle in
  let valid1 := valid0 && (capacity diag <=? FRAGMENT_SIZE_MAX)
                && (capacity diag >=? FRAGMENT_SIZE_MIN)
                && (capacity diag mod FRAGMENT_SIZE_MIN =? 0) in
  let valid2 := valid1 && (allocated diag <=? capacity diag)
                && (allocated diag mod FRAGMENT_SIZE_MIN =? 0)
                && (peak_allocated diag <=? capacity diag)
                && (peak_allocated diag >=? allocated diag)
                && (peak_allocated diag mod FRAGMENT_SIZE_MIN =? 0) in
  let valid3 := valid2 && ((peak_request_size diag <? capacity diag)
                           || (oom_count diag >? 0)) in
  if peak_request_size diag =? 0
  then valid3 && (peak_allocated diag =? 0) && (allocated diag =? 0)
       && (oom_count diag =? 0)
  else valid3 && ((wrap (peak_request_size diag + O1HEAP_ALIGNMENT)
                   <=? peak_allocated diag)
                  || (oom_count diag >? 0)).

Definition o1heapGetDiagnostics (handle : O1HeapInstance) : O1HeapDiagnostics :=
  diagnostics handle.

(** ** Calls and reachable heaps *)

(** A call of the public API; [CWrite] is the application storing a word
    into the payload of a block it owns. *)
Inductive Call : Type :=
| CAllocate (amount : Z)
| CFree (pointer : Z)
| CReallocate (pointer new_amount : Z)
| CWrite (addr value : Z).

(** The call's result: the returned pointer (0 where the function returns
    nothing) and the heap after the call. *)
Definition exec (h : O1HeapInstance) (c : Call) : Z * O1HeapInstance :=
  match c with
  | CAllocate amount => o1heapAllocate h amount
  | CFree pointer => (0, o1heapFree h pointer)
  | CReallocate pointer new_amount => o1heapReallocate h pointer new_amount
  | CWrite addr value => (0, set_mem h (store (mem h) addr value))
  end.

(** The pointers the application holds after a call that returned [ret]. *)
Definition live_after (live : list Z) (c : Call) (ret : Z) : list Z :=
  match c with
  | CAllocate _ => if ret =? 0 then live else ret :: live
  | CFree pointer => remove Z.eq_dec pointer live
  | CReallocate pointer new_amount =>
      if pointer =? 0 then (if ret =? 0 then live else ret :: live)
      else if new_amount =? 0 then remove Z.eq_dec pointer live
      else if ret =? 0 then live
      else ret :: remove Z.eq_dec pointer live
  | CWrite _ _ => live
  end.

(** The documented preconditions: sizes are [size_t] values, [o1heapFree] and
    [o1heapReallocate] receive null or a pointer the application holds, and
    the application writes only inside the payload of a block it holds. *)
Definition call_ok (h : O1HeapInstance) (live : list Z) (c : Call) : Prop :=
  match c with
  | CAllocate amount => 0 <= amount <= SIZE_MAX
  | CFree pointer => pointer = 0 \/ In pointer live
  | CReallocate pointer new_amount =>
      (pointer = 0 \/ In pointer live) /\ 0 <= new_amount <= SIZE_MAX
  | CWrite addr _ =>
      exists p, In p live /\
                p <= addr < p - O1HEAP_ALIGNMENT + fragGetSize h (p - O1HEAP_ALIGNMENT)
  end.

(** [reachable n h live]: [h] is the heap after [o1heapInit] on a valid
    arena followed by [n] calls that respect the preconditions, and [live]
    lists the pointers the application holds. *)
Inductive reachable : Z -> O1HeapInstance -> list Z -> Prop :=
| reach_init m base size h :
    0 <= base -> 0 <= size -> base + size <= 2 ^ WORD_BITS ->
    o1heapInit m base size = Some h ->
    reachable 0 h []
| reach_call n h live c :
    reachable n h live -> call_ok h live c ->
    reachable (n + 1) (snd (exec h c)) (live_after live c (fst (exec h c))).

Fixpoint run (h : O1HeapInstance) (cs : list Call) : O1HeapInstance :=
  match cs with
  | [] => h
  | c :: rest => run (snd (exec h c)) rest
  end.

Fixpoint allocate_all (h : O1HeapInstance) (amounts : list Z) : list Z * O1HeapInstance :=
  match amounts with
  | [] => ([], h)
  | amount :: rest =>
      let '(p, h1) := o1heapAllocate h amount in
      let '(ps, h2) := allocate_all h1 rest in
      (p :: ps, h2)
  end.

Fixpoint free_all (h : O1HeapInstance) (pointers : list Z) : O1HeapInstance :=
  match pointers with
  | [] => h
  | p :: rest => free_all (o1heapFree h p) rest
  end.

(** The fragments of a heap: what the address-order chain reaches from the
    first fragment. *)
Inductive frag_at (h : O1HeapInstance) : Z -> Prop :=
| frag_root : frag_at h (arena_end h - capacity (diagnostics h))
| frag_next f : frag_at h f -> fragGetNext (mem h) f <> 0 ->
                frag_at h (fragGetNext (mem h) f).

(** ** Representation invariant *)

(** A block of the arena: address, size, used flag. *)
Definition block : Type := (Z * Z * bool)%type.

Definition baddr (b : block) : Z := fst (fst b).
Definition bsize (b : block) : Z := snd (fst b).
Definition bused (b : block) : bool := snd b.

(** [seg m prev a bl z b]: the blocks [bl] tile the addresses from [a] to
    [b] and their headers in [m] link them in address order; [prev] is the
    fragment before [a] and [z] is the [next] pointer of the last block. *)
Fixpoint seg (m : Z -> Z) (prev a : Z) (bl : list block) (z b : Z) : Prop :=
  match bl with
  | [] => a = b
  | (f, s, u) :: rest =>
      f = a /\
      fragGetNext m f = (match rest with [] => z | _ => f + s end) /\
      fragGetPrev m f = prev /\ fragIsUsed m f = u /\
      (O1HEAP_ALIGNMENT | f) /\ FRAGMENT_SIZE_MIN <= s /\ (FRAGMENT_SIZE_MIN | s) /\
      seg m f (f + s) rest z b
  end.

(** A doubly-linked free list; [z] is the [next_free] of its last fragment. *)
Fixpoint dll (m : Z -> Z) (prev : Z) (l : list Z) (z : Z) : Prop :=
  match l with
  | [] => True
  | g :: rest =>
      m (g + off_prev_free) = prev /\ m (g + off_next_free) = hd z rest /\
      dll m g rest z
  end.

(** The fragments of [l] are at least a minimal fragment apart. *)
Definition spaced (l : list Z) : Prop :=
  forall g g', In g l -> In g' l ->
    g = g' \/ g + FRAGMENT_SIZE_MIN <= g' \/ g' + FRAGMENT_SIZE_MIN <= g.

(** [L] with [f] taken out of, or put at the head of, the list of bin [i]. *)
Definition bin_remove (L : Z -> list Z) (i f : Z) : Z -> list Z :=
  fun j => if j =? i then remove Z.eq_dec f (L j) else L j.

Definition bin_add (L : Z -> list Z) (i f : Z) : Z -> list Z :=
  fun j => if j =? i then f :: L j else L j.

Definition binidx (s : Z) : Z := log2Floor (s / FRAGMENT_SIZE_MIN).

Record Rep (h : O1HeapInstance) (bl : list block) (L : Z -> list Z) : Prop := mkRep {
  rep_cap : FRAGMENT_SIZE_MIN <= capacity (diagnostics h) <= FRAGMENT_SIZE_MAX /\
            (FRAGMENT_SIZE_MIN | capacity (diagnostics h));
  rep_arena : 0 < arena_end h - capacity (diagnostics h) /\ arena_end h <= 2 ^ WORD_BITS;
  rep_seg : seg (mem h) 0 (arena_end h - capacity (diagnostics h)) bl 0 (arena_end h);
  rep_bins : forall i, 0 <= i < NUM_BINS_MAX ->
                       dll (mem h) 0 (L i) 0 /\ bins h i = hd 0 (L i) /\ NoDup (L i);
  rep_mask : 0 <= nonempty_bin_mask h < 2 ^ WORD_BITS /\
             forall i, 0 <= i < NUM_BINS_MAX ->
                       Z.testbit (nonempty_bin_mask h) i = negb (bins h i =? 0);
  rep_mem : forall i g, In g (L i) ->
                        0 <= i < NUM_BINS_MAX /\ exists s, In (g, s, false) bl /\ binidx s = i
}.

(** Every free block is in the bin of its size except those listed in [X]. *)
Definition binned_but (X : list Z) (bl : list block) (L : Z -> list Z) : Prop :=
  forall g s, In (g, s, false) bl -> ~ In g X -> In g (L (binidx s)).

Definition hd_used (bl : list block) : bool :=
  match bl with
  | (_, _, false) :: _ => false
  | _ => true
  end.

Fixpoint noadj (bl : list block) : Prop :=
  match bl with
  | [] => True
  | (_, _, u) :: rest => (u || hd_used rest = true) /\ noadj rest
  end.

Fixpoint used_total (bl : list block) : Z :=
  match bl with
  | [] => 0
  | (_, s, u) :: rest => (if u then s else 0) + used_total rest
  end.

Fixpoint total (bl : list block) : Z :=
  match bl with
  | [] => 0
  | (_, s, _) :: rest => s + total rest
  end.

Fixpoint used_ptrs (bl : list block) : list Z :=
  match bl with
  | [] => []
  | (f, _, u) :: rest =>
      if u then (f + O1HEAP_ALIGNMENT) :: used_ptrs rest else used_ptrs rest
  end.

Definition DiagOk (d : O1HeapDiagnostics) (bl : list block) : Prop :=
  allocated d = used_total bl /\
  allocated d <= peak_allocated d <= capacity d /\
  (FRAGMENT_SIZE_MIN | peak_allocated d) /\
  0 <= peak_request_size d <= SIZE_MAX /\
  0 <= oom_count d < 2 ^ 64.

Definition HeapInv (h : O1HeapInstance) (bl : list block) (L : Z -> list Z) : Prop :=
  Rep h bl L /\ binned_but [] bl L /\ noadj bl /\ DiagOk (diagnostics h) bl.

Definition Inv (h : O1HeapInstance) (live : list Z) : Prop :=
  exists bl L, HeapInv h bl L /\ Permutation live (used_ptrs bl).

(** The part of the invariant that relates the request statistics; [n]
    bounds the number of calls made so far. *)
Definition ReqInv (d : O1HeapDiagnostics) (n : Z) : Prop :=
  oom_count d <= n /\
  (peak_request_size d = 0 -> peak_allocated d = 0 /\ oom_count d = 0) /\
  (oom_count d = 0 -> peak_request_size d = 0 \/
                      peak_request_size d + O1HEAP_ALIGNMENT <= peak_allocated d).

(** The address of the last block of [bl], or [p] when there is none. *)
Fixpoint last_addr (bl : list block) (p : Z) : Z :=
  match bl with
  | [] => p
  | (f, _, _) :: rest => last_addr rest f
  end.

Fixpoint lastz (l : list Z) (p : Z) : Z :=
  match l with
  | [] => p
  | g :: rest => lastz rest g
  end.

(** The stores [unbin] makes to the free-list links. *)
Definition unbin_links (m0 : Z -> Z) (fragment : Z) : Z -> Z :=
  let m1 := if m0 (fragment + off_next_free) =? 0 then m0
            else store m0 (m0 (fragment + off_next_free) + off_prev_free)
                       (m0 (fragment + off_prev_free)) in
  if m1 (fragment + off_prev_free) =? 0 then m1
  else store m1 (m1 (fragment + off_prev_free) + off_next_free)
             (m1 (fragment + off_next_free)).

(** The stores [rebin] makes to the free-list links; [head] is the old head
    of the bin. *)
Definition rebin_links (m : Z -> Z) (fragment head : Z) : Z -> Z :=
  let m1 := store m (fragment + off_next_free) head in
  let m2 := store m1 (fragment + off_prev_free) 0 in
  if head =? 0 then m2 else store m2 (head + off_prev_free) fragment.

(** The memories agree on the header of every block of [bl]. *)
Definition hdr_eq (m m' : Z -> Z) (bl : list block) : Prop :=
  forall g s u, In (g, s, u) bl ->
                m' g = m g /\ m' (g + off_prev_used) = m (g + off_prev_used).

(** The memories agree on the free-list links of every free block of [bl]. *)
Definition links_eq (m m' : Z -> Z) (bl : list block) : Prop :=
  forall g s, In (g, s, false) bl ->
              m' (g + off_next_free) = m (g + off_next_free) /\
              m' (g + off_prev_free) = m (g + off_prev_free).

(** [x] is not a free-list link of a free block of [bl]. *)
Definition not_link (bl : list block) (x : Z) : Prop :=
  forall g s, In (g, s, false) bl -> x <> g + off_next_free /\ x <> g + off_prev_free.

Fixpoint last_used (bl : list block) : bool :=
  match bl with
  | [] => true
  | (_, _, u) :: rest => match rest with [] => u | _ => last_used rest end
  end.

(** The header updates that split off a free fragment [new_frag] behind
    [frag]; [next] is the fragment that follows the new one. *)
Definition carve (m : Z -> Z) (frag new_frag next : Z) : Z -> Z :=
  interlink (interlink (fragSetUsed m new_frag false) new_frag next) frag new_frag.

(** What [o1heapAllocate] and the range check of [o1heapReallocate] record
    about a request. *)
Definition note_request (d : O1HeapDiagnostics) (amount : Z) (failed : bool)
  : O1HeapDiagnostics :=
  let d' := set_peak_request_size d (larger (peak_request_size d) amount) in
  if failed && (amount >? 0) then set_oom_count d' (wrap64 (oom_count d' + 1)) else d'.

(** The header updates of the shrinking path of [o1heapReallocate], which
    links [frag] to the new fragment first. *)
Definition carve_back (m : Z -> Z) (frag new_frag next : Z) : Z -> Z :=
  interlink (interlink (fragSetUsed m new_frag false) frag new_frag) new_frag next.

(** The locals of [o1heapReallocate]. *)
Definition ra_frag_size (h : O1HeapInstance) (pointer : Z) : Z :=
  fragGetSize h (pointer - O1HEAP_ALIGNMENT).

Definition ra_new_frag_size (new_amount : Z) : Z :=
  roundUpToPowerOf2 (wrap (new_amount + O1HEAP_ALIGNMENT)).

Definition ra_prev (h : O1HeapInstance) (pointer : Z) : Z :=
  fragGetPrev (mem h) (pointer - O1HEAP_ALIGNMENT).

Definition ra_next (h : O1HeapInstance) (pointer : Z) : Z :=
  fragGetNext (mem h) (pointer - O1HEAP_ALIGNMENT).

Definition ra_prev_free (h : O1HeapInstance) (pointer : Z) : bool :=
  negb (ra_prev h pointer =? 0) && negb (fragIsUsed (mem h) (ra_prev h pointer)).

Definition ra_next_free (h : O1HeapInstance) (pointer : Z) : bool :=
  negb (ra_next h pointer =? 0) && negb (fragIsUsed (mem h) (ra_next h pointer)).

Definition ra_prev_size (h : O1HeapInstance) (pointer : Z) : Z :=
  if ra_prev_free h pointer then fragGetSize h (ra_prev h pointer) else 0.

Definition ra_next_size (h : O1HeapInstance) (pointer : Z) : Z :=
  if ra_next_free h pointer then fragGetSize h (ra_next h pointer) else 0.

(** The heap after the first statement of the main part of
    [o1heapReallocate], which records the request size. *)
Definition ra_noted (h : O1HeapInstance) (new_amount : Z) : O1HeapInstance :=
  set_diag h (set_peak_request_size (diagnostics h)
                (larger (peak_request_size (diagnostics h)) new_amount)).

(** The case of [o1heapReallocate] a call takes, by the conditions of the
    source in their order. *)
Inductive ReallocCase : Type := R1 | R2 | R3 | R4 | R5 | R6 | R7.

Definition realloc_case (h : O1HeapInstance) (pointer new_amount : Z) : ReallocCase :=
  if pointer =? 0 then R1
  else if new_amount =? 0 then R2
  else if new_amount >? wrap (capacity (diagnostics h) - O1HEAP_ALIGNMENT) then R3
  else
    let frag_size := ra_frag_size h pointer in
    let new_frag_size := ra_new_frag_size new_amount in
    let prev_size := ra_prev_size h pointer in
    let next_size := ra_next_size h pointer in
    if new_frag_size <=? frag_size then R4
    else if ra_next_free h pointer && (wrap (frag_size + next_size) >=? new_frag_size)
    then R5
    else if ra_prev_free h pointer &&
            (wrap (wrap (prev_size + frag_size) + next_size) >=? new_frag_size)
    then R6
    else R7.

(** What a successful [o1heapReallocate] of the live block [pointer]
    establishes: the block is replaced by the returned one, [allocated]
    changes by [delta], and [peak_allocated] is raised to [top] if that is
    larger. *)
Definition realloc_post (h : O1HeapInstance) (bl : list block) (pointer new_amount : Z)
    (r : Z * O1HeapInstance) (delta top : Z) : Prop :=
  let d := diagnostics h in
  exists bl' L' rest,
    fst r <> 0 /\ HeapInv (snd r) bl' L' /\
    Permutation (used_ptrs bl) (pointer :: rest) /\
    Permutation (used_ptrs bl') (fst r :: rest) /\
    new_amount + O1HEAP_ALIGNMENT <= allocated d + delta /\
    diagnostics (snd r) =
      mkDiag (capacity d) (allocated d + delta) (Z.max (peak_allocated d) top)
             (larger (peak_request_size d) new_amount) (oom_count d).

(** [realloc_post] together with what the call does to the blocks: the
    returned block has the fragment size of the request, the other blocks
    keep their fragments and their contents, and the returned block starts
    with the contents of the old one, as far as both reach. *)
Definition realloc_mem_post (h : O1HeapInstance) (bl : list block) (pointer new_amount : Z)
    (r : Z * O1HeapInstance) (delta top : Z) : Prop :=
  let d := diagnostics h in
  let frag := pointer - O1HEAP_ALIGNMENT in
  exists bl' L' rest,
    fst r <> 0 /\ HeapInv (snd r) bl' L' /\
    Permutation (used_ptrs bl) (pointer :: rest) /\
    Permutation (used_ptrs bl') (fst r :: rest) /\
    new_amount + O1HEAP_ALIGNMENT <= allocated d + delta /\
    diagnostics (snd r) =
      mkDiag (capacity d) (allocated d + delta) (Z.max (peak_allocated d) top)
             (larger (peak_request_size d) new_amount) (oom_count d) /\
    In (fst r - O1HEAP_ALIGNMENT, ra_new_frag_size new_amount, true) bl' /\
    (forall g s, In (g, s, true) bl -> g <> frag -> In (g, s, true) bl') /\
    (forall y, (exists g s, In (g, s, true) bl /\ g <> frag /\
                            g + O1HEAP_ALIGNMENT <= y < g + s) ->
               mem (snd r) y = mem h y) /\
    (forall i, 0 <= i < Z.min (fragGetSize h frag) (ra_new_frag_size new_amount)
                        - O1HEAP_ALIGNMENT ->
               mem (snd r) (fst r + i) = mem h (pointer + i)).

(** ** Call sequences *)

(** Every call of the sequence respects the preconditions in the state it
    is made in. *)
Fixpoint calls_ok (h : O1HeapInstance) (live : list Z) (cs : list Call) : Prop :=
  match cs with
  | [] => True
  | c :: rest =>
      call_ok h live c /\
      calls_ok (snd (exec h c)) (live_after live c (fst (exec h c))) rest
  end.

(** The pointers the application holds after the sequence. *)
Fixpoint run_live (h : O1HeapInstance) (live : list Z) (cs : list Call) : list Z :=
  match cs with
  | [] => live
  | c :: rest => run_live (snd (exec h c)) (live_after live c (fst (exec h c))) rest
  end.

(** The values of [allocated] between the calls of a sequence: before the
    first call, after each call. *)
Fixpoint snapshots (h : O1HeapInstance) (cs : list Call) : list Z :=
  allocated (diagnostics h) ::
  match cs with
  | [] => []
  | c :: rest => snapshots (snd (exec h c)) rest
  end.

(** The value [allocated] has inside a call that takes the last path of
    [o1heapReallocate], after the new block is allocated and before the old
    one is freed; for the other calls, the value before the call. *)
Definition transient (h : O1HeapInstance) (c : Call) : Z :=
  match c with
  | CReallocate pointer new_amount =>
      match realloc_case h pointer new_amount with
      | R7 => allocated (diagnostics (snd (o1heapAllocate (ra_noted h new_amount)
                                                          new_amount)))
      | _ => allocated (diagnostics h)
      end
  | _ => allocated (diagnostics h)
  end.

Fixpoint transients (h : O1HeapInstance) (cs : list Call) : list Z :=
  match cs with
  | [] => []
  | c :: rest => transient h c :: transients (snd (exec h c)) rest
  end.

Definition max_of (l : list Z) : Z := fold_right Z.max 0 l.

(** ** Sample heaps *)

Definition no_heap : O1HeapInstance :=
  mkHeap (fun _ => 0) 0 0 (mkDiag 0 0 0 0 0) (fun _ => 0).

(** The heap [o1heapInit] makes in a zeroed arena of [size] bytes at
    address 4096. *)
Definition sample_heap (size : Z) : O1HeapInstance :=
  match o1heapInit (fun _ => 0) 4096 size with
  | Some h => h
  | None => no_heap
  end.

(** The first fragment of a sample heap. *)
Definition sample_base : Z := 4096 + INSTANCE_SIZE_PADDED.

(** [sample_heap] after [k] requests for [SIZE_MAX] bytes, none of which can
    be served. *)
Definition starved_heap (size k : Z) : O1HeapInstance :=
  let h := sample_heap size in
  set_diag h (mkDiag (capacity (diagnostics h)) 0 0
                     (if k =? 0 then 0 else SIZE_MAX) (wrap64 k)).

(** ** Blocks and requests *)

(** The sum of the sizes of the fragments of the blocks at [ptrs]. *)
Fixpoint live_total (h : O1HeapInstance) (ptrs : list Z) : Z :=
  match ptrs with
  | [] => 0
  | p :: rest => fragGetSize h (p - O1HEAP_ALIGNMENT) + live_total h rest
  end.

(** The sizes a call sequence asks of [o1heapAllocate] and
    [o1heapReallocate]. *)
Fixpoint requests (cs : list Call) : list Z :=
  match cs with
  | [] => []
  | CAllocate amount :: rest => amount :: requests rest
  | CReallocate _ new_amount :: rest => new_amount :: requests rest
  | _ :: rest => requests rest
  end.

(** The call asks for a nonzero amount of memory and returns null. *)
Definition refused (h : O1HeapInstance) (c : Call) : bool :=
  match c with
  | CAllocate amount => (amount >? 0) && (fst (o1heapAllocate h amount) =? 0)
  | CReallocate pointer new_amount =>
      (new_amount >? 0) && (fst (o1heapReallocate h pointer new_amount) =? 0)
  | _ => false
  end.

(** The number of refused calls of a sequence. *)
Fixpoint refusals (h : O1HeapInstance) (cs : list Call) : Z :=
  match cs with
  | [] => 0
  | c :: rest => (if refused h c then 1 else 0) + refusals (snd (exec h c)) rest
  end.

(** [y] is kept for the application by a used block of [bl]: it is the
    address of the [next] field of the block's header or an address of its
    payload. *)
Definition kept (bl : list block) (y : Z) : Prop :=
  exists g s, In (g, s, true) bl /\ (y = g \/ g + O1HEAP_ALIGNMENT <= y < g + s).

(** [x] is an address of the payload of the block at [p]. *)
Definition in_payload (h : O1HeapInstance) (p x : Z) : Prop :=
  p <= x < p - O1HEAP_ALIGNMENT + fragGetSize h (p - O1HEAP_ALIGNMENT).

(** [FRAGMENT_SIZE_MIN = 2 ^ lgFmin] *)
Definition lgFmin : Z := Z.log2 FRAGMENT_SIZE_MIN.

(** * Properties *)

(** ** Constants *)

Lemma PTR_cases : PTR = 2 \/ PTR = 4 \/ PTR = 8.
Proof. unfold PTR; destruct pl; simpl; auto. Qed.

Lemma pow2W : 2 ^ WORD_BITS = 2 * 2 ^ (WORD_BITS - 1) /\ 16 <= WORD_BITS.
Proof.
  unfold WORD_BITS. destruct PTR_cases as [H|[H|H]]; rewrite H; simpl; split; lia.
Qed.

Lemma FMAX_eq : FRAGMENT_SIZE_MAX = 2 ^ (WORD_BITS - 1).
Proof.
  unfold FRAGMENT_SIZE_MAX, SIZE_MAX, wrap, WORD_BITS.
  destruct PTR_cases as [H|[H|H]]; rewrite H; reflexivity.
Qed.

Lemma ISP_facts : 0 < INSTANCE_SIZE_PADDED < 2 ^ 10 /\ (O1HEAP_ALIGNMENT | INSTANCE_SIZE_PADDED).
Proof.
  unfold INSTANCE_SIZE_PADDED, sizeof_O1HeapInstance, lnotW, wrap, NUM_BINS_MAX,
    O1HEAP_ALIGNMENT, WORD_BITS.
  destruct PTR_cases as [H|[H|H]]; rewrite H; simpl; (split; [lia|]).
  - exists 13; reflexivity.
  - exists 20; reflexivity.
  - exists 36; reflexivity.
Qed.

Lemma PTR_pos : 0 < PTR.
Proof. destruct PTR_cases as [H|[H|H]]; lia. Qed.

Lemma FMAX_facts :
  2 ^ WORD_BITS = 2 * FRAGMENT_SIZE_MAX /\ 1024 * PTR <= FRAGMENT_SIZE_MAX /\
  WORD_BITS = 8 * PTR.
Proof.
  rewrite FMAX_eq. unfold WORD_BITS.
  destruct PTR_cases as [H|[H|H]]; rewrite H; simpl; lia.
Qed.

Ltac unfc :=
  unfold FRAGMENT_SIZE_MIN, O1HEAP_ALIGNMENT, off_prev_used, off_next_free,
    off_prev_free, NUM_BINS_MAX, SIZE_MAX in *.

Ltac zl := unfc; pose proof PTR_pos; pose proof FMAX_facts; lia.

Lemma FMIN_pow : FRAGMENT_SIZE_MIN = 2 ^ lgFmin /\ 3 <= lgFmin <= 5 /\ lgFmin < WORD_BITS - 1.
Proof.
  unfold lgFmin, FRAGMENT_SIZE_MIN, O1HEAP_ALIGNMENT, WORD_BITS.
  destruct PTR_cases as [H|[H|H]]; rewrite H; simpl; lia.
Qed.

Lemma wrap_small x : 0 <= x < 2 ^ WORD_BITS -> wrap x = x.
Proof. intros; unfold wrap; apply Z.mod_small; lia. Qed.

Lemma wrap_range x : 0 <= wrap x < 2 ^ WORD_BITS.
Proof. unfold wrap; apply Z.mod_pos_bound; pose proof FMAX_facts; zl. Qed.

Lemma wrap64_small x : 0 <= x < 2 ^ 64 -> wrap64 x = x.
Proof. intros; unfold wrap64; apply Z.mod_small; lia. Qed.

Lemma land_pow2 x j :
  0 <= j -> Z.land x (2 ^ j) = if Z.testbit x j then 2 ^ j else 0.
Proof.
  intros Hj. apply Z.bits_inj'; intros n Hn.
  rewrite Z.land_spec, Z.pow2_bits_eqb by lia.
  destruct (Z.testbit x j) eqn:E.
  - rewrite Z.pow2_bits_eqb by lia.
    destruct (Z.eqb_spec j n); subst; [rewrite E|rewrite andb_false_r]; reflexivity.
  - rewrite Z.bits_0.
    destruct (Z.eqb_spec j n); subst; [rewrite E|rewrite andb_false_r]; reflexivity.
Qed.

Lemma testbit_top x j :
  0 <= j -> 0 < x < 2 ^ (j + 1) -> Z.testbit x j = true -> Z.log2 x = j.
Proof.
  intros Hj Hx Ht. apply Z.log2_unique; [lia|]. split; [|rewrite Z.add_1_r in Hx;
    replace (Z.succ j) with (j + 1) by lia; rewrite Z.add_1_r; lia].
  destruct (Z_lt_le_dec x (2 ^ j)) as [Hlt|]; [|lia].
  assert (Z.log2 x < j) by (apply Z.log2_lt_pow2; lia).
  rewrite Z.bits_above_log2 in Ht by lia. discriminate.
Qed.

Lemma testbit_low x j :
  0 <= j -> 0 < x < 2 ^ (j + 1) -> Z.testbit x j = false -> x < 2 ^ j.
Proof.
  intros Hj Hx Ht. destruct (Z_lt_le_dec x (2 ^ j)) as [|Hge]; [assumption|].
  assert (Z.log2 x = j) by (apply Z.log2_unique; [lia|]; split; [lia|];
    replace (Z.succ j) with (j + 1) by lia; lia).
  pose proof (Z.bit_log2 x ltac:(lia)) as Hb. rewrite H in Hb. congruence.
Qed.

Lemma clz_loop_spec x fuel : forall j r,
  0 <= j < Z.of_nat fuel -> 0 < x < 2 ^ (j + 1) ->
  clz_loop fuel x (2 ^ j) r = r + j - Z.log2 x.
Proof.
  induction fuel as [|k IH]; intros j r Hj Hx; [lia|].
  cbn [clz_loop]. rewrite land_pow2 by lia.
  destruct (Z.testbit x j) eqn:E.
  - assert (2 ^ j <> 0) by (apply Z.pow_nonzero; lia).
    destruct (Z.eqb_spec (2 ^ j) 0); [contradiction|].
    rewrite (testbit_top x j) by (assumption || lia). lia.
  - rewrite Z.eqb_refl.
    pose proof (testbit_low x j ltac:(lia) Hx E) as Hlt.
    assert (j <> 0) by (intros ->; simpl in Hlt; lia).
    rewrite Z.shiftr_div_pow2 by lia.
    replace (2 ^ j / 2 ^ 1) with (2 ^ (j - 1)).
    2:{ replace j with ((j - 1) + 1) at 2 by lia.
        rewrite Z.pow_add_r by lia. rewrite Z.div_mul; [reflexivity|lia]. }
    rewrite IH; [lia|lia|]. replace (j - 1 + 1) with j by lia. lia.
Qed.

Lemma log2Floor_eq x : 0 < x < 2 ^ WORD_BITS -> log2Floor x = Z.log2 x.
Proof.
  intros Hx. unfold log2Floor, O1HEAP_CLZ.
  pose proof FMAX_facts as (HW & _ & HW8). pose proof PTR_pos.
  rewrite Z.shiftl_1_l, wrap_small.
  2:{ split; [apply Z.pow_nonneg; lia|]. apply Z.pow_lt_mono_r; lia. }
  rewrite clz_loop_spec; [lia| |].
  - rewrite Z2Nat.id by lia. lia.
  - replace (WORD_BITS - 1 + 1) with WORD_BITS by lia. assumption.
Qed.

Lemma pow2_eq i : 0 <= i < WORD_BITS -> pow2 i = 2 ^ i.
Proof.
  intros Hi. unfold pow2. rewrite Z.shiftl_1_l. apply wrap_small.
  split; [apply Z.pow_nonneg; lia|apply Z.pow_lt_mono_r; lia].
Qed.

(** [roundUpToPowerOf2] rounds up to the next power of two. *)
Lemma roundUp_spec x :
  2 <= x <= FRAGMENT_SIZE_MAX ->
  exists k, roundUpToPowerOf2 x = 2 ^ k /\ 1 <= k <= WORD_BITS - 1 /\
            2 ^ (k - 1) < x <= 2 ^ k /\
            WORD_BITS - O1HEAP_CLZ (wrap (x - 1)) = k.
Proof.
  intros Hx. pose proof FMAX_facts as (HW & _ & HW8). pose proof PTR_pos.
  rewrite FMAX_eq in *.
  assert (Hx1 : 0 < x - 1 < 2 ^ WORD_BITS) by lia.
  pose proof (log2Floor_eq (x - 1) Hx1) as HL. unfold log2Floor in HL.
  unfold roundUpToPowerOf2. rewrite (wrap_small (x - 1)) by lia.
  set (c := O1HEAP_CLZ (x - 1)) in *.
  assert (Hk : WORD_BITS - c = Z.log2 (x - 1) + 1) by lia.
  pose proof (Z.log2_spec (x - 1) ltac:(lia)) as [Hlo Hhi].
  pose proof (Z.log2_nonneg (x - 1)).
  assert (Z.log2 (x - 1) < WORD_BITS - 1) by (apply Z.log2_lt_pow2; lia).
  exists (Z.log2 (x - 1) + 1). rewrite Hk, Z.shiftl_1_l.
  replace (Z.succ (Z.log2 (x - 1))) with (Z.log2 (x - 1) + 1) in Hhi by lia.
  replace (Z.log2 (x - 1) + 1 - 1) with (Z.log2 (x - 1)) by lia.
  repeat split; try lia.
  apply wrap_small. split; [lia|]. apply Z.pow_lt_mono_r; lia.
Qed.

(** ** Memory and header words *)

Lemma store_eq m a v x : x = a -> store m a v x = v.
Proof. intros ->; unfold store; rewrite Z.eqb_refl; reflexivity. Qed.

Lemma store_ne m a v x : x <> a -> store m a v x = m x.
Proof. intros H; unfold store; destruct (Z.eqb_spec x a); [contradiction|reflexivity]. Qed.

Ltac st :=
  repeat match goal with
    | |- context [store ?m ?a ?v ?x] =>
        first [rewrite (store_eq m a v x) by zl | rewrite (store_ne m a v x) by zl]
    end.

Lemma testbit_lnotW x i :
  0 <= i -> Z.testbit (lnotW x) i = (i <? WORD_BITS) && negb (Z.testbit x i).
Proof.
  intros Hi. unfold lnotW, wrap. pose proof FMAX_facts. pose proof PTR_pos.
  destruct (Z.ltb_spec i WORD_BITS).
  - rewrite Z.mod_pow2_bits_low, Z.lnot_spec by lia. reflexivity.
  - rewrite Z.mod_pow2_bits_high by lia. reflexivity.
Qed.

Lemma testbit_one i : Z.testbit 1 i = (i =? 0).
Proof.
  destruct (Z_lt_le_dec i 0).
  - rewrite Z.testbit_neg_r by lia. destruct (Z.eqb_spec i 0); [lia|reflexivity].
  - change 1 with (2 ^ 0). rewrite Z.pow2_bits_eqb by lia. apply Z.eqb_sym.
Qed.

Lemma testbit_high v i : 0 <= v < 2 ^ WORD_BITS -> WORD_BITS <= i -> Z.testbit v i = false.
Proof.
  intros Hv Hi. pose proof PTR_pos. pose proof FMAX_facts.
  rewrite <- (Z.mod_small v (2 ^ WORD_BITS)) by lia.
  apply Z.mod_pow2_bits_high. lia.
Qed.

Ltac bits :=
  apply Z.bits_inj'; intros ?i ?Hi;
  repeat first [rewrite Z.land_spec | rewrite Z.lor_spec | rewrite testbit_lnotW by lia
               | rewrite testbit_one | rewrite Z.bits_0].

Ltac bsimp :=
  cbn [negb andb orb];
  rewrite ?andb_false_r, ?andb_true_r, ?orb_false_r, ?orb_true_r;
  cbn [negb andb orb].

Lemma word_setprev_prev w v :
  0 <= v < 2 ^ WORD_BITS -> Z.testbit v 0 = false ->
  Z.land (Z.lor (Z.land w 1) v) (lnotW 1) = v.
Proof.
  intros Hv Hev. bits.
  destruct (Z.eqb_spec i 0) as [->|]; bsimp.
  - rewrite Hev. reflexivity.
  - destruct (Z.ltb_spec i WORD_BITS); bsimp.
    + reflexivity.
    + symmetry. apply testbit_high; assumption.
Qed.

Lemma word_setprev_used w v :
  Z.testbit v 0 = false -> Z.land (Z.lor (Z.land w 1) v) 1 = Z.land w 1.
Proof.
  intros Hev. bits.
  destruct (Z.eqb_spec i 0) as [->|]; bsimp.
  - rewrite Hev. bsimp. reflexivity.
  - reflexivity.
Qed.

Lemma word_setused_true_prev w : Z.land (Z.lor w 1) (lnotW 1) = Z.land w (lnotW 1).
Proof.
  bits. destruct (Z.eqb_spec i 0) as [->|]; bsimp; reflexivity.
Qed.

Lemma word_setused_true_used w : Z.land (Z.lor w 1) 1 = 1.
Proof.
  bits. destruct (Z.eqb_spec i 0) as [->|]; bsimp; reflexivity.
Qed.

Lemma word_setused_false_prev w :
  Z.land (Z.land w (lnotW 1)) (lnotW 1) = Z.land w (lnotW 1).
Proof.
  bits. destruct (Z.testbit w i), (i <? WORD_BITS), (i =? 0); reflexivity.
Qed.

Lemma word_setused_false_used w : Z.land (Z.land w (lnotW 1)) 1 = 0.
Proof.
  bits. destruct (Z.testbit w i), (i <? WORD_BITS), (i =? 0); reflexivity.
Qed.

Lemma aligned_even f : (O1HEAP_ALIGNMENT | f) -> Z.testbit f 0 = false.
Proof.
  intros [k ->]. unfold O1HEAP_ALIGNMENT.
  rewrite Z.bit0_odd. replace (k * (PTR * 2)) with (2 * (k * PTR)) by lia.
  rewrite Z.odd_mul. reflexivity.
Qed.

(** Reading the header of [g] after a header update at [f]. *)

Lemma getNext_setNext m f v g :
  fragGetNext (fragSetNext m f v) g = if g =? f then v else fragGetNext m g.
Proof. reflexivity. Qed.

Lemma getPrev_setNext m f v g :
  g + PTR <> f -> fragGetPrev (fragSetNext m f v) g = fragGetPrev m g.
Proof. intros; unfold fragGetPrev, fragSetNext, off_prev_used; st; reflexivity. Qed.

Lemma isUsed_setNext m f v g :
  g + PTR <> f -> fragIsUsed (fragSetNext m f v) g = fragIsUsed m g.
Proof. intros; unfold fragIsUsed, fragSetNext, off_prev_used; st; reflexivity. Qed.

Lemma getNext_setPrev m f v g :
  g <> f + PTR -> fragGetNext (fragSetPrev m f v) g = fragGetNext m g.
Proof. intros; unfold fragGetNext, fragSetPrev, off_prev_used; st; reflexivity. Qed.

Lemma getPrev_setPrev m f v :
  0 <= v < 2 ^ WORD_BITS -> (O1HEAP_ALIGNMENT | v) ->
  fragGetPrev (fragSetPrev m f v) f = v.
Proof.
  intros Hv Ha. unfold fragGetPrev, fragSetPrev. st.
  apply word_setprev_prev; [assumption|apply aligned_even; assumption].
Qed.

Lemma getPrev_setPrev_ne m f v g :
  g <> f -> fragGetPrev (fragSetPrev m f v) g = fragGetPrev m g.
Proof. intros; unfold fragGetPrev, fragSetPrev, off_prev_used; st; reflexivity. Qed.

Lemma isUsed_setPrev m f v :
  (O1HEAP_ALIGNMENT | v) -> fragIsUsed (fragSetPrev m f v) f = fragIsUsed m f.
Proof.
  intros Ha. unfold fragIsUsed, fragSetPrev. st.
  rewrite word_setprev_used by (apply aligned_even; assumption). reflexivity.
Qed.

Lemma isUsed_setPrev_ne m f v g :
  g <> f -> fragIsUsed (fragSetPrev m f v) g = fragIsUsed m g.
Proof. intros; unfold fragIsUsed, fragSetPrev, off_prev_used; st; reflexivity. Qed.

Lemma getNext_setUsed m f b g :
  g <> f + PTR -> fragGetNext (fragSetUsed m f b) g = fragGetNext m g.
Proof. intros; unfold fragGetNext, fragSetUsed, off_prev_used; st; reflexivity. Qed.

Lemma getPrev_setUsed m f b g :
  fragGetPrev (fragSetUsed m f b) g = fragGetPrev m g.
Proof.
  unfold fragGetPrev, fragSetUsed, off_prev_used, store.
  destruct (Z.eqb_spec (g + PTR) (f + PTR)) as [E|]; [|reflexivity].
  replace g with f by lia.
  destruct b; [apply word_setused_true_prev|apply word_setused_false_prev].
Qed.

Lemma isUsed_setUsed m f b : fragIsUsed (fragSetUsed m f b) f = b.
Proof.
  unfold fragIsUsed, fragSetUsed. st.
  destruct b; [rewrite word_setused_true_used|rewrite word_setused_false_used];
    reflexivity.
Qed.

Lemma isUsed_setUsed_ne m f b g :
  g <> f -> fragIsUsed (fragSetUsed m f b) g = fragIsUsed m g.
Proof. intros; unfold fragIsUsed, fragSetUsed, off_prev_used; st; reflexivity. Qed.

(** ** The address-order chain *)

Lemma seg_le m : forall bl p a z b,
  seg m p a bl z b -> a <= b /\ (bl <> [] -> a + FRAGMENT_SIZE_MIN <= b).
Proof.
  induction bl as [|[[f s] u] rest IH]; intros p a z b H; simpl in H.
  - subst. split; [lia|congruence].
  - destruct H as (-> & _ & _ & _ & _ & Hs & _ & Hr).
    apply IH in Hr. destruct Hr as [Hr _]. split; [zl|intros _; lia].
Qed.

Lemma seg_frame m m' : forall bl p a z b,
  (forall x, a <= x < b -> m' x = m x) ->
  seg m p a bl z b -> seg m' p a bl z b.
Proof.
  induction bl as [|[[f s] u] rest IH]; intros p a z b Hm H; simpl in *; [assumption|].
  destruct H as (-> & Hn & Hp & Hu & Ha & Hs & Hd & Hr).
  pose proof (seg_le _ _ _ _ _ _ Hr) as [Hle _].
  assert (E0 : m' a = m a) by (apply Hm; zl).
  assert (E1 : m' (a + off_prev_used) = m (a + off_prev_used)) by (apply Hm; zl).
  unfold fragGetNext, fragGetPrev, fragIsUsed in *. rewrite E0, E1.
  repeat split; try assumption.
  apply IH; [|assumption]. intros x Hx. apply Hm. zl.
Qed.

Lemma seg_app m : forall b1 p a b2 z b,
  seg m p a (b1 ++ b2) z b <->
  exists mid, seg m p a b1 (match b2 with [] => z | _ => mid end) mid /\
              seg m (last_addr b1 p) mid b2 z b.
Proof.
  induction b1 as [|[[f s] u] r IH]; intros p a b2 z b; simpl.
  - split.
    + intros H. exists a. split; [reflexivity|assumption].
    + intros (mid & -> & H). assumption.
  - rewrite IH. split.
    + intros (-> & Hn & Hp & Hu & Ha & Hs & Hd & mid & Hr1 & Hr2).
      exists mid. split; [|assumption]. repeat split; try assumption.
      destruct r as [|x r]; simpl in *; [subst mid; destruct b2; assumption|assumption].
    + intros (mid & (-> & Hn & Hp & Hu & Ha & Hs & Hd & Hr1) & Hr2).
      repeat split; try assumption.
      * destruct r as [|x r]; simpl in *; [subst mid; destruct b2; assumption|assumption].
      * exists mid. split; assumption.
Qed.

Lemma seg_split m p a b1 f s u b2 z b :
  seg m p a (b1 ++ (f, s, u) :: b2) z b ->
  seg m p a b1 f f /\
  fragGetNext m f = (match b2 with [] => z | _ => f + s end) /\
  fragGetPrev m f = last_addr b1 p /\ fragIsUsed m f = u /\
  (O1HEAP_ALIGNMENT | f) /\ FRAGMENT_SIZE_MIN <= s /\ (FRAGMENT_SIZE_MIN | s) /\
  seg m f (f + s) b2 z b.
Proof.
  rewrite seg_app. intros (mid & H1 & H2). simpl in H2.
  destruct H2 as (-> & H2). split; [assumption|assumption].
Qed.

Lemma seg_join m p a b1 f s u b2 z b :
  seg m p a b1 f f ->
  fragGetNext m f = (match b2 with [] => z | _ => f + s end) ->
  fragGetPrev m f = last_addr b1 p -> fragIsUsed m f = u ->
  (O1HEAP_ALIGNMENT | f) -> FRAGMENT_SIZE_MIN <= s -> (FRAGMENT_SIZE_MIN | s) ->
  seg m f (f + s) b2 z b ->
  seg m p a (b1 ++ (f, s, u) :: b2) z b.
Proof.
  intros. rewrite seg_app. exists f. split; [assumption|].
  simpl. repeat split; assumption.
Qed.

Lemma seg_bounds m : forall bl p a z b,
  seg m p a bl z b ->
  forall g s u, In (g, s, u) bl -> a <= g /\ g + s <= b /\ FRAGMENT_SIZE_MIN <= s.
Proof.
  induction bl as [|[[f s0] u0] rest IH]; intros p a z b H g s u Hin; simpl in *.
  - contradiction.
  - destruct H as (-> & _ & _ & _ & _ & Hs & _ & Hr).
    pose proof (seg_le _ _ _ _ _ _ Hr) as [Hle _].
    destruct Hin as [E|Hin].
    + inversion E; subst. lia.
    + specialize (IH _ _ _ _ Hr _ _ _ Hin). zl.
Qed.

Lemma seg_total m : forall bl p a z b, seg m p a bl z b -> total bl = b - a.
Proof.
  induction bl as [|[[f s0] u0] rest IH]; intros p a z b H; simpl in *.
  - lia.
  - destruct H as (-> & _ & _ & _ & _ & Hs & _ & Hr). rewrite (IH _ _ _ _ Hr). lia.
Qed.

Lemma seg_func m : forall bl p a z b,
  seg m p a bl z b ->
  forall g s u s' u', In (g, s, u) bl -> In (g, s', u') bl -> s = s' /\ u = u'.
Proof.
  induction bl as [|[[f s0] u0] rest IH]; intros p a z b H g s u s' u' H1 H2; simpl in *.
  - contradiction.
  - destruct H as (-> & _ & _ & _ & _ & Hs & _ & Hr).
    pose proof (seg_bounds _ _ _ _ _ _ Hr) as Hb.
    destruct H1 as [E1|H1], H2 as [E2|H2].
    + inversion E1; inversion E2; subst; auto.
    + inversion E1; subst. apply Hb in H2. zl.
    + inversion E2; subst. apply Hb in H1. zl.
    + eapply IH; eassumption.
Qed.

Lemma used_total_app b1 b2 : used_total (b1 ++ b2) = used_total b1 + used_total b2.
Proof. induction b1 as [|[[f s] u] r IH]; simpl; [reflexivity|rewrite IH; lia]. Qed.

Lemma total_app b1 b2 : total (b1 ++ b2) = total b1 + total b2.
Proof. induction b1 as [|[[f s] u] r IH]; simpl; [reflexivity|rewrite IH; lia]. Qed.

Lemma used_ptrs_app b1 b2 : used_ptrs (b1 ++ b2) = used_ptrs b1 ++ used_ptrs b2.
Proof.
  induction b1 as [|[[f s] u] r IH]; simpl; [reflexivity|].
  destruct u; simpl; rewrite IH; reflexivity.
Qed.

Lemma used_ptrs_nil bl : used_ptrs bl = [] -> forall g s u, In (g, s, u) bl -> u = false.
Proof.
  induction bl as [|[[f s0] u0] rest IH]; intros E g s u Hin; [contradiction|].
  cbn [used_ptrs] in E. destruct u0; [discriminate|].
  destruct Hin as [Hin|Hin]; [inversion Hin; reflexivity|eauto].
Qed.

Lemma used_total_le m : forall bl p a z b,
  seg m p a bl z b -> 0 <= used_total bl <= total bl.
Proof.
  induction bl as [|[[f s0] u0] rest IH]; intros p a z b H; simpl in *; [lia|].
  destruct H as (-> & _ & _ & _ & _ & Hs & _ & Hr). apply IH in Hr.
  destruct u0; zl.
Qed.

(** ** Free lists *)

Lemma dll_frame m m' : forall l p z,
  (forall g, In g l -> m' (g + off_next_free) = m (g + off_next_free) /\
                       m' (g + off_prev_free) = m (g + off_prev_free)) ->
  dll m p l z -> dll m' p l z.
Proof.
  induction l as [|a l IH]; simpl; intros p z Hm H; [trivial|].
  destruct H as (H1 & H2 & H3).
  destruct (Hm a (or_introl eq_refl)) as [E1 E2]. rewrite E1, E2.
  repeat split; auto.
Qed.

Lemma dll_store_other m a v l p z :
  (forall g, In g l -> a <> g + off_next_free /\ a <> g + off_prev_free) ->
  dll m p l z -> dll (store m a v) p l z.
Proof.
  intros Ha. apply dll_frame. intros g Hg. destruct (Ha g Hg).
  rewrite !store_ne by auto. auto.
Qed.

Lemma dll_app m : forall l1 p l2 z,
  dll m p (l1 ++ l2) z <-> dll m p l1 (hd z l2) /\ dll m (lastz l1 p) l2 z.
Proof.
  induction l1 as [|a l1 IH]; intros p l2 z; simpl.
  - tauto.
  - rewrite IH. destruct l1; simpl; tauto.
Qed.

Lemma spaced_sub l l' : spaced l -> (forall g, In g l' -> In g l) -> spaced l'.
Proof. intros H Hs g g' Hg Hg'. apply H; auto. Qed.

Lemma lastz_in l : forall p, l <> [] -> In (lastz l p) l.
Proof.
  induction l as [|a l IH]; intros p Hl; [congruence|]. simpl.
  destruct l as [|b l]; [left; reflexivity|].
  right. apply IH. discriminate.
Qed.

Lemma dll_cons_intro m p g r z :
  m (g + off_prev_free) = p -> m (g + off_next_free) = hd z r -> dll m g r z ->
  dll m p (g :: r) z.
Proof. intros; simpl; auto. Qed.

Lemma dll_set_next m : forall l p z z',
  NoDup l -> spaced l -> l <> [] -> dll m p l z ->
  dll (store m (lastz l p + off_next_free) z') p l z'.
Proof.
  induction l as [|a l IH]; intros p z z' Hnd Hsp Hne H; [congruence|].
  destruct H as (H1 & H2 & H3).
  pose proof (proj1 (NoDup_cons_iff _ _) Hnd) as [Hni Hnd'].
  destruct l as [|b l].
  - cbn [lastz dll hd]. st. auto.
  - change (lastz (a :: b :: l) p) with (lastz (b :: l) a).
    assert (Hin : In (lastz (b :: l) a) (b :: l)) by (apply lastz_in; discriminate).
    assert (Hd : a <> lastz (b :: l) a) by (intros E; apply Hni; rewrite E; exact Hin).
    destruct (Hsp a (lastz (b :: l) a) (or_introl eq_refl) (or_intror Hin))
      as [E|Hs]; [contradiction|].
    apply dll_cons_intro; st; auto.
    apply IH with (z := z); auto; [|discriminate].
    eapply spaced_sub; [exact Hsp|]. intros; right; assumption.
Qed.

Lemma dll_set_prev m g r p p' z :
  spaced (g :: r) -> NoDup (g :: r) -> dll m p (g :: r) z ->
  dll (store m (g + off_prev_free) p') p' (g :: r) z.
Proof.
  intros Hsp Hnd (H1 & H2 & H3). simpl. st. repeat split; auto.
  apply dll_store_other; [|assumption].
  intros x Hx. inversion Hnd; subst.
  assert (g <> x) by congruence.
  destruct (Hsp g x (or_introl eq_refl) (or_intror Hx)) as [E|Hs]; [contradiction|].
  zl.
Qed.

Lemma remove_mid (l1 l2 : list Z) f :
  NoDup (l1 ++ f :: l2) -> remove Z.eq_dec f (l1 ++ f :: l2) = l1 ++ l2.
Proof.
  intros Hnd. apply NoDup_remove_2 in Hnd.
  rewrite remove_app, remove_cons.
  rewrite !notin_remove; [reflexivity| |]; intros Hin; apply Hnd, in_or_app; auto.
Qed.


Lemma unbin_links_spec m l1 f l2 :
  dll m 0 (l1 ++ f :: l2) 0 -> NoDup (l1 ++ f :: l2) -> spaced (l1 ++ f :: l2) ->
  (forall g, In g (l1 ++ f :: l2) -> g <> 0) ->
  dll (unbin_links m f) 0 (l1 ++ l2) 0 /\
  unbin_links m f (f + off_next_free) = hd 0 l2 /\
  (forall x, (forall g, In g (l1 ++ l2) -> x <> g + off_next_free /\ x <> g + off_prev_free) ->
             unbin_links m f x = m x).
Proof.
  intros Hd Hnd Hsp Hnz.
  apply dll_app in Hd. destruct Hd as (Hd1 & Hpf & Hnf & Hd2). simpl hd in Hd1.
  assert (Hf : In f (l1 ++ f :: l2)) by (apply in_or_app; right; left; reflexivity).
  assert (Hl1 : forall g, In g l1 -> In g (l1 ++ f :: l2))
    by (intros; apply in_or_app; auto).
  assert (Hl2 : forall g, In g l2 -> In g (l1 ++ f :: l2))
    by (intros; apply in_or_app; right; right; assumption).
  assert (Hnd' : NoDup (l1 ++ l2)) by (eapply NoDup_remove_1; eassumption).
  assert (Hsp1 : spaced l1) by (apply (spaced_sub _ _ Hsp Hl1)).
  assert (Hsp2 : spaced l2) by (apply (spaced_sub _ _ Hsp Hl2)).
  assert (Hnd1 : NoDup l1) by (apply (NoDup_app_remove_r _ _ Hnd')).
  assert (Hnd2 : NoDup l2) by (apply (NoDup_app_remove_l _ _ Hnd')).
  assert (Hsep : forall g, In g (l1 ++ l2) ->
                           g + FRAGMENT_SIZE_MIN <= f \/ f + FRAGMENT_SIZE_MIN <= g).
  { intros g Hg. apply NoDup_remove_2 in Hnd.
    assert (g <> f) by (intros ->; contradiction).
    assert (Hgl : In g (l1 ++ f :: l2))
      by (apply in_app_or in Hg; destruct Hg; auto).
    destruct (Hsp g f Hgl Hf) as [E|Hs]; [contradiction|exact Hs]. }
  assert (Hx12 : forall g g', In g l1 -> In g' l2 ->
                              g + FRAGMENT_SIZE_MIN <= g' \/ g' + FRAGMENT_SIZE_MIN <= g).
  { intros g g' Hg Hg'.
    assert (g <> g').
    { intros ->. clear - Hnd' Hg Hg'. induction l1 as [|a l IH]; [contradiction|].
      simpl in Hnd'. apply NoDup_cons_iff in Hnd'. destruct Hnd' as [Hni Hnd'].
      destruct Hg as [->|Hg]; [apply Hni, in_or_app; auto|auto]. }
    destruct (Hsp g g' (Hl1 _ Hg) (Hl2 _ Hg')) as [E|Hs]; [contradiction|exact Hs]. }
  remember (lastz l1 0) as q eqn:Eq.
  assert (Hq : q = 0 /\ l1 = [] \/ q <> 0 /\ l1 <> [] /\ In q l1).
  { destruct l1 as [|a1 r1]; [left; auto|right].
    assert (In q (a1 :: r1)) by (subst q; apply lastz_in; discriminate).
    repeat split; auto. discriminate. }
  remember (hd 0 l2) as n eqn:En.
  assert (Hn : n = 0 /\ l2 = [] \/ n <> 0 /\ exists r2, l2 = n :: r2).
  { destruct l2 as [|n2 r2]; [left; auto|right]. simpl in En. subst n2.
    split; [apply Hnz, Hl2; left; reflexivity|exists r2; reflexivity]. }
  unfold unbin_links. rewrite Hnf, Hpf.
  destruct Hn as [[Hn0 El2]|[Hn0 [r2 El2]]].
  - (* no successor in the bin *)
    destruct (Z.eqb_spec n 0); [|contradiction]. rewrite Hpf, Hnf, Hn0.
    rewrite El2 in *. rewrite app_nil_r in *.
    destruct Hq as [[Hq0 El1]|(Hq0 & Hne1 & Hq1)].
    + destruct (Z.eqb_spec q 0); [|contradiction]. subst l1. simpl.
      repeat split; auto. congruence.
    + destruct (Z.eqb_spec q 0); [contradiction|].
      pose proof (Hsep q Hq1). split; [|split].
      * rewrite Eq. apply dll_set_next with (z := f); auto.
      * st. simpl. congruence.
      * intros x Hx. destruct (Hx q Hq1). st. reflexivity.
  - (* successor [n] *)
    destruct (Z.eqb_spec n 0); [contradiction|].
    assert (Hn2 : In n l2) by (rewrite El2; left; reflexivity).
    assert (Hn : In n (l1 ++ l2)) by (apply in_or_app; auto).
    pose proof (Hsep n Hn). st. rewrite Hnf, Hpf.
    assert (Hd2' : dll (store m (n + off_prev_free) q) q l2 0).
    { rewrite El2 in *. apply dll_set_prev with (p := f); assumption. }
    destruct Hq as [[Hq0 El1]|(Hq0 & Hne1 & Hq1)].
    + destruct (Z.eqb_spec q 0); [|contradiction]. subst l1. simpl app.
      split; [|split].
      * revert Hd2'. rewrite e. auto.
      * st. simpl. congruence.
      * intros x Hx. destruct (Hx n Hn2). st. reflexivity.
    + destruct (Z.eqb_spec q 0); [contradiction|].
      assert (Hq : In q (l1 ++ l2)) by (apply in_or_app; auto).
      pose proof (Hsep q Hq). pose proof (Hx12 q n Hq1 Hn2).
      split; [|split].
      * apply dll_app. split.
        -- rewrite <- En. rewrite Eq.
           apply dll_set_next with (z := f); auto.
           apply dll_store_other; [|assumption].
           intros g Hg. pose proof (Hx12 g n Hg Hn2). zl.
        -- rewrite <- Eq. apply dll_store_other; [|assumption].
           intros g Hg. pose proof (Hx12 q g Hq1 Hg). zl.
      * st. simpl. congruence.
      * intros x Hx. destruct (Hx q Hq), (Hx n Hn). st. reflexivity.
Qed.

Lemma rebin_links_spec m l f :
  dll m 0 l 0 -> NoDup l -> spaced l ->
  (forall g, In g l -> g + FRAGMENT_SIZE_MIN <= f \/ f + FRAGMENT_SIZE_MIN <= g) ->
  (forall g, In g l -> g <> 0) ->
  dll (rebin_links m f (hd 0 l)) 0 (f :: l) 0 /\
  (forall x, x <> f + off_next_free -> x <> f + off_prev_free ->
             (forall g, In g l -> x <> g + off_prev_free) ->
             rebin_links m f (hd 0 l) x = m x).
Proof.
  intros Hd Hnd Hsp Hsep Hnz. unfold rebin_links.
  destruct l as [|a r]; cbn [hd].
  - rewrite Z.eqb_refl. split.
    + simpl. st. auto.
    + intros x H1 H2 _. st. reflexivity.
  - assert (Ha : In a (a :: r)) by (left; reflexivity).
    pose proof (Hnz a Ha). pose proof (Hsep a Ha).
    destruct (Z.eqb_spec a 0); [contradiction|]. split.
    + apply dll_cons_intro; st; auto.
      apply dll_set_prev with (p := 0); auto.
      apply dll_store_other.
      { intros g Hg. pose proof (Hsep g Hg). zl. }
      apply dll_store_other; [|assumption].
      intros g Hg. pose proof (Hsep g Hg). zl.
    + intros x H1 H2 H3. pose proof (H3 a Ha). st. reflexivity.
Qed.

Lemma seg_frame_hdr m m' : forall bl p a z b,
  hdr_eq m m' bl -> seg m p a bl z b -> seg m' p a bl z b.
Proof.
  induction bl as [|[[f s] u] rest IH]; intros p a z b Hm H; simpl in *; [assumption|].
  destruct H as (-> & Hn & Hp & Hu & Ha & Hs & Hd & Hr).
  destruct (Hm a s u (or_introl eq_refl)) as [E0 E1].
  unfold fragGetNext, fragGetPrev, fragIsUsed in *. rewrite E0, E1.
  repeat split; try assumption.
  apply IH; [|assumption]. intros g s' u' Hin. apply (Hm g s' u'). right. assumption.
Qed.

Lemma seg_spaced m bl p a z b :
  seg m p a bl z b ->
  forall g s u g' s' u', In (g, s, u) bl -> In (g', s', u') bl ->
    g = g' \/ g + s <= g' \/ g' + s' <= g.
Proof.
  revert p a. induction bl as [|[[f s0] u0] rest IH]; intros p a H g s u g' s' u' H1 H2;
    simpl in *; [contradiction|].
  destruct H as (-> & _ & _ & _ & _ & Hs & _ & Hr).
  pose proof (seg_bounds _ _ _ _ _ _ Hr) as Hb.
  destruct H1 as [E1|H1], H2 as [E2|H2].
  - inversion E1; inversion E2; subst; auto.
  - inversion E1; subst. apply Hb in H2. right; left; lia.
  - inversion E2; subst. apply Hb in H1. right; right; lia.
  - eapply IH; eassumption.
Qed.

(** What the representation says about one block. *)
Lemma Rep_block h bl L g s u :
  Rep h bl L -> In (g, s, u) bl ->
  0 < g /\ g + s <= arena_end h /\ arena_end h <= 2 ^ WORD_BITS /\
  FRAGMENT_SIZE_MIN <= s <= capacity (diagnostics h) /\
  capacity (diagnostics h) <= FRAGMENT_SIZE_MAX /\
  arena_end h - capacity (diagnostics h) <= g /\
  fragGetSize h g = s /\ fragIsUsed (mem h) g = u /\
  (O1HEAP_ALIGNMENT | g) /\ (FRAGMENT_SIZE_MIN | s) /\
  (fragGetNext (mem h) g = 0 /\ g + s = arena_end h \/
   fragGetNext (mem h) g = g + s /\ g + s < arena_end h /\
   exists s' u', In (g + s, s', u') bl).
Proof.
  intros R Hin. destruct R as [[Hc1 Hc2] [Ha1 Ha2] Hseg _ _ _].
  pose proof (seg_bounds _ _ _ _ _ _ Hseg _ _ _ Hin) as (Hb1 & Hb2 & Hb3).
  apply in_split in Hin. destruct Hin as (b1 & b2 & ->).
  apply seg_split in Hseg.
  destruct Hseg as (_ & Hn & _ & Hu & Hal & Hs & Hd & Hr).
  assert (Hnx : fragGetNext (mem h) g = 0 /\ g + s = arena_end h \/
                fragGetNext (mem h) g = g + s /\ g + s < arena_end h /\
                exists s' u', In (g + s, s', u') (b1 ++ (g, s, u) :: b2)).
  { destruct b2 as [|[[g2 s2] u2] b2].
    - left. simpl in Hr. auto.
    - right. pose proof (seg_le _ _ _ _ _ _ Hr) as [_ Hlt].
      specialize (Hlt ltac:(discriminate)). simpl in Hr. destruct Hr as (-> & _).
      split; [assumption|]. split; [zl|].
      exists s2, u2. apply in_or_app. right. right. left. reflexivity. }
  repeat split; try assumption; try zl.
  unfold fragGetSize. destruct Hnx as [[E1 E2]|[E1 [E2 _]]]; rewrite E1.
  - rewrite Z.eqb_refl. replace (arena_end h - g) with s by lia.
    apply wrap_small. zl.
  - destruct (Z.eqb_spec (g + s) 0); [zl|]. replace (g + s - g) with s by lia.
    apply wrap_small. zl.
Qed.

Lemma binidx_range s :
  FRAGMENT_SIZE_MIN <= s < 2 ^ WORD_BITS ->
  binidx s = Z.log2 (s / FRAGMENT_SIZE_MIN) /\ 0 <= binidx s < NUM_BINS_MAX /\
  1 <= s / FRAGMENT_SIZE_MIN.
Proof.
  intros Hs. pose proof PTR_pos. pose proof FMAX_facts as (HW & _ & HW8).
  assert (Hq : 1 <= s / FRAGMENT_SIZE_MIN).
  { apply Z.div_le_lower_bound; zl. }
  assert (Hq2 : s / FRAGMENT_SIZE_MIN <= s).
  { apply Z.div_le_upper_bound; [zl|]. unfc. nia. }
  unfold binidx. rewrite log2Floor_eq by lia.
  split; [reflexivity|]. split; [|assumption].
  split; [apply Z.log2_nonneg|].
  unfold NUM_BINS_MAX. apply Z.log2_lt_pow2; lia.
Qed.

Lemma range_bits x :
  0 <= x -> (forall i, WORD_BITS <= i -> Z.testbit x i = false) -> x < 2 ^ WORD_BITS.
Proof.
  intros Hx Hb. pose proof PTR_pos. pose proof FMAX_facts as (HW & _ & HW8).
  assert (E : x mod 2 ^ WORD_BITS = x).
  { apply Z.bits_inj'. intros i Hi. destruct (Z_lt_le_dec i WORD_BITS).
    - apply Z.mod_pow2_bits_low. lia.
    - rewrite Z.mod_pow2_bits_high by lia. symmetry. apply Hb. lia. }
  rewrite <- E. apply Z.mod_pos_bound. lia.
Qed.

Lemma land_range a b : 0 <= a < 2 ^ WORD_BITS -> 0 <= Z.land a b < 2 ^ WORD_BITS.
Proof.
  intros Ha. assert (0 <= Z.land a b) by (apply Z.land_nonneg; lia).
  split; [assumption|]. apply range_bits; [assumption|].
  intros i Hi. rewrite Z.land_spec, (testbit_high a) by (assumption || lia). reflexivity.
Qed.

Lemma lor_range a b :
  0 <= a < 2 ^ WORD_BITS -> 0 <= b < 2 ^ WORD_BITS -> 0 <= Z.lor a b < 2 ^ WORD_BITS.
Proof.
  intros Ha Hb. assert (0 <= Z.lor a b) by (apply Z.lor_nonneg; lia).
  split; [assumption|]. apply range_bits; [assumption|].
  intros i Hi. rewrite Z.lor_spec, (testbit_high a), (testbit_high b)
    by (assumption || lia). reflexivity.
Qed.

Lemma mem_unbin h f s : mem (unbin h f s) = unbin_links (mem h) f.
Proof. unfold unbin, unbin_links. destruct (bins h _ =? f); reflexivity. Qed.

Lemma diag_unbin h f s : diagnostics (unbin h f s) = diagnostics h.
Proof. unfold unbin. destruct (bins h _ =? f); reflexivity. Qed.

Lemma arena_unbin h f s : arena_end (unbin h f s) = arena_end h.
Proof. unfold unbin. destruct (bins h _ =? f); reflexivity. Qed.

Lemma Rep_sep h bl L g s u g' s' u' :
  Rep h bl L -> In (g, s, u) bl -> In (g', s', u') bl ->
  (g = g' /\ s = s' /\ u = u') \/
  (g + FRAGMENT_SIZE_MIN <= g + s /\ g + s <= g') \/
  (g' + FRAGMENT_SIZE_MIN <= g' + s' /\ g' + s' <= g).
Proof.
  intros R H1 H2. pose proof (rep_seg _ _ _ R) as Hseg.
  pose proof (seg_bounds _ _ _ _ _ _ Hseg _ _ _ H1).
  pose proof (seg_bounds _ _ _ _ _ _ Hseg _ _ _ H2).
  destruct (seg_spaced _ _ _ _ _ _ Hseg _ _ _ _ _ _ H1 H2) as [E|[E|E]].
  - subst g'. left. destruct (seg_func _ _ _ _ _ _ Hseg _ _ _ _ _ H1 H2). auto.
  - right; left; lia.
  - right; right; lia.
Qed.

Lemma Rep_bin_spaced h bl L i : Rep h bl L -> spaced (L i).
Proof.
  intros R g g' Hg Hg'.
  destruct (rep_mem _ _ _ R _ _ Hg) as (_ & s & Hb & _).
  destruct (rep_mem _ _ _ R _ _ Hg') as (_ & s' & Hb' & _).
  destruct (Rep_sep _ _ _ _ _ _ _ _ _ R Hb Hb') as [E|[E|E]]; [left; tauto|lia|lia].
Qed.

Lemma Rep_bin_cross h bl L i j g g' :
  Rep h bl L -> In g (L i) -> In g' (L j) -> i <> j ->
  g + FRAGMENT_SIZE_MIN <= g' \/ g' + FRAGMENT_SIZE_MIN <= g.
Proof.
  intros R Hg Hg' Hij.
  destruct (rep_mem _ _ _ R _ _ Hg) as (_ & s & Hb & Hs).
  destruct (rep_mem _ _ _ R _ _ Hg') as (_ & s' & Hb' & Hs').
  destruct (Rep_sep _ _ _ _ _ _ _ _ _ R Hb Hb') as [(E1 & E2 & _)|[E|E]]; [|lia|lia].
  subst. contradiction.
Qed.

Lemma Rep_bin_nz h bl L i g : Rep h bl L -> In g (L i) -> g <> 0.
Proof.
  intros R Hg. destruct (rep_mem _ _ _ R _ _ Hg) as (_ & s & Hb & _).
  pose proof (Rep_block _ _ _ _ _ _ R Hb). lia.
Qed.

Lemma hdr_not_link h bl L g s u :
  Rep h bl L -> In (g, s, u) bl -> not_link bl g /\ not_link bl (g + off_prev_used).
Proof.
  intros R Hg. split; intros g' s' Hg';
    destruct (Rep_sep _ _ _ _ _ _ _ _ _ R Hg Hg') as [(E1 & E2 & _)|E]; zl.
Qed.

Lemma Rep_hdr_frame h bl L m' :
  Rep h bl L -> (forall x, not_link bl x -> m' x = mem h x) -> hdr_eq (mem h) m' bl.
Proof.
  intros R Hfr g s u Hg. destruct (hdr_not_link _ _ _ _ _ _ R Hg). split; apply Hfr; assumption.
Qed.

(** The stores of the allocator miss what the used blocks keep. *)
Lemma kept_not_link h bl L y : Rep h bl L -> kept bl y -> not_link bl y.
Proof.
  intros R (g & s & Hg & Hy) g' s' Hg'. pose proof PTR_pos.
  destruct (Rep_sep _ _ _ _ _ _ _ _ _ R Hg Hg') as [(_ & _ & E)|[E|E]];
    [discriminate|zl|zl].
Qed.

Lemma kept_not_prev h bl L y g' s' u' :
  Rep h bl L -> kept bl y -> In (g', s', u') bl -> y <> g' + off_prev_used.
Proof.
  intros R (g & s & Hg & Hy) Hg'. pose proof PTR_pos.
  destruct (Rep_sep _ _ _ _ _ _ _ _ _ R Hg Hg') as [(E & _)|[E|E]]; zl.
Qed.

Lemma kept_not_free h bl L y g' s' :
  Rep h bl L -> kept bl y -> In (g', s', false) bl -> y < g' \/ g' + s' <= y.
Proof.
  intros R (g & s & Hg & Hy) Hg'. pose proof PTR_pos.
  destruct (Rep_sep _ _ _ _ _ _ _ _ _ R Hg Hg') as [(_ & _ & E)|[E|E]];
    [discriminate|zl|zl].
Qed.

Lemma kept_sub bl bl' y :
  (forall g s, In (g, s, true) bl -> In (g, s, true) bl') -> kept bl y -> kept bl' y.
Proof. intros Hs (g & s & Hg & Hy). exists g, s. auto. Qed.

Lemma kept_pos h bl L y : Rep h bl L -> kept bl y -> 0 < y.
Proof.
  intros R (g & s & Hg & Hy). pose proof PTR_pos.
  destruct (Rep_block _ _ _ _ _ _ R Hg) as (Hg0 & _). zl.
Qed.

Lemma setUsed_other m f b y : y <> f + off_prev_used -> fragSetUsed m f b y = m y.
Proof. intros. unfold fragSetUsed. st. reflexivity. Qed.

Lemma setPrev_other m f v y : y <> f + off_prev_used -> fragSetPrev m f v y = m y.
Proof. intros. unfold fragSetPrev. st. reflexivity. Qed.

Lemma setNext_other m f v y : y <> f -> fragSetNext m f v y = m y.
Proof. intros. unfold fragSetNext. st. reflexivity. Qed.

Lemma interlink_other m l r y :
  l = 0 \/ y <> l -> r = 0 \/ y <> r + off_prev_used -> interlink m l r y = m y.
Proof.
  intros Hl Hr. unfold interlink.
  destruct (Z.eqb_spec r 0) as [|Hr0]; destruct (Z.eqb_spec l 0) as [|Hl0];
    try reflexivity.
  - apply setNext_other. destruct Hl; [contradiction|assumption].
  - apply setPrev_other. destruct Hr; [contradiction|assumption].
  - rewrite setPrev_other by (destruct Hr; [contradiction|assumption]).
    apply setNext_other. destruct Hl; [contradiction|assumption].
Qed.

Lemma pow2_testbit i j :
  0 <= i < WORD_BITS -> 0 <= j -> Z.testbit (pow2 i) j = (i =? j).
Proof. intros Hi Hj. rewrite pow2_eq by assumption. apply Z.pow2_bits_eqb. lia. Qed.

Lemma unbin_Rep h bl L f s :
  Rep h bl L -> In f (L (binidx s)) ->
  Rep (unbin h f s) bl (bin_remove L (binidx s) f) /\
  diagnostics (unbin h f s) = diagnostics h /\
  arena_end (unbin h f s) = arena_end h /\
  (forall x, not_link bl x -> mem (unbin h f s) x = mem h x).
Proof.
  intros R Hf. remember (binidx s) as i eqn:Ei.
  destruct (rep_mem _ _ _ R i f Hf) as (Hi & s0 & Hfb & Hs0).
  destruct (rep_bins _ _ _ R i Hi) as (Hdll & Hhd & Hnd).
  destruct (in_split _ _ Hf) as (l1 & l2 & El).
  pose proof (Rep_bin_spaced _ _ _ i R) as Hsp.
  assert (Hnz : forall g, In g (L i) -> g <> 0) by (intros; eapply Rep_bin_nz; eauto).
  rewrite El in Hdll, Hnd, Hsp, Hnz.
  destruct (unbin_links_spec (mem h) l1 f l2 Hdll Hnd Hsp Hnz) as (Hd' & Hnf' & Hfr).
  assert (Hsub : forall g, In g (l1 ++ l2) -> In g (L i)).
  { intros g Hg. rewrite El. apply in_app_or in Hg. apply in_or_app.
    destruct Hg; [left|right; right]; assumption. }
  assert (Hframe : forall x, not_link bl x -> mem (unbin h f s) x = mem h x).
  { intros x Hx. rewrite mem_unbin. apply Hfr. intros g Hg.
    destruct (rep_mem _ _ _ R _ _ (Hsub g Hg)) as (_ & sg & Hgb & _).
    apply (Hx g sg Hgb). }
  assert (Hl1 : bins h i = f <-> l1 = []).
  { rewrite Hhd, El. split.
    - intros E. destruct l1 as [|a r]; [reflexivity|]. simpl in E. subst a.
      simpl in Hnd. apply NoDup_cons_iff in Hnd. destruct Hnd as [Hni _].
      exfalso. apply Hni. apply in_or_app. right. left. reflexivity.
    - intros ->. reflexivity. }
  split; [|repeat split; auto using diag_unbin, arena_unbin].
  constructor.
  - rewrite diag_unbin. apply R.
  - rewrite diag_unbin, arena_unbin. apply R.
  - rewrite diag_unbin, arena_unbin. apply seg_frame_hdr with (m := mem h).
    + apply (Rep_hdr_frame _ _ _ _ R Hframe).
    + apply R.
  - intros j Hj. unfold bin_remove. destruct (Z.eqb_spec j i) as [->|Hji].
    + rewrite El, remove_mid by assumption. rewrite mem_unbin.
      split; [exact Hd'|]. split; [|eapply NoDup_remove_1; eassumption].
      unfold unbin. fold (binidx s). rewrite <- Ei. destruct (Z.eqb_spec (bins h i) f) as [E|E].
      * cbn [bins]. unfold upd. rewrite Z.eqb_refl.
        apply Hl1 in E. subst l1. exact Hnf'.
      * cbn [bins set_mem]. rewrite Hhd, El.
        destruct l1 as [|a r]; [exfalso; apply E, Hl1; reflexivity|reflexivity].
    + destruct (rep_bins _ _ _ R j Hj) as (Hdj & Hhj & Hnj).
      split; [|split; [|assumption]].
      * rewrite mem_unbin. apply dll_frame with (m := mem h); [|assumption].
        intros g Hg. split; apply Hfr; intros g2 Hg2;
          pose proof (Rep_bin_cross _ _ _ _ _ _ _ R Hg (Hsub _ Hg2) Hji); zl.
      * rewrite <- Hhj. unfold unbin. fold (binidx s). rewrite <- Ei.
        destruct (bins h i =? f); cbn [bins set_mem]; [|reflexivity].
        unfold upd. destruct (Z.eqb_spec j i); [contradiction|reflexivity].
  - destruct (rep_mask _ _ _ R) as [Hmr Hmb].
    unfold unbin. fold (binidx s). rewrite <- Ei.
    destruct (Z.eqb_spec (bins h i) f) as [E|E]; cbn [nonempty_bin_mask bins set_mem];
      [|split; assumption].
    fold (unbin_links (mem h) f). rewrite Hnf'.
    destruct (Z.eqb_spec (hd 0 l2) 0) as [E2|E2].
    * split; [apply land_range; assumption|].
      intros j Hj. rewrite Z.land_spec, testbit_lnotW, pow2_testbit, Hmb by zl.
      unfold upd. destruct (Z.eqb_spec j i) as [->|Hji].
      -- rewrite Z.eqb_refl, E2. bsimp. reflexivity.
      -- destruct (Z.eqb_spec i j); [lia|].
         destruct (Z.ltb_spec j WORD_BITS); [|zl]. bsimp. reflexivity.
    * split; [assumption|]. intros j Hj. rewrite Hmb by assumption.
      unfold upd. destruct (Z.eqb_spec j i) as [->|Hji]; [|reflexivity].
      rewrite E. destruct (Z.eqb_spec f 0) as [E3|E3], (Z.eqb_spec (hd 0 l2) 0);
        try reflexivity; try contradiction.
      exfalso. apply (Hnz f); [|assumption]. apply in_or_app. right. left. reflexivity.
  - intros j g Hg. unfold bin_remove in Hg.
    destruct (j =? i); [apply in_remove in Hg; destruct Hg as [Hg _]|];
      apply (rep_mem _ _ _ R); assumption.
Qed.

Lemma rebin_Rep h bl L f s :
  Rep h bl L -> In (f, s, false) bl -> (forall j, ~ In f (L j)) ->
  Rep (rebin h f s) bl (bin_add L (binidx s) f) /\
  diagnostics (rebin h f s) = diagnostics h /\
  arena_end (rebin h f s) = arena_end h /\
  (forall x, not_link bl x -> mem (rebin h f s) x = mem h x).
Proof.
  intros R Hfb Hnew. remember (binidx s) as i eqn:Ei.
  pose proof (Rep_block _ _ _ _ _ _ R Hfb) as Hblk.
  assert (Hi : 0 <= i < NUM_BINS_MAX).
  { rewrite Ei. apply binidx_range. zl. }
  destruct (rep_bins _ _ _ R i Hi) as (Hdll & Hhd & Hnd).
  pose proof (Rep_bin_spaced _ _ _ i R) as Hsp.
  assert (Hnz : forall g, In g (L i) -> g <> 0) by (intros; eapply Rep_bin_nz; eauto).
  assert (Hsepf : forall j g, In g (L j) ->
                    g + FRAGMENT_SIZE_MIN <= f \/ f + FRAGMENT_SIZE_MIN <= g).
  { intros j g Hg. destruct (rep_mem _ _ _ R _ _ Hg) as (_ & sg & Hgb & _).
    destruct (Rep_sep _ _ _ _ _ _ _ _ _ R Hgb Hfb) as [(E1 & _)|E]; [|lia].
    subst g. exfalso. apply (Hnew j). assumption. }
  destruct (rebin_links_spec (mem h) (L i) f Hdll Hnd Hsp (Hsepf i) Hnz) as (Hd' & Hfr).
  assert (Hmem : mem (rebin h f s) = rebin_links (mem h) f (hd 0 (L i))).
  { unfold rebin. fold (binidx s). rewrite <- Ei, Hhd. reflexivity. }
  assert (Hframe : forall x, not_link bl x -> mem (rebin h f s) x = mem h x).
  { intros x Hx. rewrite Hmem. destruct (Hx f s Hfb). apply Hfr; auto.
    intros g Hg. destruct (rep_mem _ _ _ R _ _ Hg) as (_ & sg & Hgb & _).
    apply (Hx g sg Hgb). }
  split; [|repeat split; auto].
  constructor.
  - apply R.
  - apply R.
  - change (seg (mem (rebin h f s)) 0 (arena_end h - capacity (diagnostics h)) bl 0
              (arena_end h)).
    apply seg_frame_hdr with (m := mem h).
    + apply (Rep_hdr_frame _ _ _ _ R Hframe).
    + apply R.
  - intros j Hj. unfold bin_add. destruct (Z.eqb_spec j i) as [->|Hji].
    + rewrite Hmem. split; [exact Hd'|]. split.
      * unfold rebin. fold (binidx s). rewrite <- Ei. cbn [bins]. unfold upd.
        rewrite Z.eqb_refl. reflexivity.
      * constructor; [apply Hnew|assumption].
    + destruct (rep_bins _ _ _ R j Hj) as (Hdj & Hhj & Hnj).
      split; [|split; [|assumption]].
      * rewrite Hmem. apply dll_frame with (m := mem h); [|assumption].
        intros g Hg. pose proof (Hsepf j g Hg).
        split; apply Hfr; try zl; intros g2 Hg2;
          pose proof (Rep_bin_cross _ _ _ _ _ _ _ R Hg Hg2 Hji); zl.
      * rewrite <- Hhj. unfold rebin. fold (binidx s). rewrite <- Ei. cbn [bins].
        unfold upd. destruct (Z.eqb_spec j i); [contradiction|reflexivity].
  - destruct (rep_mask _ _ _ R) as [Hmr Hmb].
    unfold rebin. fold (binidx s). rewrite <- Ei. cbn [nonempty_bin_mask bins].
    assert (Hp : 0 <= pow2 i < 2 ^ WORD_BITS) by apply wrap_range.
    split; [apply lor_range; assumption|].
    intros j Hj. rewrite Z.lor_spec, pow2_testbit, Hmb by zl.
    unfold upd. destruct (Z.eqb_spec j i) as [->|Hji].
    + rewrite Z.eqb_refl. bsimp.
      destruct (Z.eqb_spec f 0); [zl|reflexivity].
    + destruct (Z.eqb_spec i j); [lia|]. bsimp. reflexivity.
  - intros j g Hg. unfold bin_add in Hg.
    destruct (Z.eqb_spec j i) as [->|Hji]; [|apply (rep_mem _ _ _ R); assumption].
    destruct Hg as [<-|Hg]; [|apply (rep_mem _ _ _ R); assumption].
    split; [assumption|]. exists s. auto.
Qed.

Lemma rebin_keeps h bl L f s y :
  Rep h bl L -> In (f, s, false) bl -> (forall j, ~ In f (L j)) -> kept bl y ->
  mem (rebin h f s) y = mem h y.
Proof.
  intros R Hf Hn Hy. destruct (rebin_Rep _ _ _ _ _ R Hf Hn) as (_ & _ & _ & Hfr).
  apply Hfr. apply (kept_not_link _ _ _ _ R Hy).
Qed.

Lemma unbin_keeps h bl L f s y :
  Rep h bl L -> In f (L (binidx s)) -> kept bl y -> mem (unbin h f s) y = mem h y.
Proof.
  intros R Hf Hy. destruct (unbin_Rep _ _ _ _ _ R Hf) as (_ & _ & _ & Hfr).
  apply Hfr. apply (kept_not_link _ _ _ _ R Hy).
Qed.

Lemma carve_other m frag new next y :
  y <> frag -> y <> new -> y <> new + off_prev_used ->
  next = 0 \/ y <> next + off_prev_used ->
  carve m frag new next y = m y.
Proof.
  intros H1 H2 H3 H4. unfold carve.
  rewrite !interlink_other, setUsed_other; auto.
Qed.

Lemma carve_back_other m frag new next y :
  y <> frag -> y <> new -> y <> new + off_prev_used ->
  next = 0 \/ y <> next + off_prev_used ->
  carve_back m frag new next y = m y.
Proof.
  intros H1 H2 H3 H4. unfold carve_back.
  rewrite !interlink_other, setUsed_other; auto.
Qed.

(** What a payload address of a used block is apart from. *)
Lemma kept_apart h bl L g s g' s' u' y :
  Rep h bl L -> In (g, s, true) bl -> In (g', s', u') bl -> g <> g' ->
  g + O1HEAP_ALIGNMENT <= y < g + s -> y < g' \/ g' + s' <= y.
Proof.
  intros R Hg Hg' Hne Hy. pose proof PTR_pos.
  destruct (Rep_sep _ _ _ _ _ _ _ _ _ R Hg Hg') as [(E & _)|[E|E]]; zl.
Qed.

Lemma Rep_set_diag h bl L d :
  Rep h bl L -> capacity d = capacity (diagnostics h) -> Rep (set_diag h d) bl L.
Proof.
  intros R Hc. constructor; cbn [set_diag diagnostics arena_end mem bins nonempty_bin_mask];
    try rewrite Hc; apply R.
Qed.

Lemma last_addr_app b1 b2 p : last_addr (b1 ++ b2) p = last_addr b2 (last_addr b1 p).
Proof.
  revert p. induction b1 as [|[[f s] u] r IH]; intros p; simpl; [reflexivity|apply IH].
Qed.

(** Replacing the blocks [mid] of the chain by [mid'], which cover the same
    addresses, when the memory changes only inside those addresses and in
    the [prev] pointer of the block that follows. *)
Lemma Rep_carve h L b1 mid b2 mid' m' :
  Rep h (b1 ++ mid ++ b2) L -> mid <> [] -> mid' <> [] ->
  (forall g s u, In (g, s, u) mid -> forall j, ~ In g (L j)) ->
  (forall a b,
      seg (mem h) (last_addr b1 0) a mid (match b2 with [] => 0 | _ => b end) b ->
      0 < a -> a + FRAGMENT_SIZE_MIN <= b -> b <= arena_end h ->
      (b2 <> [] -> fragGetPrev (mem h) b = last_addr mid (last_addr b1 0)) ->
      seg m' (last_addr b1 0) a mid' (match b2 with [] => 0 | _ => b end) b /\
      (forall x, x < a \/ b + 2 * PTR <= x -> m' x = mem h x) /\
      (b2 <> [] -> m' b = mem h b /\
                   fragGetPrev m' b = last_addr mid' (last_addr b1 0) /\
                   fragIsUsed m' b = fragIsUsed (mem h) b)) ->
  Rep (set_mem h m') (b1 ++ mid' ++ b2) L.
Proof.
  intros R Hmid Hmid' Hunb Hnew.
  pose proof (rep_seg _ _ _ R) as Hseg.
  destruct (rep_arena _ _ _ R) as [Hst Hend].
  apply seg_app in Hseg. destruct Hseg as (a & Hs1 & Hs2).
  apply seg_app in Hs2. destruct Hs2 as (b & Hsm & Hs3).
  pose proof (seg_le _ _ _ _ _ _ Hs1) as [Hle1 _].
  pose proof (seg_le _ _ _ _ _ _ Hsm) as [_ Hlem]. specialize (Hlem Hmid).
  pose proof (seg_le _ _ _ _ _ _ Hs3) as [Hle3 _].
  assert (Hpb : b2 <> [] -> fragGetPrev (mem h) b = last_addr mid (last_addr b1 0)).
  { destruct b2 as [|[[n ns] nu] b2']; [congruence|]. intros _.
    simpl in Hs3. destruct Hs3 as (-> & _ & Hp & _). exact Hp. }
  destruct (Hnew a b Hsm ltac:(lia) Hlem Hle3 Hpb) as (Hsm' & Hfr & Hhd).
  assert (Hz1 : (match mid ++ b2 with [] => 0 | _ => a end) = a).
  { destruct mid; [congruence|reflexivity]. }
  assert (Hz1' : (match mid' ++ b2 with [] => 0 | _ => a end) = a).
  { destruct mid'; [congruence|reflexivity]. }
  rewrite Hz1 in Hs1.
  assert (Hseg' : seg m' 0 (arena_end h - capacity (diagnostics h))
                      (b1 ++ mid' ++ b2) 0 (arena_end h)).
  { apply seg_app. exists a. split.
    - rewrite Hz1'. apply seg_frame with (m := mem h); [|assumption].
      intros x Hx. apply Hfr. lia.
    - apply seg_app. exists b. split; [assumption|].
      destruct b2 as [|[[n ns] nu] b2']; [assumption|].
      simpl in Hs3. destruct Hs3 as (-> & Hn & Hp & Hu & Ha & Hns & Hd & Hr).
      destruct (Hhd ltac:(discriminate)) as (E1 & E2 & E3).
      simpl. unfold fragGetNext in *. rewrite E1, E2, E3.
      repeat split; try assumption.
      apply seg_frame with (m := mem h); [|assumption].
      intros x Hx. apply Hfr. zl. }
  assert (Hkeep : forall j g, In g (L j) ->
            exists s, (In (g, s, false) b1 \/ In (g, s, false) b2) /\ binidx s = j).
  { intros j g Hg. destruct (rep_mem _ _ _ R _ _ Hg) as (_ & s & Hb & Hs).
    exists s. split; [|assumption].
    apply in_app_or in Hb. destruct Hb as [Hb|Hb]; [auto|].
    apply in_app_or in Hb. destruct Hb as [Hb|Hb]; [|auto].
    exfalso. apply (Hunb _ _ _ Hb j Hg). }
  constructor; cbn [set_mem diagnostics arena_end mem bins nonempty_bin_mask];
    try apply R; try assumption.
  - intros j Hj. destruct (rep_bins _ _ _ R j Hj) as (Hdj & Hhj & Hnj).
    split; [|split; assumption].
    apply dll_frame with (m := mem h); [|assumption].
    intros g Hg. destruct (Hkeep j g Hg) as (s & [Hb|Hb] & _).
    + pose proof (seg_bounds _ _ _ _ _ _ Hs1 _ _ _ Hb).
      split; apply Hfr; zl.
    + pose proof (seg_bounds _ _ _ _ _ _ Hs3 _ _ _ Hb).
      split; apply Hfr; zl.
  - intros j g Hg. split; [apply (rep_mem _ _ _ R _ _ Hg)|].
    destruct (Hkeep j g Hg) as (s & Hb & Hs). exists s. split; [|assumption].
    apply in_or_app. destruct Hb; [left; assumption|].
    right. apply in_or_app. right. assumption.
Qed.

(** ** Sizes, bins and the bin mask *)

Lemma pow2_div_pow2 k j : 0 <= j <= k -> 2 ^ k / 2 ^ j = 2 ^ (k - j).
Proof.
  intros H. replace k with ((k - j) + j) at 1 by lia.
  rewrite Z.pow_add_r by lia. apply Z.div_mul. apply Z.pow_nonzero; lia.
Qed.

Lemma pow2_divide j k : 0 <= j <= k -> (2 ^ j | 2 ^ k).
Proof.
  intros H. exists (2 ^ (k - j)). rewrite <- Z.pow_add_r by lia. f_equal. lia.
Qed.

Lemma FMIN_half : O1HEAP_ALIGNMENT = 2 ^ (lgFmin - 1).
Proof.
  unfold lgFmin, FRAGMENT_SIZE_MIN, O1HEAP_ALIGNMENT.
  destruct PTR_cases as [H|[H|H]]; rewrite H; reflexivity.
Qed.

Lemma alloc_size_facts amount cap :
  FRAGMENT_SIZE_MIN <= cap <= FRAGMENT_SIZE_MAX ->
  0 < amount <= cap - O1HEAP_ALIGNMENT ->
  exists k,
    roundUpToPowerOf2 (wrap (amount + O1HEAP_ALIGNMENT)) = 2 ^ k /\
    lgFmin <= k <= WORD_BITS - 1 /\
    amount + O1HEAP_ALIGNMENT <= 2 ^ k /\ 2 ^ k < 2 * (amount + O1HEAP_ALIGNMENT) /\
    FRAGMENT_SIZE_MIN <= 2 ^ k <= FRAGMENT_SIZE_MAX /\ (FRAGMENT_SIZE_MIN | 2 ^ k) /\
    2 ^ k / FRAGMENT_SIZE_MIN = 2 ^ (k - lgFmin) /\
    log2Floor (2 ^ k / FRAGMENT_SIZE_MIN) = k - lgFmin.
Proof.
  intros Hc Ha. pose proof PTR_pos. pose proof FMAX_facts as (HW & HF & HW8).
  pose proof FMIN_pow as (HFm & Hlg & Hlg2). pose proof FMIN_half as Hh.
  rewrite wrap_small by zl.
  destruct (roundUp_spec (amount + O1HEAP_ALIGNMENT) ltac:(zl)) as (k & E & Hk & Hx & _).
  exists k. split; [assumption|].
  assert (Hkl : lgFmin <= k).
  { destruct (Z_lt_le_dec k lgFmin) as [Hlt|]; [|assumption]. exfalso.
    assert (2 ^ k <= 2 ^ (lgFmin - 1)) by (apply Z.pow_le_mono_r; lia). lia. }
  assert (Hle : 2 ^ k <= FRAGMENT_SIZE_MAX).
  { rewrite FMAX_eq. apply Z.pow_le_mono_r; lia. }
  assert (Hge : FRAGMENT_SIZE_MIN <= 2 ^ k).
  { rewrite HFm. apply Z.pow_le_mono_r; lia. }
  assert (Hlt : 2 ^ k < 2 * (amount + O1HEAP_ALIGNMENT)).
  { replace k with ((k - 1) + 1) by lia. rewrite Z.pow_add_r by lia. lia. }
  assert (Hdiv : 2 ^ k / FRAGMENT_SIZE_MIN = 2 ^ (k - lgFmin)).
  { rewrite HFm at 1. apply pow2_div_pow2. lia. }
  repeat split; try lia.
  - rewrite HFm at 1. apply pow2_divide. lia.
  - rewrite Hdiv. rewrite log2Floor_eq.
    + apply Z.log2_pow2. lia.
    + split; [apply Z.pow_pos_nonneg; lia|]. apply Z.pow_lt_mono_r; lia.
Qed.

Lemma binidx_lower s :
  FRAGMENT_SIZE_MIN <= s < 2 ^ WORD_BITS -> 2 ^ (lgFmin + binidx s) <= s.
Proof.
  intros Hs. destruct (binidx_range s Hs) as (E & Hr & Hq).
  pose proof FMIN_pow as (HFm & Hlg & _). pose proof PTR_pos.
  rewrite Z.pow_add_r by lia. rewrite <- HFm, E.
  pose proof (Z.log2_spec (s / FRAGMENT_SIZE_MIN) ltac:(lia)) as [Hlo _].
  pose proof (Z.mul_div_le s FRAGMENT_SIZE_MIN ltac:(zl)).
  assert (0 < FRAGMENT_SIZE_MIN) by zl. nia.
Qed.

Lemma testbit_candidate o j :
  0 <= o < WORD_BITS -> 0 <= j ->
  Z.testbit (lnotW (wrap (pow2 o - 1))) j = (j <? WORD_BITS) && (o <=? j).
Proof.
  intros Ho Hj. rewrite testbit_lnotW by lia. rewrite pow2_eq by lia.
  assert (0 < 2 ^ o) by (apply Z.pow_pos_nonneg; lia).
  assert (2 ^ o < 2 ^ WORD_BITS) by (apply Z.pow_lt_mono_r; lia).
  rewrite wrap_small by lia.
  replace (2 ^ o - 1) with (Z.ones o) by (rewrite Z.ones_equiv; lia).
  rewrite Z.testbit_ones_nonneg by lia.
  destruct (Z.ltb_spec j o), (Z.leb_spec o j); try lia; reflexivity.
Qed.

Lemma lowest_bit_nonzero x :
  0 < x < 2 ^ WORD_BITS -> Z.land x (lnotW (wrap (x - 1))) <> 0.
Proof.
  intros Hx E. rewrite wrap_small in E by lia.
  assert (Hl : Z.ldiff x (x - 1) = 0).
  { apply Z.bits_inj'. intros i Hi. rewrite Z.ldiff_spec, Z.bits_0.
    assert (Hb : Z.testbit (Z.land x (lnotW (x - 1))) i = false)
      by (rewrite E; apply Z.bits_0).
    rewrite Z.land_spec, testbit_lnotW in Hb by lia.
    destruct (Z.ltb_spec i WORD_BITS); [exact Hb|].
    rewrite (testbit_high x) by lia. reflexivity. }
  apply Z.ldiff_le in Hl; lia.
Qed.

Lemma noadj_app b1 : forall b2,
  noadj (b1 ++ b2) <-> noadj b1 /\ noadj b2 /\ (last_used b1 || hd_used b2 = true).
Proof.
  induction b1 as [|[[f s] u] r IH]; intros b2.
  - simpl. tauto.
  - cbn [app noadj]. rewrite IH. destruct r as [|[[f' s'] u'] r'].
    + destruct u; simpl; tauto.
    + cbn [app hd_used last_used]. destruct u, u'; simpl; tauto.
Qed.

Lemma used_total_div m : forall bl p a z b,
  seg m p a bl z b -> (FRAGMENT_SIZE_MIN | used_total bl).
Proof.
  induction bl as [|[[f s0] u0] rest IH]; intros p a z b H; simpl in *.
  - apply Z.divide_0_r.
  - destruct H as (-> & _ & _ & _ & _ & Hs & Hd & Hr). apply IH in Hr.
    destruct u0; [apply Z.divide_add_r; assumption|assumption].
Qed.

Lemma divide_small d x : 0 < d -> (d | x) -> 0 <= x < d -> x = 0.
Proof.
  intros Hd [k ->] Hx. assert (k = 0) by nia. subst. lia.
Qed.

Lemma getNext_setNext_eq m f v : fragGetNext (fragSetNext m f v) f = v.
Proof. unfold fragGetNext, fragSetNext. apply store_eq. reflexivity. Qed.

Lemma getNext_setNext_ne m f v g :
  g <> f -> fragGetNext (fragSetNext m f v) g = fragGetNext m g.
Proof. intros. unfold fragGetNext, fragSetNext. apply store_ne. assumption. Qed.

Lemma interlink_nn m l r :
  l <> 0 -> r <> 0 -> interlink m l r = fragSetPrev (fragSetNext m l r) r l.
Proof.
  intros Hl Hr. unfold interlink.
  destruct (Z.eqb_spec l 0); [contradiction|].
  destruct (Z.eqb_spec r 0); [contradiction|reflexivity].
Qed.

Lemma interlink_n0 m l : l <> 0 -> interlink m l 0 = fragSetNext m l 0.
Proof.
  intros Hl. unfold interlink.
  destruct (Z.eqb_spec l 0); [contradiction|reflexivity].
Qed.

Ltac hsimp :=
  repeat first
    [ rewrite getNext_setNext_eq
    | rewrite getNext_setNext_ne by zl
    | rewrite getNext_setPrev by zl
    | rewrite getNext_setUsed by zl
    | rewrite getPrev_setNext by zl
    | rewrite getPrev_setPrev by (first [assumption | zl])
    | rewrite getPrev_setPrev_ne by zl
    | rewrite getPrev_setUsed
    | rewrite isUsed_setNext by zl
    | rewrite isUsed_setPrev by assumption
    | rewrite isUsed_setPrev_ne by zl
    | rewrite isUsed_setUsed
    | rewrite isUsed_setUsed_ne by zl ].

Ltac unf_hdr := unfold fragSetNext, fragSetPrev, fragSetUsed.

(** The search for the smallest suitable bin. *)
Lemma alloc_search h bl L o :
  Rep h bl L -> binned_but [] bl L -> 0 <= o < WORD_BITS ->
  let suitable := Z.land (nonempty_bin_mask h) (lnotW (wrap (pow2 o - 1))) in
  let smallest := Z.land suitable (lnotW (wrap (suitable - 1))) in
  (smallest = 0 /\ forall g s, In (g, s, false) bl -> binidx s < o) \/
  (smallest <> 0 /\
   exists f fsz, bins h (log2Floor smallest) = f /\ In f (L (binidx fsz)) /\
                 In (f, fsz, false) bl /\ binidx fsz = log2Floor smallest /\
                 o <= binidx fsz).
Proof.
  intros R Hb Ho suitable smallest.
  destruct (rep_mask _ _ _ R) as [Hmr Hmb].
  assert (Hsr : 0 <= suitable < 2 ^ WORD_BITS) by (apply land_range; assumption).
  assert (Hsb : forall j, 0 <= j -> Z.testbit suitable j =
              Z.testbit (nonempty_bin_mask h) j && ((j <? WORD_BITS) && (o <=? j))).
  { intros j Hj. unfold suitable. rewrite Z.land_spec, testbit_candidate by lia.
    reflexivity. }
  destruct (Z.eq_dec suitable 0) as [E0|E0].
  - left. split; [unfold smallest; rewrite E0; reflexivity|].
    intros g s Hg. pose proof (Rep_block _ _ _ _ _ _ R Hg) as Hblk.
    destruct (binidx_range s ltac:(zl)) as (_ & Hr & _).
    destruct (Z_lt_le_dec (binidx s) o) as [|Hge]; [assumption|exfalso].
    assert (Hin : In g (L (binidx s))) by (apply Hb; auto).
    destruct (rep_bins _ _ _ R _ Hr) as (_ & Hhd & _).
    assert (Hbit : Z.testbit suitable (binidx s) = true).
    { rewrite Hsb, Hmb by zl. rewrite Hhd.
      destruct (L (binidx s)) as [|a r] eqn:El; [contradiction|]. simpl hd.
      assert (a <> 0).
      { apply (Rep_bin_nz _ _ _ (binidx s) a R). rewrite El. left. reflexivity. }
      destruct (Z.eqb_spec a 0); [contradiction|].
      destruct (Z.ltb_spec (binidx s) WORD_BITS); [|zl].
      destruct (Z.leb_spec o (binidx s)); [reflexivity|lia]. }
    rewrite E0, Z.bits_0 in Hbit. discriminate.
  - right. assert (Hsm : smallest <> 0) by (apply lowest_bit_nonzero; lia).
    split; [assumption|].
    assert (Hsmr : 0 <= smallest < 2 ^ WORD_BITS) by (apply land_range; assumption).
    rewrite log2Floor_eq by lia.
    pose proof (Z.bit_log2 smallest ltac:(lia)) as Hbit.
    pose proof (Z.log2_nonneg smallest) as Hnn.
    unfold smallest at 1 in Hbit. rewrite Z.land_spec in Hbit.
    apply andb_true_iff in Hbit. destruct Hbit as [Hbit _].
    rewrite Hsb in Hbit by assumption.
    apply andb_true_iff in Hbit. destruct Hbit as [Hb1 Hb2].
    apply andb_true_iff in Hb2. destruct Hb2 as [Hb2 Hb3].
    apply Z.ltb_lt in Hb2. apply Z.leb_le in Hb3.
    set (bi := Z.log2 smallest) in *.
    assert (Hbr : 0 <= bi < NUM_BINS_MAX) by zl.
    rewrite Hmb in Hb1 by assumption.
    destruct (rep_bins _ _ _ R _ Hbr) as (_ & Hhd & _).
    destruct (L bi) as [|f r] eqn:El.
    { simpl in Hhd. rewrite Hhd in Hb1. discriminate. }
    simpl in Hhd. assert (Hf : In f (L bi)) by (rewrite El; left; reflexivity).
    destruct (rep_mem _ _ _ R _ _ Hf) as (_ & fsz & Hfb & Hfs).
    exists f, fsz. rewrite Hfs. repeat split; auto.
Qed.

Lemma FMIN_div_A : (O1HEAP_ALIGNMENT | FRAGMENT_SIZE_MIN).
Proof. exists 2. unfold FRAGMENT_SIZE_MIN. lia. Qed.

Lemma A_div_of_F s : (FRAGMENT_SIZE_MIN | s) -> (O1HEAP_ALIGNMENT | s).
Proof. intros H. eapply Z.divide_trans; [apply FMIN_div_A|exact H]. Qed.

Lemma isUsed_frame m m' g :
  m' (g + off_prev_used) = m (g + off_prev_used) -> fragIsUsed m' g = fragIsUsed m g.
Proof. intros E. unfold fragIsUsed. rewrite E. reflexivity. Qed.

Lemma getPrev_frame m m' g :
  m' (g + off_prev_used) = m (g + off_prev_used) -> fragGetPrev m' g = fragGetPrev m g.
Proof. intros E. unfold fragGetPrev. rewrite E. reflexivity. Qed.

Lemma total_div m : forall bl p a z b,
  seg m p a bl z b -> (FRAGMENT_SIZE_MIN | total bl).
Proof.
  induction bl as [|[[f s0] u0] rest IH]; intros p a z b H; simpl in *.
  - apply Z.divide_0_r.
  - destruct H as (-> & _ & _ & _ & _ & Hs & Hd & Hr). apply IH in Hr.
    apply Z.divide_add_r; assumption.
Qed.

(** Splitting the region of [x] and the blocks [ds] behind it into [x] with
    size [ns] and a new free block of size [rs]. [m0] is the memory before
    the header updates; it may differ from the heap's inside the region. *)
Lemma carve_Rep h L b1 x xs ux ds b2 m0 ns rs ux' z :
  Rep h (b1 ++ ((x, xs, ux) :: ds) ++ b2) L ->
  (forall g s u, In (g, s, u) ((x, xs, ux) :: ds) -> forall j, ~ In g (L j)) ->
  xs + total ds = ns + rs ->
  FRAGMENT_SIZE_MIN <= ns -> (FRAGMENT_SIZE_MIN | ns) ->
  FRAGMENT_SIZE_MIN <= rs -> (FRAGMENT_SIZE_MIN | rs) ->
  (forall y, y < x + PTR \/ x + ns + rs <= y -> m0 y = mem h y) ->
  fragGetPrev m0 x = fragGetPrev (mem h) x -> fragIsUsed m0 x = ux' ->
  z = (match b2 with [] => 0 | _ => x + ns + rs end) ->
  Rep (set_mem h (carve m0 x (x + ns) z))
      (b1 ++ [(x, ns, ux'); (x + ns, rs, false)] ++ b2) L.
Proof.
  intros R Hunb Htot Hns Hnd Hrs Hrd Hm0 Hp0 Hu0 Hz.
  destruct (rep_arena _ _ _ R) as [Hst Hend].
  apply Rep_carve with (mid := (x, xs, ux) :: ds); try assumption; try discriminate.
  intros a b Hseg Ha Hab Hb _.
  pose proof (seg_total _ _ _ _ _ _ Hseg) as Ht. cbn [total] in Ht.
  cbn [seg] in Hseg. destruct Hseg as (<- & Hn & Hp & Hu & Hal & Hxs & Hxd & Hr).
  assert (Eb : b = x + ns + rs) by lia. subst b.
  assert (Hnew : (O1HEAP_ALIGNMENT | x + ns)).
  { apply Z.divide_add_r; [assumption|apply A_div_of_F; assumption]. }
  pose proof PTR_pos. pose proof FMAX_facts.
  unfold carve.
  destruct b2 as [|nb b2']; subst z.
  - rewrite interlink_n0 by zl. rewrite interlink_nn by zl.
    split; [|split].
    + cbn [seg]. hsimp. rewrite Hp0, Hu0.
      repeat split; auto; zl.
    + intros y Hy. unf_hdr. st. apply Hm0. zl.
    + intros Hne. exfalso. apply Hne. reflexivity.
  - rewrite !interlink_nn by zl.
    split; [|split].
    + cbn [seg]. hsimp. rewrite Hp0, Hu0.
      repeat split; auto; zl.
    + intros y Hy. unf_hdr. st. apply Hm0. zl.
    + intros _. split; [|split].
      * unf_hdr. st. apply Hm0. zl.
      * cbn [last_addr]. hsimp. reflexivity.
      * hsimp. apply isUsed_frame. apply Hm0. zl.
Qed.

(** Letting [x] absorb the blocks [ds] behind it. *)
Lemma absorb_Rep h L b1 x xs ux ds b2 m0 ux' z :
  Rep h (b1 ++ ((x, xs, ux) :: ds) ++ b2) L ->
  (forall g s u, In (g, s, u) ((x, xs, ux) :: ds) -> forall j, ~ In g (L j)) ->
  (forall y, y < x + PTR \/ x + xs + total ds <= y -> m0 y = mem h y) ->
  fragGetPrev m0 x = fragGetPrev (mem h) x -> fragIsUsed m0 x = ux' ->
  z = (match b2 with [] => 0 | _ => x + xs + total ds end) ->
  Rep (set_mem h (interlink m0 x z)) (b1 ++ [(x, xs + total ds, ux')] ++ b2) L.
Proof.
  intros R Hunb Hm0 Hp0 Hu0 Hz.
  destruct (rep_arena _ _ _ R) as [Hst Hend].
  apply Rep_carve with (mid := (x, xs, ux) :: ds); try assumption; try discriminate.
  intros a b Hseg Ha Hab Hb _.
  pose proof (seg_total _ _ _ _ _ _ Hseg) as Ht. cbn [total] in Ht.
  pose proof (seg_bounds _ _ _ _ _ _ Hseg) as Hbd.
  pose proof (total_div _ _ _ _ _ _ Hseg) as Hdd. cbn [total] in Hdd.
  cbn [seg] in Hseg. destruct Hseg as (<- & Hn & Hp & Hu & Hal & Hxs & Hxd & Hr).
  pose proof (seg_le _ _ _ _ _ _ Hr) as [Hle _].
  assert (Eb : b = x + xs + total ds) by lia. subst b.
  pose proof PTR_pos. pose proof FMAX_facts.
  destruct b2 as [|nb b2']; subst z.
  - rewrite interlink_n0 by zl.
    split; [|split].
    + cbn [seg]. hsimp. rewrite Hp0, Hu0. repeat split; auto; zl.
    + intros y Hy. unf_hdr. st. apply Hm0. zl.
    + intros Hne. exfalso. apply Hne. reflexivity.
  - rewrite !interlink_nn by zl.
    split; [|split].
    + cbn [seg]. hsimp. rewrite Hp0, Hu0. repeat split; auto; zl.
    + intros y Hy. unf_hdr. st. apply Hm0. zl.
    + intros _. split; [|split].
      * unf_hdr. st. apply Hm0. zl.
      * cbn [last_addr]. hsimp. reflexivity.
      * hsimp. apply isUsed_frame. apply Hm0. zl.
Qed.

Lemma setused_Rep h L b1 x xs ux b2 v :
  Rep h (b1 ++ [(x, xs, ux)] ++ b2) L -> (forall j, ~ In x (L j)) ->
  Rep (set_mem h (fragSetUsed (mem h) x v)) (b1 ++ [(x, xs, v)] ++ b2) L.
Proof.
  intros R Hunb.
  apply Rep_carve with (mid := [(x, xs, ux)]); try assumption; try discriminate.
  { intros g s u [E|[]] j. inversion E; subst. apply Hunb. }
  intros a b Hseg Ha Hab Hb Hpb.
  cbn [seg] in Hseg. destruct Hseg as (<- & Hn & Hp & Hu & Hal & Hxs & Hxd & Hr).
  subst b. pose proof PTR_pos.
  split; [|split].
  - cbn [seg]. hsimp. repeat split; auto.
  - intros y Hy. unf_hdr. st. reflexivity.
  - intros Hne. split; [|split].
    + unf_hdr. st. reflexivity.
    + cbn [last_addr] in *. hsimp. auto.
    + hsimp. reflexivity.
Qed.

Lemma Rep_unbinned_after_remove h bl L f s :
  Rep h bl L -> In (f, s, false) bl -> forall j, ~ In f (bin_remove L (binidx s) f j).
Proof.
  intros R Hf j Hin. unfold bin_remove in Hin.
  destruct (Z.eqb_spec j (binidx s)) as [E|Hj].
  - apply in_remove in Hin. destruct Hin as [_ Hne]. congruence.
  - destruct (rep_mem _ _ _ R _ _ Hin) as (_ & s' & Hb & Hs').
    destruct (seg_func _ _ _ _ _ _ (rep_seg _ _ _ R) _ _ _ _ _ Hf Hb) as [E _].
    subst s'. congruence.
Qed.

Lemma in_bin_remove L i f j g : In g (bin_remove L i f j) -> In g (L j).
Proof.
  unfold bin_remove. destruct (j =? i); [|auto].
  intros H. apply in_remove in H. tauto.
Qed.

Lemma in_bin_remove_keep L i f j g : In g (L j) -> g <> f -> In g (bin_remove L i f j).
Proof.
  unfold bin_remove. intros H Hne. destruct (j =? i); [|auto].
  apply in_in_remove; assumption.
Qed.

Lemma in_bin_add L i f j g : In g (bin_add L i f j) -> g = f \/ In g (L j).
Proof.
  unfold bin_add. destruct (j =? i); [|auto]. intros [H|H]; auto.
Qed.

Lemma in_bin_add_keep L i f j g : In g (L j) -> In g (bin_add L i f j).
Proof. unfold bin_add. intros H. destruct (j =? i); [right|]; assumption. Qed.

Lemma in_bin_add_new L i f : In f (bin_add L i f i).
Proof. unfold bin_add. rewrite Z.eqb_refl. left. reflexivity. Qed.

Lemma larger_max a b : larger a b = Z.max a b.
Proof. unfold larger. destruct (Z.gtb_spec a b); lia. Qed.

Lemma binidx_mono s t :
  FRAGMENT_SIZE_MIN <= s <= t -> t < 2 ^ WORD_BITS -> binidx s <= binidx t.
Proof.
  intros Hs Ht. destruct (binidx_range s ltac:(lia)) as (E1 & _ & _).
  destruct (binidx_range t ltac:(lia)) as (E2 & _ & _).
  rewrite E1, E2. apply Z.log2_le_mono. apply Z.div_le_mono; zl.
Qed.

Lemma HeapInv_Rep h bl L : HeapInv h bl L -> Rep h bl L.
Proof. intros H; apply H. Qed.

(** ** Allocation *)

Lemma allocate_mem_spec h bl L amount :
  HeapInv h bl L -> 0 <= amount <= SIZE_MAX ->
  let r := o1heapAllocate h amount in
  let asz := roundUpToPowerOf2 (wrap (amount + O1HEAP_ALIGNMENT)) in
  (fst r = 0 /\ snd r = set_diag h (note_request (diagnostics h) amount true) /\
   (amount = 0 \/ capacity (diagnostics h) - O1HEAP_ALIGNMENT < amount \/
    forall g s, In (g, s, false) bl -> s < asz)) \/
  (exists b1 f fsz b2 L',
     bl = b1 ++ (f, fsz, false) :: b2 /\
     0 < amount <= capacity (diagnostics h) - O1HEAP_ALIGNMENT /\
     asz <= fsz /\ fst r = f + O1HEAP_ALIGNMENT /\
     HeapInv (snd r)
       (if asz + FRAGMENT_SIZE_MIN <=? fsz
        then b1 ++ (f, asz, true) :: (f + asz, fsz - asz, false) :: b2
        else b1 ++ (f, fsz, true) :: b2) L' /\
     diagnostics (snd r) =
       mkDiag (capacity (diagnostics h)) (allocated (diagnostics h) + asz)
              (larger (peak_allocated (diagnostics h)) (allocated (diagnostics h) + asz))
              (larger (peak_request_size (diagnostics h)) amount)
              (oom_count (diagnostics h)) /\
     (forall y, kept bl y -> mem (snd r) y = mem h y)).
Proof.
  intros (R & Hbin & Hna & Hd) Ha r asz.
  destruct Hd as (Hal & Hpk & Hpd & Hprs & Hoom).
  pose proof (rep_cap _ _ _ R) as [Hcap Hcd].
  pose proof PTR_pos. pose proof FMAX_facts as (HW & HF & HW8).
  pose proof FMIN_pow as (HFm & Hlg & Hlg2).
  assert (Hw : wrap (capacity (diagnostics h) - O1HEAP_ALIGNMENT)
               = capacity (diagnostics h) - O1HEAP_ALIGNMENT) by (apply wrap_small; zl).
  subst r. unfold o1heapAllocate, note_request. rewrite Hw.
  destruct (Z.gtb_spec amount 0) as [Hgt|Hgt].
  2:{ left. cbn [andb fst snd Z.eqb]. repeat split. left. lia. }
  cbn [andb]. rewrite ?andb_true_r.
  destruct (Z.leb_spec amount (capacity (diagnostics h) - O1HEAP_ALIGNMENT)) as [Hg2|Hg2].
  2:{ left. cbn [andb fst snd Z.eqb]. repeat split. right. left. lia. }
  assert (Hamt : 0 < amount <= capacity (diagnostics h) - O1HEAP_ALIGNMENT) by lia.
  destruct (alloc_size_facts amount _ Hcap Hamt)
    as (k & Ek & Hk & Hk1 & Hk2 & Hk3 & Hk4 & Hk5 & Hk6).
  fold asz in Ek. rewrite <- Ek in Hk1, Hk2, Hk3, Hk4, Hk5, Hk6.
  cbv zeta. change (roundUpToPowerOf2 (wrap (amount + O1HEAP_ALIGNMENT))) with asz.
  rewrite Hk6.
  pose proof (alloc_search h bl L (k - lgFmin) R Hbin ltac:(lia)) as Hsearch.
  cbv zeta in Hsearch.
  destruct Hsearch as [[Hs0 Hnone]|[Hs0 (f & fsz & Hbins & HfL & Hfb & Hfi & Hfo)]].
  - left. rewrite Hs0. cbn [fst snd Z.eqb]. split; [reflexivity|]. split; [reflexivity|].
    right. right. intros g s Hgs.
    pose proof (Rep_block _ _ _ _ _ _ R Hgs) as Hblk.
    specialize (Hnone g s Hgs).
    destruct (Z_lt_le_dec s asz) as [|Hge]; [assumption|exfalso].
    pose proof (binidx_mono asz s ltac:(lia) ltac:(zl)) as Hmono.
    unfold binidx at 1 in Hmono. rewrite Hk6 in Hmono. lia.
  - right. destruct (Z.eqb_spec
      (Z.land (Z.land (nonempty_bin_mask h) (lnotW (wrap (pow2 (k - lgFmin) - 1))))
         (lnotW (wrap (Z.land (nonempty_bin_mask h)
                         (lnotW (wrap (pow2 (k - lgFmin) - 1))) - 1)))) 0)
      as [E0|_]; [contradiction|].
    rewrite Hbins.
    pose proof (Rep_block _ _ _ _ _ _ R Hfb) as Hblk.
    destruct Hblk as (Hf0 & Hfe & Hend & Hfsz & Hcm & Hfst & Hgsz & Hfu & Hfa & Hfd & Hfn).
    rewrite Hgsz.
    assert (Hge : asz <= fsz).
    { pose proof (binidx_lower fsz ltac:(zl)) as Hlow.
      assert (2 ^ k <= 2 ^ (lgFmin + binidx fsz)) by (apply Z.pow_le_mono_r; lia).
      lia. }
    rewrite (wrap_small (fsz - asz)) by zl.
    destruct (in_split _ _ Hfb) as (b1 & b2 & Ebl).
    exists b1, f, fsz, b2.
    destruct (Z.eqb_spec (f + O1HEAP_ALIGNMENT) 0) as [E0|_]; [zl|].
    cbn [andb fst snd].
    match goal with
    | |- context [set_diag ?x (set_peak_allocated _ _)] => set (h3 := x)
    end.
    (* the heap after taking [f] out of its bin and splitting it *)
    destruct (unbin_Rep h bl L f fsz R HfL) as (R2 & Hd2 & He2 & Hfr2).
    set (h2 := unbin h f fsz) in *.
    set (L2 := bin_remove L (binidx fsz) f) in *.
    pose proof (Rep_unbinned_after_remove _ _ _ _ _ R Hfb) as Hunb2. fold L2 in Hunb2.
    assert (Hbin2 : binned_but [f] bl L2).
    { intros g s Hgs Hnf. apply in_bin_remove_keep; [apply Hbin; auto|].
      intros ->. apply Hnf. left. reflexivity. }
    set (b2x := if asz + FRAGMENT_SIZE_MIN <=? fsz
                then (f + asz, fsz - asz, false) :: b2 else b2).
    assert (H3 : exists L3, Rep h3 (b1 ++ [(f, asz, false)] ++ b2x) L3 /\
                            diagnostics h3 = diagnostics h /\
                            (forall j, ~ In f (L3 j)) /\
                            binned_but [f] (b1 ++ [(f, asz, false)] ++ b2x) L3 /\
                            (forall y, kept bl y -> mem h3 y = mem h y)).
    { subst h3 b2x.
      destruct (Z.geb_spec (fsz - asz) FRAGMENT_SIZE_MIN) as [Hsp|Hsp];
        destruct (Z.leb_spec (asz + FRAGMENT_SIZE_MIN) fsz) as [Hsp'|Hsp']; try lia.
      - (* split *)
        assert (Rc : Rep (set_mem h2 (carve (mem h2) f (f + asz)
                            (fragGetNext (fragSetUsed (mem h2) (f + asz) false) f)))
                         (b1 ++ [(f, asz, false); (f + asz, fsz - asz, false)] ++ b2) L2).
        { apply carve_Rep with (xs := fsz) (ux := false) (ds := []).
          - rewrite Ebl in R2. exact R2.
          - intros g s u [E|[]] j. inversion E; subst. apply Hunb2.
          - cbn [total]. lia.
          - lia.
          - assumption.
          - lia.
          - apply Z.divide_sub_r; assumption.
          - reflexivity.
          - reflexivity.
          - rewrite <- Hfu. apply isUsed_frame. apply Hfr2.
            eapply hdr_not_link; eassumption.
          - hsimp. unfold fragGetNext. rewrite Hfr2
              by (eapply hdr_not_link; eassumption).
            rewrite Ebl in R. apply rep_seg in R. apply seg_split in R.
            destruct R as (_ & Hn & _). unfold fragGetNext in Hn. rewrite Hn.
            destruct b2; [reflexivity|lia]. }
        set (hc := set_mem h2 _) in *.
        assert (Hnew : forall j, ~ In (f + asz) (L2 j)).
        { intros j Hin. destruct (rep_mem _ _ _ R2 _ _ Hin) as (_ & s & Hb & _).
          destruct (Rep_sep _ _ _ _ _ _ _ _ _ R Hb Hfb) as [(E1 & _)|E]; zl. }
        assert (Hnb : In (f + asz, fsz - asz, false)
                         (b1 ++ [(f, asz, false); (f + asz, fsz - asz, false)] ++ b2)).
        { apply in_or_app. right. right. left. reflexivity. }
        destruct (rebin_Rep hc _ L2 (f + asz) (fsz - asz) Rc Hnb Hnew)
          as (R3 & Hd3 & He3 & Hfr3).
        exists (bin_add L2 (binidx (fsz - asz)) (f + asz)).
        split; [exact R3|]. split; [rewrite Hd3; exact Hd2|]. split; [|split].
        + intros j Hin. apply in_bin_add in Hin. destruct Hin as [E|Hin]; [zl|].
          apply (Hunb2 j Hin).
        + intros g s Hgs Hnf.
          assert (Hc : g = f + asz /\ s = fsz - asz \/ In (g, s, false) bl).
          { rewrite Ebl. apply in_app_or in Hgs. destruct Hgs as [Hgs|Hgs].
            - right. apply in_or_app. auto.
            - destruct Hgs as [E|[E|Hgs]].
              + inversion E; subst. exfalso. apply Hnf. left. reflexivity.
              + inversion E; subst. left. auto.
              + right. apply in_or_app. right. right. assumption. }
          destruct Hc as [[-> ->]|Hc]; [apply in_bin_add_new|].
          apply in_bin_add_keep. apply Hbin2; assumption.
        + intros y Hy.
          assert (Hy' : kept (b1 ++ [(f, asz, false); (f + asz, fsz - asz, false)] ++ b2) y).
          { apply (kept_sub bl); [|assumption]. intros g s Hg. rewrite Ebl in Hg.
            apply in_app_or in Hg. apply in_or_app.
            destruct Hg as [Hg|[Hg|Hg]]; [left; assumption|discriminate Hg|].
            right. right. right. assumption. }
          rewrite (Hfr3 y (kept_not_link _ _ _ _ Rc Hy')).
          pose proof (kept_not_free _ _ _ _ _ _ R Hy Hfb) as Hout.
          assert (Ez : fragGetNext (fragSetUsed (mem h2) (f + asz) false) f
                       = fragGetNext (mem h) f).
          { hsimp. unfold fragGetNext. apply Hfr2. eapply hdr_not_link; eassumption. }
          subst hc. cbn [set_mem mem]. rewrite Ez. unfold carve.
          rewrite !interlink_other, setUsed_other.
          * apply Hfr2. apply (kept_not_link _ _ _ _ R Hy).
          * zl.
          * right. zl.
          * destruct Hfn as [[E _]|(E & _ & s' & u' & Hn')]; rewrite E; [left; reflexivity|].
            right. apply (kept_not_prev _ _ _ _ _ _ _ R Hy Hn').
          * right. zl.
          * right. zl.
      - (* the whole fragment is taken *)
        assert (Efa : fsz = asz).
        { assert (fsz - asz = 0); [|lia].
          apply (divide_small FRAGMENT_SIZE_MIN); [zl| |lia].
          apply Z.divide_sub_r; assumption. }
        rewrite Ebl in R2, Hbin2. rewrite Efa in R2, Hbin2.
        exists L2. split; [exact R2|]. split; [exact Hd2|].
        split; [assumption|]. split; [assumption|].
        intros y Hy. apply Hfr2. apply (kept_not_link _ _ _ _ R Hy). }
    destruct H3 as (L3 & R3 & Hd3 & Hunb3 & Hbin3 & Hfr3).
    exists L3.
    assert (Ebl' : (if asz + FRAGMENT_SIZE_MIN <=? fsz
                    then b1 ++ (f, asz, true) :: (f + asz, fsz - asz, false) :: b2
                    else b1 ++ (f, fsz, true) :: b2)
                   = b1 ++ [(f, asz, true)] ++ b2x).
    { subst b2x. destruct (Z.leb_spec (asz + FRAGMENT_SIZE_MIN) fsz); [reflexivity|].
      assert (Efa : fsz = asz); [|rewrite Efa; reflexivity].
      assert (fsz - asz = 0); [|lia].
      apply (divide_small FRAGMENT_SIZE_MIN); [zl| |lia].
      apply Z.divide_sub_r; assumption. }
    match goal with
    | |- context [HeapInv _ ?l _] =>
        replace l with (b1 ++ [(f, asz, true)] ++ b2x) by (symmetry; exact Ebl')
    end.
    match goal with |- _ /\ _ /\ _ /\ _ /\ HeapInv ?st _ _ /\ _ => set (hf := st) end.
    assert (Rf : Rep hf (b1 ++ [(f, asz, true)] ++ b2x) L3).
    { subst hf. apply Rep_set_diag; [|reflexivity].
      apply setused_Rep with (ux := false); [|assumption].
      apply Rep_set_diag; [assumption|reflexivity]. }
    assert (Hut : used_total (b1 ++ [(f, asz, true)] ++ b2x) = used_total bl + asz).
    { rewrite Ebl, !used_total_app. cbn [used_total app]. subst b2x.
      destruct (asz + FRAGMENT_SIZE_MIN <=? fsz); cbn [used_total]; lia. }
    pose proof (rep_seg _ _ _ Rf) as Hsegf.
    pose proof (used_total_le _ _ _ _ _ _ Hsegf) as Hule.
    pose proof (seg_total _ _ _ _ _ _ Hsegf) as Htot.
    pose proof (used_total_div _ _ _ _ _ _ Hsegf) as Hudiv.
    assert (Ecap : capacity (diagnostics hf) = capacity (diagnostics h)).
    { subst hf. cbn. rewrite Hd3. reflexivity. }
    rewrite Ecap in *.
    assert (Hwa : wrap (allocated (diagnostics h) + asz) = allocated (diagnostics h) + asz).
    { apply wrap_small. zl. }
    assert (Ediag : diagnostics hf =
       mkDiag (capacity (diagnostics h)) (allocated (diagnostics h) + asz)
              (larger (peak_allocated (diagnostics h)) (allocated (diagnostics h) + asz))
              (larger (peak_request_size (diagnostics h)) amount)
              (oom_count (diagnostics h))).
    { subst hf. cbn. rewrite Hd3, Hwa. reflexivity. }
    assert (Hframe : forall y, kept bl y -> mem hf y = mem h y).
    { intros y Hy. subst hf. cbn [set_mem set_diag mem].
      rewrite setUsed_other by (apply (kept_not_prev _ _ _ _ _ _ _ R Hy Hfb)).
      apply Hfr3. assumption. }
    split; [exact Ebl|]. split; [assumption|]. split; [assumption|].
    split; [reflexivity|]. split; [|split; [assumption|exact Hframe]].
    split; [assumption|]. split; [|split].
    + intros g s Hgs _.
      assert (g <> f).
      { intros ->.
        assert (Hfin : In (f, asz, true) (b1 ++ [(f, asz, true)] ++ b2x))
          by (apply in_or_app; right; left; reflexivity).
        destruct (seg_func _ _ _ _ _ _ Hsegf _ _ _ _ _ Hgs Hfin). discriminate. }
      apply Hbin3.
      * apply in_app_or in Hgs. apply in_or_app. destruct Hgs as [Hgs|[E|Hgs]].
        -- left. assumption.
        -- inversion E.
        -- right. right. assumption.
      * intros [E|[]]. congruence.
    + rewrite Ebl in Hna. apply noadj_app in Hna. destruct Hna as (Hn1 & Hn2 & Hn3).
      cbn [noadj hd_used] in Hn2, Hn3. destruct Hn2 as [Hn2 Hn4].
      apply noadj_app. split; [assumption|]. split; [|rewrite orb_true_r; reflexivity].
      cbn [app noadj orb]. split; [reflexivity|]. subst b2x.
      destruct (asz + FRAGMENT_SIZE_MIN <=? fsz); [|assumption].
      cbn [noadj]. split; assumption.
    + rewrite Ediag. unfold DiagOk.
      cbn [allocated peak_allocated capacity peak_request_size oom_count].
      rewrite !larger_max. rewrite Hut, <- Hal.
      split; [reflexivity|]. split; [lia|]. split; [|split; [zl|assumption]].
      destruct (Z.max_spec (peak_allocated (diagnostics h))
                  (allocated (diagnostics h) + asz)) as [[_ E]|[_ E]]; rewrite E.
      * rewrite Hal, <- Hut. assumption.
      * assumption.
Qed.

Lemma allocate_spec h bl L amount :
  HeapInv h bl L -> 0 <= amount <= SIZE_MAX ->
  let r := o1heapAllocate h amount in
  let asz := roundUpToPowerOf2 (wrap (amount + O1HEAP_ALIGNMENT)) in
  (fst r = 0 /\ snd r = set_diag h (note_request (diagnostics h) amount true) /\
   (amount = 0 \/ capacity (diagnostics h) - O1HEAP_ALIGNMENT < amount \/
    forall g s, In (g, s, false) bl -> s < asz)) \/
  (exists b1 f fsz b2 L',
     bl = b1 ++ (f, fsz, false) :: b2 /\
     0 < amount <= capacity (diagnostics h) - O1HEAP_ALIGNMENT /\
     asz <= fsz /\ fst r = f + O1HEAP_ALIGNMENT /\
     HeapInv (snd r)
       (if asz + FRAGMENT_SIZE_MIN <=? fsz
        then b1 ++ (f, asz, true) :: (f + asz, fsz - asz, false) :: b2
        else b1 ++ (f, fsz, true) :: b2) L' /\
     diagnostics (snd r) =
       mkDiag (capacity (diagnostics h)) (allocated (diagnostics h) + asz)
              (larger (peak_allocated (diagnostics h)) (allocated (diagnostics h) + asz))
              (larger (peak_request_size (diagnostics h)) amount)
              (oom_count (diagnostics h))).
Proof.
  intros HI Ha r asz. subst r asz.
  pose proof (allocate_mem_spec h bl L amount HI Ha) as Hs. cbv zeta in Hs.
  destruct Hs as [Hs|(b1 & f & fsz & b2 & L' & Ebl & Hamt & Hle & Eout & HI' & Hd' & _)].
  - left. exact Hs.
  - right. exists b1, f, fsz, b2, L'.
    split; [exact Ebl|]. split; [exact Hamt|]. split; [exact Hle|].
    split; [exact Eout|]. split; [exact HI'|exact Hd'].
Qed.

(** ** Deallocation *)

Lemma used_ptrs_in bl p :
  In p (used_ptrs bl) <-> exists f s, p = f + O1HEAP_ALIGNMENT /\ In (f, s, true) bl.
Proof.
  induction bl as [|[[g s] u] r IH]; simpl.
  - split; [contradiction|]. intros (f & s & _ & []).
  - destruct u; simpl; rewrite IH; split.
    + intros [E|(f & s' & E & Hin)]; [exists g, s; auto|exists f, s'; auto].
    + intros (f & s' & E & [Hin|Hin]); [inversion Hin; subst; auto|right; eauto].
    + intros (f & s' & E & Hin). exists f, s'. auto.
    + intros (f & s' & E & [Hin|Hin]); [inversion Hin|eauto].
Qed.

Lemma Rep_used_unbinned h bl L f s :
  Rep h bl L -> In (f, s, true) bl -> forall j, ~ In f (L j).
Proof.
  intros R Hf j Hin. destruct (rep_mem _ _ _ R _ _ Hin) as (_ & s' & Hb & _).
  destruct (seg_func _ _ _ _ _ _ (rep_seg _ _ _ R) _ _ _ _ _ Hf Hb). discriminate.
Qed.

Lemma last_block (b1 : list block) p :
  b1 <> [] -> exists b1' pv ps pu, b1 = b1' ++ [(pv, ps, pu)] /\ last_addr b1 p = pv.
Proof.
  intros Hne. destruct (exists_last Hne) as (b1' & [[pv ps] pu] & ->).
  exists b1', pv, ps, pu. split; [reflexivity|].
  rewrite last_addr_app. reflexivity.
Qed.

Lemma last_used_app_single (b1 : list block) x : last_used (b1 ++ [x]) = bused x.
Proof.
  induction b1 as [|[[f s] u] r IH].
  - destruct x as [[f s] u]. reflexivity.
  - cbn [app last_used]. destruct (r ++ [x]) eqn:E.
    + destruct r; discriminate.
    + exact IH.
Qed.

Lemma binned_add X x S bl L :
  binned_but (x :: X) bl L ->
  (forall s, In (x, s, false) bl -> s = S) ->
  binned_but X bl (bin_add L (binidx S) x).
Proof.
  intros Hb Hs g s Hg Hn. destruct (Z.eq_dec g x) as [->|Hne].
  - rewrite (Hs s Hg). apply in_bin_add_new.
  - apply in_bin_add_keep. apply Hb; [assumption|].
    intros [E|Hin]; [congruence|contradiction].
Qed.

Lemma binned_remove X x i bl L :
  binned_but X bl L -> binned_but (x :: X) bl (bin_remove L i x).
Proof.
  intros Hb g s Hg Hn. apply in_bin_remove_keep.
  - apply Hb; [assumption|]. intros Hin. apply Hn. right. assumption.
  - intros ->. apply Hn. left. reflexivity.
Qed.

Lemma binned_weaken X Y bl L :
  binned_but X bl L -> (forall g, In g X -> In g Y) -> binned_but Y bl L.
Proof. intros Hb Hs g s Hg Hn. apply Hb; [assumption|]. intros Hin. apply Hn. auto. Qed.

Lemma Rep_In_unique h bl L g s u s' u' :
  Rep h bl L -> In (g, s, u) bl -> In (g, s', u') bl -> s = s' /\ u = u'.
Proof. intros R. apply (seg_func _ _ _ _ _ _ (rep_seg _ _ _ R)). Qed.

(** Putting the merged free block [x] into its bin completes the
    invariant. *)
Lemma finish_free h b1 x S b2 L d :
  Rep h (b1 ++ [(x, S, false)] ++ b2) L ->
  (forall j, ~ In x (L j)) ->
  binned_but [x] (b1 ++ [(x, S, false)] ++ b2) L ->
  noadj b1 -> noadj b2 -> last_used b1 = true -> hd_used b2 = true ->
  diagnostics h = d -> DiagOk d (b1 ++ [(x, S, false)] ++ b2) ->
  exists L', HeapInv (rebin h x S) (b1 ++ [(x, S, false)] ++ b2) L' /\
             diagnostics (rebin h x S) = d.
Proof.
  intros R Hunb Hbin Hn1 Hn2 Hl Hh Hd HD.
  assert (Hx : In (x, S, false) (b1 ++ [(x, S, false)] ++ b2))
    by (apply in_or_app; right; left; reflexivity).
  destruct (rebin_Rep _ _ _ _ _ R Hx Hunb) as (R' & Hd' & _ & _).
  exists (bin_add L (binidx S) x). split; [|congruence].
  split; [assumption|]. split; [|split].
  - apply binned_add; [assumption|].
    intros s Hs. destruct (Rep_In_unique _ _ _ _ _ _ _ _ R Hs Hx). assumption.
  - apply noadj_app. split; [assumption|]. split; [|rewrite Hl; reflexivity].
    cbn [app noadj orb]. auto.
  - rewrite Hd', Hd. assumption.
Qed.

Lemma seg_nodup m : forall bl p a z b, seg m p a bl z b -> NoDup (map baddr bl).
Proof.
  induction bl as [|[[f s0] u0] rest IH]; intros p a z b H; simpl in *.
  - constructor.
  - destruct H as (-> & _ & _ & _ & _ & Hs & _ & Hr).
    constructor; [|eapply IH; eassumption].
    intros Hin. apply in_map_iff in Hin. destruct Hin as ([[g s] u] & E & Hin).
    unfold baddr in E. simpl in E. subst g.
    pose proof (seg_bounds _ _ _ _ _ _ Hr _ _ _ Hin). zl.
Qed.

Lemma mid_disjoint (b1 mid b2 : list block) g s u :
  NoDup (map baddr (b1 ++ mid ++ b2)) ->
  In (g, s, u) b1 \/ In (g, s, u) b2 -> ~ In g (map baddr mid).
Proof.
  rewrite !map_app. intros Hnd Hin Hmid.
  assert (Hg : In g (map baddr b1) \/ In g (map baddr b2)).
  { destruct Hin as [Hin|Hin]; [left|right];
      apply in_map_iff; exists (g, s, u); auto. }
  destruct Hg as [Hg|Hg].
  - clear - Hnd Hg Hmid. induction (map baddr b1) as [|a l IH]; [contradiction|].
    simpl in Hnd. apply NoDup_cons_iff in Hnd. destruct Hnd as [Hni Hnd].
    destruct Hg as [->|Hg]; [|auto].
    apply Hni. apply in_or_app. right. apply in_or_app. left. assumption.
  - apply NoDup_app_remove_l in Hnd.
    clear - Hnd Hg Hmid. induction (map baddr mid) as [|a l IH]; [contradiction|].
    simpl in Hnd. apply NoDup_cons_iff in Hnd. destruct Hnd as [Hni Hnd].
    destruct Hmid as [->|Hmid]; [|auto].
    apply Hni. apply in_or_app. right. assumption.
Qed.

(** After the blocks [mid], whose free members are the ones in [X], were
    merged into the free block [x], only [x] is left to be binned. *)
Lemma binned_merged X b1 mid b2 x S L m p a z b :
  seg m p a (b1 ++ mid ++ b2) z b ->
  binned_but X (b1 ++ mid ++ b2) L ->
  (forall g, In g X -> In g (map baddr mid)) ->
  In x (map baddr mid) ->
  binned_but [x] (b1 ++ [(x, S, false)] ++ b2) L.
Proof.
  intros Hseg Hb HX Hx g s Hg Hn.
  assert (Hin : In (g, s, false) b1 \/ In (g, s, false) b2).
  { apply in_app_or in Hg. destruct Hg as [Hg|[E|Hg]]; auto.
    inversion E; subst. exfalso. apply Hn. left. reflexivity. }
  pose proof (mid_disjoint _ _ _ _ _ _ (seg_nodup _ _ _ _ _ _ Hseg) Hin) as Hnm.
  apply Hb.
  - apply in_or_app. destruct Hin; [left; assumption|].
    right. apply in_or_app. right. assumption.
  - intros HgX. apply Hnm. apply HX. assumption.
Qed.

Lemma unbin_step h bl L X g s :
  Rep h bl L -> binned_but X bl L -> In (g, s, false) bl -> ~ In g X ->
  Rep (unbin h g s) bl (bin_remove L (binidx s) g) /\
  binned_but (g :: X) bl (bin_remove L (binidx s) g) /\
  (forall j, ~ In g (bin_remove L (binidx s) g j)) /\
  (forall x, (forall j, ~ In x (L j)) -> forall j, ~ In x (bin_remove L (binidx s) g j)) /\
  diagnostics (unbin h g s) = diagnostics h /\
  arena_end (unbin h g s) = arena_end h /\
  (forall y, not_link bl y -> mem (unbin h g s) y = mem h y).
Proof.
  intros R Hb Hg Hn.
  assert (Hin : In g (L (binidx s))) by (apply Hb; assumption).
  destruct (unbin_Rep _ _ _ _ _ R Hin) as (R' & Hd & He & Hfr).
  split; [assumption|]. split; [apply binned_remove; assumption|].
  split; [apply (Rep_unbinned_after_remove _ _ _ _ _ R Hg)|].
  split; [|auto].
  intros x Hx j Hxj. apply in_bin_remove in Hxj. apply (Hx j Hxj).
Qed.

Lemma unbin_hdr h bl L g s f sf uf :
  Rep h bl L -> In g (L (binidx s)) -> In (f, sf, uf) bl ->
  fragGetNext (mem (unbin h g s)) f = fragGetNext (mem h) f /\
  fragGetPrev (mem (unbin h g s)) f = fragGetPrev (mem h) f /\
  fragIsUsed (mem (unbin h g s)) f = fragIsUsed (mem h) f /\
  fragGetSize (unbin h g s) f = fragGetSize h f.
Proof.
  intros R Hin Hf. destruct (unbin_Rep _ _ _ _ _ R Hin) as (R' & Hd & He & Hfr).
  destruct (hdr_not_link _ _ _ _ _ _ R Hf) as [H1 H2].
  pose proof (Hfr _ H1) as E1. pose proof (Hfr _ H2) as E2.
  unfold fragGetSize, fragGetNext, fragGetPrev, fragIsUsed. rewrite E1, E2, He. auto.
Qed.

Lemma used_mid_keep (c1 c2 mid mid' : list block) f :
  (forall g s, In (g, s, true) mid -> g = f) ->
  forall g s, In (g, s, true) (c1 ++ mid ++ c2) -> g <> f ->
              In (g, s, true) (c1 ++ mid' ++ c2).
Proof.
  intros Hmid g s Hg Hne. apply in_app_or in Hg. apply in_or_app.
  destruct Hg as [Hg|Hg]; [left; assumption|right].
  apply in_app_or in Hg. apply in_or_app.
  destruct Hg as [Hg|Hg]; [|right; assumption].
  exfalso. apply Hne. apply (Hmid _ _ Hg).
Qed.

Lemma used_mid_sub (c1 c2 mid mid' : list block) :
  (forall g s, ~ In (g, s, true) mid') ->
  forall g s, In (g, s, true) (c1 ++ mid' ++ c2) -> In (g, s, true) (c1 ++ mid ++ c2).
Proof.
  intros Hmid g s Hg. apply in_app_or in Hg. apply in_or_app.
  destruct Hg as [Hg|Hg]; [left; assumption|right].
  apply in_app_or in Hg. apply in_or_app.
  destruct Hg as [Hg|Hg]; [|right; assumption].
  exfalso. apply (Hmid _ _ Hg).
Qed.

Lemma free_mem_spec h bl L p :
  HeapInv h bl L -> In p (used_ptrs bl) ->
  exists fsz bl' L',
    In (p - O1HEAP_ALIGNMENT, fsz, true) bl /\
    HeapInv (o1heapFree h p) bl' L' /\
    Permutation (used_ptrs bl) (p :: used_ptrs bl') /\
    diagnostics (o1heapFree h p) =
      set_allocated (diagnostics h) (allocated (diagnostics h) - fsz) /\
    (forall g s, In (g, s, true) bl -> g <> p - O1HEAP_ALIGNMENT -> In (g, s, true) bl') /\
    (exists x S, In (x, S, false) bl' /\ x <= p - O1HEAP_ALIGNMENT /\
                 p - O1HEAP_ALIGNMENT + fsz <= x + S) /\
    (forall y, kept bl' y -> mem (o1heapFree h p) y = mem h y).
Proof.
  intros (R & Hbin & Hna & HD) Hp.
  apply used_ptrs_in in Hp. destruct Hp as (f & fsz & -> & Hf).
  pose proof PTR_pos. pose proof FMAX_facts as (HW & HF & HW8).
  destruct (Rep_block _ _ _ _ _ _ R Hf)
    as (Hf0 & Hfe & Hend & Hfsz & Hcm & Hfst & Hgsz & Hfu & Hfa & Hfd & _).
  destruct (in_split _ _ Hf) as (b1 & b2 & Ebl).
  exists fsz. replace (f + O1HEAP_ALIGNMENT - O1HEAP_ALIGNMENT) with f by lia.
  unfold o1heapFree. destruct (Z.eqb_spec (f + O1HEAP_ALIGNMENT) 0) as [E0|_]; [zl|].
  replace (f + O1HEAP_ALIGNMENT - O1HEAP_ALIGNMENT) with f by lia.
  cbv zeta. rewrite Hgsz.
  set (h1 := set_mem h (fragSetUsed (mem h) f false)).
  change (diagnostics h1) with (diagnostics h).
  destruct HD as (Hal & Hpk & Hpd & Hprs & Hoom).
  pose proof (rep_seg _ _ _ R) as Hseg. rewrite Ebl in Hseg.
  pose proof (seg_split _ _ _ _ _ _ _ _ _ _ Hseg) as (Hs1 & _ & _ & _ & _ & _ & _ & Hs2).
  pose proof (used_total_le _ _ _ _ _ _ Hs1) as Hu1.
  pose proof (used_total_le _ _ _ _ _ _ Hs2) as Hu2.
  assert (HU : allocated (diagnostics h) - fsz = used_total b1 + used_total b2).
  { rewrite Hal, Ebl, used_total_app. cbn [used_total]. lia. }
  rewrite (wrap_small (allocated (diagnostics h) - fsz)) by zl.
  set (d2 := set_allocated (diagnostics h) (allocated (diagnostics h) - fsz)).
  set (h2 := set_diag h1 d2).
  assert (Hunbf : forall j, ~ In f (L j)) by (apply (Rep_used_unbinned _ _ _ _ _ R Hf)).
  assert (R2 : Rep h2 (b1 ++ [(f, fsz, false)] ++ b2) L).
  { subst h2. apply Rep_set_diag; [|reflexivity].
    subst h1. apply setused_Rep with (ux := true); [|assumption].
    rewrite Ebl in R. exact R. }
  pose proof (rep_seg _ _ _ R2) as Hseg2.
  pose proof (seg_split _ _ _ _ _ _ _ _ _ _ Hseg2)
    as (Hs1' & Hnx & Hpv & _ & _ & _ & _ & Hs2').
  assert (Hbin2 : binned_but [f] (b1 ++ [(f, fsz, false)] ++ b2) L).
  { apply (binned_merged [] b1 [(f, fsz, true)] b2 f fsz L _ _ _ _ _ Hseg).
    - rewrite Ebl in Hbin. exact Hbin.
    - intros g [].
    - left. reflexivity. }
  rewrite Ebl in Hna. apply noadj_app in Hna. destruct Hna as (Hna1 & Hna2 & _).
  cbn [noadj] in Hna2. destruct Hna2 as [_ Hna2].
  assert (Hperm : forall c1 c2, used_ptrs c1 = used_ptrs b1 -> used_ptrs c2 = used_ptrs b2 ->
            forall x S, Permutation (used_ptrs bl)
              (f + O1HEAP_ALIGNMENT :: used_ptrs (c1 ++ [(x, S, false)] ++ c2))).
  { intros c1 c2 E1 E2 x S. rewrite Ebl, !used_ptrs_app. cbn [used_ptrs app].
    rewrite E1, E2. symmetry. apply Permutation_middle. }
  assert (HDf : forall c1 c2, used_total c1 = used_total b1 -> used_total c2 = used_total b2 ->
            forall x S, DiagOk d2 (c1 ++ [(x, S, false)] ++ c2)).
  { intros c1 c2 E1 E2 x S. unfold DiagOk. subst d2.
    cbn [set_allocated allocated peak_allocated capacity peak_request_size oom_count].
    rewrite !used_total_app. cbn [used_total]. rewrite E1, E2.
    repeat split; try assumption; zl. }
  assert (Hm2 : forall y, y <> f + off_prev_used -> mem h2 y = mem h y).
  { intros y Hy. subst h2 h1. cbn [set_diag set_mem mem]. apply setUsed_other. exact Hy. }
  set (prev := fragGetPrev (mem h2) f). set (next := fragGetNext (mem h2) f).
  set (join_left := negb (prev =? 0) && negb (fragIsUsed (mem h2) prev)).
  set (join_right := negb (next =? 0) && negb (fragIsUsed (mem h2) next)).
  assert (Hleft : (join_left = false /\ last_used b1 = true) \/
            (join_left = true /\ exists b1' ps,
               b1 = b1' ++ [(prev, ps, false)] /\ fragGetSize h2 prev = ps /\
               prev + ps = f /\ last_used b1' = true /\ noadj b1')).
  { subst join_left. change (prev = last_addr b1 0) in Hpv.
    destruct b1 as [|b0 b1r] eqn:Eb1.
    { left. cbn [last_addr] in Hpv. rewrite Hpv. auto. }
    rewrite <- Eb1 in *.
    destruct (last_block b1 0 ltac:(rewrite Eb1; discriminate))
      as (b1' & pv & ps & pu & Eb1' & Hla).
    rewrite Hla in Hpv.
    assert (Hin : In (pv, ps, pu) (b1 ++ [(f, fsz, false)] ++ b2)).
    { apply in_or_app. left. rewrite Eb1'. apply in_or_app. right. left. reflexivity. }
    destruct (Rep_block _ _ _ _ _ _ R2 Hin)
      as (Hp0 & _ & _ & _ & _ & _ & Hpsz & Hpu & _ & _ & _).
    rewrite Hpv. destruct (Z.eqb_spec pv 0); [lia|]. rewrite Hpu.
    rewrite Eb1' in Hs1'. apply seg_split in Hs1'.
    destruct Hs1' as (_ & _ & _ & _ & _ & _ & _ & Hend1). cbn [seg] in Hend1.
    destruct pu; [left|right]; cbn [negb andb].
    - split; [reflexivity|]. rewrite Eb1'. apply last_used_app_single.
    - split; [reflexivity|]. exists b1', ps.
      rewrite Eb1' in Hna1. apply noadj_app in Hna1.
      destruct Hna1 as (Hn1 & _ & Hn3). cbn [hd_used] in Hn3.
      rewrite orb_false_r in Hn3. auto. }
  assert (Hright : (join_right = false /\ hd_used b2 = true) \/
            (join_right = true /\ exists ns b2',
               b2 = (next, ns, false) :: b2' /\ fragGetSize h2 next = ns /\
               next = f + fsz /\ hd_used b2' = true /\ noadj b2')).
  { subst join_right.
    change (next = match b2 with [] => 0 | _ => f + fsz end) in Hnx.
    destruct b2 as [|[[nx ns] nu] b2'] eqn:Eb2.
    { left. rewrite Hnx. auto. }
    assert (Hin : In (nx, ns, nu) (b1 ++ [(f, fsz, false)] ++ (nx, ns, nu) :: b2')).
    { apply in_or_app. right. right. left. reflexivity. }
    destruct (Rep_block _ _ _ _ _ _ R2 Hin)
      as (Hp0 & _ & _ & _ & _ & _ & Hnsz & Hnu & _ & _ & _).
    cbn [seg] in Hs2'. destruct Hs2' as (Enx & _).
    rewrite Hnx. destruct (Z.eqb_spec (f + fsz) 0); [lia|].
    rewrite <- Enx in *. rewrite Hnu.
    destruct nu; [left|right]; cbn [negb andb].
    - auto.
    - split; [reflexivity|]. exists ns, b2'.
      cbn [noadj hd_used orb] in Hna2. destruct Hna2 as [Hn1 Hn2]. auto. }
  assert (Hf2' : In (f, fsz, false) (b1 ++ [(f, fsz, false)] ++ b2))
    by (apply in_or_app; right; left; reflexivity).
  assert (Hf2 : fragIsUsed (mem h2) f = false).
  { apply (Rep_block _ _ _ _ _ _ R2 Hf2'). }
  destruct Hleft as [[Ejl Hlu]|(Ejl & b1' & ps & Eb1 & Hps & Hpf & Hlu' & Hn1')];
    destruct Hright as [[Ejr Hhu]|(Ejr & ns & b2' & Eb2 & Hns & Hnf & Hhu' & Hn2')];
    rewrite Ejl, Ejr; cbn [andb].
  - (* no neighbour is free *)
    destruct (finish_free h2 b1 f fsz b2 L d2 R2 Hunbf Hbin2 Hna1 Hna2 Hlu Hhu eq_refl
                (HDf b1 b2 eq_refl eq_refl f fsz)) as (L' & HI & Hd').
    exists (b1 ++ [(f, fsz, false)] ++ b2), L'.
    split; [assumption|]. split; [assumption|]. split; [|split; [assumption|]].
    { apply Hperm; reflexivity. }
    split; [|split].
    + intros g s Hg Hne. rewrite Ebl in Hg.
      apply (used_mid_keep b1 b2 [(f, fsz, true)] [(f, fsz, false)] f); [|exact Hg|exact Hne].
      intros g' s' [E|[]]. injection E as <- _. reflexivity.
    + exists f, fsz. split; [exact Hf2'|lia].
    + intros y Hy.
      destruct (rebin_Rep _ _ _ f fsz R2 Hf2' Hunbf) as (_ & _ & _ & Hfrb).
      rewrite (Hfrb y (kept_not_link _ _ _ _ R2 Hy)).
      apply Hm2. apply (kept_not_prev _ _ _ _ _ _ _ R2 Hy Hf2').
  - (* the next fragment is free *)
    rewrite Hns. rewrite Eb2 in R2, Hbin2, Hs2'.
    assert (Hin : In (next, ns, false) (b1 ++ [(f, fsz, false)] ++ (next, ns, false) :: b2'))
      by (apply in_or_app; right; right; left; reflexivity).
    assert (Hnn : ~ In next [f]) by (intros [E|[]]; zl).
    destruct (unbin_step _ _ _ _ _ _ R2 Hbin2 Hin Hnn)
      as (R3 & Hb3 & Hun3 & Hkeep3 & Hd3 & He3 & Hfr3).
    assert (HinL : In next (L (binidx ns))) by (apply Hbin2; assumption).
    assert (Hinf : In (f, fsz, false) (b1 ++ [(f, fsz, false)] ++ (next, ns, false) :: b2'))
      by (apply in_or_app; right; left; reflexivity).
    destruct (unbin_hdr _ _ _ _ _ _ _ _ R2 HinL Hin) as (Hz & _).
    destruct (unbin_hdr _ _ _ _ _ _ _ _ R2 HinL Hinf) as (_ & _ & Hfu3 & _).
    set (h3 := unbin h2 next ns) in *. set (L3 := bin_remove L (binidx ns) next) in *.
    cbn [seg] in Hs2'. destruct Hs2' as (_ & Hnn2 & _).
    assert (R4 : Rep (set_mem h3 (interlink (mem h3) f (fragGetNext (mem h3) next)))
                     (b1 ++ [(f, fsz + total [(next, ns, false)], false)] ++ b2') L3).
    { apply absorb_Rep with (ux := false).
      - exact R3.
      - intros g s u [E|[E|[]]] j; injection E as <- _ _; [apply Hkeep3; assumption|apply Hun3].
      - reflexivity.
      - reflexivity.
      - rewrite Hfu3. assumption.
      - rewrite Hz, Hnn2. cbn [total]. destruct b2'; [reflexivity|lia]. }
    cbn [total] in R4.
    assert (Hblk : FRAGMENT_SIZE_MIN <= ns <= capacity (diagnostics h) /\
                   fsz + ns <= capacity (diagnostics h)).
    { pose proof (Rep_block _ _ _ _ _ _ R2 Hin) as (_ & _ & _ & Hb & _).
      assert (Hm : In (f, fsz + (ns + 0), false) (b1 ++ [(f, fsz + (ns + 0), false)] ++ b2'))
        by (apply in_or_app; right; left; reflexivity).
      pose proof (Rep_block _ _ _ _ _ _ R4 Hm) as (_ & _ & _ & Hb' & _).
      cbn [set_mem diagnostics] in Hb'. rewrite Hd3 in Hb'.
      change (capacity (diagnostics h2)) with (capacity (diagnostics h)) in Hb, Hb'.
      lia. }
    rewrite (wrap_small (fsz + ns)) by zl.
    replace (fsz + ns) with (fsz + (ns + 0)) by lia.
    assert (Hbm : binned_but [f] (b1 ++ [(f, fsz + (ns + 0), false)] ++ b2') L3).
    { apply (binned_merged [next; f] b1 [(f, fsz, false); (next, ns, false)] b2' f _ L3
               _ _ _ _ _ (rep_seg _ _ _ R3)).
      - exact Hb3.
      - intros g [<-|[<-|[]]]; cbn; auto.
      - left. reflexivity. }
    assert (Eu2 : used_total b2' = used_total b2) by (rewrite Eb2; reflexivity).
    assert (Ep2 : used_ptrs b2' = used_ptrs b2) by (rewrite Eb2; reflexivity).
    destruct (finish_free _ b1 f (fsz + (ns + 0)) b2' L3 d2 R4
                (Hkeep3 f Hunbf) Hbm Hna1 Hn2' Hlu Hhu' Hd3
                (HDf b1 b2' eq_refl Eu2 f _)) as (L' & HI & Hd').
    exists (b1 ++ [(f, fsz + (ns + 0), false)] ++ b2'), L'.
    split; [assumption|]. split; [assumption|]. split; [|split; [assumption|]].
    { apply Hperm; [reflexivity|assumption]. }
    assert (Hm : In (f, fsz + (ns + 0), false) (b1 ++ [(f, fsz + (ns + 0), false)] ++ b2'))
      by (apply in_or_app; right; left; reflexivity).
    split; [|split].
    + intros g s Hg Hne. rewrite Ebl, Eb2 in Hg.
      apply (used_mid_keep b1 b2' [(f, fsz, true); (next, ns, false)] _ f);
        [|exact Hg|exact Hne].
      intros g' s' [E|[E|[]]]; [injection E as <- _; reflexivity|discriminate E].
    + exists f, (fsz + (ns + 0)). split; [exact Hm|zl].
    + intros y Hy.
      assert (Hy2 : kept (b1 ++ [(f, fsz, false)] ++ (next, ns, false) :: b2') y).
      { apply (kept_sub (b1 ++ [(f, fsz + (ns + 0), false)] ++ b2') _ y); [|exact Hy].
        apply (used_mid_sub b1 b2' [(f, fsz, false); (next, ns, false)]
                 [(f, fsz + (ns + 0), false)]).
        intros g s [E|[]]. discriminate E. }
      destruct (rebin_Rep _ _ _ f _ R4 Hm (Hkeep3 f Hunbf)) as (_ & _ & _ & Hfrb).
      rewrite (Hfrb y (kept_not_link _ _ _ _ R4 Hy)). cbn [set_mem mem].
      pose proof (kept_not_free _ _ _ _ _ _ R2 Hy2 Hinf) as Ho1.
      rewrite interlink_other.
      * rewrite (Hfr3 y (kept_not_link _ _ _ _ R2 Hy2)).
        apply Hm2. apply (kept_not_prev _ _ _ _ _ _ _ R2 Hy2 Hinf).
      * right. zl.
      * rewrite Hz.
        destruct (Rep_block _ _ _ _ _ _ R2 Hin)
          as (_ & _ & _ & _ & _ & _ & _ & _ & _ & _ & [[E _]|(E & _ & s' & u' & Hn')]);
          rewrite E; [left; reflexivity|right].
        apply (kept_not_prev _ _ _ _ _ _ _ R2 Hy2 Hn').
  - (* the previous fragment is free *)
    rewrite Hps. rewrite Eb1 in R2, Hbin2. rewrite <- app_assoc in R2, Hbin2.
    assert (Hin : In (prev, ps, false) (b1' ++ [(prev, ps, false); (f, fsz, false)] ++ b2))
      by (apply in_or_app; right; left; reflexivity).
    pose proof (Rep_block _ _ _ _ _ _ R2 Hin) as (_ & _ & _ & Hpsb & _ & _ & _ & Hpu2 & _).
    assert (Hnn : ~ In prev [f]) by (intros [E|[]]; zl).
    destruct (unbin_step _ _ _ _ _ _ R2 Hbin2 Hin Hnn)
      as (R3 & Hb3 & Hun3 & Hkeep3 & Hd3 & He3 & Hfr3).
    assert (HinL : In prev (L (binidx ps))) by (apply Hbin2; assumption).
    destruct (unbin_hdr _ _ _ _ _ _ _ _ R2 HinL Hin) as (_ & _ & Hpu3 & _).
    set (h3 := unbin h2 prev ps) in *. set (L3 := bin_remove L (binidx ps) prev) in *.
    assert (R4 : Rep (set_mem h3 (interlink (mem h3) prev next))
                     (b1' ++ [(prev, ps + total [(f, fsz, false)], false)] ++ b2) L3).
    { apply absorb_Rep with (ux := false).
      - exact R3.
      - intros g s u [E|[E|[]]] j; injection E as <- _ _; [apply Hun3|apply Hkeep3; assumption].
      - reflexivity.
      - reflexivity.
      - rewrite Hpu3. assumption.
      - change (next = match b2 with [] => 0 | _ => f + fsz end) in Hnx.
        rewrite Hnx. cbn [total]. destruct b2; [reflexivity|lia]. }
    cbn [total] in R4.
    assert (Hblk : ps + fsz <= capacity (diagnostics h)).
    { assert (Hm : In (prev, ps + (fsz + 0), false)
                      (b1' ++ [(prev, ps + (fsz + 0), false)] ++ b2))
        by (apply in_or_app; right; left; reflexivity).
      pose proof (Rep_block _ _ _ _ _ _ R4 Hm) as (_ & _ & _ & Hb' & _).
      cbn [set_mem diagnostics] in Hb'. rewrite Hd3 in Hb'.
      change (capacity (diagnostics h2)) with (capacity (diagnostics h)) in Hb'.
      lia. }
    rewrite (wrap_small (ps + fsz)) by zl.
    replace (ps + fsz) with (ps + (fsz + 0)) by lia.
    assert (Hbm : binned_but [prev] (b1' ++ [(prev, ps + (fsz + 0), false)] ++ b2) L3).
    { apply (binned_merged [prev; f] b1' [(prev, ps, false); (f, fsz, false)] b2 prev _ L3
               _ _ _ _ _ (rep_seg _ _ _ R3)).
      - exact Hb3.
      - intros g [<-|[<-|[]]]; cbn; auto.
      - left. reflexivity. }
    assert (Eu1 : used_total b1' = used_total b1).
    { rewrite Eb1, used_total_app. cbn [used_total]. lia. }
    assert (Ep1 : used_ptrs b1' = used_ptrs b1).
    { rewrite Eb1, used_ptrs_app. cbn [used_ptrs]. rewrite app_nil_r. reflexivity. }
    destruct (finish_free _ b1' prev (ps + (fsz + 0)) b2 L3 d2 R4
                Hun3 Hbm Hn1' Hna2 Hlu' Hhu Hd3
                (HDf b1' b2 Eu1 eq_refl prev _)) as (L' & HI & Hd').
    exists (b1' ++ [(prev, ps + (fsz + 0), false)] ++ b2), L'.
    split; [assumption|]. split; [assumption|]. split; [|split; [assumption|]].
    { apply Hperm; [assumption|reflexivity]. }
    assert (Hm : In (prev, ps + (fsz + 0), false)
                    (b1' ++ [(prev, ps + (fsz + 0), false)] ++ b2))
      by (apply in_or_app; right; left; reflexivity).
    assert (Hinf3 : In (f, fsz, false) (b1' ++ [(prev, ps, false); (f, fsz, false)] ++ b2))
      by (apply in_or_app; right; right; left; reflexivity).
    split; [|split].
    + intros g s Hg Hne. rewrite Ebl, Eb1, <- app_assoc in Hg.
      apply (used_mid_keep b1' b2 [(prev, ps, false); (f, fsz, true)] _ f);
        [|exact Hg|exact Hne].
      intros g' s' [E|[E|[]]]; [discriminate E|injection E as <- _; reflexivity].
    + exists prev, (ps + (fsz + 0)). split; [exact Hm|zl].
    + intros y Hy.
      assert (Hy2 : kept (b1' ++ [(prev, ps, false); (f, fsz, false)] ++ b2) y).
      { apply (kept_sub (b1' ++ [(prev, ps + (fsz + 0), false)] ++ b2) _ y); [|exact Hy].
        apply (used_mid_sub b1' b2 [(prev, ps, false); (f, fsz, false)]
                 [(prev, ps + (fsz + 0), false)]).
        intros g s [E|[]]. discriminate E. }
      destruct (rebin_Rep _ _ _ prev _ R4 Hm Hun3) as (_ & _ & _ & Hfrb).
      rewrite (Hfrb y (kept_not_link _ _ _ _ R4 Hy)). cbn [set_mem mem].
      pose proof (kept_not_free _ _ _ _ _ _ R2 Hy2 Hin) as Ho1.
      rewrite interlink_other.
      * rewrite (Hfr3 y (kept_not_link _ _ _ _ R2 Hy2)).
        apply Hm2. apply (kept_not_prev _ _ _ _ _ _ _ R2 Hy2 Hinf3).
      * right. zl.
      * subst next.
        destruct (Rep_block _ _ _ _ _ _ R2 Hinf3)
          as (_ & _ & _ & _ & _ & _ & _ & _ & _ & _ & [[E _]|(E & _ & s' & u' & Hn')]);
          rewrite E; [left; reflexivity|right].
        apply (kept_not_prev _ _ _ _ _ _ _ R2 Hy2 Hn').
  - (* both neighbours are free *)
    rewrite Hps, Hns. rewrite Eb1, Eb2 in R2, Hbin2. rewrite <- app_assoc in R2, Hbin2.
    rewrite Eb2 in Hs2'. cbn [seg] in Hs2'. destruct Hs2' as (_ & Hnn2 & _).
    assert (Hinp : In (prev, ps, false)
              (b1' ++ [(prev, ps, false); (f, fsz, false); (next, ns, false)] ++ b2'))
      by (apply in_or_app; right; left; reflexivity).
    assert (Hinn : In (next, ns, false)
              (b1' ++ [(prev, ps, false); (f, fsz, false); (next, ns, false)] ++ b2'))
      by (apply in_or_app; right; right; right; left; reflexivity).
    pose proof (Rep_block _ _ _ _ _ _ R2 Hinp) as (_ & _ & _ & Hpsb & _ & _ & _ & Hpu2 & _).
    pose proof (Rep_block _ _ _ _ _ _ R2 Hinn) as (_ & _ & _ & Hnsb & _).
    assert (Hnp : ~ In prev [f]) by (intros [E|[]]; zl).
    destruct (unbin_step _ _ _ _ _ _ R2 Hbin2 Hinp Hnp)
      as (R3 & Hb3 & Hun3 & Hkeep3 & Hd3 & He3 & Hfr3).
    assert (HinLp : In prev (L (binidx ps))) by (apply Hbin2; assumption).
    destruct (unbin_hdr _ _ _ _ _ _ _ _ R2 HinLp Hinp) as (_ & _ & Hpu3 & _).
    destruct (unbin_hdr _ _ _ _ _ _ _ _ R2 HinLp Hinn) as (Hz3 & _).
    set (h3 := unbin h2 prev ps) in *. set (L3 := bin_remove L (binidx ps) prev) in *.
    assert (Hnn' : ~ In next [prev; f]) by (intros [E|[E|[]]]; zl).
    destruct (unbin_step _ _ _ _ _ _ R3 Hb3 Hinn Hnn')
      as (R4 & Hb4 & Hun4 & Hkeep4 & Hd4 & He4 & Hfr4).
    assert (HinLn : In next (L3 (binidx ns))) by (apply Hb3; assumption).
    destruct (unbin_hdr _ _ _ _ _ _ _ _ R3 HinLn Hinp) as (_ & _ & Hpu4 & _).
    destruct (unbin_hdr _ _ _ _ _ _ _ _ R3 HinLn Hinn) as (Hz4 & _).
    set (h4 := unbin h3 next ns) in *. set (L4 := bin_remove L3 (binidx ns) next) in *.
    assert (R5 : Rep (set_mem h4 (interlink (mem h4) prev (fragGetNext (mem h4) next)))
                     (b1' ++ [(prev, ps + total [(f, fsz, false); (next, ns, false)], false)]
                          ++ b2') L4).
    { apply absorb_Rep with (ux := false).
      - exact R4.
      - intros g s u [E|[E|[E|[]]]] j; injection E as <- _ _.
        + apply Hkeep4. apply Hun3.
        + apply Hkeep4. apply Hkeep3. assumption.
        + apply Hun4.
      - reflexivity.
      - reflexivity.
      - rewrite Hpu4, Hpu3. assumption.
      - rewrite Hz4, Hz3, Hnn2. cbn [total]. destruct b2'; [reflexivity|lia]. }
    cbn [total] in R5.
    assert (Hblk : ps + fsz + ns <= capacity (diagnostics h)).
    { assert (Hm : In (prev, ps + (fsz + (ns + 0)), false)
                      (b1' ++ [(prev, ps + (fsz + (ns + 0)), false)] ++ b2'))
        by (apply in_or_app; right; left; reflexivity).
      pose proof (Rep_block _ _ _ _ _ _ R5 Hm) as (_ & _ & _ & Hb' & _).
      cbn [set_mem diagnostics] in Hb'. rewrite Hd4, Hd3 in Hb'.
      change (capacity (diagnostics h2)) with (capacity (diagnostics h)) in Hb'.
      lia. }
    rewrite (wrap_small (ps + fsz)) by zl.
    rewrite (wrap_small (ps + fsz + ns)) by zl.
    replace (ps + fsz + ns) with (ps + (fsz + (ns + 0))) by lia.
    assert (Hbm : binned_but [prev] (b1' ++ [(prev, ps + (fsz + (ns + 0)), false)] ++ b2') L4).
    { apply (binned_merged [next; prev; f] b1'
               [(prev, ps, false); (f, fsz, false); (next, ns, false)] b2' prev _ L4
               _ _ _ _ _ (rep_seg _ _ _ R4)).
      - exact Hb4.
      - intros g [<-|[<-|[<-|[]]]]; cbn; auto.
      - left. reflexivity. }
    assert (Eu1 : used_total b1' = used_total b1).
    { rewrite Eb1, used_total_app. cbn [used_total]. lia. }
    assert (Ep1 : used_ptrs b1' = used_ptrs b1).
    { rewrite Eb1, used_ptrs_app. cbn [used_ptrs]. rewrite app_nil_r. reflexivity. }
    assert (Eu2 : used_total b2' = used_total b2) by (rewrite Eb2; reflexivity).
    assert (Ep2 : used_ptrs b2' = used_ptrs b2) by (rewrite Eb2; reflexivity).
    assert (Hd5 : diagnostics h4 = d2) by (rewrite Hd4; exact Hd3).
    destruct (finish_free _ b1' prev (ps + (fsz + (ns + 0))) b2' L4 d2 R5
                (Hkeep4 prev Hun3) Hbm Hn1' Hn2' Hlu' Hhu' Hd5
                (HDf b1' b2' Eu1 Eu2 prev _)) as (L' & HI & Hd').
    exists (b1' ++ [(prev, ps + (fsz + (ns + 0)), false)] ++ b2'), L'.
    split; [assumption|]. split; [assumption|]. split; [|split; [assumption|]].
    { apply Hperm; assumption. }
    assert (Hm : In (prev, ps + (fsz + (ns + 0)), false)
                    (b1' ++ [(prev, ps + (fsz + (ns + 0)), false)] ++ b2'))
      by (apply in_or_app; right; left; reflexivity).
    assert (Hinf3 : In (f, fsz, false)
                       (b1' ++ [(prev, ps, false); (f, fsz, false); (next, ns, false)] ++ b2'))
      by (apply in_or_app; right; right; left; reflexivity).
    split; [|split].
    + intros g s Hg Hne. rewrite Ebl, Eb1, Eb2, <- app_assoc in Hg.
      apply (used_mid_keep b1' b2' [(prev, ps, false); (f, fsz, true); (next, ns, false)] _ f);
        [|exact Hg|exact Hne].
      intros g' s' [E|[E|[E|[]]]];
        [discriminate E|injection E as <- _; reflexivity|discriminate E].
    + exists prev, (ps + (fsz + (ns + 0))). split; [exact Hm|zl].
    + intros y Hy.
      assert (Hy2 : kept (b1' ++ [(prev, ps, false); (f, fsz, false); (next, ns, false)]
                              ++ b2') y).
      { apply (kept_sub (b1' ++ [(prev, ps + (fsz + (ns + 0)), false)] ++ b2') _ y);
          [|exact Hy].
        apply (used_mid_sub b1' b2' [(prev, ps, false); (f, fsz, false); (next, ns, false)]
                 [(prev, ps + (fsz + (ns + 0)), false)]).
        intros g s [E|[]]. discriminate E. }
      destruct (rebin_Rep _ _ _ prev _ R5 Hm (Hkeep4 prev Hun3)) as (_ & _ & _ & Hfrb).
      rewrite (Hfrb y (kept_not_link _ _ _ _ R5 Hy)). cbn [set_mem mem].
      pose proof (kept_not_free _ _ _ _ _ _ R2 Hy2 Hinp) as Ho1.
      rewrite interlink_other.
      * rewrite (Hfr4 y (kept_not_link _ _ _ _ R3 Hy2)).
        rewrite (Hfr3 y (kept_not_link _ _ _ _ R2 Hy2)).
        apply Hm2. apply (kept_not_prev _ _ _ _ _ _ _ R2 Hy2 Hinf3).
      * right. zl.
      * rewrite Hz4, Hz3.
        destruct (Rep_block _ _ _ _ _ _ R2 Hinn)
          as (_ & _ & _ & _ & _ & _ & _ & _ & _ & _ & [[E _]|(E & _ & s' & u' & Hn')]);
          rewrite E; [left; reflexivity|right].
        apply (kept_not_prev _ _ _ _ _ _ _ R2 Hy2 Hn').
Qed.

Lemma free_spec h bl L p :
  HeapInv h bl L -> In p (used_ptrs bl) ->
  exists fsz bl' L',
    In (p - O1HEAP_ALIGNMENT, fsz, true) bl /\
    HeapInv (o1heapFree h p) bl' L' /\
    Permutation (used_ptrs bl) (p :: used_ptrs bl') /\
    diagnostics (o1heapFree h p) =
      set_allocated (diagnostics h) (allocated (diagnostics h) - fsz).
Proof.
  intros HI Hp.
  destruct (free_mem_spec h bl L p HI Hp) as (fsz & bl' & L' & Hin & HI' & Hperm & Hd & _).
  exists fsz, bl', L'. split; [exact Hin|]. split; [exact HI'|]. split; [exact Hperm|exact Hd].
Qed.

(** ** Initialisation *)

Lemma align_loop_spec : forall fuel c,
  0 <= c < 2 ^ WORD_BITS -> c mod FRAGMENT_SIZE_MIN < Z.of_nat fuel ->
  align_loop fuel c = c - c mod FRAGMENT_SIZE_MIN.
Proof.
  pose proof PTR_pos as HP.
  assert (HF : 0 < FRAGMENT_SIZE_MIN) by zl.
  induction fuel as [|k IH]; intros c Hc Hm.
  - pose proof (Z.mod_pos_bound c FRAGMENT_SIZE_MIN HF). lia.
  - cbn [align_loop]. destruct (Z.eqb_spec (c mod FRAGMENT_SIZE_MIN) 0) as [E|E].
    + lia.
    + pose proof (Z.mod_pos_bound c FRAGMENT_SIZE_MIN HF) as Hb.
      assert (c <> 0) by (intros ->; apply E; apply Z.mod_0_l; lia).
      rewrite wrap_small by lia.
      assert (Em : (c - 1) mod FRAGMENT_SIZE_MIN = c mod FRAGMENT_SIZE_MIN - 1).
      { symmetry. apply (Z.mod_unique_pos _ _ (c / FRAGMENT_SIZE_MIN)); [lia|].
        pose proof (Z.div_mod c FRAGMENT_SIZE_MIN ltac:(lia)). lia. }
      rewrite IH by lia. lia.
Qed.

Lemma init_spec m base size h :
  0 <= base -> 0 <= size -> base + size <= 2 ^ WORD_BITS ->
  o1heapInit m base size = Some h ->
  exists L,
    HeapInv h [(base + INSTANCE_SIZE_PADDED, capacity (diagnostics h), false)] L /\
    diagnostics h = mkDiag (capacity (diagnostics h)) 0 0 0 0 /\
    arena_end h = base + INSTANCE_SIZE_PADDED + capacity (diagnostics h).
Proof.
  intros Hb Hs Hbs Hinit. unfold o1heapInit in Hinit.
  pose proof PTR_pos as HP. pose proof FMAX_facts as (HW & HFx & HW8).
  pose proof ISP_facts as (Hisp & Hispd).
  assert (HF : 0 < FRAGMENT_SIZE_MIN) by zl.
  destruct (Z.eqb_spec base 0) as [|Hb0]; [discriminate|].
  destruct (Z.eqb_spec (base mod O1HEAP_ALIGNMENT) 0) as [Hal|]; [|discriminate].
  destruct (Z.leb_spec o1heapMinArenaSize size) as [Hmin|]; [|discriminate].
  cbn [negb andb] in Hinit.
  unfold o1heapMinArenaSize in Hmin. rewrite wrap_small in Hmin by zl.
  rewrite (wrap_small (size - INSTANCE_SIZE_PADDED)) in Hinit by lia.
  set (c1 := if size - INSTANCE_SIZE_PADDED >? FRAGMENT_SIZE_MAX
             then FRAGMENT_SIZE_MAX else size - INSTANCE_SIZE_PADDED) in *.
  assert (Hc1 : FRAGMENT_SIZE_MIN <= c1 <= FRAGMENT_SIZE_MAX /\
                c1 <= size - INSTANCE_SIZE_PADDED).
  { subst c1. destruct (Z.gtb_spec (size - INSTANCE_SIZE_PADDED) FRAGMENT_SIZE_MAX); zl. }
  pose proof (Z.mod_pos_bound c1 FRAGMENT_SIZE_MIN HF) as Hmod.
  rewrite align_loop_spec in Hinit by (rewrite ?Z2Nat.id; lia).
  set (cap := c1 - c1 mod FRAGMENT_SIZE_MIN) in *.
  assert (Hcapd : (FRAGMENT_SIZE_MIN | cap)).
  { exists (c1 / FRAGMENT_SIZE_MIN). subst cap.
    pose proof (Z.div_mod c1 FRAGMENT_SIZE_MIN ltac:(lia)). lia. }
  assert (Hcap : FRAGMENT_SIZE_MIN <= cap <= FRAGMENT_SIZE_MAX).
  { split; [|lia]. destruct Hcapd as [q Hq].
    assert (0 < q) by nia. nia. }
  set (frag := base + INSTANCE_SIZE_PADDED) in *.
  assert (Hfa : (O1HEAP_ALIGNMENT | frag)).
  { apply Z.divide_add_r; [|assumption]. apply Z.mod_divide; [zl|assumption]. }
  match type of Hinit with Some (rebin ?o _ _) = _ => set (out := o) in * end.
  assert (Rout : Rep out [(frag, cap, false)] (fun _ => [])).
  { constructor; cbn [out diagnostics capacity arena_end mem bins nonempty_bin_mask].
    - auto.
    - lia.
    - replace (frag + cap - cap) with frag by lia. cbn [seg].
      unfold fragGetNext, fragGetPrev, fragIsUsed. st.
      fold (fragGetPrev (fragSetUsed (fragSetPrev (fragSetNext m frag 0) frag 0) frag false)
              frag).
      fold (fragIsUsed (fragSetUsed (fragSetPrev (fragSetNext m frag 0) frag 0) frag false)
              frag).
      hsimp. rewrite getPrev_setPrev by (try apply Z.divide_0_r; zl).
      unfold fragSetUsed, fragSetPrev, fragSetNext. st.
      repeat split; auto; lia.
    - intros i Hi. cbn. repeat split; auto. constructor.
    - split; [lia|]. intros i Hi. rewrite Z.bits_0. reflexivity.
    - intros i g []. }
  assert (Hin : In (frag, cap, false) [(frag, cap, false)]) by (left; reflexivity).
  destruct (rebin_Rep _ _ _ _ _ Rout Hin (fun j (H : In frag []) => H))
    as (R' & Hd' & He' & _).
  inversion Hinit as [Eh]. clear Hinit.
  assert (Ecap : capacity (diagnostics (rebin out frag cap)) = cap) by (rewrite Hd'; reflexivity).
  rewrite Ecap. exists (bin_add (fun _ => []) (binidx cap) frag).
  split; [|split; [rewrite Hd'; reflexivity|rewrite He'; reflexivity]].
  split; [assumption|]. split; [|split].
  - apply binned_add.
    + intros g s [E|[]] Hn. inversion E; subst. exfalso. apply Hn. left. reflexivity.
    + intros s [E|[]]. inversion E. reflexivity.
  - cbn. auto.
  - rewrite Hd'. unfold DiagOk.
    cbn [out diagnostics capacity allocated peak_allocated peak_request_size oom_count
         used_total].
    unfold SIZE_MAX. pose proof (wrap_range (-1)).
    repeat split; try lia. apply Z.divide_0_r.
Qed.

(** ** Reallocation *)

Lemma binned_replace X Y b1 mid mid' b2 L m p a z b :
  seg m p a (b1 ++ mid ++ b2) z b ->
  binned_but X (b1 ++ mid ++ b2) L ->
  (forall g, In g X -> In g (map baddr mid)) ->
  (forall g s, In (g, s, false) mid' -> In g Y) ->
  binned_but Y (b1 ++ mid' ++ b2) L.
Proof.
  intros Hseg Hb HX HY g s Hg Hn.
  assert (Hin : In (g, s, false) b1 \/ In (g, s, false) b2).
  { apply in_app_or in Hg. destruct Hg as [Hg|Hg]; auto.
    apply in_app_or in Hg. destruct Hg as [Hg|Hg]; auto.
    exfalso. apply Hn. apply (HY g s Hg). }
  pose proof (mid_disjoint _ _ _ _ _ _ (seg_nodup _ _ _ _ _ _ Hseg) Hin) as Hnm.
  apply Hb.
  - apply in_or_app. destruct Hin; [left; assumption|].
    right. apply in_or_app. right. assumption.
  - intros HgX. apply Hnm. apply HX. assumption.
Qed.

Lemma HeapInv_set_diag h bl L d :
  HeapInv h bl L -> capacity d = capacity (diagnostics h) -> DiagOk d bl ->
  HeapInv (set_diag h d) bl L.
Proof.
  intros (R & Hb & Hn & _) Hc HD.
  split; [apply Rep_set_diag; assumption|]. split; [|split]; assumption.
Qed.

(** The address-order neighbours of a block, as the source inspects them. *)
Lemma neighbours h b1 f fsz u b2 L :
  Rep h (b1 ++ [(f, fsz, u)] ++ b2) L -> noadj b1 -> noadj b2 ->
  let prev := fragGetPrev (mem h) f in
  let next := fragGetNext (mem h) f in
  ((negb (prev =? 0) && negb (fragIsUsed (mem h) prev) = false /\ last_used b1 = true) \/
   (negb (prev =? 0) && negb (fragIsUsed (mem h) prev) = true /\
    exists b1' ps, b1 = b1' ++ [(prev, ps, false)] /\ fragGetSize h prev = ps /\
                   prev + ps = f /\ last_used b1' = true /\ noadj b1')) /\
  ((negb (next =? 0) && negb (fragIsUsed (mem h) next) = false /\ hd_used b2 = true /\
    next = match b2 with [] => 0 | _ => f + fsz end) \/
   (negb (next =? 0) && negb (fragIsUsed (mem h) next) = true /\
    exists ns b2', b2 = (next, ns, false) :: b2' /\ fragGetSize h next = ns /\
                   next = f + fsz /\ hd_used b2' = true /\ noadj b2' /\
                   fragGetNext (mem h) next = match b2' with [] => 0 | _ => next + ns end)).
Proof.
  intros R Hna1 Hna2 prev next.
  pose proof PTR_pos. pose proof FMAX_facts as (HW & HF & HW8).
  pose proof (rep_seg _ _ _ R) as Hseg.
  pose proof (seg_split _ _ _ _ _ _ _ _ _ _ Hseg)
    as (Hs1 & Hnx & Hpv & _ & _ & _ & _ & Hs2).
  assert (Hf : In (f, fsz, u) (b1 ++ [(f, fsz, u)] ++ b2))
    by (apply in_or_app; right; left; reflexivity).
  destruct (Rep_block _ _ _ _ _ _ R Hf) as (Hf0 & _).
  split.
  - change (prev = last_addr b1 0) in Hpv.
    destruct b1 as [|b0 b1r] eqn:Eb1.
    { left. cbn [last_addr] in Hpv. rewrite Hpv. auto. }
    rewrite <- Eb1 in *.
    destruct (last_block b1 0 ltac:(rewrite Eb1; discriminate))
      as (b1' & pv & ps & pu & Eb1' & Hla).
    rewrite Hla in Hpv.
    assert (Hin : In (pv, ps, pu) (b1 ++ [(f, fsz, u)] ++ b2)).
    { apply in_or_app. left. rewrite Eb1'. apply in_or_app. right. left. reflexivity. }
    destruct (Rep_block _ _ _ _ _ _ R Hin)
      as (Hp0 & _ & _ & _ & _ & _ & Hpsz & Hpu & _ & _ & _).
    rewrite Hpv. destruct (Z.eqb_spec pv 0); [lia|]. rewrite Hpu.
    rewrite Eb1' in Hs1. apply seg_split in Hs1.
    destruct Hs1 as (_ & _ & _ & _ & _ & _ & _ & Hend1). cbn [seg] in Hend1.
    destruct pu; [left|right]; cbn [negb andb].
    + split; [reflexivity|]. rewrite Eb1'. apply last_used_app_single.
    + split; [reflexivity|]. exists b1', ps.
      rewrite Eb1' in Hna1. apply noadj_app in Hna1.
      destruct Hna1 as (Hn1 & _ & Hn3). cbn [hd_used] in Hn3.
      rewrite orb_false_r in Hn3. auto.
  - change (next = match b2 with [] => 0 | _ => f + fsz end) in Hnx.
    destruct b2 as [|[[nx ns] nu] b2'] eqn:Eb2.
    { left. rewrite Hnx. auto. }
    assert (Hin : In (nx, ns, nu) (b1 ++ [(f, fsz, u)] ++ (nx, ns, nu) :: b2')).
    { apply in_or_app. right. right. left. reflexivity. }
    destruct (Rep_block _ _ _ _ _ _ R Hin)
      as (Hp0 & _ & _ & _ & _ & _ & Hnsz & Hnu & _ & _ & _).
    cbn [seg] in Hs2. destruct Hs2 as (Enx & Hnn & _).
    rewrite Hnx. destruct (Z.eqb_spec (f + fsz) 0); [lia|].
    rewrite <- Enx in *. rewrite Hnu.
    destruct nu; [left|right]; cbn [negb andb].
    + auto.
    + split; [reflexivity|]. exists ns, b2'.
      cbn [noadj hd_used orb] in Hna2. destruct Hna2 as [Hn1 Hn2].
      repeat split; auto.
Qed.

(** Stores outside the headers of the block list and outside the links of
    its free blocks keep the representation. *)
Lemma payload_Rep h bl L m' g s :
  Rep h bl L -> In (g, s, true) bl ->
  (forall x, x < g + O1HEAP_ALIGNMENT \/ g + s <= x -> m' x = mem h x) ->
  Rep (set_mem h m') bl L.
Proof.
  intros R Hg Hm. destruct (in_split _ _ Hg) as (b1 & b2 & Ebl).
  pose proof PTR_pos.
  rewrite Ebl in R |- *.
  change (b1 ++ (g, s, true) :: b2) with (b1 ++ [(g, s, true)] ++ b2) in *.
  apply Rep_carve with (mid := [(g, s, true)]); try assumption; try discriminate.
  - intros g' s' u' [E|[]] j. injection E as <- <- <-.
    apply (Rep_used_unbinned _ _ _ g s R).
    apply in_or_app; right; left; reflexivity.
  - intros a b Hseg Ha Hab Hb Hpb.
    cbn [seg] in Hseg. destruct Hseg as (<- & Hn & Hp & Hu & Hal & Hxs & Hxd & <-).
    split; [|split].
    + cbn [seg]. unfold fragGetNext, fragGetPrev, fragIsUsed in *.
      rewrite !Hm by zl. repeat split; auto.
    + intros x Hx. apply Hm. zl.
    + intros Hne. unfold fragGetPrev, fragIsUsed in *. rewrite !Hm by zl.
      repeat split; auto.
Qed.

Lemma payload_HeapInv h bl L m' g s :
  HeapInv h bl L -> In (g, s, true) bl ->
  (forall x, x < g + O1HEAP_ALIGNMENT \/ g + s <= x -> m' x = mem h x) ->
  HeapInv (set_mem h m') bl L.
Proof.
  intros (R & Hb & Hn & HD) Hg Hm.
  split; [eapply payload_Rep; eassumption|]. split; [|split]; assumption.
Qed.

Lemma carve_back_Rep h L b1 x xs ux ds b2 m0 ns rs ux' z :
  Rep h (b1 ++ ((x, xs, ux) :: ds) ++ b2) L ->
  (forall g s u, In (g, s, u) ((x, xs, ux) :: ds) -> forall j, ~ In g (L j)) ->
  xs + total ds = ns + rs ->
  FRAGMENT_SIZE_MIN <= ns -> (FRAGMENT_SIZE_MIN | ns) ->
  FRAGMENT_SIZE_MIN <= rs -> (FRAGMENT_SIZE_MIN | rs) ->
  (forall y, y < x + PTR \/ x + ns + rs <= y -> m0 y = mem h y) ->
  fragGetPrev m0 x = fragGetPrev (mem h) x -> fragIsUsed m0 x = ux' ->
  z = (match b2 with [] => 0 | _ => x + ns + rs end) ->
  Rep (set_mem h (carve_back m0 x (x + ns) z))
      (b1 ++ [(x, ns, ux'); (x + ns, rs, false)] ++ b2) L.
Proof.
  intros R Hunb Htot Hns Hnd Hrs Hrd Hm0 Hp0 Hu0 Hz.
  destruct (rep_arena _ _ _ R) as [Hst Hend].
  apply Rep_carve with (mid := (x, xs, ux) :: ds); try assumption; try discriminate.
  intros a b Hseg Ha Hab Hb _.
  pose proof (seg_total _ _ _ _ _ _ Hseg) as Ht. cbn [total] in Ht.
  cbn [seg] in Hseg. destruct Hseg as (<- & Hn & Hp & Hu & Hal & Hxs & Hxd & Hr).
  assert (Eb : b = x + ns + rs) by lia. subst b.
  assert (Hnew : (O1HEAP_ALIGNMENT | x + ns)).
  { apply Z.divide_add_r; [assumption|apply A_div_of_F; assumption]. }
  pose proof PTR_pos. pose proof FMAX_facts.
  unfold carve_back.
  destruct b2 as [|nb b2']; subst z.
  - rewrite interlink_n0 by zl. rewrite interlink_nn by zl.
    split; [|split].
    + cbn [seg]. hsimp. rewrite Hp0, Hu0.
      repeat split; auto; zl.
    + intros y Hy. unf_hdr. st. apply Hm0. zl.
    + intros Hne. exfalso. apply Hne. reflexivity.
  - rewrite !interlink_nn by zl.
    split; [|split].
    + cbn [seg]. hsimp. rewrite Hp0, Hu0.
      repeat split; auto; zl.
    + intros y Hy. unf_hdr. st. apply Hm0. zl.
    + intros _. split; [|split].
      * unf_hdr. st. apply Hm0. zl.
      * cbn [last_addr]. hsimp. reflexivity.
      * hsimp. apply isUsed_frame. apply Hm0. zl.
Qed.

Lemma rebin_set_diag h x S d : set_diag (rebin h x S) d = rebin (set_diag h d) x S.
Proof. reflexivity. Qed.

Lemma diag_update h delta :
  update_peak_allocated (add_allocated h delta) =
  set_diag h (mkDiag (capacity (diagnostics h))
                (wrap (allocated (diagnostics h) + delta))
                (larger (peak_allocated (diagnostics h))
                        (wrap (allocated (diagnostics h) + delta)))
                (peak_request_size (diagnostics h)) (oom_count (diagnostics h))).
Proof. reflexivity. Qed.

(** The end of the paths that split a free tail off the block. *)
Lemma finish_split h b1 q qs x S b2 L d :
  Rep h (b1 ++ [(q, qs, true); (x, S, false)] ++ b2) L ->
  (forall j, ~ In x (L j)) ->
  binned_but [x] (b1 ++ [(q, qs, true); (x, S, false)] ++ b2) L ->
  noadj b1 -> noadj b2 -> hd_used b2 = true ->
  capacity d = capacity (diagnostics h) ->
  DiagOk d (b1 ++ [(q, qs, true); (x, S, false)] ++ b2) ->
  exists L', HeapInv (set_diag (rebin h x S) d)
                     (b1 ++ [(q, qs, true); (x, S, false)] ++ b2) L'.
Proof.
  intros R Hunb Hbin Hn1 Hn2 Hh Hc HD.
  assert (E : b1 ++ [(q, qs, true); (x, S, false)] ++ b2 =
              (b1 ++ [(q, qs, true)]) ++ [(x, S, false)] ++ b2).
  { rewrite <- app_assoc. reflexivity. }
  rewrite E in *. rewrite rebin_set_diag.
  destruct (finish_free (set_diag h d) (b1 ++ [(q, qs, true)]) x S b2 L d) as (L' & HI & _);
    try assumption; try reflexivity.
  - apply Rep_set_diag; assumption.
  - apply noadj_app. cbn [noadj hd_used orb]. repeat split; auto.
    apply orb_true_r.
  - apply last_used_app_single.
  - exists L'. assumption.
Qed.

(** The end of the paths that give the block all the space they took. *)
Lemma finish_absorb h b1 q S b2 L d X bl0 m p a z b :
  Rep h (b1 ++ [(q, S, true)] ++ b2) L ->
  bl0 = b1 ++ X ++ b2 -> seg m p a bl0 z b -> binned_but (map baddr X) bl0 L ->
  noadj b1 -> noadj b2 ->
  capacity d = capacity (diagnostics h) ->
  DiagOk d (b1 ++ [(q, S, true)] ++ b2) ->
  HeapInv (set_diag h d) (b1 ++ [(q, S, true)] ++ b2) L.
Proof.
  intros R E0 Hseg Hbin Hn1 Hn2 Hc HD. subst bl0.
  split; [apply Rep_set_diag; assumption|]. split; [|split; [|assumption]].
  - apply (binned_replace (map baddr X) [] b1 X [(q, S, true)] b2 L _ _ _ _ _ Hseg Hbin).
    + auto.
    + intros g s [E|[]]. discriminate.
  - apply noadj_app. split; [assumption|]. split.
    + cbn [app noadj orb]. auto.
    + cbn [app hd_used]. apply orb_true_r.
Qed.

(** [unbin] on a memory that differs from the represented one away from
    the free-list links. *)
Lemma unbin_links_point mA mB g x :
  mB (g + off_next_free) = mA (g + off_next_free) ->
  mB (g + off_prev_free) = mA (g + off_prev_free) ->
  mB x = mA x ->
  unbin_links mB g x = unbin_links mA g x.
Proof.
  intros H1 H2 H3. unfold unbin_links. rewrite H1, H2.
  destruct (mA (g + off_next_free) =? 0).
  - rewrite H1, H2. destruct (mA (g + off_prev_free) =? 0); [assumption|].
    unfold store. rewrite H3. reflexivity.
  - unfold store. rewrite H1, H2.
    destruct (g + off_prev_free =? mA (g + off_next_free) + off_prev_free);
      destruct (g + off_next_free =? mA (g + off_next_free) + off_prev_free);
      destruct (x =? mA (g + off_next_free) + off_prev_free);
      destruct (mA (g + off_prev_free) =? 0); rewrite ?H3; reflexivity.
Qed.

Lemma unbin_links_other m g x :
  (m (g + off_next_free) = 0 \/ x <> m (g + off_next_free) + off_prev_free) ->
  (m (g + off_prev_free) = 0 \/ x <> m (g + off_prev_free) + off_next_free) ->
  unbin_links m g x = m x.
Proof.
  intros H1 H2. unfold unbin_links, store.
  destruct (Z.eqb_spec (m (g + off_next_free)) 0) as [E1|E1].
  - destruct (Z.eqb_spec (m (g + off_prev_free)) 0) as [E2|E2]; [reflexivity|].
    destruct (Z.eqb_spec x (m (g + off_prev_free) + off_next_free)); [lia|reflexivity].
  - destruct (Z.eqb_spec (g + off_prev_free) (m (g + off_next_free) + off_prev_free)).
    + destruct (Z.eqb_spec (m (g + off_prev_free)) 0) as [E2|E2].
      * destruct (Z.eqb_spec x (m (g + off_next_free) + off_prev_free)); [lia|reflexivity].
      * destruct (Z.eqb_spec x (m (g + off_prev_free) + off_next_free)); [lia|].
        destruct (Z.eqb_spec x (m (g + off_next_free) + off_prev_free)); [lia|reflexivity].
    + destruct (Z.eqb_spec (m (g + off_prev_free)) 0) as [E2|E2].
      * destruct (Z.eqb_spec x (m (g + off_next_free) + off_prev_free)); [lia|reflexivity].
      * destruct (Z.eqb_spec x (m (g + off_prev_free) + off_next_free)); [lia|].
        destruct (Z.eqb_spec x (m (g + off_next_free) + off_prev_free)); [lia|reflexivity].
Qed.

Lemma unbin_cong h m' g s :
  m' (g + off_next_free) = mem h (g + off_next_free) ->
  m' (g + off_prev_free) = mem h (g + off_prev_free) ->
  unbin (set_mem h m') g s = set_mem (unbin h g s) (unbin_links m' g).
Proof.
  intros H1 H2.
  pose proof (unbin_links_point (mem h) m' g (g + off_next_free) H1 H2 H1) as E.
  unfold unbin. cbn [set_mem mem bins nonempty_bin_mask arena_end diagnostics].
  fold (unbin_links m' g). fold (unbin_links (mem h) g). rewrite E.
  destruct (bins h (log2Floor (s / FRAGMENT_SIZE_MIN)) =? g); reflexivity.
Qed.

Lemma Rep_link_targets h bl L i g :
  Rep h bl L -> In g (L i) ->
  (mem h (g + off_next_free) = 0 \/ exists s, In (mem h (g + off_next_free), s, false) bl) /\
  (mem h (g + off_prev_free) = 0 \/ exists s, In (mem h (g + off_prev_free), s, false) bl).
Proof.
  intros R Hg. destruct (rep_mem _ _ _ R i g Hg) as (Hi & _).
  destruct (rep_bins _ _ _ R i Hi) as (Hdll & _ & _).
  destruct (in_split _ _ Hg) as (l1 & l2 & El). rewrite El in Hdll.
  assert (Hsub : forall x, In x l1 \/ In x l2 -> exists s, In (x, s, false) bl).
  { intros x Hx. destruct (rep_mem _ _ _ R i x) as (_ & s & Hs & _); [|eauto].
    rewrite El. apply in_or_app. destruct Hx; [left|right; right]; assumption. }
  apply dll_app in Hdll. destruct Hdll as (_ & Hd2). cbn [dll] in Hd2.
  destruct Hd2 as (Hp & Hn & _). rewrite Hp, Hn. split.
  - destruct l2 as [|a r]; [left; reflexivity|right]. apply Hsub. right. left. reflexivity.
  - destruct l1 as [|a r]; [left; reflexivity|right]. apply Hsub. left.
    apply lastz_in. discriminate.
Qed.

Lemma unbin_links_frame h bl L i g m' x :
  Rep h bl L -> In g (L i) ->
  m' (g + off_next_free) = mem h (g + off_next_free) ->
  m' (g + off_prev_free) = mem h (g + off_prev_free) ->
  not_link bl x -> unbin_links m' g x = m' x.
Proof.
  intros R Hg H1 H2 Hx. destruct (Rep_link_targets _ _ _ _ _ R Hg) as [Hn Hp].
  apply unbin_links_other; rewrite ?H1, ?H2.
  - destruct Hn as [E|[s Hs]]; [left; assumption|right]. apply (Hx _ _ Hs).
  - destruct Hp as [E|[s Hs]]; [left; assumption|right]. apply (Hx _ _ Hs).
Qed.

Lemma not_link_inside h bl L g s x :
  Rep h bl L -> In (g, s, true) bl -> g <= x < g + s -> not_link bl x.
Proof.
  intros R Hg Hx g' s' Hg'. pose proof PTR_pos.
  destruct (Rep_sep _ _ _ _ _ _ _ _ _ R Hg Hg') as [(_ & _ & E)|[E|E]];
    [discriminate|zl|zl].
Qed.

(** The shrinking path when the next fragment is free: the tail that is
    split off is joined with it. *)
Lemma shrink_merge_Rep h L b1 f fsz ns k b2' next :
  Rep h (b1 ++ [(f, fsz, true); (next, ns, false)] ++ b2') L ->
  In next (L (binidx ns)) -> (forall j, ~ In f (L j)) ->
  FRAGMENT_SIZE_MIN <= k -> (FRAGMENT_SIZE_MIN | k) -> k + FRAGMENT_SIZE_MIN <= fsz ->
  let new := f + k in
  let h2 := set_mem h (interlink (fragSetUsed (mem h) new false) f new) in
  let h3 := unbin h2 next ns in
  Rep (set_mem h3 (interlink (mem h3) new (fragGetNext (mem h3) next)))
      (b1 ++ [(f, k, true); (new, fsz - k + ns, false)] ++ b2')
      (bin_remove L (binidx ns) next) /\
  diagnostics h3 = diagnostics h /\
  (forall y, not_link (b1 ++ [(f, fsz, true); (next, ns, false)] ++ b2') y ->
             y <> f -> y <> new -> y <> new + off_prev_used ->
             b2' = [] \/ y <> next + ns + off_prev_used ->
             mem (set_mem h3 (interlink (mem h3) new (fragGetNext (mem h3) next))) y
             = mem h y).
Proof.
  intros R Hnb Hunbf Hk Hkd Hkf new h2 h3.
  pose proof PTR_pos. pose proof FMAX_facts as (HW & HF & HW8).
  set (bl := b1 ++ [(f, fsz, true); (next, ns, false)] ++ b2') in *.
  assert (Hinf : In (f, fsz, true) bl) by (apply in_or_app; right; left; reflexivity).
  assert (Hinn : In (next, ns, false) bl)
    by (apply in_or_app; right; right; left; reflexivity).
  destruct (Rep_block _ _ _ _ _ _ R Hinf)
    as (Hf0 & Hfe & Hend & _ & _ & _ & _ & Hfu & Hfa & Hfd & _).
  pose proof (rep_seg _ _ _ R) as Hseg0. unfold bl in Hseg0.
  apply seg_split in Hseg0.
  destruct Hseg0 as (_ & Hnf & Hpf & _ & _ & Hfs & _ & Hs2).
  cbn [app seg] in Hs2. destruct Hs2 as (Enx & Hnn & _ & _ & Hna & Hnsz & Hnd & Hs3).
  cbn [app] in Hnf.
  destruct (unbin_Rep _ _ _ _ _ R Hnb) as (RU & HdU & HeU & FU).
  set (m2 := interlink (fragSetUsed (mem h) new false) f new) in *.
  assert (Em2 : m2 = fragSetPrev (fragSetNext (fragSetUsed (mem h) new false) f new) new f).
  { unfold m2. apply interlink_nn; subst new; zl. }
  assert (Hm2 : forall x, x <> new + off_prev_used -> x <> f -> m2 x = mem h x).
  { intros x Hx1 Hx2. rewrite Em2. unf_hdr. st. reflexivity. }
  assert (E3 : h3 = set_mem (unbin h next ns) (unbin_links m2 next)).
  { unfold h3, h2. apply unbin_cong; apply Hm2; subst new; zl. }
  set (U := unbin_links m2 next) in *.
  assert (HU : forall x, not_link bl x -> U x = m2 x).
  { intros x Hx. unfold U. apply (unbin_links_frame _ _ _ _ _ _ _ R Hnb); [| |assumption];
      apply Hm2; subst new; zl. }
  assert (Hframe : forall y, not_link bl y -> y <> f -> y <> new ->
                     y <> new + off_prev_used ->
                     b2' = [] \/ y <> next + ns + off_prev_used ->
                     interlink U new (fragGetNext U next) y = mem h y).
  { intros y Hy1 Hy2 Hy3 Hy4 Hy5.
    assert (Ez0 : fragGetNext U next = match b2' with [] => 0 | _ => next + ns end).
    { unfold fragGetNext. rewrite HU by (apply (hdr_not_link _ _ _ _ _ _ R Hinn)).
      rewrite Hm2 by (subst new; zl). exact Hnn. }
    rewrite Ez0, interlink_other.
    - rewrite HU by assumption. apply Hm2; assumption.
    - right. assumption.
    - destruct b2'; [left; reflexivity|right].
      destruct Hy5 as [E|Hy5]; [discriminate E|exact Hy5]. }
  rewrite E3. split; [|split; [exact HdU|]].
  2:{ intros y Hy1 Hy2 Hy3 Hy4 Hy5. cbn [set_mem mem]. apply Hframe; assumption. }
  change (Rep (set_mem (unbin h next ns) (interlink U new (fragGetNext U next)))
            (b1 ++ [(f, k, true); (new, fsz - k + ns, false)] ++ b2')
            (bin_remove L (binidx ns) next)).
  destruct (hdr_not_link _ _ _ _ _ _ R Hinf) as [NLf NLf'].
  destruct (hdr_not_link _ _ _ _ _ _ R Hinn) as [NLn _].
  assert (NLnew : not_link bl new /\ not_link bl (new + off_prev_used)).
  { split; apply (not_link_inside _ _ _ _ _ _ R Hinf); subst new; zl. }
  destruct NLnew as [NLnew NLnew'].
  assert (Ez : fragGetNext U next = match b2' with [] => 0 | _ => next + ns end).
  { unfold fragGetNext. rewrite HU by assumption. rewrite Hm2 by (subst new; zl).
    exact Hnn. }
  rewrite Ez.
  assert (Hnewa : (O1HEAP_ALIGNMENT | new)).
  { apply Z.divide_add_r; [assumption|apply A_div_of_F; assumption]. }
  assert (HUf : fragGetNext U f = new /\ fragGetPrev U f = last_addr b1 0 /\
                fragIsUsed U f = true).
  { unfold fragGetNext. rewrite (getPrev_frame m2 U f), (isUsed_frame m2 U f)
      by (apply HU; assumption).
    rewrite HU by assumption. fold (fragGetNext m2 f). rewrite Em2. hsimp.
    repeat split; assumption. }
  assert (HUn : fragGetPrev U new = f /\ fragIsUsed U new = false).
  { rewrite (getPrev_frame m2 U new), (isUsed_frame m2 U new) by (apply HU; assumption).
    rewrite Em2. hsimp. split; reflexivity. }
  destruct HUf as (HUf1 & HUf2 & HUf3). destruct HUn as (HUn1 & HUn2).
  apply Rep_carve with (mid := [(f, fsz, true); (next, ns, false)]);
    try discriminate.
  - exact RU.
  - intros g s u [E|[E|[]]] j; injection E as <- _ _.
    + intros Hj. apply in_bin_remove in Hj. apply (Hunbf j Hj).
    + apply (Rep_unbinned_after_remove _ _ _ _ _ R Hinn).
  - intros a b Hseg Ha Hab Hb Hpb.
    cbn [seg] in Hseg. destruct Hseg as (<- & _ & _ & _ & _ & _ & _ & _ & _ & _ & _ & _ & _ & _ & Eb).
    subst b.
    assert (Hfr : forall x, x < f \/ next + ns + 2 * PTR <= x ->
                            U x = mem (unbin h next ns) x).
    { intros x Hx. rewrite mem_unbin. unfold U.
      apply unbin_links_point; apply Hm2; subst new; zl. }
    destruct b2' as [|nb b2r].
    + rewrite interlink_n0 by (subst new; zl).
      split; [|split].
      * cbn [seg]. hsimp. rewrite HUf1, HUf2, HUf3, HUn1, HUn2.
        repeat split; auto; try (subst new; zl).
        apply Z.divide_add_r; [apply Z.divide_sub_r|]; assumption.
      * intros x Hx. unf_hdr. st. apply Hfr. lia.
      * intros Hne. exfalso. apply Hne. reflexivity.
    + assert (Hinb : In nb bl).
      { apply in_or_app; right; right; right; left; reflexivity. }
      destruct nb as [[bn bs] bu]. cbn [seg] in Hs3. destruct Hs3 as (Ebn & _).
      subst bn.
      destruct (hdr_not_link _ _ _ _ _ _ R Hinb) as [NLb NLb'].
      rewrite !interlink_nn by (subst new; zl).
      split; [|split].
      * cbn [seg]. hsimp. rewrite HUf1, HUf2, HUf3, HUn1, HUn2.
        repeat split; auto; try (subst new; zl).
        apply Z.divide_add_r; [apply Z.divide_sub_r|]; assumption.
      * intros x Hx. unf_hdr. st. apply Hfr. lia.
      * intros _. split; [|split].
        -- unf_hdr. st. rewrite HU by assumption.
           rewrite Hm2 by (subst new; zl). symmetry. apply FU. assumption.
        -- cbn [last_addr]. hsimp. reflexivity.
        -- hsimp. apply isUsed_frame. rewrite HU by assumption.
           rewrite Hm2 by (subst new; zl). symmetry. apply FU. assumption.
Qed.

Lemma finish_split0 h b1 q qs x S b2 L :
  Rep h (b1 ++ [(q, qs, true); (x, S, false)] ++ b2) L ->
  (forall j, ~ In x (L j)) ->
  binned_but [x] (b1 ++ [(q, qs, true); (x, S, false)] ++ b2) L ->
  noadj b1 -> noadj b2 -> hd_used b2 = true ->
  DiagOk (diagnostics h) (b1 ++ [(q, qs, true); (x, S, false)] ++ b2) ->
  exists L', HeapInv (rebin h x S) (b1 ++ [(q, qs, true); (x, S, false)] ++ b2) L' /\
             diagnostics (rebin h x S) = diagnostics h.
Proof.
  intros R Hunb Hbin Hn1 Hn2 Hh HD.
  assert (E : b1 ++ [(q, qs, true); (x, S, false)] ++ b2 =
              (b1 ++ [(q, qs, true)]) ++ [(x, S, false)] ++ b2).
  { rewrite <- app_assoc. reflexivity. }
  rewrite E in *.
  apply (finish_free h (b1 ++ [(q, qs, true)]) x S b2 L (diagnostics h));
    try assumption; try reflexivity.
  - apply noadj_app. cbn [noadj hd_used orb]. repeat split; auto.
    apply orb_true_r.
  - apply last_used_app_single.
Qed.

Lemma kept_below h bl L y : Rep h bl L -> kept bl y -> y < arena_end h.
Proof.
  intros R (g & s & Hg & Hy). pose proof PTR_pos.
  destruct (Rep_block _ _ _ _ _ _ R Hg) as (_ & Hge & _ & Hs & _). zl.
Qed.

Lemma realloc_mem_post_post h bl p n r delta top :
  realloc_mem_post h bl p n r delta top -> realloc_post h bl p n r delta top.
Proof.
  intros (bl' & L' & rest & H1 & H2 & H3 & H4 & H5 & H6 & _).
  exists bl', L', rest. split; [exact H1|]. split; [exact H2|]. split; [exact H3|].
  split; [exact H4|]. split; [exact H5|exact H6].
Qed.

Section Realloc.

Variables (h : O1HeapInstance) (L : Z -> list Z) (b1 b2 : list block) (f fsz n : Z).

Local Abbreviation bl := (b1 ++ [(f, fsz, true)] ++ b2).
Local Abbreviation nfs := (ra_new_frag_size n).
Local Abbreviation d0 := (diagnostics h).

Hypothesis HI : HeapInv h bl L.
Hypothesis Hn : 0 < n <= capacity d0 - O1HEAP_ALIGNMENT.

Lemma ra_basic :
  (0 < f /\ f + fsz <= arena_end h /\ arena_end h <= 2 ^ WORD_BITS /\
   arena_end h - capacity d0 <= f /\ (O1HEAP_ALIGNMENT | f) /\
   FRAGMENT_SIZE_MIN <= fsz <= capacity d0 /\ (FRAGMENT_SIZE_MIN | fsz) /\
   capacity d0 <= FRAGMENT_SIZE_MAX) /\
  (FRAGMENT_SIZE_MIN <= nfs <= FRAGMENT_SIZE_MAX /\ (FRAGMENT_SIZE_MIN | nfs) /\
   n + O1HEAP_ALIGNMENT <= nfs) /\
  (allocated d0 = used_total b1 + fsz + used_total b2 /\
   0 <= used_total b1 /\ 0 <= used_total b2 /\
   (FRAGMENT_SIZE_MIN | used_total b1) /\ (FRAGMENT_SIZE_MIN | used_total b2) /\
   allocated d0 <= peak_allocated d0 <= capacity d0 /\
   (FRAGMENT_SIZE_MIN | peak_allocated d0) /\
   0 <= peak_request_size d0 <= SIZE_MAX /\ 0 <= oom_count d0 < 2 ^ 64) /\
  (fragGetSize h f = fsz /\ wrap (capacity d0 - O1HEAP_ALIGNMENT) = capacity d0 - O1HEAP_ALIGNMENT /\
   noadj b1 /\ noadj b2 /\ forall j, ~ In f (L j)).
Proof.
  destruct HI as (R & Hbin & Hna & HD).
  pose proof PTR_pos. pose proof FMAX_facts as (HW & HF & HW8).
  assert (Hf : In (f, fsz, true) bl) by (apply in_or_app; right; left; reflexivity).
  destruct (Rep_block _ _ _ _ _ _ R Hf)
    as (Hf0 & Hfe & Hend & Hfsz & Hcm & Hfst & Hgsz & Hfu & Hfa & Hfd & _).
  destruct (rep_cap _ _ _ R) as [Hcap Hcapd].
  destruct (alloc_size_facts n (capacity d0) Hcap Hn)
    as (k & Ek & Hk & Hlo & Hhi & Hr & Hdv & _).
  destruct HD as (Hal & Hpk & Hpd & Hprs & Hoom).
  pose proof (rep_seg _ _ _ R) as Hseg.
  pose proof (seg_split _ _ _ _ _ _ _ _ _ _ Hseg) as (Hs1 & _ & _ & _ & _ & _ & _ & Hs2).
  pose proof (used_total_le _ _ _ _ _ _ Hs1) as Hu1.
  pose proof (used_total_le _ _ _ _ _ _ Hs2) as Hu2.
  apply noadj_app in Hna. destruct Hna as (Hna1 & Hna2 & _).
  cbn [app noadj] in Hna2. destruct Hna2 as [_ Hna2].
  split; [|split; [|split]].
  - repeat split; auto; lia.
  - unfold ra_new_frag_size. rewrite Ek. repeat split; auto; lia.
  - assert (Ea : allocated d0 = used_total b1 + fsz + used_total b2).
    { rewrite Hal, used_total_app. cbn [app used_total]. lia. }
    repeat split; try lia; try assumption.
    + apply (used_total_div _ _ _ _ _ _ Hs1).
    + apply (used_total_div _ _ _ _ _ _ Hs2).
  - split; [assumption|]. split; [apply wrap_small; zl|].
    split; [assumption|]. split; [assumption|].
    apply (Rep_used_unbinned _ _ _ f fsz R Hf).
Qed.

Lemma ra_noted_inv : HeapInv (ra_noted h n) bl L.
Proof.
  destruct ra_basic as ((_ & _ & _ & _ & _ & _ & _ & Hcm) & _ &
    (Ha & _ & _ & _ & _ & Hpk & Hpd & Hprs & Hoom) & _).
  pose proof FMAX_facts as (HW & HF & HW8). pose proof PTR_pos.
  destruct HI as (R & Hbin & Hna & HD).
  apply HeapInv_set_diag; [exact HI|reflexivity|].
  destruct HD as (Hal & _). unfold DiagOk. cbn [set_peak_request_size allocated
    peak_allocated capacity peak_request_size oom_count].
  rewrite larger_max. unfold SIZE_MAX in *.
  repeat split; try assumption; try zl.
Qed.

(** The addresses whose contents a reallocation in place keeps: the
    payloads of the other blocks, and the payload of the block itself as
    far as the old and the new fragment both reach. *)
Local Abbreviation safe y :=
  ((exists g s, In (g, s, true) bl /\ g <> f /\ g + O1HEAP_ALIGNMENT <= y < g + s) \/
   f + O1HEAP_ALIGNMENT <= y < f + Z.min fsz nfs).

Lemma safe_kept bl' S y :
  (forall g s, In (g, s, true) bl -> g <> f -> In (g, s, true) bl') ->
  In (f, S, true) bl' -> Z.min fsz nfs <= S -> safe y -> kept bl' y.
Proof.
  intros Hother Hf HS [(g & s & Hg & Hne & Hy)|Hy].
  - exists g, s. split; [apply Hother; assumption|right; assumption].
  - exists f, S. split; [assumption|right; lia].
Qed.

Lemma safe_bl y : safe y -> kept bl y.
Proof.
  apply (safe_kept bl fsz).
  - intros g s Hg _. exact Hg.
  - apply in_or_app; right; left; reflexivity.
  - lia.
Qed.

Lemma safe_region y :
  safe y ->
  (y < f \/ f + O1HEAP_ALIGNMENT <= y) /\ (y < f + Z.min fsz nfs \/ f + fsz <= y).
Proof.
  intros [(g & s & Hg & Hne & Hy)|Hy]; [|lia].
  assert (Hin : In (f, fsz, true) bl) by (apply in_or_app; right; left; reflexivity).
  pose proof (kept_apart _ _ _ _ _ _ _ _ _ (HeapInv_Rep _ _ _ HI) Hg Hin Hne Hy).
  destruct ra_basic as ((_ & _ & _ & _ & _ & Hfsz & _) & (Hnfs & _) & _).
  pose proof PTR_pos. zl.
Qed.

Lemma others_keep c1 c2 mid mid' :
  bl = c1 ++ mid ++ c2 -> (forall g s, In (g, s, true) mid -> g = f) ->
  forall g s, In (g, s, true) bl -> g <> f -> In (g, s, true) (c1 ++ mid' ++ c2).
Proof.
  intros E Hm g s Hg Hne. rewrite E in Hg.
  apply (used_mid_keep c1 c2 mid mid' f Hm g s Hg Hne).
Qed.

Lemma mem_post_intro out h' delta top bl' L' rest :
  out <> 0 -> HeapInv h' bl' L' ->
  Permutation (used_ptrs bl) (f + O1HEAP_ALIGNMENT :: rest) ->
  Permutation (used_ptrs bl') (out :: rest) ->
  n + O1HEAP_ALIGNMENT <= allocated d0 + delta ->
  diagnostics h' =
    mkDiag (capacity d0) (allocated d0 + delta) (Z.max (peak_allocated d0) top)
           (larger (peak_request_size d0) n) (oom_count d0) ->
  In (out - O1HEAP_ALIGNMENT, nfs, true) bl' ->
  (forall g s, In (g, s, true) bl -> g <> f -> In (g, s, true) bl') ->
  (forall y, (exists g s, In (g, s, true) bl /\ g <> f /\
                          g + O1HEAP_ALIGNMENT <= y < g + s) ->
             mem h' y = mem h y) ->
  (forall i, 0 <= i < Z.min fsz nfs - O1HEAP_ALIGNMENT ->
             mem h' (out + i) = mem h (f + O1HEAP_ALIGNMENT + i)) ->
  realloc_mem_post h bl (f + O1HEAP_ALIGNMENT) n (out, h') delta top.
Proof.
  intros H1 H2 H3 H4 H5 H6 H7 H8 H9 H10.
  destruct ra_basic as (_ & _ & _ & (Hgsz & _)).
  unfold realloc_mem_post. cbv zeta. cbn [fst snd].
  replace (f + O1HEAP_ALIGNMENT - O1HEAP_ALIGNMENT) with f by lia.
  rewrite Hgsz.
  exists bl', L', rest.
  split; [exact H1|]. split; [exact H2|]. split; [exact H3|]. split; [exact H4|].
  split; [exact H5|]. split; [exact H6|]. split; [exact H7|]. split; [exact H8|].
  split; [exact H9|exact H10].
Qed.

Lemma mem_post_inplace h' delta top bl' L' rest :
  HeapInv h' bl' L' ->
  Permutation (used_ptrs bl) (f + O1HEAP_ALIGNMENT :: rest) ->
  Permutation (used_ptrs bl') (f + O1HEAP_ALIGNMENT :: rest) ->
  n + O1HEAP_ALIGNMENT <= allocated d0 + delta ->
  diagnostics h' =
    mkDiag (capacity d0) (allocated d0 + delta) (Z.max (peak_allocated d0) top)
           (larger (peak_request_size d0) n) (oom_count d0) ->
  In (f, nfs, true) bl' ->
  (forall g s, In (g, s, true) bl -> g <> f -> In (g, s, true) bl') ->
  (forall y, safe y -> mem h' y = mem h y) ->
  realloc_mem_post h bl (f + O1HEAP_ALIGNMENT) n (f + O1HEAP_ALIGNMENT, h') delta top.
Proof.
  intros H2 H3 H4 H5 H6 H7 H8 H9.
  destruct ra_basic as ((Hf0 & _) & _). pose proof PTR_pos.
  apply (mem_post_intro _ _ _ _ bl' L' rest); try assumption.
  - zl.
  - replace (f + O1HEAP_ALIGNMENT - O1HEAP_ALIGNMENT) with f by lia. exact H7.
  - intros y Hy. apply H9. left. exact Hy.
  - intros i Hi. apply H9. right. lia.
Qed.

Lemma realloc_shrink :
  nfs <= fsz ->
  realloc_mem_post h bl (f + O1HEAP_ALIGNMENT) n
    (o1heapReallocate h (f + O1HEAP_ALIGNMENT) n) (nfs - fsz) (allocated d0 + (nfs - fsz)).
Proof.
  intros Hle.
  destruct ra_basic as ((Hf0 & Hfe & Hend & Hfst & Hfa & Hfsz & Hfd & Hcm) &
    (Hnfs & Hnd & Hnn) & (Ha & Hu1 & Hu2 & Hud1 & Hud2 & Hpk & Hpd & Hprs & Hoom) &
    (Hgsz & Hwc & Hna1 & Hna2 & Hunbf)).
  pose proof ra_noted_inv as HI0.
  pose proof PTR_pos. pose proof FMAX_facts as (HW & HF & HW8).
  unfold o1heapReallocate.
  destruct (Z.eqb_spec (f + O1HEAP_ALIGNMENT) 0) as [E0|_]; [zl|].
  destruct (Z.eqb_spec n 0) as [E0|_]; [lia|].
  replace (f + O1HEAP_ALIGNMENT - O1HEAP_ALIGNMENT) with f by lia.
  fold (ra_noted h n). cbv zeta.
  change (capacity (diagnostics (ra_noted h n))) with (capacity d0).
  rewrite Hwc. destruct (Z.gtb_spec n (capacity d0 - O1HEAP_ALIGNMENT)) as [E0|_]; [lia|].
  change (fragGetSize (ra_noted h n) f) with (fragGetSize h f). rewrite Hgsz.
  fold nfs.
  destruct (Z.leb_spec nfs fsz) as [_|E0]; [|lia].
  rewrite (wrap_small (fsz - nfs)) by zl.
  destruct (Z.geb_spec (fsz - nfs) FRAGMENT_SIZE_MIN) as [Hlo|Hlo].
  2:{ (* nothing to split off *)
    assert (E : fsz - nfs = 0).
    { apply (divide_small FRAGMENT_SIZE_MIN); [zl|apply Z.divide_sub_r; assumption|lia]. }
    assert (Hp : Permutation (used_ptrs bl)
                   (f + O1HEAP_ALIGNMENT :: used_ptrs b1 ++ used_ptrs b2)).
    { rewrite used_ptrs_app. cbn [app used_ptrs]. symmetry. apply Permutation_middle. }
    apply (mem_post_inplace (ra_noted h n) _ _ bl L (used_ptrs b1 ++ used_ptrs b2)
             HI0 Hp Hp).
    - lia.
    - unfold ra_noted, set_peak_request_size. cbn [diagnostics set_diag].
      f_equal; lia.
    - replace nfs with fsz by lia. apply in_or_app; right; left; reflexivity.
    - intros g s Hg _. exact Hg.
    - intros y _. reflexivity. }
  change (mem (sub_allocated (ra_noted h n) (fsz - nfs))) with (mem h).
  change (mem (ra_noted h n)) with (mem h).
  destruct HI0 as (R0 & Hbin0 & Hna0 & HD0).
  pose proof (neighbours _ _ _ _ _ _ _ R0 Hna1 Hna2) as [_ Hnext]. cbv zeta in Hnext.
  change (mem (ra_noted h n)) with (mem h) in Hnext.
  set (next := fragGetNext (mem h) f) in *.
  set (new := f + nfs).
  assert (Hin : In (f, fsz, true) bl) by (apply in_or_app; right; left; reflexivity).
  assert (Hnewunb : forall j, ~ In new (L j)).
  { intros j Hj. destruct (rep_mem _ _ _ R0 _ _ Hj) as (_ & s & Hs & _).
    destruct (Rep_sep _ _ _ _ _ _ _ _ _ R0 Hin Hs) as [(E & _)|[E|E]]; subst new; zl. }
  destruct Hnext as [(En & Hhu & Hnx)|(En & ns & b2' & Eb2 & Hns & Hnf & Hhu' & Hn2' & Hnxn)];
    rewrite En.
  - (* the next fragment is used or absent *)
    match goal with |- realloc_mem_post _ _ _ _ (_, rebin ?hh _ _) _ _ =>
      change hh with
        (set_diag (set_mem (ra_noted h n) (carve_back (mem (ra_noted h n)) f new next))
           (set_allocated (diagnostics (ra_noted h n))
              (wrap (allocated (diagnostics (ra_noted h n)) - (fsz - nfs)))))
    end.
    rewrite <- rebin_set_diag.
    assert (Rc : Rep (set_mem (ra_noted h n) (carve_back (mem (ra_noted h n)) f new next))
                   (b1 ++ [(f, nfs, true); (new, fsz - nfs, false)] ++ b2) L).
    { apply carve_back_Rep with (xs := fsz) (ux := true) (ds := []).
      - exact R0.
      - intros g s u [E|[]] j. injection E as <- _ _. apply Hunbf.
      - cbn [total]. lia.
      - lia.
      - assumption.
      - lia.
      - apply Z.divide_sub_r; assumption.
      - reflexivity.
      - reflexivity.
      - apply (Rep_block _ _ _ _ _ _ R0 Hin).
      - rewrite Hnx. destruct b2; [reflexivity|lia]. }
    change (allocated (diagnostics (ra_noted h n))) with (allocated d0).
    rewrite (wrap_small (allocated d0 - (fsz - nfs))) by zl.
    destruct (finish_split _ b1 f nfs new (fsz - nfs) b2 L
                (set_allocated (diagnostics (ra_noted h n)) (allocated d0 - (fsz - nfs))) Rc)
      as (L' & HI').
    + assumption.
    + apply (binned_replace [] [new] b1 [(f, fsz, true)] _ b2 L _ _ _ _ _ (rep_seg _ _ _ R0)).
      * exact Hbin0.
      * intros g [].
      * intros g s [E|[E|[]]]; [discriminate|]. injection E as <- _. left. reflexivity.
    + assumption.
    + assumption.
    + assumption.
    + reflexivity.
    + unfold DiagOk.
      cbn [ra_noted set_diag diagnostics set_allocated set_peak_request_size allocated
           peak_allocated capacity peak_request_size oom_count].
      rewrite used_total_app. cbn [app used_total]. rewrite larger_max.
      unfold SIZE_MAX in *. repeat split; try assumption; try zl.
    + assert (Hoth : forall g s, In (g, s, true) bl -> g <> f ->
                In (g, s, true) (b1 ++ [(f, nfs, true); (new, fsz - nfs, false)] ++ b2)).
      { apply (others_keep b1 b2 [(f, fsz, true)] _ eq_refl).
        intros g s [E|[]]. injection E as <- _. reflexivity. }
      assert (Hinf' : In (f, nfs, true)
                         (b1 ++ [(f, nfs, true); (new, fsz - nfs, false)] ++ b2))
        by (apply in_or_app; right; left; reflexivity).
      assert (Hinnew : In (new, fsz - nfs, false)
                          (b1 ++ [(f, nfs, true); (new, fsz - nfs, false)] ++ b2))
        by (apply in_or_app; right; right; left; reflexivity).
      apply (mem_post_inplace _ _ _ (b1 ++ [(f, nfs, true); (new, fsz - nfs, false)] ++ b2)
               L' (used_ptrs b1 ++ used_ptrs b2) HI').
      * rewrite used_ptrs_app; cbn [app used_ptrs]; symmetry; apply Permutation_middle.
      * rewrite used_ptrs_app; cbn [app used_ptrs]; symmetry; apply Permutation_middle.
      * lia.
      * unfold ra_noted, set_allocated, set_peak_request_size.
        cbn [set_diag diagnostics allocated peak_allocated capacity peak_request_size
             oom_count].
        f_equal; lia.
      * exact Hinf'.
      * exact Hoth.
      * intros y Hy. cbn [set_diag mem].
        rewrite (rebin_keeps _ _ _ new _ y Rc Hinnew Hnewunb
                   (safe_kept _ nfs y Hoth Hinf' ltac:(lia) Hy)).
        cbn [set_mem mem ra_noted set_diag].
        destruct (safe_region y Hy) as [Hr1 Hr2].
        apply carve_back_other; [zl|subst new; zl|subst new; zl|].
        subst next.
        destruct (Rep_block _ _ _ _ _ _ R0 Hin)
          as (_ & _ & _ & _ & _ & _ & _ & _ & _ & _ & [[E _]|(E & _ & s' & u' & Hn')]);
          change (mem (ra_noted h n)) with (mem h) in E; rewrite E;
          [left; reflexivity|right].
        apply (kept_not_prev _ _ _ _ _ _ _ R0 (safe_bl y Hy) Hn').
  - (* the next fragment is free and joins the tail *)
    change (fragGetSize (ra_noted h n) next) with (fragGetSize h next) in *.
    rewrite Hns.
    set (hs := sub_allocated (ra_noted h n) (fsz - nfs)).
    assert (Rs : Rep hs (b1 ++ [(f, fsz, true); (next, ns, false)] ++ b2') L).
    { unfold hs, sub_allocated. apply Rep_set_diag; [|reflexivity].
      rewrite Eb2 in R0. exact R0. }
    assert (Hinn : In (next, ns, false) bl).
    { rewrite Eb2. apply in_or_app; right; right; left; reflexivity. }
    assert (HinL : In next (L (binidx ns))) by (apply (Hbin0 _ _ Hinn); intros []).
    destruct (Rep_block _ _ _ _ _ _ R0 Hinn) as (_ & Hne & _ & Hnsz & _ & _ & _ & _ & _ & Hnsd & _).
    change (arena_end (ra_noted h n)) with (arena_end h) in Hne.
    destruct (shrink_merge_Rep hs L b1 f fsz ns nfs b2' next Rs HinL Hunbf
                ltac:(lia) Hnd ltac:(lia)) as (R4 & Hd4 & Hfr4).
    cbv zeta in R4, Hd4, Hfr4. change (mem hs) with (mem h) in R4, Hd4, Hfr4.
    fold new in R4, Hd4, Hfr4.
    rewrite (wrap_small (fsz - nfs + ns)) by zl.
    match type of R4 with Rep ?hh _ _ => set (h4 := hh) in * end.
    assert (Hd4' : diagnostics h4 = diagnostics hs) by exact Hd4.
    destruct (finish_split0 h4 b1 f nfs new (fsz - nfs + ns) b2'
                (bin_remove L (binidx ns) next) R4) as (L' & HI' & Hd').
    + intros j Hj. apply in_bin_remove in Hj. apply (Hnewunb j Hj).
    + apply (binned_replace [next] [new] b1 [(f, fsz, true); (next, ns, false)] _ b2' _
               _ _ _ _ _ (rep_seg _ _ _ Rs)).
      * apply binned_remove. rewrite Eb2 in Hbin0. exact Hbin0.
      * intros g [<-|[]]. right. left. reflexivity.
      * intros g s [E|[E|[]]]; [discriminate|]. injection E as <- _. left. reflexivity.
    + assumption.
    + assumption.
    + assumption.
    + rewrite Hd4'. unfold DiagOk, hs, sub_allocated, ra_noted, set_allocated,
        set_peak_request_size.
      cbn [set_diag diagnostics allocated peak_allocated capacity peak_request_size
           oom_count].
      rewrite (wrap_small (allocated d0 - (fsz - nfs))) by zl.
      rewrite used_total_app. cbn [app used_total]. rewrite larger_max.
      rewrite Eb2 in Ha. cbn [used_total] in Ha.
      unfold SIZE_MAX in *. repeat split; try assumption; try zl.
    + assert (Hoth : forall g s, In (g, s, true) bl -> g <> f ->
                In (g, s, true) (b1 ++ [(f, nfs, true); (new, fsz - nfs + ns, false)] ++ b2')).
      { apply (others_keep b1 b2' [(f, fsz, true); (next, ns, false)] _).
        - rewrite Eb2. reflexivity.
        - intros g s [E|[E|[]]]; [injection E as <- _; reflexivity|discriminate E]. }
      assert (Hinf' : In (f, nfs, true)
                         (b1 ++ [(f, nfs, true); (new, fsz - nfs + ns, false)] ++ b2'))
        by (apply in_or_app; right; left; reflexivity).
      assert (Hinnew : In (new, fsz - nfs + ns, false)
                          (b1 ++ [(f, nfs, true); (new, fsz - nfs + ns, false)] ++ b2'))
        by (apply in_or_app; right; right; left; reflexivity).
      apply (mem_post_inplace _ _ _
               (b1 ++ [(f, nfs, true); (new, fsz - nfs + ns, false)] ++ b2')
               L' (used_ptrs b1 ++ used_ptrs b2) HI').
      * rewrite used_ptrs_app; cbn [app used_ptrs]; symmetry; apply Permutation_middle.
      * rewrite used_ptrs_app, Eb2. cbn [app used_ptrs]. symmetry.
        apply Permutation_middle.
      * lia.
      * rewrite Hd', Hd4'. unfold hs, sub_allocated, ra_noted, set_allocated,
          set_peak_request_size.
        cbn [set_diag diagnostics allocated peak_allocated capacity peak_request_size
             oom_count].
        rewrite (wrap_small (allocated d0 - (fsz - nfs))) by zl.
        f_equal; lia.
      * exact Hinf'.
      * exact Hoth.
      * intros y Hy.
        rewrite (rebin_keeps _ _ _ new _ y R4 Hinnew
                   ltac:(intros j Hj; apply in_bin_remove in Hj; apply (Hnewunb j Hj))
                   (safe_kept _ nfs y Hoth Hinf' ltac:(lia) Hy)).
        destruct (safe_region y Hy) as [Hr1 Hr2].
        pose proof (safe_bl y Hy) as Hk.
        apply Hfr4.
        -- rewrite Eb2 in R0, Hk. apply (kept_not_link _ _ _ _ R0 Hk).
        -- zl.
        -- subst new; zl.
        -- subst new; zl.
        -- right.
           destruct (Rep_block _ _ _ _ _ _ R0 Hinn)
             as (_ & _ & _ & _ & _ & _ & _ & _ & _ & _ &
                 [[_ E]|(_ & _ & s' & u' & Hn')]).
           ++ pose proof (kept_below _ _ _ _ R0 Hk) as Hb.
              change (arena_end (ra_noted h n)) with (arena_end h) in E, Hb. zl.
           ++ apply (kept_not_prev _ _ _ _ _ _ _ R0 Hk Hn').
Qed.

Lemma div_gap d a b : 0 < d -> (d | a) -> (d | b) -> a < b -> a + d <= b.
Proof. intros Hd [x ->] [y ->] Hab. assert (x < y) by nia. nia. Qed.

Lemma DiagOk_after hh bl' LL pk prs oom :
  Rep hh bl' LL -> pk <= capacity (diagnostics hh) -> (FRAGMENT_SIZE_MIN | pk) ->
  0 <= prs <= SIZE_MAX -> 0 <= oom < 2 ^ 64 ->
  DiagOk (mkDiag (capacity (diagnostics hh)) (used_total bl')
                 (Z.max pk (used_total bl')) prs oom) bl'.
Proof.
  intros R Hpk Hpd Hprs Hoom.
  pose proof (rep_seg _ _ _ R) as Hseg.
  pose proof (used_total_le _ _ _ _ _ _ Hseg) as Hu.
  pose proof (seg_total _ _ _ _ _ _ Hseg) as Ht.
  pose proof (used_total_div _ _ _ _ _ _ Hseg) as Hd.
  unfold DiagOk. cbn [allocated peak_allocated capacity peak_request_size oom_count].
  repeat split; try lia.
  destruct (Z.max_spec pk (used_total bl')) as [[_ ->]|[_ ->]]; assumption.
Qed.

Ltac ra_enter :=
  destruct ra_basic as ((Hf0 & Hfe & Hend & Hfst & Hfa & Hfsz & Hfd & Hcm) &
    (Hnfs & Hnd & Hnn) & (Ha & Hu1 & Hu2 & Hud1 & Hud2 & Hpk & Hpd & Hprs & Hoom) &
    (Hgsz & Hwc & Hna1 & Hna2 & Hunbf));
  pose proof ra_noted_inv as HI0;
  pose proof PTR_pos; pose proof FMAX_facts as (HW & HF & HW8);
  unfold o1heapReallocate;
  destruct (Z.eqb_spec (f + O1HEAP_ALIGNMENT) 0) as [E0|_]; [zl|];
  destruct (Z.eqb_spec n 0) as [E0|_]; [lia|];
  replace (f + O1HEAP_ALIGNMENT - O1HEAP_ALIGNMENT) with f by lia;
  fold (ra_noted h n); cbv zeta;
  change (capacity (diagnostics (ra_noted h n))) with (capacity d0);
  rewrite Hwc;
  destruct (Z.gtb_spec n (capacity d0 - O1HEAP_ALIGNMENT)) as [E0|_]; [lia|];
  change (fragGetSize (ra_noted h n) f) with (fragGetSize h f); rewrite Hgsz;
  fold nfs;
  change (mem (ra_noted h n)) with (mem h);
  destruct HI0 as (R0 & Hbin0 & Hna0 & HD0);
  pose proof (neighbours _ _ _ _ _ _ _ R0 Hna1 Hna2) as [Hprev Hnext];
  cbv zeta in Hprev, Hnext;
  change (mem (ra_noted h n)) with (mem h) in Hprev, Hnext;
  change (fragGetSize (ra_noted h n)) with (fragGetSize h) in *;
  assert (Hin : In (f, fsz, true) bl) by (apply in_or_app; right; left; reflexivity).

Lemma realloc_forward ns b2' :
  fsz < nfs -> b2 = (f + fsz, ns, false) :: b2' -> nfs <= fsz + ns ->
  realloc_mem_post h bl (f + O1HEAP_ALIGNMENT) n
    (o1heapReallocate h (f + O1HEAP_ALIGNMENT) n) (nfs - fsz) (allocated d0 + (nfs - fsz)).
Proof.
  intros Hgt Eb2 Hfit. ra_enter.
  destruct (Z.leb_spec nfs fsz) as [E0|_]; [lia|].
  set (next := fragGetNext (mem h) f) in *.
  destruct Hnext as [(En & Hhu & Hnx)|(En & ns' & b2'' & Eb2' & Hns & Hnf & Hhu' & Hn2' & Hnxn)];
    [rewrite Eb2 in Hhu; discriminate|].
  rewrite Eb2 in Eb2'. injection Eb2' as Enx <- <-.
  rewrite En, Hns. cbn [andb].
  assert (Hinn : In (next, ns, false) bl).
  { rewrite Eb2, Enx. apply in_or_app; right; right; left; reflexivity. }
  destruct (Rep_block _ _ _ _ _ _ R0 Hinn)
    as (_ & Hne & _ & Hnsz & _ & _ & _ & _ & _ & Hnsd & _).
  change (arena_end (ra_noted h n)) with (arena_end h) in Hne.
  rewrite (wrap_small (fsz + ns)) by zl.
  destruct (Z.geb_spec (fsz + ns) nfs) as [_|E0]; [|lia].
  rewrite (wrap_small (fsz + ns - nfs)) by zl.
  pose proof (div_gap FRAGMENT_SIZE_MIN _ _ ltac:(zl) Hfd Hnd Hgt) as Hgap.
  rewrite (wrap_small (nfs - fsz)) by zl.
  destruct (unbin_step _ _ _ [] _ _ R0 Hbin0 Hinn ltac:(intros []))
    as (R1 & Hb1 & Hun1 & Hkeep1 & Hd1 & He1 & Hfr1).
  assert (HinL : In next (L (binidx ns))) by (apply (Hbin0 _ _ Hinn); intros []).
  destruct (unbin_hdr _ _ _ _ _ _ _ _ R0 HinL Hinn) as (Hz1 & _).
  destruct (unbin_hdr _ _ _ _ _ _ _ _ R0 HinL Hin) as (_ & _ & Hfu1 & _).
  change (mem (ra_noted h n)) with (mem h) in Hz1, Hfu1.
  set (h1 := unbin (ra_noted h n) next ns) in *.
  set (L1 := bin_remove L (binidx ns) next) in *.
  set (new := f + nfs).
  rewrite Eb2, Enx in R1, Hb1.
  change (b1 ++ [(f, fsz, true)] ++ (next, ns, false) :: b2')
    with (b1 ++ ((f, fsz, true) :: [(next, ns, false)]) ++ b2') in R1, Hb1.
  assert (Hmid : forall g s u, In (g, s, u) [(f, fsz, true); (next, ns, false)] ->
                               forall j, ~ In g (L1 j)).
  { intros g s u [E|[E|[]]] j; injection E as <- _ _;
      [apply Hkeep1; assumption|apply Hun1]. }
  assert (Hfu : fragIsUsed (mem h1) f = true).
  { rewrite Hfu1. apply (Rep_block _ _ _ _ _ _ R0 Hin). }
  assert (Eu2 : used_total b2 = used_total b2') by (rewrite Eb2; reflexivity).
  assert (Ep2 : used_ptrs b2 = used_ptrs b2') by (rewrite Eb2; reflexivity).
  assert (Hdiag : forall hx delta, diagnostics hx = diagnostics h1 -> delta = nfs - fsz ->
            mkDiag (capacity (diagnostics hx))
              (wrap (allocated (diagnostics hx) + delta))
              (larger (peak_allocated (diagnostics hx))
                      (wrap (allocated (diagnostics hx) + delta)))
              (peak_request_size (diagnostics hx)) (oom_count (diagnostics hx)) =
            mkDiag (capacity d0) (allocated d0 + (nfs - fsz))
              (Z.max (peak_allocated d0) (allocated d0 + (nfs - fsz)))
              (larger (peak_request_size d0) n) (oom_count d0)).
  { intros hx delta -> ->. rewrite Hd1. unfold ra_noted, set_peak_request_size.
    cbn [set_diag diagnostics allocated peak_allocated capacity peak_request_size
         oom_count].
    rewrite (wrap_small (allocated d0 + (nfs - fsz))) by zl.
    rewrite larger_max. reflexivity. }
  assert (HDok : forall hx bl' LL, Rep hx bl' LL -> diagnostics hx = diagnostics h1 ->
            used_total bl' = allocated d0 + (nfs - fsz) ->
            DiagOk (mkDiag (capacity d0) (allocated d0 + (nfs - fsz))
                      (Z.max (peak_allocated d0) (allocated d0 + (nfs - fsz)))
                      (larger (peak_request_size d0) n) (oom_count d0)) bl').
  { intros hx bl' LL Rx Ex Eu. rewrite <- Eu.
    replace (capacity d0) with (capacity (diagnostics hx))
      by (rewrite Ex, Hd1; reflexivity).
    apply (DiagOk_after _ _ _ _ _ _ Rx); try assumption.
    - rewrite Ex, Hd1. apply Hpk.
    - rewrite larger_max. unfold SIZE_MAX in *. zl. }
  destruct (Z.geb_spec (fsz + ns - nfs) FRAGMENT_SIZE_MIN) as [Hlo|Hlo].
  - (* a tail is split off *)
    rewrite getNext_setUsed by (subst new; zl). rewrite Hz1, Hnxn.
    fold new. fold (carve (mem h1) f new (match b2' with [] => 0 | _ => next + ns end)).
    assert (Rc : Rep (set_mem h1 (carve (mem h1) f new
                                    (match b2' with [] => 0 | _ => next + ns end)))
                   (b1 ++ [(f, nfs, true); (new, fsz + ns - nfs, false)] ++ b2') L1).
    { apply carve_Rep with (xs := fsz) (ux := true) (ds := [(next, ns, false)]).
      - exact R1.
      - exact Hmid.
      - cbn [total]. lia.
      - lia.
      - assumption.
      - lia.
      - apply Z.divide_sub_r; [apply Z.divide_add_r|]; assumption.
      - reflexivity.
      - reflexivity.
      - exact Hfu.
      - destruct b2'; [reflexivity|lia]. }
    rewrite diag_update.
    match goal with |- context [set_diag ?hh ?dd] =>
      rewrite (Hdiag hh _ eq_refl eq_refl : dd = _) end.
    destruct (finish_split _ b1 f nfs new (fsz + ns - nfs) b2' L1
                (mkDiag (capacity d0) (allocated d0 + (nfs - fsz))
                   (Z.max (peak_allocated d0) (allocated d0 + (nfs - fsz)))
                   (larger (peak_request_size d0) n) (oom_count d0)) Rc)
      as (L' & HI').
    + intros j Hj. apply in_bin_remove in Hj. revert Hj.
      intros Hj. destruct (rep_mem _ _ _ R0 _ _ Hj) as (_ & s & Hs & _).
      destruct (Rep_sep _ _ _ _ _ _ _ _ _ R0 Hin Hs) as [(E & _)|[E|E]];
        [subst new; zl| |subst new; zl].
      destruct (Rep_sep _ _ _ _ _ _ _ _ _ R0 Hinn Hs) as [(E' & _)|[E'|E']];
        subst new; zl.
    + apply (binned_replace [next] [new] b1 [(f, fsz, true); (next, ns, false)] _ b2' _
               _ _ _ _ _ (rep_seg _ _ _ R1)).
      * exact Hb1.
      * intros g [<-|[]]. right. left. reflexivity.
      * intros g s [E|[E|[]]]; [discriminate|]. injection E as <- _. left. reflexivity.
    + assumption.
    + assumption.
    + assumption.
    + cbn [set_mem diagnostics capacity]. rewrite Hd1. reflexivity.
    + apply (HDok _ _ _ Rc eq_refl).
      rewrite used_total_app. cbn [app used_total]. lia.
    + assert (Hoth : forall g s, In (g, s, true) bl -> g <> f ->
                In (g, s, true)
                   (b1 ++ [(f, nfs, true); (new, fsz + ns - nfs, false)] ++ b2')).
      { apply (others_keep b1 b2' [(f, fsz, true); (next, ns, false)] _).
        - rewrite Eb2, Enx. reflexivity.
        - intros g s [E|[E|[]]]; [injection E as <- _; reflexivity|discriminate E]. }
      assert (Hinf' : In (f, nfs, true)
                         (b1 ++ [(f, nfs, true); (new, fsz + ns - nfs, false)] ++ b2'))
        by (apply in_or_app; right; left; reflexivity).
      assert (Hinnew : In (new, fsz + ns - nfs, false)
                          (b1 ++ [(f, nfs, true); (new, fsz + ns - nfs, false)] ++ b2'))
        by (apply in_or_app; right; right; left; reflexivity).
      assert (Hnewunb : forall j, ~ In new (L1 j)).
      { intros j Hj. apply in_bin_remove in Hj.
        destruct (rep_mem _ _ _ R0 _ _ Hj) as (_ & s & Hs & _).
        destruct (Rep_sep _ _ _ _ _ _ _ _ _ R0 Hin Hs) as [(E & _)|[E|E]];
          [subst new; zl| |subst new; zl].
        destruct (Rep_sep _ _ _ _ _ _ _ _ _ R0 Hinn Hs) as [(E' & _)|[E'|E']];
          subst new; zl. }
      apply (mem_post_inplace _ _ _
               (b1 ++ [(f, nfs, true); (new, fsz + ns - nfs, false)] ++ b2')
               L' (used_ptrs b1 ++ used_ptrs b2) HI').
      * rewrite used_ptrs_app; cbn [app used_ptrs]; symmetry; apply Permutation_middle.
      * rewrite used_ptrs_app, Ep2. cbn [app used_ptrs]. symmetry.
        apply Permutation_middle.
      * lia.
      * reflexivity.
      * exact Hinf'.
      * exact Hoth.
      * intros y Hy. cbn [set_diag mem].
        rewrite (rebin_keeps _ _ _ new _ y Rc Hinnew Hnewunb
                   (safe_kept _ nfs y Hoth Hinf' ltac:(lia) Hy)).
        cbn [set_mem mem].
        destruct (safe_region y Hy) as [Hr1 Hr2].
        pose proof (safe_bl y Hy) as Hk.
        pose proof (kept_not_free _ _ _ _ _ _ R0 Hk Hinn) as Hr3.
        rewrite carve_other; [|zl|subst new; zl|subst new; zl|].
        -- apply (Hfr1 y (kept_not_link _ _ _ _ R0 Hk)).
        -- destruct b2' as [|bb b2r]; [left; reflexivity|right].
           destruct (Rep_block _ _ _ _ _ _ R0 Hinn)
             as (_ & _ & _ & _ & _ & _ & _ & _ & _ & _ &
                 [[_ E]|(_ & _ & s' & u' & Hn')]).
           ++ pose proof (kept_below _ _ _ _ R0 Hk) as Hb.
              change (arena_end (ra_noted h n)) with (arena_end h) in E, Hb. zl.
           ++ apply (kept_not_prev _ _ _ _ _ _ _ R0 Hk Hn').
  - (* the next fragment is taken whole *)
    assert (E : fsz + ns - nfs = 0).
    { apply (divide_small FRAGMENT_SIZE_MIN); [zl| |lia].
      apply Z.divide_sub_r; [apply Z.divide_add_r|]; assumption. }
    rewrite Hz1, Hnxn.
    assert (Rc : Rep (set_mem h1 (interlink (mem h1) f
                                    (match b2' with [] => 0 | _ => next + ns end)))
                   (b1 ++ [(f, fsz + total [(next, ns, false)], true)] ++ b2') L1).
    { apply absorb_Rep with (ux := true).
      - exact R1.
      - exact Hmid.
      - reflexivity.
      - reflexivity.
      - exact Hfu.
      - cbn [total]. destruct b2'; [reflexivity|lia]. }
    cbn [total] in Rc. replace (fsz + (ns + 0)) with nfs in Rc by lia.
    rewrite diag_update.
    match goal with |- context [set_diag ?hh ?dd] =>
      rewrite (Hdiag hh ns eq_refl ltac:(lia) : dd = _) end.
    apply (mem_post_inplace _ _ _ (b1 ++ [(f, nfs, true)] ++ b2') L1
             (used_ptrs b1 ++ used_ptrs b2)).
    + apply (finish_absorb _ b1 f nfs b2' L1 _ [(f, fsz, true); (next, ns, false)] _
               _ _ _ _ _ Rc eq_refl (rep_seg _ _ _ R1)).
      * apply (binned_weaken _ _ _ _ Hb1). intros g [<-|[]]. right. left. reflexivity.
      * assumption.
      * assumption.
      * cbn [set_mem diagnostics capacity]. rewrite Hd1. reflexivity.
      * apply (HDok _ _ _ Rc eq_refl).
        rewrite used_total_app. cbn [app used_total]. lia.
    + rewrite used_ptrs_app; cbn [app used_ptrs]; symmetry; apply Permutation_middle.
    + rewrite used_ptrs_app, Ep2. cbn [app used_ptrs]. symmetry.
      apply Permutation_middle.
    + lia.
    + reflexivity.
    + apply in_or_app; right; left; reflexivity.
    + apply (others_keep b1 b2' [(f, fsz, true); (next, ns, false)] _).
      * rewrite Eb2, Enx. reflexivity.
      * intros g s [E'|[E'|[]]]; [injection E' as <- _; reflexivity|discriminate E'].
    + intros y Hy. cbn [set_diag set_mem mem].
      destruct (safe_region y Hy) as [Hr1 Hr2].
      pose proof (safe_bl y Hy) as Hk.
      rewrite interlink_other.
      * apply (Hfr1 y (kept_not_link _ _ _ _ R0 Hk)).
      * right. zl.
      * destruct b2' as [|bb b2r]; [left; reflexivity|right].
        destruct (Rep_block _ _ _ _ _ _ R0 Hinn)
          as (_ & _ & _ & _ & _ & _ & _ & _ & _ & _ &
              [[_ E']|(_ & _ & s' & u' & Hn')]).
        -- pose proof (kept_below _ _ _ _ R0 Hk) as Hb.
           change (arena_end (ra_noted h n)) with (arena_end h) in E', Hb. zl.
        -- apply (kept_not_prev _ _ _ _ _ _ _ R0 Hk Hn').
Qed.

Lemma region_unbinned hh c1 a s0 u0 rest c2 LL x :
  Rep hh (c1 ++ ((a, s0, u0) :: rest) ++ c2) LL ->
  (forall g s u, In (g, s, u) ((a, s0, u0) :: rest) -> forall j, ~ In g (LL j)) ->
  a <= x < a + (s0 + total rest) ->
  forall j, ~ In x (LL j).
Proof.
  intros R Hmid Hx j Hj. pose proof PTR_pos.
  destruct (rep_mem _ _ _ R _ _ Hj) as (_ & s & Hs & _).
  pose proof (rep_seg _ _ _ R) as Hseg.
  apply seg_app in Hseg. destruct Hseg as (a' & Hs1 & Hs2).
  apply seg_app in Hs2. destruct Hs2 as (e & Hsm & Hs3).
  pose proof (seg_total _ _ _ _ _ _ Hsm) as Ht. cbn [total] in Ht.
  assert (Ea : a = a') by (cbn [seg] in Hsm; apply Hsm). subst a'.
  apply in_app_or in Hs. destruct Hs as [Hs|Hs].
  - pose proof (seg_bounds _ _ _ _ _ _ Hs1 _ _ _ Hs). zl.
  - apply in_app_or in Hs. destruct Hs as [Hs|Hs].
    + apply (Hmid _ _ _ Hs j Hj).
    + pose proof (seg_bounds _ _ _ _ _ _ Hs3 _ _ _ Hs). lia.
Qed.

Lemma aligned_off a b : (O1HEAP_ALIGNMENT | a) -> (O1HEAP_ALIGNMENT | b) -> a <> b + PTR.
Proof.
  intros [x ->] [y ->] E. pose proof PTR_pos. unfold O1HEAP_ALIGNMENT in E.
  assert (E' : (2 * (x - y) - 1) * PTR = 0) by lia.
  apply Z.mul_eq_0 in E'. lia.
Qed.

Lemma memmove_out m dst src k x :
  x < dst \/ dst + k <= x -> memmove m dst src k x = m x.
Proof.
  intros Hx. unfold memmove.
  destruct (Z.leb_spec dst x); destruct (Z.ltb_spec x (dst + k)); cbn [andb];
    try reflexivity; lia.
Qed.

Lemma backward_finish b1' prev ps nb b2' h2 L2 z NS :
  (forall y, not_link bl y -> mem h2 y = mem h y) ->
  fsz < nfs ->
  b1 = b1' ++ [(prev, ps, false)] -> b2 = nb ++ b2' ->
  Rep h2 (b1' ++ ((prev, ps, false) :: (f, fsz, true) :: nb) ++ b2') L2 ->
  (forall g s u, In (g, s, u) ((prev, ps, false) :: (f, fsz, true) :: nb) ->
                 forall j, ~ In g (L2 j)) ->
  binned_but (prev :: map baddr nb)
             (b1' ++ ((prev, ps, false) :: (f, fsz, true) :: nb) ++ b2') L2 ->
  diagnostics h2 = diagnostics (ra_noted h n) ->
  NS = total nb -> used_total nb = 0 -> used_ptrs nb = [] ->
  nfs <= ps + fsz + NS ->
  z = match b2' with [] => 0 | _ => prev + ps + (fsz + total nb) end ->
  noadj b1' -> noadj b2' -> hd_used b2' = true ->
  let m4 := fragSetUsed (memmove (mem h2) (prev + O1HEAP_ALIGNMENT) (f + O1HEAP_ALIGNMENT)
                                 (fsz - O1HEAP_ALIGNMENT)) prev true in
  realloc_mem_post h bl (f + O1HEAP_ALIGNMENT) n
    (prev + O1HEAP_ALIGNMENT,
     update_peak_allocated
       (if ps + fsz + NS - nfs >=? FRAGMENT_SIZE_MIN
        then add_allocated
               (rebin (set_mem h2 (carve m4 prev (prev + nfs) z)) (prev + nfs)
                      (ps + fsz + NS - nfs))
               (nfs - fsz)
        else add_allocated (set_mem h2 (interlink m4 prev z)) (ps + NS)))
    (nfs - fsz) (allocated d0 + (nfs - fsz)).
Proof.
  intros Hh2 Hgt Eb1 Eb2 R2 Hmid Hb2 Hd2 ENS Hunb Hpnb Hfit Hz Hn1' Hn2' Hhu' m4.
  destruct ra_basic as ((Hf0 & Hfe & Hend & Hfst & Hfa & Hfsz & Hfd & Hcm) &
    (Hnfs & Hnd & Hnn) & (Ha & Hu1 & Hu2 & Hud1 & Hud2 & Hpk & Hpd & Hprs & Hoom) &
    (Hgsz & Hwc & Hna1 & Hna2 & Hunbf)).
  pose proof PTR_pos. pose proof FMAX_facts as (HW & HF & HW8).
  set (mid := (prev, ps, false) :: (f, fsz, true) :: nb) in *.
  assert (Hinp : In (prev, ps, false) (b1' ++ mid ++ b2')).
  { apply in_or_app; right; left; reflexivity. }
  destruct (Rep_block _ _ _ _ _ _ R2 Hinp)
    as (Hp0 & Hpe & _ & Hpsz & _ & Hpst & _ & _ & Hpa & Hpd' & _).
  pose proof (rep_seg _ _ _ R2) as Hseg2.
  apply seg_app in Hseg2. destruct Hseg2 as (a' & _ & Hs2).
  apply seg_app in Hs2. destruct Hs2 as (e & Hsm & Hs3).
  pose proof (seg_total _ _ _ _ _ _ Hsm) as Ht. cbn [mid total] in Ht.
  pose proof (total_div _ _ _ _ _ _ Hsm) as Htd. cbn [mid total] in Htd.
  pose proof (seg_le _ _ _ _ _ _ Hs3) as [Hle3 _].
  assert (Ea : prev = a') by (cbn [mid seg] in Hsm; apply Hsm). subst a'.
  assert (Hpf : prev + ps = f).
  { cbn [mid seg] in Hsm. destruct Hsm as (_ & _ & _ & _ & _ & _ & _ & E & _). auto. }
  assert (Hee : e <= arena_end h2).
  { pose proof (rep_seg _ _ _ R2) as Hseg2.
    apply seg_app in Hseg2. destruct Hseg2 as (a'' & _ & Hs2').
    apply seg_app in Hs2'. destruct Hs2' as (e' & Hsm' & Hs3').
    pose proof (seg_total _ _ _ _ _ _ Hsm') as Ht'. cbn [mid total] in Ht'.
    assert (prev = a'') by (cbn [mid seg] in Hsm'; apply Hsm'). subst a''.
    pose proof (seg_le _ _ _ _ _ _ Hs3') as [Hle3' _]. lia. }
  assert (Hcap2 : capacity (diagnostics h2) = capacity d0) by (rewrite Hd2; reflexivity).
  assert (Htot : ps + fsz + NS <= capacity d0).
  { rewrite <- Hcap2. lia. }
  assert (Hm4 : forall y, y < prev + PTR \/ prev + (ps + (fsz + total nb)) <= y ->
                          m4 y = mem h2 y).
  { intros y Hy. unfold m4, fragSetUsed. st. apply memmove_out. zl. }
  assert (Hm4p : fragGetPrev m4 prev = fragGetPrev (mem h2) prev).
  { unfold m4. rewrite getPrev_setUsed. apply getPrev_frame. apply memmove_out. zl. }
  assert (Hm4u : fragIsUsed m4 prev = true) by apply isUsed_setUsed.
  assert (Eu : used_total b1' + used_total b2' = used_total b1 + used_total b2).
  { rewrite Eb1, Eb2, !used_total_app. cbn [used_total]. lia. }
  assert (Hp1 : Permutation (used_ptrs bl)
                  (f + O1HEAP_ALIGNMENT :: used_ptrs b1' ++ used_ptrs b2')).
  { rewrite Eb1, Eb2, !used_ptrs_app. cbn [app used_ptrs]. rewrite Hpnb.
    rewrite <- app_assoc. cbn [app]. symmetry. apply Permutation_middle. }
  assert (Hdiag : forall hx delta, diagnostics hx = diagnostics h2 -> delta = nfs - fsz ->
            mkDiag (capacity (diagnostics hx))
              (wrap (allocated (diagnostics hx) + delta))
              (larger (peak_allocated (diagnostics hx))
                      (wrap (allocated (diagnostics hx) + delta)))
              (peak_request_size (diagnostics hx)) (oom_count (diagnostics hx)) =
            mkDiag (capacity d0) (allocated d0 + (nfs - fsz))
              (Z.max (peak_allocated d0) (allocated d0 + (nfs - fsz)))
              (larger (peak_request_size d0) n) (oom_count d0)).
  { intros hx delta -> ->. rewrite Hd2. unfold ra_noted, set_peak_request_size.
    cbn [set_diag diagnostics allocated peak_allocated capacity peak_request_size
         oom_count].
    rewrite (wrap_small (allocated d0 + (nfs - fsz))) by zl.
    rewrite larger_max. reflexivity. }
  assert (HDok : forall hx bl' LL, Rep hx bl' LL -> diagnostics hx = diagnostics h2 ->
            used_total bl' = allocated d0 + (nfs - fsz) ->
            DiagOk (mkDiag (capacity d0) (allocated d0 + (nfs - fsz))
                      (Z.max (peak_allocated d0) (allocated d0 + (nfs - fsz)))
                      (larger (peak_request_size d0) n) (oom_count d0)) bl').
  { intros hx bl' LL Rx Ex Eu'. rewrite <- Eu'.
    replace (capacity d0) with (capacity (diagnostics hx))
      by (rewrite Ex, Hd2; reflexivity).
    apply (DiagOk_after _ _ _ _ _ _ Rx); try assumption.
    - rewrite Ex, Hd2. apply Hpk.
    - rewrite larger_max. unfold SIZE_MAX in *. zl. }
  assert (Ebl : bl = b1' ++ mid ++ b2').
  { rewrite Eb1, Eb2, <- !app_assoc. reflexivity. }
  assert (Hmidf : forall g s, In (g, s, true) mid -> g = f).
  { intros g s [E|[E|Hg]]; [discriminate E|injection E as <- _; reflexivity|].
    pose proof (used_ptrs_nil _ Hpnb _ _ _ Hg). discriminate. }
  assert (Hdata : forall y i, y = prev + O1HEAP_ALIGNMENT + i ->
                    0 <= i < Z.min fsz nfs - O1HEAP_ALIGNMENT ->
                    m4 y = mem h (f + O1HEAP_ALIGNMENT + i)).
  { intros y i -> Hi. unfold m4. rewrite setUsed_other by zl.
    unfold memmove.
    destruct (Z.leb_spec (prev + O1HEAP_ALIGNMENT) (prev + O1HEAP_ALIGNMENT + i)); [|lia].
    destruct (Z.ltb_spec (prev + O1HEAP_ALIGNMENT + i)
                (prev + O1HEAP_ALIGNMENT + (fsz - O1HEAP_ALIGNMENT))); [|lia].
    cbn [andb].
    replace (prev + O1HEAP_ALIGNMENT + i - (prev + O1HEAP_ALIGNMENT) + (f + O1HEAP_ALIGNMENT))
      with (f + O1HEAP_ALIGNMENT + i) by lia.
    apply Hh2. apply (kept_not_link _ _ _ _ (HeapInv_Rep _ _ _ HI)).
    exists f, fsz. split; [apply in_or_app; right; left; reflexivity|right; lia]. }
  assert (Hothers : forall y, (exists g s, In (g, s, true) bl /\ g <> f /\
                                           g + O1HEAP_ALIGNMENT <= y < g + s) ->
                      kept bl y).
  { intros y (g & s & Hg & _ & Hy). exists g, s. split; [assumption|right; assumption]. }
  destruct (Z.geb_spec (ps + fsz + NS - nfs) FRAGMENT_SIZE_MIN) as [Hlo|Hlo].
  - (* a tail is split off *)
    set (new := prev + nfs).
    assert (Rc : Rep (set_mem h2 (carve m4 prev new z))
                   (b1' ++ [(prev, nfs, true); (new, ps + fsz + NS - nfs, false)] ++ b2') L2).
    { apply carve_Rep with (xs := ps) (ux := false) (ds := (f, fsz, true) :: nb).
      - exact R2.
      - exact Hmid.
      - cbn [total]. lia.
      - lia.
      - assumption.
      - lia.
      - apply Z.divide_sub_r; [|assumption]. rewrite ENS.
        replace (ps + fsz + total nb) with (ps + (fsz + total nb)) by lia. assumption.
      - intros y Hy. apply Hm4. lia.
      - exact Hm4p.
      - exact Hm4u.
      - rewrite Hz. destruct b2'; [reflexivity|lia]. }
    rewrite diag_update.
    match goal with |- context [set_diag ?hh ?dd] =>
      rewrite (Hdiag hh _ eq_refl eq_refl : dd = _) end.
    destruct (finish_split _ b1' prev nfs new (ps + fsz + NS - nfs) b2' L2
                (mkDiag (capacity d0) (allocated d0 + (nfs - fsz))
                   (Z.max (peak_allocated d0) (allocated d0 + (nfs - fsz)))
                   (larger (peak_request_size d0) n) (oom_count d0)) Rc)
      as (L' & HI').
    + apply (region_unbinned _ _ _ _ _ _ _ _ _ R2 Hmid). subst new. cbn [total]. zl.
    + apply (binned_replace (prev :: map baddr nb) [new] b1' mid _ b2' _
               _ _ _ _ _ (rep_seg _ _ _ R2)).
      * exact Hb2.
      * intros g [<-|Hg]; [left; reflexivity|right; right; assumption].
      * intros g s [E|[E|[]]]; [discriminate|]. injection E as <- _. left. reflexivity.
    + assumption.
    + assumption.
    + assumption.
    + cbn [set_mem diagnostics capacity]. symmetry. exact Hcap2.
    + apply (HDok _ _ _ Rc eq_refl).
      rewrite used_total_app. cbn [app used_total]. lia.
    + assert (Hoth : forall g s, In (g, s, true) bl -> g <> f ->
                In (g, s, true)
                   (b1' ++ [(prev, nfs, true); (new, ps + fsz + NS - nfs, false)] ++ b2'))
        by (apply (others_keep b1' b2' mid _ Ebl Hmidf)).
      assert (Hinp' : In (prev, nfs, true)
                         (b1' ++ [(prev, nfs, true); (new, ps + fsz + NS - nfs, false)] ++ b2'))
        by (apply in_or_app; right; left; reflexivity).
      assert (Hinnew : In (new, ps + fsz + NS - nfs, false)
                          (b1' ++ [(prev, nfs, true); (new, ps + fsz + NS - nfs, false)] ++ b2'))
        by (apply in_or_app; right; right; left; reflexivity).
      assert (Hnewunb : forall j, ~ In new (L2 j)).
      { apply (region_unbinned _ _ _ _ _ _ _ _ _ R2 Hmid). subst new. cbn [total]. zl. }
      assert (Hzc : forall y, kept (b1' ++ [(prev, nfs, true);
                                           (new, ps + fsz + NS - nfs, false)] ++ b2') y ->
                      z = 0 \/ y <> z + off_prev_used).
      { intros y Hk. rewrite Hz. destruct b2' as [|bb b2r]; [left; reflexivity|right].
        replace (prev + ps + (fsz + total nb)) with (new + (ps + fsz + NS - nfs))
          by (subst new; lia).
        destruct (Rep_block _ _ _ _ _ _ Rc Hinnew)
          as (_ & _ & _ & _ & _ & _ & _ & _ & _ & _ &
              [[_ E']|(_ & _ & s' & u' & Hn')]).
        - pose proof (kept_below _ _ _ _ Rc Hk) as Hb. zl.
        - apply (kept_not_prev _ _ _ _ _ _ _ Rc Hk Hn'). }
      apply (mem_post_intro (prev + O1HEAP_ALIGNMENT) _ _ _
               (b1' ++ [(prev, nfs, true); (new, ps + fsz + NS - nfs, false)] ++ b2')
               L' (used_ptrs b1' ++ used_ptrs b2')).
      * zl.
      * exact HI'.
      * exact Hp1.
      * rewrite used_ptrs_app; cbn [app used_ptrs]; symmetry; apply Permutation_middle.
      * lia.
      * reflexivity.
      * replace (prev + O1HEAP_ALIGNMENT - O1HEAP_ALIGNMENT) with prev by lia. exact Hinp'.
      * exact Hoth.
      * intros y Hy. cbn [set_diag mem].
        assert (Hk : kept (b1' ++ [(prev, nfs, true);
                                   (new, ps + fsz + NS - nfs, false)] ++ b2') y).
        { destruct Hy as (g & s & Hg & Hne & Hy). exists g, s.
          split; [apply Hoth; assumption|right; assumption]. }
        rewrite (rebin_keeps _ _ _ new _ y Rc Hinnew Hnewunb Hk). cbn [set_mem mem].
        assert (Hreg : y < prev \/ prev + (ps + (fsz + total nb)) <= y).
        { destruct Hy as (g & s & Hg & Hne & Hy).
          assert (Hgp : g <> prev).
          { intros ->. rewrite Ebl in Hg.
            assert (Hpm : In (prev, ps, false) (b1' ++ mid ++ b2'))
              by (apply in_or_app; right; left; reflexivity).
            destruct (Rep_In_unique _ _ _ _ _ _ _ _ R2 Hg Hpm). discriminate. }
          pose proof (kept_apart _ _ _ _ _ _ _ _ _ Rc (Hoth _ _ Hg Hne) Hinp' Hgp Hy).
          pose proof (kept_not_free _ _ _ _ _ _ Rc Hk Hinnew). subst new. lia. }
        rewrite carve_other; [|zl|subst new; zl|subst new; zl|apply (Hzc y Hk)].
        rewrite Hm4 by zl. apply Hh2.
        apply (kept_not_link _ _ _ _ (HeapInv_Rep _ _ _ HI) (Hothers y Hy)).
      * intros i Hi. cbn [set_diag mem].
        assert (Hk : kept (b1' ++ [(prev, nfs, true);
                                   (new, ps + fsz + NS - nfs, false)] ++ b2')
                          (prev + O1HEAP_ALIGNMENT + i)).
        { exists prev, nfs. split; [exact Hinp'|right; lia]. }
        rewrite (rebin_keeps _ _ _ new _ _ Rc Hinnew Hnewunb Hk). cbn [set_mem mem].
        rewrite carve_other; [|zl|subst new; zl|subst new; zl|apply (Hzc _ Hk)].
        apply (Hdata _ i eq_refl Hi).
  - (* the whole space is taken *)
    assert (E : ps + fsz + NS - nfs = 0).
    { apply (divide_small FRAGMENT_SIZE_MIN); [zl| |lia].
      apply Z.divide_sub_r; [|assumption]. rewrite ENS.
      replace (ps + fsz + total nb) with (ps + (fsz + total nb)) by lia. assumption. }
    assert (Rc : Rep (set_mem h2 (interlink m4 prev z))
                   (b1' ++ [(prev, ps + total ((f, fsz, true) :: nb), true)] ++ b2') L2).
    { apply absorb_Rep with (ux := false).
      - exact R2.
      - exact Hmid.
      - intros y Hy. apply Hm4. cbn [total] in Hy. lia.
      - exact Hm4p.
      - exact Hm4u.
      - rewrite Hz. cbn [total]. destruct b2'; [reflexivity|lia]. }
    cbn [total] in Rc. replace (ps + (fsz + total nb)) with nfs in Rc by lia.
    rewrite diag_update.
    match goal with |- context [set_diag ?hh ?dd] =>
      rewrite (Hdiag hh (ps + NS) eq_refl ltac:(lia) : dd = _) end.
    assert (Hoth : forall g s, In (g, s, true) bl -> g <> f ->
              In (g, s, true) (b1' ++ [(prev, nfs, true)] ++ b2'))
      by (apply (others_keep b1' b2' mid _ Ebl Hmidf)).
    assert (Hinp' : In (prev, nfs, true) (b1' ++ [(prev, nfs, true)] ++ b2'))
      by (apply in_or_app; right; left; reflexivity).
    assert (Hzc : forall y, kept (b1' ++ [(prev, nfs, true)] ++ b2') y ->
                    z = 0 \/ y <> z + off_prev_used).
    { intros y Hk. rewrite Hz. destruct b2' as [|bb b2r]; [left; reflexivity|right].
      replace (prev + ps + (fsz + total nb)) with (prev + nfs) by lia.
      destruct (Rep_block _ _ _ _ _ _ Rc Hinp')
        as (_ & _ & _ & _ & _ & _ & _ & _ & _ & _ &
            [[_ E']|(_ & _ & s' & u' & Hn')]).
      - pose proof (kept_below _ _ _ _ Rc Hk) as Hb. zl.
      - apply (kept_not_prev _ _ _ _ _ _ _ Rc Hk Hn'). }
    apply (mem_post_intro (prev + O1HEAP_ALIGNMENT) _ _ _
             (b1' ++ [(prev, nfs, true)] ++ b2') L2 (used_ptrs b1' ++ used_ptrs b2')).
    + zl.
    + apply (finish_absorb _ b1' prev nfs b2' L2 _ mid _
               _ _ _ _ _ Rc eq_refl (rep_seg _ _ _ R2)).
      * apply (binned_weaken _ _ _ _ Hb2).
        intros g [<-|Hg]; [left; reflexivity|right; right; assumption].
      * assumption.
      * assumption.
      * cbn [set_mem diagnostics capacity]. symmetry. exact Hcap2.
      * apply (HDok _ _ _ Rc eq_refl).
        rewrite used_total_app. cbn [app used_total]. lia.
    + exact Hp1.
    + rewrite used_ptrs_app; cbn [app used_ptrs]; symmetry; apply Permutation_middle.
    + lia.
    + reflexivity.
    + replace (prev + O1HEAP_ALIGNMENT - O1HEAP_ALIGNMENT) with prev by lia. exact Hinp'.
    + exact Hoth.
    + intros y Hy. cbn [set_diag set_mem mem].
      assert (Hk : kept (b1' ++ [(prev, nfs, true)] ++ b2') y).
      { destruct Hy as (g & s & Hg & Hne & Hy). exists g, s.
        split; [apply Hoth; assumption|right; assumption]. }
      assert (Hreg : y < prev \/ prev + (ps + (fsz + total nb)) <= y).
      { destruct Hy as (g & s & Hg & Hne & Hy).
        assert (Hgp : g <> prev).
        { intros ->. rewrite Ebl in Hg.
          assert (Hpm : In (prev, ps, false) (b1' ++ mid ++ b2'))
            by (apply in_or_app; right; left; reflexivity).
          destruct (Rep_In_unique _ _ _ _ _ _ _ _ R2 Hg Hpm). discriminate. }
        pose proof (kept_apart _ _ _ _ _ _ _ _ _ Rc (Hoth _ _ Hg Hne) Hinp' Hgp Hy). lia. }
      rewrite interlink_other; [|right; zl|apply (Hzc y Hk)].
      rewrite Hm4 by zl. apply Hh2.
      apply (kept_not_link _ _ _ _ (HeapInv_Rep _ _ _ HI) (Hothers y Hy)).
    + intros i Hi. cbn [set_diag set_mem mem].
      assert (Hk : kept (b1' ++ [(prev, nfs, true)] ++ b2') (prev + O1HEAP_ALIGNMENT + i)).
      { exists prev, nfs. split; [exact Hinp'|right; lia]. }
      rewrite interlink_other; [|right; zl|apply (Hzc _ Hk)].
      apply (Hdata _ i eq_refl Hi).
Qed.

Lemma realloc_backward :
  let p := f + O1HEAP_ALIGNMENT in
  fsz < nfs ->
  ra_next_free h p && (wrap (fsz + ra_next_size h p) >=? nfs) = false ->
  ra_prev_free h p = true ->
  (wrap (wrap (ra_prev_size h p + fsz) + ra_next_size h p) >=? nfs) = true ->
  realloc_mem_post h bl p n (o1heapReallocate h p n) (nfs - fsz)
                   (allocated d0 + (nfs - fsz)) /\
  ((wrap (wrap (wrap (ra_prev_size h p + fsz) + ra_next_size h p) - nfs)
      >=? FRAGMENT_SIZE_MIN) = false ->
   ra_prev_size h p + ra_next_size h p = nfs - fsz).
Proof.
  intros p Hgt Hnf Hpf Hfit. subst p.
  unfold ra_next_size, ra_prev_size in Hnf, Hpf, Hfit |- *.
  unfold ra_next_free, ra_prev_free in Hnf, Hpf, Hfit |- *.
  unfold ra_prev, ra_next in Hnf, Hpf, Hfit |- *.
  replace (f + O1HEAP_ALIGNMENT - O1HEAP_ALIGNMENT) with f in Hnf, Hpf, Hfit by lia.
  ra_enter.
  destruct (Z.leb_spec nfs fsz) as [E0|_]; [lia|].
  rewrite Hnf, Hfit, Hpf. cbn [andb].
  set (next := fragGetNext (mem h) f) in *.
  set (prev := fragGetPrev (mem h) f) in *.
  destruct Hprev as [(Ep & _)|(_ & b1' & ps & Eb1 & Hps & Hpf' & Hlu' & Hn1')];
    [rewrite Hpf in Ep; discriminate|].
  rewrite Hpf in Hfit. rewrite Hps in *.
  assert (Hinp : In (prev, ps, false) bl).
  { rewrite Eb1. apply in_or_app. left. apply in_or_app. right. left. reflexivity. }
  destruct (Rep_block _ _ _ _ _ _ R0 Hinp)
    as (Hp0 & _ & _ & Hpsz & _ & Hpst & _ & _ & Hpa & Hpd' & _).
  change (arena_end (ra_noted h n)) with (arena_end h) in Hpst.
  change (capacity (diagnostics (ra_noted h n))) with (capacity d0) in Hpst, Hpsz.
  destruct (unbin_step _ _ _ [] _ _ R0 Hbin0 Hinp ltac:(intros []))
    as (R1 & Hb1 & Hun1 & Hkeep1 & Hd1 & He1 & Hfr1).
  assert (HinLp : In prev (L (binidx ps))) by (apply (Hbin0 _ _ Hinp); intros []).
  set (h1 := unbin (ra_noted h n) prev ps) in *.
  set (L1 := bin_remove L (binidx ps) prev) in *.
  assert (Ebl : bl = b1' ++ ((prev, ps, false) :: (f, fsz, true) :: []) ++ b2).
  { rewrite Eb1, <- app_assoc. reflexivity. }
  rewrite Ebl in R1, Hb1.
  destruct Hnext as [(En & Hhu & Hnx)|(En & ns & b2' & Eb2 & Hns & Hnf' & Hhu' & Hn2' & Hnxn)];
    rewrite En in *; cbv iota in Hfit |- *.
  - (* the next fragment is used or absent *)
    rewrite (wrap_small (ps + fsz)) in Hfit |- * by zl.
    rewrite (wrap_small (ps + fsz + 0)) in Hfit |- * by zl.
    destruct (Z.geb_spec (ps + fsz + 0) nfs) as [Hfit'|]; [|discriminate].
    rewrite (wrap_small (ps + fsz + 0 - nfs)) by zl.
    rewrite (wrap_small (nfs - fsz)) by zl.
    rewrite (wrap_small (ps + 0)) by zl.
    rewrite (wrap_small (fsz - O1HEAP_ALIGNMENT)) by zl.
    split; [apply (backward_finish b1' prev ps [] b2 h1 L1 next 0 Hfr1); try assumption;
      try reflexivity|].
    + intros g s u [E|[E|[]]] j; injection E as <- _ _;
        [apply Hun1|apply Hkeep1; assumption].
    + rewrite Hnx. cbn [total]. destruct b2; [reflexivity|lia].
    + intros Hq. destruct (Z.geb_spec (ps + fsz + 0 - nfs) FRAGMENT_SIZE_MIN);
        [discriminate|].
      assert (E : ps + fsz + 0 - nfs = 0); [|lia].
      apply (divide_small FRAGMENT_SIZE_MIN); [zl| |lia].
      apply Z.divide_sub_r; [|assumption].
      repeat apply Z.divide_add_r; try assumption. apply Z.divide_0_r.
  - (* the next fragment is free *)
    rewrite Hns in *.
    assert (Hinn : In (next, ns, false) bl).
    { rewrite Eb2. apply in_or_app; right; right; left; reflexivity. }
    destruct (Rep_block _ _ _ _ _ _ R0 Hinn)
      as (_ & Hne & _ & Hnsz & _ & _ & _ & _ & Hnxa & Hnsd & _).
    change (arena_end (ra_noted h n)) with (arena_end h) in Hne.
    rewrite (wrap_small (ps + fsz)) in Hfit |- * by zl.
    rewrite (wrap_small (ps + fsz + ns)) in Hfit |- * by zl.
    destruct (Z.geb_spec (ps + fsz + ns) nfs) as [Hfit'|]; [|discriminate].
    rewrite (wrap_small (ps + fsz + ns - nfs)) by zl.
    rewrite (wrap_small (nfs - fsz)) by zl.
    rewrite (wrap_small (ps + ns)) by zl.
    rewrite (wrap_small (fsz - O1HEAP_ALIGNMENT)) by zl.
    rewrite Eb2 in R1, Hb1.
    change (b1' ++ [(prev, ps, false); (f, fsz, true)] ++ (next, ns, false) :: b2')
      with (b1' ++ ((prev, ps, false) :: (f, fsz, true) :: [(next, ns, false)]) ++ b2')
      in R1, Hb1.
    assert (Hinn1 : In (next, ns, false)
              (b1' ++ ((prev, ps, false) :: (f, fsz, true) :: [(next, ns, false)]) ++ b2')).
    { apply in_or_app; right; right; right; left; reflexivity. }
    destruct (unbin_step _ _ _ [prev] _ _ R1 Hb1 Hinn1 ltac:(intros [E|[]]; zl))
      as (R2 & Hb2 & Hun2 & Hkeep2 & Hd2 & He2 & Hfr2).
    assert (HinLn : In next (L1 (binidx ns))).
    { apply (Hb1 _ _ Hinn1). intros [E|[]]; zl. }
    destruct (unbin_hdr _ _ _ _ _ _ _ _ R0 HinLp Hinn) as (Hz1 & _).
    destruct (unbin_hdr _ _ _ _ _ _ _ _ R1 HinLn Hinn1) as (Hz2 & _).
    fold h1 in Hz1. change (mem (ra_noted h n)) with (mem h) in Hz1.
    set (h2 := unbin h1 next ns) in *.
    set (L2 := bin_remove L1 (binidx ns) next) in *.
    assert (Hzv : forall m', (forall y, y < prev + O1HEAP_ALIGNMENT \/ prev + fsz <= y ->
                                        m' y = mem h2 y) ->
                fragGetNext m' next = match b2' with [] => 0 | _ => next + ns end).
    { intros m' Hm'. unfold fragGetNext. rewrite Hm' by zl.
      fold (fragGetNext (mem h2) next). rewrite Hz2, Hz1. exact Hnxn. }
    assert (Hmv : forall y, y < prev + O1HEAP_ALIGNMENT \/ prev + fsz <= y ->
                memmove (mem h2) (prev + O1HEAP_ALIGNMENT) (f + O1HEAP_ALIGNMENT)
                        (fsz - O1HEAP_ALIGNMENT) y = mem h2 y).
    { intros y Hy. apply memmove_out. lia. }
    assert (Hnewa : (O1HEAP_ALIGNMENT | prev + nfs)).
    { apply Z.divide_add_r; [assumption|apply A_div_of_F; assumption]. }
    rewrite (getNext_setUsed _ (prev + nfs)) by (apply aligned_off; assumption).
    rewrite !(getNext_setUsed _ prev) by zl.
    rewrite (Hzv _ Hmv).
    assert (Hh2 : forall y, not_link bl y -> mem h2 y = mem h y).
    { intros y Hy. rewrite Hfr2; [exact (Hfr1 y Hy)|].
      rewrite Ebl, Eb2 in Hy. exact Hy. }
    split; [apply (backward_finish b1' prev ps [(next, ns, false)] b2' h2 L2 _ ns Hh2);
      try assumption; try reflexivity|].
    + intros g s u [E|[E|[E|[]]]] j; injection E as <- _ _.
      * apply Hkeep2. apply Hun1.
      * apply Hkeep2. apply Hkeep1. assumption.
      * apply Hun2.
    + apply (binned_weaken _ _ _ _ Hb2). intros g [<-|[<-|[]]]; cbn; auto.
    + rewrite Hd2. exact Hd1.
    + cbn [total]. lia.
    + cbn [total]. destruct b2'; [reflexivity|lia].
    + intros Hq. destruct (Z.geb_spec (ps + fsz + ns - nfs) FRAGMENT_SIZE_MIN);
        [discriminate|].
      assert (E : ps + fsz + ns - nfs = 0); [|lia].
      apply (divide_small FRAGMENT_SIZE_MIN); [zl| |lia].
      apply Z.divide_sub_r; [|assumption].
      repeat apply Z.divide_add_r; assumption.
Qed.

Lemma larger_idem a b : larger (larger a b) b = larger a b.
Proof. rewrite !larger_max. lia. Qed.

Lemma realloc_fallback :
  let p := f + O1HEAP_ALIGNMENT in
  let r := o1heapReallocate h p n in
  fsz < nfs ->
  ra_next_free h p && (wrap (fsz + ra_next_size h p) >=? nfs) = false ->
  ra_prev_free h p &&
    (wrap (wrap (ra_prev_size h p + fsz) + ra_next_size h p) >=? nfs) = false ->
  (fst r = 0 /\ snd r = set_diag h (note_request d0 n true) /\
   fst (o1heapAllocate (ra_noted h n) n) = 0) \/
  (realloc_mem_post h bl p n r (nfs - fsz) (allocated d0 + nfs) /\
   fst (o1heapAllocate (ra_noted h n) n) <> 0 /\
   allocated (diagnostics (snd (o1heapAllocate (ra_noted h n) n))) = allocated d0 + nfs).
Proof.
  intros p r Hgt Hnf Hpf. subst p r.
  unfold ra_next_size, ra_prev_size in Hnf, Hpf.
  unfold ra_next_free, ra_prev_free in Hnf, Hpf.
  unfold ra_prev, ra_next in Hnf, Hpf.
  replace (f + O1HEAP_ALIGNMENT - O1HEAP_ALIGNMENT) with f in Hnf, Hpf by lia.
  ra_enter.
  destruct (Z.leb_spec nfs fsz) as [E0|_]; [lia|].
  rewrite Hnf, Hpf.
  rewrite (wrap_small (fsz - O1HEAP_ALIGNMENT)) by zl.
  assert (HI0 : HeapInv (ra_noted h n) bl L) by (split; [|split; [|split]]; assumption).
  pose proof (allocate_mem_spec (ra_noted h n) bl L n HI0 ltac:(unfold SIZE_MAX; zl)) as Hal.
  cbv zeta in Hal.
  change (capacity (diagnostics (ra_noted h n))) with (capacity d0) in Hal.
  fold nfs in Hal.
  destruct (o1heapAllocate (ra_noted h n) n) as [out h1]. cbn [fst snd] in Hal |- *.
  destruct Hal as [(E0 & Es & _)|(c1 & fa & fs & c2 & L1 & Ebl & _ & Hle & Eout & HI1 & Hd1 &
                                  Hfr1)].
  2: change (mem (ra_noted h n)) with (mem h) in Hfr1.
  - left. subst out. cbn [Z.eqb fst snd]. split; [reflexivity|].
    split; [|reflexivity].
    rewrite Es. unfold ra_noted, note_request, set_peak_request_size, set_oom_count.
    cbn [set_diag diagnostics allocated peak_allocated capacity peak_request_size
         oom_count bins nonempty_bin_mask arena_end mem].
    rewrite larger_idem. reflexivity.
  - right.
    pose proof (HeapInv_Rep _ _ _ HI) as R.
    assert (Hina0 : In (fa, fs, false) bl).
    { rewrite Ebl. apply in_or_app; right; left; reflexivity. }
    destruct (Rep_block _ _ _ _ _ _ R Hina0) as (_ & _ & _ & _ & _ & _ & _ & _ & _ & Hfsd & _).
    set (mid' := if nfs + FRAGMENT_SIZE_MIN <=? fs
                 then [(fa, nfs, true); (fa + nfs, fs - nfs, false)]
                 else [(fa, nfs, true)]).
    assert (Ebl1 : (if nfs + FRAGMENT_SIZE_MIN <=? fs
                    then c1 ++ (fa, nfs, true) :: (fa + nfs, fs - nfs, false) :: c2
                    else c1 ++ (fa, fs, true) :: c2) = c1 ++ mid' ++ c2).
    { unfold mid'. destruct (Z.leb_spec (nfs + FRAGMENT_SIZE_MIN) fs) as [Hsp|Hsp];
        [reflexivity|].
      assert (fs = nfs) as ->; [|reflexivity].
      destruct (Z.eq_dec fs nfs) as [|Hne]; [assumption|].
      pose proof (div_gap FRAGMENT_SIZE_MIN nfs fs ltac:(zl) Hnd Hfsd ltac:(lia)). lia. }
    set (bl1 := c1 ++ mid' ++ c2) in *.
    assert (HI1b : HeapInv h1 bl1 L1) by (rewrite <- Ebl1; exact HI1).
    clear HI1. rename HI1b into HI1.
    assert (Hfne : fa <> f).
    { intros ->. destruct (Rep_In_unique _ _ _ _ _ _ _ _ R Hina0 Hin). discriminate. }
    assert (Hoth1 : forall g s, In (g, s, true) bl -> In (g, s, true) bl1).
    { intros g s Hg. rewrite Ebl in Hg. apply in_app_or in Hg. apply in_or_app.
      destruct Hg as [Hg|[E|Hg]]; [left; assumption|discriminate E|].
      right. apply in_or_app. right. assumption. }
    assert (Hina : In (fa, nfs, true) bl1).
    { apply in_or_app. right. apply in_or_app. left. unfold mid'.
      destruct (nfs + FRAGMENT_SIZE_MIN <=? fs); left; reflexivity. }
    assert (Hinf1 : In (f, fsz, true) bl1) by (apply Hoth1; exact Hin).
    assert (Hp1 : Permutation (used_ptrs bl1) (fa + O1HEAP_ALIGNMENT :: used_ptrs bl)).
    { rewrite Ebl. unfold bl1, mid'. rewrite !used_ptrs_app. cbn [used_ptrs].
      destruct (nfs + FRAGMENT_SIZE_MIN <=? fs); cbn [used_ptrs app];
        symmetry; apply Permutation_middle. }
    pose proof HI1 as (R1 & HI1').
    destruct (Rep_block _ _ _ _ _ _ R1 Hina) as (Hfa0 & _).
    assert (Hout : out <> 0) by zl.
    destruct (Z.eqb_spec out 0) as [|_]; [contradiction|].
    split; [|split; [assumption|rewrite Hd1; reflexivity]].
    set (m' := memmove (mem h1) out (f + O1HEAP_ALIGNMENT) (fsz - O1HEAP_ALIGNMENT)).
    assert (HIp : HeapInv (set_mem h1 m') bl1 L1).
    { apply (payload_HeapInv _ _ _ _ fa nfs); [exact HI1|assumption|].
      intros x Hx. apply memmove_out. lia. }
    assert (Hpl : In (f + O1HEAP_ALIGNMENT) (used_ptrs bl1)).
    { apply used_ptrs_in. exists f, fsz. auto. }
    destruct (free_mem_spec _ _ _ _ HIp Hpl)
      as (fsz' & bl' & L' & Hinf' & HI' & Hp2 & Hd' & Hoth2 & _ & Hfr2).
    replace (f + O1HEAP_ALIGNMENT - O1HEAP_ALIGNMENT) with f in Hinf', Hoth2 by lia.
    destruct (Rep_In_unique _ _ _ _ _ _ _ _ R1 Hinf' Hinf1) as [-> _].
    cbn [set_mem mem] in Hfr2.
    assert (Hp0 : Permutation (used_ptrs bl)
                    (f + O1HEAP_ALIGNMENT :: used_ptrs b1 ++ used_ptrs b2)).
    { rewrite used_ptrs_app. cbn [app used_ptrs]. symmetry. apply Permutation_middle. }
    apply (mem_post_intro out _ _ _ bl' L' (used_ptrs b1 ++ used_ptrs b2)).
    + assumption.
    + exact HI'.
    + exact Hp0.
    + apply (Permutation_cons_inv (a := f + O1HEAP_ALIGNMENT)).
      rewrite <- Hp2, Hp1, Hp0, Eout. apply perm_swap.
    + lia.
    + rewrite Hd'. cbn [set_mem diagnostics]. rewrite Hd1.
      unfold ra_noted, set_allocated, set_peak_request_size.
      cbn [set_diag diagnostics allocated peak_allocated capacity peak_request_size
           oom_count].
      rewrite larger_idem, larger_max. f_equal; lia.
    + rewrite Eout. replace (fa + O1HEAP_ALIGNMENT - O1HEAP_ALIGNMENT) with fa by lia.
      apply Hoth2; assumption.
    + intros g s Hg Hne. apply Hoth2; [apply Hoth1; assumption|assumption].
    + intros y (g & s & Hg & Hne & Hy).
      rewrite Hfr2 by (exists g, s; split; [apply Hoth2; [apply Hoth1|]; assumption|
                                            right; assumption]).
      unfold m'. rewrite memmove_out.
      * apply Hfr1. exists g, s. split; [assumption|right; assumption].
      * assert (Hgfa : g <> fa).
        { intros ->. destruct (Rep_In_unique _ _ _ _ _ _ _ _ R Hg Hina0). discriminate. }
        pose proof (kept_apart _ _ _ _ _ _ _ _ _ R1 (Hoth1 _ _ Hg) Hina Hgfa Hy). zl.
    + intros i Hi.
      rewrite Hfr2 by (exists fa, nfs; split; [apply Hoth2; assumption|right; lia]).
      unfold m', memmove.
      destruct (Z.leb_spec out (out + i)); [|lia].
      destruct (Z.ltb_spec (out + i) (out + (fsz - O1HEAP_ALIGNMENT))); [|lia].
      cbn [andb].
      replace (out + i - out + (f + O1HEAP_ALIGNMENT)) with (f + O1HEAP_ALIGNMENT + i) by lia.
      apply Hfr1. exists f, fsz. split; [exact Hin|right; lia].
Qed.

Lemma realloc_forward_code :
  let p := f + O1HEAP_ALIGNMENT in
  fsz < nfs ->
  ra_next_free h p && (wrap (fsz + ra_next_size h p) >=? nfs) = true ->
  realloc_mem_post h bl p n (o1heapReallocate h p n) (nfs - fsz) (allocated d0 + (nfs - fsz)).
Proof.
  intros p Hgt Hnf. subst p.
  unfold ra_next_size in Hnf. unfold ra_next_free in Hnf. unfold ra_next in Hnf.
  replace (f + O1HEAP_ALIGNMENT - O1HEAP_ALIGNMENT) with f in Hnf by lia.
  destruct ra_basic as ((Hf0 & Hfe & Hend & Hfst & Hfa & Hfsz & Hfd & Hcm) & _ & _ &
    (_ & _ & Hna1 & Hna2 & _)).
  destruct HI as (R & _).
  pose proof PTR_pos. pose proof FMAX_facts as (HW & HF & HW8).
  pose proof (neighbours _ _ _ _ _ _ _ R Hna1 Hna2) as [_ Hnext]. cbv zeta in Hnext.
  apply andb_prop in Hnf. destruct Hnf as [Hnf1 Hnf2]. rewrite Hnf1 in Hnf2.
  destruct Hnext as [(En & _)|(_ & ns & b2' & Eb2 & Hns & Hnx & _)];
    [rewrite Hnf1 in En; discriminate|].
  rewrite Hns in Hnf2.
  assert (Hinn : In (fragGetNext (mem h) f, ns, false) bl).
  { rewrite Eb2. apply in_or_app; right; right; left; reflexivity. }
  destruct (Rep_block _ _ _ _ _ _ R Hinn) as (_ & Hne & _ & Hnsz & _).
  rewrite wrap_small in Hnf2 by zl.
  destruct (Z.geb_spec (fsz + ns) nfs) as [Hfit|]; [|discriminate].
  apply (realloc_forward ns b2'); [assumption| |assumption].
  rewrite Eb2, Hnx. reflexivity.
Qed.

End Realloc.

(** [o1heapReallocate] on a live block and a nonzero size, by case, with
    what it leaves in memory. *)
Lemma realloc_mem_spec h bl L p n :
  HeapInv h bl L -> In p (used_ptrs bl) -> 0 < n <= SIZE_MAX ->
  let r := o1heapReallocate h p n in
  let d := diagnostics h in
  let delta := ra_new_frag_size n - ra_frag_size h p in
  (fst r = 0 /\ snd r = set_diag h (note_request d n true) /\
   (realloc_case h p n = R3 \/
    realloc_case h p n = R7 /\ fst (o1heapAllocate (ra_noted h n) n) = 0)) \/
  (realloc_mem_post h bl p n r delta (allocated d + delta) /\
   (realloc_case h p n = R4 \/ realloc_case h p n = R5 \/
    realloc_case h p n = R6 /\
    ((wrap (wrap (wrap (ra_prev_size h p + ra_frag_size h p) + ra_next_size h p)
            - ra_new_frag_size n) >=? FRAGMENT_SIZE_MIN) = false ->
     ra_prev_size h p + ra_next_size h p = delta))) \/
  (realloc_mem_post h bl p n r delta (allocated d + ra_new_frag_size n) /\
   realloc_case h p n = R7 /\ fst (o1heapAllocate (ra_noted h n) n) <> 0 /\
   allocated (diagnostics (snd (o1heapAllocate (ra_noted h n) n))) =
     allocated d + ra_new_frag_size n).
Proof.
  intros HI Hp Hn r d delta. subst r d delta.
  apply used_ptrs_in in Hp. destruct Hp as (f & fsz & -> & Hf).
  destruct (in_split _ _ Hf) as (b1 & b2 & Ebl). subst bl.
  change (b1 ++ (f, fsz, true) :: b2) with (b1 ++ [(f, fsz, true)] ++ b2) in *.
  pose proof PTR_pos. pose proof FMAX_facts as (HW & HF & HW8).
  pose proof (HeapInv_Rep _ _ _ HI) as R.
  destruct (Rep_block _ _ _ _ _ _ R Hf)
    as (Hf0 & _ & _ & Hfsz & Hcm & _ & Hgsz & _).
  unfold realloc_case, ra_frag_size.
  replace (f + O1HEAP_ALIGNMENT - O1HEAP_ALIGNMENT) with f by lia.
  rewrite Hgsz.
  destruct (Z.eqb_spec (f + O1HEAP_ALIGNMENT) 0) as [E0|Hp0]; [zl|].
  destruct (Z.eqb_spec n 0) as [E0|Hn0]; [lia|].
  rewrite (wrap_small (capacity (diagnostics h) - O1HEAP_ALIGNMENT)) by zl.
  destruct (Z.gtb_spec n (capacity (diagnostics h) - O1HEAP_ALIGNMENT)) as [Hbig|Hfits].
  - left. unfold o1heapReallocate.
    destruct (Z.eqb_spec (f + O1HEAP_ALIGNMENT) 0) as [E0|_]; [contradiction|].
    destruct (Z.eqb_spec n 0) as [E0|_]; [contradiction|].
    cbv zeta. cbn [set_diag diagnostics capacity set_peak_request_size].
    rewrite (wrap_small (capacity (diagnostics h) - O1HEAP_ALIGNMENT)) by zl.
    destruct (Z.gtb_spec n (capacity (diagnostics h) - O1HEAP_ALIGNMENT)) as [_|E0]; [|lia].
    cbn [fst snd]. split; [reflexivity|]. split; [|left; reflexivity].
    unfold note_request. destruct (Z.gtb_spec n 0) as [_|E0]; [|lia].
    reflexivity.
  - cbv zeta.
    assert (Hn' : 0 < n <= capacity (diagnostics h) - O1HEAP_ALIGNMENT) by lia.
    destruct (Z.leb_spec (ra_new_frag_size n) fsz) as [Hle|Hgt].
    { right; left. split; [|left; reflexivity].
      apply (realloc_shrink h L b1 b2 f fsz n HI Hn' Hle). }
    set (p := f + O1HEAP_ALIGNMENT) in *.
    destruct (ra_next_free h p && (wrap (fsz + ra_next_size h p) >=? ra_new_frag_size n))
      eqn:E5.
    { right; left. split; [|right; left; reflexivity].
      apply (realloc_forward_code h L b1 b2 f fsz n HI Hn' Hgt E5). }
    destruct (ra_prev_free h p &&
              (wrap (wrap (ra_prev_size h p + fsz) + ra_next_size h p)
                 >=? ra_new_frag_size n)) eqn:E6.
    { right; left. apply andb_prop in E6. destruct E6 as [E6a E6b].
      destruct (realloc_backward h L b1 b2 f fsz n HI Hn' Hgt E5 E6a E6b) as [Hpost Hsz].
      split; [exact Hpost|]. right; right. split; [reflexivity|exact Hsz]. }
    destruct (realloc_fallback h L b1 b2 f fsz n HI Hn' Hgt E5 E6)
      as [(Hr0 & Hst & Ha0)|(Hpost & Hout & Hal)].
    + left. split; [exact Hr0|]. split; [exact Hst|]. right. split; [reflexivity|exact Ha0].
    + right; right. split; [exact Hpost|]. split; [reflexivity|]. split; assumption.
Qed.

(** [o1heapReallocate] on a live block and a nonzero size, by case. *)
Lemma realloc_spec h bl L p n :
  HeapInv h bl L -> In p (used_ptrs bl) -> 0 < n <= SIZE_MAX ->
  let r := o1heapReallocate h p n in
  let d := diagnostics h in
  let delta := ra_new_frag_size n - ra_frag_size h p in
  (fst r = 0 /\ snd r = set_diag h (note_request d n true) /\
   (realloc_case h p n = R3 \/
    realloc_case h p n = R7 /\ fst (o1heapAllocate (ra_noted h n) n) = 0)) \/
  (realloc_post h bl p n r delta (allocated d + delta) /\
   (realloc_case h p n = R4 \/ realloc_case h p n = R5 \/
    realloc_case h p n = R6 /\
    ((wrap (wrap (wrap (ra_prev_size h p + ra_frag_size h p) + ra_next_size h p)
            - ra_new_frag_size n) >=? FRAGMENT_SIZE_MIN) = false ->
     ra_prev_size h p + ra_next_size h p = delta))) \/
  (realloc_post h bl p n r delta (allocated d + ra_new_frag_size n) /\
   realloc_case h p n = R7 /\ fst (o1heapAllocate (ra_noted h n) n) <> 0 /\
   allocated (diagnostics (snd (o1heapAllocate (ra_noted h n) n))) =
     allocated d + ra_new_frag_size n).
Proof.
  intros HI Hp Hn r d delta.
  destruct (realloc_mem_spec h bl L p n HI Hp Hn) as [H|[[H1 H2]|[H1 H2]]].
  - left. exact H.
  - right; left. split; [exact (realloc_mem_post_post _ _ _ _ _ _ _ H1)|exact H2].
  - right; right. split; [exact (realloc_mem_post_post _ _ _ _ _ _ _ H1)|exact H2].
Qed.

(** ** Every call keeps the invariant *)

Lemma remove_perm p (l l' : list Z) :
  Permutation l l' -> Permutation (remove Z.eq_dec p l) (remove Z.eq_dec p l').
Proof.
  induction 1 as [|x l l' _ IH|x y l|l l' l'' _ IH1 _ IH2]; cbn [remove].
  - constructor.
  - destruct (Z.eq_dec p x); [assumption|constructor; assumption].
  - destruct (Z.eq_dec p y), (Z.eq_dec p x); try reflexivity. apply perm_swap.
  - etransitivity; eassumption.
Qed.

Lemma remove_head_perm p (l r : list Z) :
  NoDup l -> Permutation l (p :: r) -> Permutation (remove Z.eq_dec p l) r.
Proof.
  intros Hnd Hp. pose proof (Permutation_NoDup Hp Hnd) as Hnd'.
  apply NoDup_cons_iff in Hnd'. destruct Hnd' as [Hni _].
  rewrite (remove_perm p _ _ Hp). cbn [remove].
  destruct (Z.eq_dec p p); [|contradiction].
  rewrite notin_remove by assumption. reflexivity.
Qed.

Lemma used_ptrs_nodup bl : NoDup (map baddr bl) -> NoDup (used_ptrs bl).
Proof.
  induction bl as [|[[f s] u] rest IH]; cbn [map used_ptrs baddr fst]; intros Hnd.
  - constructor.
  - apply NoDup_cons_iff in Hnd. destruct Hnd as [Hni Hnd].
    destruct u; [|auto]. constructor; [|auto].
    intros Hin. apply used_ptrs_in in Hin. destruct Hin as (f' & s' & E & Hin).
    assert (f' = f) by lia. subst f'. apply Hni.
    apply (in_map baddr) in Hin. exact Hin.
Qed.

Lemma Inv_live h bl L live :
  HeapInv h bl L -> Permutation live (used_ptrs bl) ->
  NoDup live /\ ~ In 0 live.
Proof.
  intros HI Hp. pose proof (HeapInv_Rep _ _ _ HI) as R. split.
  - apply (Permutation_NoDup (Permutation_sym Hp)).
    apply used_ptrs_nodup. apply (seg_nodup _ _ _ _ _ _ (rep_seg _ _ _ R)).
  - intros H0. apply (Permutation_in _ Hp) in H0. apply used_ptrs_in in H0.
    destruct H0 as (f & s & E & Hin).
    destruct (Rep_block _ _ _ _ _ _ R Hin) as (Hf0 & _). pose proof PTR_pos. zl.
Qed.

(** A failed request only touches the request statistics. *)
Lemma note_failed_inv h bl L amount :
  HeapInv h bl L -> 0 <= amount <= SIZE_MAX ->
  HeapInv (set_diag h (note_request (diagnostics h) amount true)) bl L.
Proof.
  intros HI Ham. pose proof HI as (R & Hb & Hna & HD).
  destruct HD as (Hal & Hpk & Hpd & Hprs & Hoom).
  apply HeapInv_set_diag.
  - exact HI.
  - unfold note_request. destruct (true && (amount >? 0)); reflexivity.
  - unfold DiagOk, note_request, set_oom_count, set_peak_request_size.
    assert (Hw : 0 <= wrap64 (oom_count (diagnostics h) + 1) < 2 ^ 64).
    { unfold wrap64. apply Z.mod_pos_bound. lia. }
    destruct (true && (amount >? 0));
      cbn [allocated peak_allocated capacity peak_request_size oom_count];
      rewrite larger_max; repeat split; try assumption; try lia.
Qed.

Lemma note_failed_req d n amount :
  0 <= n -> n + 1 < 2 ^ 64 -> 0 <= amount -> 0 <= peak_request_size d ->
  0 <= oom_count d -> ReqInv d n ->
  ReqInv (note_request d amount true) (n + 1).
Proof.
  intros Hn Hn1 Ham Hprs Hoom (H1 & H2 & H3).
  unfold ReqInv, note_request, set_oom_count, set_peak_request_size.
  destruct (Z.gtb_spec amount 0) as [Hpos|Hz]; cbn [andb];
    cbn [allocated peak_allocated capacity peak_request_size oom_count];
    rewrite larger_max.
  - rewrite wrap64_small by lia. repeat split; try lia.
  - assert (amount = 0) by lia. subst amount.
    rewrite Z.max_l by lia. repeat split; try lia; auto.
Qed.

Lemma ReqInv_mono d n m : ReqInv d n -> n <= m -> ReqInv d m.
Proof. intros (H1 & H2 & H3) Hnm. split; [lia|split; assumption]. Qed.

Lemma alloc_step n h live amount :
  0 <= n -> Inv h live -> (n < 2 ^ 64 -> ReqInv (diagnostics h) n) ->
  0 <= amount <= SIZE_MAX ->
  let r := o1heapAllocate h amount in
  Inv (snd r) (if fst r =? 0 then live else fst r :: live) /\
  (n + 1 < 2 ^ 64 -> ReqInv (diagnostics (snd r)) (n + 1)).
Proof.
  intros Hn (bl & L & HI & Hp) HR Ham r. subst r.
  pose proof PTR_pos. pose proof FMAX_facts as (HW & HF & HW8).
  pose proof HI as (R & Hb & Hna & HD).
  destruct HD as (Hal & Hpk & Hpd & Hprs & Hoom).
  pose proof (used_total_le _ _ _ _ _ _ (rep_seg _ _ _ R)) as Hut.
  destruct (rep_cap _ _ _ R) as [Hcap Hcapd].
  pose proof (allocate_spec h bl L amount HI Ham) as Hs. cbv zeta in Hs.
  destruct Hs as [(E0 & Es & _)|(b1 & f & fsz & b2 & L' & Ebl & Hamt & Hle & Eout & HI' & Hd')].
  - rewrite E0, Es. cbn [Z.eqb]. split.
    + exists bl, L. split; [apply note_failed_inv; assumption|assumption].
    + intros Hn1. apply note_failed_req; try lia. apply HR. lia.
  - assert (Hinf : In (f, fsz, false) bl).
    { rewrite Ebl. apply in_or_app. right. left. reflexivity. }
    destruct (Rep_block _ _ _ _ _ _ R Hinf) as (Hf0 & _).
    rewrite Eout. destruct (Z.eqb_spec (f + O1HEAP_ALIGNMENT) 0) as [E0|_]; [zl|].
    destruct (alloc_size_facts amount _ Hcap Hamt) as (k & Ek & _ & Hlo & _).
    split.
    + eexists; exists L'. split; [exact HI'|].
      rewrite Hp, Ebl.
      destruct (_ <=? fsz); rewrite !used_ptrs_app; cbn [used_ptrs];
        apply Permutation_middle.
    + intros Hn1. specialize (HR ltac:(lia)). destruct HR as (H1 & H2 & H3).
      rewrite Hd'. unfold ReqInv.
      cbn [allocated peak_allocated capacity peak_request_size oom_count].
      rewrite Ek, !larger_max. repeat split; lia.
Qed.

Lemma free_step n h live p :
  0 <= n -> Inv h live -> (n < 2 ^ 64 -> ReqInv (diagnostics h) n) ->
  p = 0 \/ In p live ->
  Inv (o1heapFree h p) (remove Z.eq_dec p live) /\
  (n + 1 < 2 ^ 64 -> ReqInv (diagnostics (o1heapFree h p)) (n + 1)).
Proof.
  intros Hn (bl & L & HI & Hp) HR Hpl.
  destruct (Inv_live _ _ _ _ HI Hp) as [Hnd Hn0].
  destruct (Z.eq_dec p 0) as [->|Hp0].
  - unfold o1heapFree. cbn [Z.eqb]. rewrite notin_remove by assumption. split.
    + exists bl, L. auto.
    + intros Hn1. apply (ReqInv_mono _ n); [apply HR|]; lia.
  - destruct Hpl as [|Hpl]; [contradiction|].
    pose proof (Permutation_in _ Hp Hpl) as Hpu.
    destruct (free_spec _ _ _ _ HI Hpu) as (fsz & bl' & L' & Hinf & HI' & Hperm & Hd').
    split.
    + exists bl', L'. split; [assumption|].
      apply remove_head_perm; [assumption|]. rewrite Hp. exact Hperm.
    + intros Hn1. rewrite Hd'. apply (ReqInv_mono _ n); [|lia].
      apply (HR ltac:(lia)).
Qed.

Lemma write_step n h live addr v :
  0 <= n -> Inv h live -> (n < 2 ^ 64 -> ReqInv (diagnostics h) n) ->
  call_ok h live (CWrite addr v) ->
  Inv (set_mem h (store (mem h) addr v)) live /\
  (n + 1 < 2 ^ 64 -> ReqInv (diagnostics h) (n + 1)).
Proof.
  intros Hn (bl & L & HI & Hp) HR (p & Hpl & Hrange). split.
  - pose proof (Permutation_in _ Hp Hpl) as Hpu. apply used_ptrs_in in Hpu.
    destruct Hpu as (f & s & -> & Hin).
    pose proof (HeapInv_Rep _ _ _ HI) as R.
    destruct (Rep_block _ _ _ _ _ _ R Hin) as (_ & _ & _ & _ & _ & _ & Hgs & _).
    replace (f + O1HEAP_ALIGNMENT - O1HEAP_ALIGNMENT) with f in Hrange by lia.
    rewrite Hgs in Hrange.
    exists bl, L. split; [|assumption].
    apply (payload_HeapInv _ _ _ _ f s HI Hin).
    intros x Hx. apply store_ne. lia.
  - intros Hn1. apply (ReqInv_mono _ n); [apply HR|]; lia.
Qed.

Lemma realloc_post_step n h bl L live p amt r delta top :
  0 <= n -> HeapInv h bl L -> Permutation live (used_ptrs bl) ->
  (n < 2 ^ 64 -> ReqInv (diagnostics h) n) -> 0 < amt ->
  realloc_post h bl p amt r delta top ->
  Inv (snd r) (fst r :: remove Z.eq_dec p live) /\
  (n + 1 < 2 ^ 64 -> ReqInv (diagnostics (snd r)) (n + 1)).
Proof.
  intros Hn HI Hp HR Hamt (bl' & L' & rest & Hr0 & HI' & Hp1 & Hp2 & Hlo & Hd').
  destruct (Inv_live _ _ _ _ HI Hp) as [Hnd _].
  pose proof HI as (_ & _ & _ & (_ & _ & _ & Hprs & _)).
  split.
  - exists bl', L'. split; [assumption|].
    rewrite Hp2. constructor. apply remove_head_perm; [assumption|].
    rewrite Hp. exact Hp1.
  - intros Hn1. destruct (HR ltac:(lia)) as (H1 & H2 & H3).
    destruct HI' as (_ & _ & _ & (_ & Hpk' & _)).
    rewrite Hd' in Hpk' |- *. unfold ReqInv.
    cbn [allocated peak_allocated capacity peak_request_size oom_count] in Hpk' |- *.
    rewrite larger_max. repeat split; lia.
Qed.

Lemma realloc_step n h live p amt :
  0 <= n -> Inv h live -> (n < 2 ^ 64 -> ReqInv (diagnostics h) n) ->
  p = 0 \/ In p live -> 0 <= amt <= SIZE_MAX ->
  let r := o1heapReallocate h p amt in
  Inv (snd r) (live_after live (CReallocate p amt) (fst r)) /\
  (n + 1 < 2 ^ 64 -> ReqInv (diagnostics (snd r)) (n + 1)).
Proof.
  intros Hn HInv HR Hpl Hamt r. subst r. cbn [live_after].
  destruct (Z.eqb_spec p 0) as [->|Hp0].
  { change (o1heapReallocate h 0 amt) with (o1heapAllocate h amt).
    apply alloc_step; assumption. }
  destruct Hpl as [|Hpl]; [contradiction|].
  destruct (Z.eqb_spec amt 0) as [->|Ha0].
  { unfold o1heapReallocate. destruct (Z.eqb_spec p 0); [contradiction|].
    cbn [Z.eqb fst snd]. apply free_step; auto. }
  pose proof HInv as (bl & L & HI & Hp).
  pose proof (Permutation_in _ Hp Hpl) as Hpu.
  pose proof (realloc_spec h bl L p amt HI Hpu ltac:(lia)) as Hs. cbv zeta in Hs.
  pose proof HI as (_ & _ & _ & (_ & _ & _ & Hprs & Hoom)).
  destruct Hs as [(E0 & Es & _)|[(Hpost & _)|(Hpost & _)]].
  - rewrite E0, Es. cbn [Z.eqb]. split.
    + exists bl, L. split; [apply note_failed_inv; assumption|assumption].
    + intros Hn1. apply note_failed_req; try lia. apply HR. lia.
  - pose proof Hpost as (_ & _ & _ & Hr0 & _).
    destruct (Z.eqb_spec (fst (o1heapReallocate h p amt)) 0); [contradiction|].
    apply (realloc_post_step n h bl L live p amt _ _ _ Hn HI Hp HR ltac:(lia) Hpost).
  - pose proof Hpost as (_ & _ & _ & Hr0 & _).
    destruct (Z.eqb_spec (fst (o1heapReallocate h p amt)) 0); [contradiction|].
    apply (realloc_post_step n h bl L live p amt _ _ _ Hn HI Hp HR ltac:(lia) Hpost).
Qed.

Lemma step_inv n h live c :
  0 <= n -> Inv h live -> (n < 2 ^ 64 -> ReqInv (diagnostics h) n) ->
  call_ok h live c ->
  Inv (snd (exec h c)) (live_after live c (fst (exec h c))) /\
  (n + 1 < 2 ^ 64 -> ReqInv (diagnostics (snd (exec h c))) (n + 1)).
Proof.
  intros Hn HInv HR Hok. destruct c as [amount|p|p amt|addr v]; cbn [exec call_ok] in *.
  - apply alloc_step; assumption.
  - cbn [fst snd live_after]. apply free_step; assumption.
  - destruct Hok as [Hpl Hamt]. apply realloc_step; assumption.
  - cbn [fst snd live_after].
    destruct (write_step n h live addr v Hn HInv HR Hok) as [H1 H2].
    split; [exact H1|exact H2].
Qed.

Lemma init_inv m base size h :
  0 <= base -> 0 <= size -> base + size <= 2 ^ WORD_BITS ->
  o1heapInit m base size = Some h ->
  Inv h [] /\ ReqInv (diagnostics h) 0.
Proof.
  intros Hb Hs Hbs Hi.
  destruct (init_spec _ _ _ _ Hb Hs Hbs Hi) as (L & HI & Hd & _). split.
  - eexists; exists L. split; [exact HI|]. reflexivity.
  - rewrite Hd. unfold ReqInv. cbn. auto with zarith.
Qed.

(** The invariant of reachable heaps. *)
Lemma reachable_inv n h live :
  reachable n h live ->
  0 <= n /\ Inv h live /\ (n < 2 ^ 64 -> ReqInv (diagnostics h) n).
Proof.
  induction 1 as [m base size h Hb Hs Hbs Hi|n h live c _ (Hn & HInv & HR) Hok].
  - destruct (init_inv _ _ _ _ Hb Hs Hbs Hi). split; [lia|]. split; auto.
  - split; [lia|]. apply step_inv; assumption.
Qed.

(** ** The invariant checker *)

Lemma bin_indices_range i : In i bin_indices -> 0 <= i < NUM_BINS_MAX.
Proof.
  unfold bin_indices. intros Hi. apply in_map_iff in Hi. destruct Hi as (k & <- & Hk).
  apply in_seq in Hk. pose proof PTR_pos. unfold NUM_BINS_MAX, WORD_BITS in *. lia.
Qed.

Lemma mask_bit_test m i :
  0 <= i < WORD_BITS -> negb (Z.land m (pow2 i) =? 0) = Z.testbit m i.
Proof.
  intros Hi. rewrite pow2_eq by assumption. rewrite land_pow2 by lia.
  assert (0 < 2 ^ i) by (apply Z.pow_pos_nonneg; lia).
  destruct (Z.testbit m i).
  - destruct (Z.eqb_spec (2 ^ i) 0); [lia|reflexivity].
  - reflexivity.
Qed.

Lemma checker_bins h bl L : forall l,
  Rep h bl L -> (forall i, In i l -> 0 <= i < NUM_BINS_MAX) ->
  fold_left
    (fun valid i =>
       valid && Bool.eqb (negb (Z.land (nonempty_bin_mask h) (pow2 i) =? 0))
                         (negb (bins h i =? 0))) l true = true.
Proof.
  intros l R. destruct (rep_mask _ _ _ R) as [_ Hm].
  induction l as [|i l IH]; intros Hl; cbn [fold_left]; [reflexivity|].
  rewrite mask_bit_test by (apply Hl; left; reflexivity).
  rewrite Hm by (apply Hl; left; reflexivity).
  rewrite Bool.eqb_reflx. cbn [andb]. apply IH. intros j Hj. apply Hl. right. assumption.
Qed.

Lemma checker_true h bl L n :
  HeapInv h bl L -> ReqInv (diagnostics h) n -> o1heapDoInvariantsHold h = true.
Proof.
  intros (R & _ & _ & (Hal & Hpk & Hpd & Hprs & Hoom)) (H1 & H2 & H3).
  pose proof PTR_pos. pose proof FMAX_facts as (HW & HF & HW8).
  destruct (rep_cap _ _ _ R) as [Hcap Hcapd].
  pose proof (rep_seg _ _ _ R) as Hseg.
  pose proof (used_total_le _ _ _ _ _ _ Hseg) as Hu.
  pose proof (used_total_div _ _ _ _ _ _ Hseg) as Hud.
  rewrite <- Hal in Hu, Hud.
  unfold o1heapDoInvariantsHold. cbv zeta.
  rewrite (checker_bins h bl L bin_indices R bin_indices_range). cbn [andb].
  assert (E1 : (capacity (diagnostics h) <=? FRAGMENT_SIZE_MAX) = true) by (apply Z.leb_le; lia).
  assert (E2 : (capacity (diagnostics h) >=? FRAGMENT_SIZE_MIN) = true) by (apply Z.geb_le; lia).
  assert (E3 : (capacity (diagnostics h) mod FRAGMENT_SIZE_MIN =? 0) = true).
  { apply Z.eqb_eq. apply Z.mod_divide; [zl|assumption]. }
  assert (E4 : (allocated (diagnostics h) <=? capacity (diagnostics h)) = true)
    by (apply Z.leb_le; lia).
  assert (E5 : (allocated (diagnostics h) mod FRAGMENT_SIZE_MIN =? 0) = true).
  { apply Z.eqb_eq. apply Z.mod_divide; [zl|assumption]. }
  assert (E6 : (peak_allocated (diagnostics h) <=? capacity (diagnostics h)) = true)
    by (apply Z.leb_le; lia).
  assert (E7 : (peak_allocated (diagnostics h) >=? allocated (diagnostics h)) = true)
    by (apply Z.geb_le; lia).
  assert (E8 : (peak_allocated (diagnostics h) mod FRAGMENT_SIZE_MIN =? 0) = true).
  { apply Z.eqb_eq. apply Z.mod_divide; [zl|assumption]. }
  rewrite E1, E2, E3, E4, E5, E6, E7, E8. cbn [andb].
  destruct (Z.eqb_spec (peak_request_size (diagnostics h)) 0) as [E0|Hnz].
  - destruct (H2 E0) as [Hp0 Ho0]. rewrite E0, Hp0, Ho0.
    assert (Ea : allocated (diagnostics h) = 0) by lia. rewrite Ea.
    destruct (Z.ltb_spec 0 (capacity (diagnostics h))); [reflexivity|zl].
  - destruct (Z.gtb_spec (oom_count (diagnostics h)) 0) as [Hop|Hoz].
    + rewrite !orb_true_r. reflexivity.
    + assert (Eo : oom_count (diagnostics h) = 0) by lia.
      destruct (H3 Eo) as [|Hle]; [contradiction|].
      rewrite wrap_small by zl.
      destruct (Z.ltb_spec (peak_request_size (diagnostics h)) (capacity (diagnostics h)));
        [|zl].
      destruct (Z.leb_spec (peak_request_size (diagnostics h) + O1HEAP_ALIGNMENT)
                  (peak_allocated (diagnostics h))); [reflexivity|lia].
Qed.

(** * The claims *)

(** Claim C2, amended: in every heap reached from [o1heapInit] by fewer than
    [2 ^ 64] calls that respect the preconditions, [o1heapDoInvariantsHold]
    returns true; when [peak_request_size] is nonzero, either
    [peak_request_size + O1HEAP_ALIGNMENT <= peak_allocated] or [oom_count]
    is positive, and when it is zero, [allocated], [peak_allocated] and
    [oom_count] are zero. *)
Theorem invariants_hold_before_wrap n h live :
  reachable n h live -> n < 2 ^ 64 ->
  let d := diagnostics h in
  o1heapDoInvariantsHold h = true /\
  (peak_request_size d <> 0 ->
   peak_request_size d + O1HEAP_ALIGNMENT <= peak_allocated d \/ 0 < oom_count d) /\
  (peak_request_size d = 0 ->
   allocated d = 0 /\ peak_allocated d = 0 /\ oom_count d = 0).
Proof.
  intros Hr Hn d. subst d.
  destruct (reachable_inv _ _ _ Hr) as (_ & (bl & L & HI & _) & HR).
  specialize (HR Hn). split; [apply (checker_true _ _ _ _ HI HR)|].
  destruct HR as (H1 & H2 & H3).
  destruct HI as (R & _ & _ & (Hal & Hpk & _ & _ & Hoom)).
  pose proof (used_total_le _ _ _ _ _ _ (rep_seg _ _ _ R)) as Hu.
  split.
  - intros Hnz. destruct (Z.eq_dec (oom_count (diagnostics h)) 0) as [E|E]; [|lia].
    destruct (H3 E); [contradiction|left; assumption].
  - intros Hz. destruct (H2 Hz). lia.
Qed.

Lemma Rep_first h bl L :
  Rep h bl L ->
  exists s u rest, bl = (arena_end h - capacity (diagnostics h), s, u) :: rest.
Proof.
  intros R. pose proof (rep_seg _ _ _ R) as Hseg.
  destruct (rep_cap _ _ _ R) as [Hcap _]. pose proof PTR_pos.
  destruct bl as [|[[f s] u] rest].
  - cbn [seg] in Hseg. zl.
  - cbn [seg] in Hseg. destruct Hseg as (-> & _). eauto.
Qed.

Lemma frag_at_block h bl L f :
  Rep h bl L -> frag_at h f -> exists s u, In (f, s, u) bl.
Proof.
  intros R Hf. induction Hf as [|f Hf (s & u & Hin) Hnz].
  - destruct (Rep_first _ _ _ R) as (s & u & rest & ->). exists s, u. left. reflexivity.
  - destruct (Rep_block _ _ _ _ _ _ R Hin)
      as (_ & _ & _ & _ & _ & _ & _ & _ & _ & _ & [(E & _)|(E & _ & Hnext)]).
    + contradiction.
    + rewrite E. exact Hnext.
Qed.

Lemma block_frag_at h bl L :
  Rep h bl L -> forall b1 f s u b2, bl = b1 ++ (f, s, u) :: b2 -> frag_at h f.
Proof.
  intros R b1. induction b1 as [|[[g sg] ug] b1' IH] using rev_ind; intros f s u b2 E.
  - destruct (Rep_first _ _ _ R) as (s0 & u0 & rest & E0). rewrite E in E0.
    cbn [app] in E0. injection E0 as -> _ _ _. apply frag_root.
  - rewrite <- app_assoc in E. cbn [app] in E.
    pose proof (IH g sg ug ((f, s, u) :: b2) E) as Hg.
    pose proof (rep_seg _ _ _ R) as Hseg. rewrite E in Hseg.
    apply seg_split in Hseg. destruct Hseg as (_ & Hn & _ & _ & _ & _ & _ & Hs2).
    cbn [seg] in Hs2. destruct Hs2 as (Ef & _).
    assert (Hin : In (f, s, u) bl).
    { rewrite E. apply in_or_app. right. right. left. reflexivity. }
    destruct (Rep_block _ _ _ _ _ _ R Hin) as (Hf0 & _).
    rewrite Ef, <- Hn. apply frag_next; [assumption|]. rewrite Hn. lia.
Qed.

Lemma In_frag_at h bl L f s u : Rep h bl L -> In (f, s, u) bl -> frag_at h f.
Proof.
  intros R Hin. destruct (in_split _ _ Hin) as (b1 & b2 & E).
  apply (block_frag_at _ _ _ R b1 f s u b2 E).
Qed.

(** Claim C6: in every heap reached from [o1heapInit] by calls that respect
    the preconditions, no two address-adjacent fragments are both free: if a
    fragment of the heap is free and has a successor, the successor is
    used. *)
Theorem no_adjacent_free_fragments n h live f :
  reachable n h live -> frag_at h f ->
  fragGetNext (mem h) f <> 0 -> fragIsUsed (mem h) f = false ->
  fragIsUsed (mem h) (fragGetNext (mem h) f) = true.
Proof.
  intros Hr Hf Hnz Hfree.
  destruct (reachable_inv _ _ _ Hr) as (_ & (bl & L & HI & _) & _).
  destruct HI as (R & _ & Hna & _).
  destruct (frag_at_block _ _ _ _ R Hf) as (s & u & Hin).
  destruct (in_split _ _ Hin) as (b1 & b2 & Ebl).
  pose proof (rep_seg _ _ _ R) as Hseg. rewrite Ebl in Hseg, Hna.
  apply seg_split in Hseg. destruct Hseg as (_ & Hnx & _ & Hu & _ & _ & _ & Hs2).
  rewrite Hfree in Hu. subst u.
  destruct b2 as [|[[g s'] u'] b2']; [contradiction|].
  cbn [seg] in Hs2. destruct Hs2 as (Eg & _ & _ & Hu' & _).
  rewrite Hnx, <- Eg, Hu'.
  apply noadj_app in Hna. destruct Hna as (_ & Hna & _).
  cbn [noadj hd_used orb] in Hna. destruct Hna as [Hna _].
  destruct u'; [reflexivity|discriminate].
Qed.

Lemma Inv_perm h live live' : Inv h live -> Permutation live live' -> Inv h live'.
Proof.
  intros (bl & L & HI & Hp) Hp'. exists bl, L. split; [assumption|].
  rewrite <- Hp'. assumption.
Qed.

Lemma allocate_all_inv : forall amounts h live,
  Inv h live -> Forall (fun a => 0 <= a <= SIZE_MAX) amounts ->
  Forall (fun p => p <> 0) (fst (allocate_all h amounts)) ->
  Inv (snd (allocate_all h amounts)) (fst (allocate_all h amounts) ++ live).
Proof.
  induction amounts as [|a rest IH]; intros h live HInv Ha Hp; cbn [allocate_all] in *.
  - exact HInv.
  - apply Forall_cons_iff in Ha. destruct Ha as [Ha Hrest].
    assert (HR : 2 ^ 64 < 2 ^ 64 -> ReqInv (diagnostics h) (2 ^ 64)) by lia.
    pose proof (alloc_step (2 ^ 64) h live a ltac:(lia) HInv HR Ha) as [Hstep _].
    cbv zeta in Hstep.
    destruct (o1heapAllocate h a) as [p h1]. cbn [fst snd] in Hstep.
    specialize (IH h1). destruct (allocate_all h1 rest) as [ps h2].
    cbn [fst snd] in *. apply Forall_cons_iff in Hp. destruct Hp as [Hp0 Hps].
    destruct (Z.eqb_spec p 0); [contradiction|].
    apply (Inv_perm _ (ps ++ p :: live)); [apply IH; assumption|].
    symmetry. apply Permutation_middle.
Qed.

Lemma free_all_inv : forall order h live,
  Inv h live -> Permutation order live -> Inv (free_all h order) [].
Proof.
  induction order as [|p rest IH]; intros h live HInv Hp; cbn [free_all].
  - apply (Inv_perm _ _ _ HInv). symmetry. assumption.
  - assert (HR : 2 ^ 64 < 2 ^ 64 -> ReqInv (diagnostics h) (2 ^ 64)) by lia.
    assert (Hin : In p live) by (apply (Permutation_in _ Hp); left; reflexivity).
    destruct (free_step (2 ^ 64) h live p ltac:(lia) HInv HR (or_intror Hin)) as [Hf _].
    apply (IH _ _ Hf).
    destruct HInv as (bl & L & HI & Hpl). destruct (Inv_live _ _ _ _ HI Hpl) as [Hnd _].
    symmetry. apply remove_head_perm; [assumption|]. symmetry. assumption.
Qed.

(** A heap without live blocks is one free fragment. *)
Lemma drained h :
  Inv h [] ->
  exists L, HeapInv h [(arena_end h - capacity (diagnostics h),
                        capacity (diagnostics h), false)] L.
Proof.
  intros (bl & L & HI & Hp). exists L.
  apply Permutation_nil in Hp. pose proof (used_ptrs_nil _ Hp) as Hfree.
  pose proof HI as (R & _ & Hna & _).
  destruct (Rep_first _ _ _ R) as (s & u & rest & Ebl).
  pose proof (rep_seg _ _ _ R) as Hseg. pose proof (seg_total _ _ _ _ _ _ Hseg) as Ht.
  assert (u = false).
  { apply (Hfree (arena_end h - capacity (diagnostics h)) s u). rewrite Ebl.
    left. reflexivity. }
  subst u.
  destruct rest as [|[[g s'] u'] rest'].
  - rewrite Ebl in Ht. cbn [total] in Ht.
    replace (capacity (diagnostics h)) with s at 2 by lia. rewrite <- Ebl. exact HI.
  - assert (u' = false).
    { apply (Hfree g s' u'). rewrite Ebl. right. left. reflexivity. }
    subst u'. rewrite Ebl in Hna. cbn [noadj hd_used orb] in Hna.
    destruct Hna as [Hna _]. discriminate.
Qed.

Lemma max_alloc_value h bl L :
  Rep h bl L ->
  let k := Z.log2 (capacity (diagnostics h)) in
  o1heapGetMaxAllocationSize h = 2 ^ k - O1HEAP_ALIGNMENT /\
  lgFmin <= k <= WORD_BITS - 1 /\
  2 ^ k <= capacity (diagnostics h) < 2 ^ (k + 1) /\
  O1HEAP_ALIGNMENT <= 2 ^ k - O1HEAP_ALIGNMENT.
Proof.
  intros R k. destruct (rep_cap _ _ _ R) as [Hcap _].
  pose proof PTR_pos. pose proof FMAX_facts as (HW & HF & HW8).
  pose proof FMIN_pow as (EF & Hlg & Hlg').
  assert (Hc0 : 0 < capacity (diagnostics h)) by zl.
  pose proof (Z.log2_spec _ Hc0) as Hspec. fold k in Hspec.
  replace (Z.succ k) with (k + 1) in Hspec by lia.
  assert (Hk1 : lgFmin <= k).
  { unfold k. rewrite <- (Z.log2_pow2 lgFmin) by lia. apply Z.log2_le_mono.
    rewrite <- EF. lia. }
  assert (Hk2 : k <= WORD_BITS - 1).
  { unfold k. rewrite <- (Z.log2_pow2 (WORD_BITS - 1)) by lia. apply Z.log2_le_mono.
    rewrite <- FMAX_eq. lia. }
  assert (HkF : FRAGMENT_SIZE_MIN <= 2 ^ k).
  { rewrite EF. apply Z.pow_le_mono_r; lia. }
  unfold o1heapGetMaxAllocationSize.
  rewrite log2Floor_eq by lia. fold k. rewrite pow2_eq by lia.
  rewrite wrap_small by zl. repeat split; try lia. zl.
Qed.

(** The fragment size of a request above the maximal allocation size
    exceeds the capacity; that of the maximal size is within it. *)
Lemma alloc_size_vs_capacity h bl L amount :
  Rep h bl L -> 0 < amount <= capacity (diagnostics h) - O1HEAP_ALIGNMENT ->
  let asz := roundUpToPowerOf2 (wrap (amount + O1HEAP_ALIGNMENT)) in
  (o1heapGetMaxAllocationSize h < amount -> capacity (diagnostics h) < asz) /\
  (amount <= o1heapGetMaxAllocationSize h -> asz <= capacity (diagnostics h)).
Proof.
  intros R Ham asz. destruct (rep_cap _ _ _ R) as [Hcap _].
  destruct (max_alloc_value _ _ _ R) as (Emax & Hk & Hspec & Hpos).
  set (k := Z.log2 (capacity (diagnostics h))) in *.
  destruct (alloc_size_facts amount _ Hcap Ham) as (k' & Ek & Hk' & Hlo & Hhi & _).
  fold asz in Ek. pose proof FMIN_pow as (EF & Hlg & Hlg').
  rewrite Emax, Ek. split; intros Hcmp.
  - assert (Hlt : 2 ^ k < 2 ^ k') by lia.
    apply Z.pow_lt_mono_r_iff in Hlt; [|lia|lia].
    assert (2 ^ (k + 1) <= 2 ^ k') by (apply Z.pow_le_mono_r; lia). lia.
  - assert (Hlt : 2 ^ k' < 2 ^ (k + 1)).
    { replace (2 ^ (k + 1)) with (2 * 2 ^ k) by (rewrite Z.pow_add_r by lia; lia).
      lia. }
    apply Z.pow_lt_mono_r_iff in Hlt; [|lia|lia].
    assert (2 ^ k' <= 2 ^ k) by (apply Z.pow_le_mono_r; lia). lia.
Qed.

(** Claim C3: after any sequence of successful [o1heapAllocate] calls on a
    freshly initialised heap and [o1heapFree] of all the returned pointers
    in any order, [allocated] is zero, the heap is one free fragment that
    spans the capacity, and [o1heapAllocate] of
    [o1heapGetMaxAllocationSize] bytes returns a non-null pointer. *)
Theorem drain_to_empty m base size h amounts order :
  0 <= base -> 0 <= size -> base + size <= 2 ^ WORD_BITS ->
  o1heapInit m base size = Some h ->
  Forall (fun a => 0 <= a <= SIZE_MAX) amounts ->
  Forall (fun p => p <> 0) (fst (allocate_all h amounts)) ->
  Permutation order (fst (allocate_all h amounts)) ->
  let h' := free_all (snd (allocate_all h amounts)) order in
  let root := arena_end h' - capacity (diagnostics h') in
  allocated (diagnostics h') = 0 /\
  (fragIsUsed (mem h') root = false /\ fragGetSize h' root = capacity (diagnostics h')) /\
  fst (o1heapAllocate h' (o1heapGetMaxAllocationSize h')) <> 0.
Proof.
  intros Hb Hs Hbs Hi Ham Hok Hperm h' root.
  destruct (init_inv _ _ _ _ Hb Hs Hbs Hi) as [HInv0 _].
  pose proof (allocate_all_inv amounts h [] HInv0 Ham Hok) as HInv1.
  rewrite app_nil_r in HInv1.
  pose proof (free_all_inv order _ _ HInv1 Hperm) as HInv2. fold h' in HInv2.
  destruct (drained _ HInv2) as (L & HI). fold root in HI.
  pose proof HI as (R & _ & _ & (Hal & _)).
  pose proof PTR_pos.
  assert (Hin : In (root, capacity (diagnostics h'), false)
                   [(root, capacity (diagnostics h'), false)]) by (left; reflexivity).
  destruct (Rep_block _ _ _ _ _ _ R Hin) as (Hr0 & _ & _ & _ & _ & _ & Hgs & Hu & _).
  split; [rewrite Hal; reflexivity|]. split; [split; assumption|].
  destruct (max_alloc_value _ _ _ R) as (Emax & Hk & Hspec & Hpos).
  assert (Hamt : 0 < o1heapGetMaxAllocationSize h' <=
                 capacity (diagnostics h') - O1HEAP_ALIGNMENT) by zl.
  destruct (alloc_size_vs_capacity _ _ _ _ R Hamt) as [_ Hfit].
  specialize (Hfit ltac:(lia)).
  pose proof (allocate_spec h' _ L (o1heapGetMaxAllocationSize h') HI
                ltac:(unfold SIZE_MAX; pose proof FMAX_facts; destruct (rep_cap _ _ _ R); zl))
    as Hspec'.
  cbv zeta in Hspec'.
  destruct Hspec' as [(_ & _ & [E|[E|E]])|(b1 & f & fsz & b2 & L' & Ebl & _ & _ & Eout & _)].
  - lia.
  - lia.
  - specialize (E _ _ Hin). lia.
  - rewrite Eout.
    assert (Hinf : In (f, fsz, false) [(root, capacity (diagnostics h'), false)]).
    { rewrite Ebl. apply in_or_app. right. left. reflexivity. }
    destruct (Rep_block _ _ _ _ _ _ R Hinf) as (Hf0 & _). zl.
Qed.

(** Claim C4, amended: [o1heapGetMaxAllocationSize] returns
    [2 ^ floor(log2 capacity) - O1HEAP_ALIGNMENT], and every
    [o1heapAllocate] of more than that returns null, increments [oom_count]
    and raises [peak_request_size], leaving the rest of the heap as it was;
    the request is refused by the capacity guard when it exceeds
    [capacity - O1HEAP_ALIGNMENT] and by the search of the bin mask
    otherwise. *)
Theorem allocate_above_max_fails n h live amount :
  reachable n h live ->
  o1heapGetMaxAllocationSize h < amount <= SIZE_MAX ->
  let d := diagnostics h in
  let r := o1heapAllocate h amount in
  o1heapGetMaxAllocationSize h = 2 ^ Z.log2 (capacity d) - O1HEAP_ALIGNMENT /\
  fst r = 0 /\
  snd r = set_diag h (mkDiag (capacity d) (allocated d) (peak_allocated d)
                             (Z.max (peak_request_size d) amount)
                             (wrap64 (oom_count d + 1))) /\
  ((amount <=? wrap (capacity d - O1HEAP_ALIGNMENT)) = true ->
   Z.land (nonempty_bin_mask h)
          (lnotW (wrap (pow2 (log2Floor
             (roundUpToPowerOf2 (wrap (amount + O1HEAP_ALIGNMENT)) / FRAGMENT_SIZE_MIN))
                        - 1))) = 0).
Proof.
  intros Hr Ham d r. subst d r.
  destruct (reachable_inv _ _ _ Hr) as (_ & (bl & L & HI & _) & _).
  pose proof HI as (R & Hbin & _ & _).
  destruct (max_alloc_value _ _ _ R) as (Emax & Hk & Hspec & Hpos).
  pose proof PTR_pos. pose proof FMAX_facts as (HW & HF & HW8).
  destruct (rep_cap _ _ _ R) as [Hcap _].
  split; [exact Emax|].
  assert (Hpos' : 0 < amount) by lia.
  pose proof (allocate_spec h bl L amount HI ltac:(lia)) as Hs. cbv zeta in Hs.
  assert (Hfail : fst (o1heapAllocate h amount) = 0 /\
                  snd (o1heapAllocate h amount) =
                    set_diag h (note_request (diagnostics h) amount true)).
  { destruct Hs as [(E0 & Es & _)|(b1 & f & fsz & b2 & L' & Ebl & Hamt & Hle & _)];
      [split; assumption|exfalso].
    destruct (alloc_size_vs_capacity _ _ _ _ R Hamt) as [Hbig _].
    specialize (Hbig ltac:(lia)).
    assert (Hinf : In (f, fsz, false) bl).
    { rewrite Ebl. apply in_or_app. right. left. reflexivity. }
    destruct (Rep_block _ _ _ _ _ _ R Hinf) as (_ & _ & _ & Hfsz & _). lia. }
  destruct Hfail as [E0 Es]. split; [exact E0|]. split.
  - rewrite Es. unfold note_request, set_oom_count, set_peak_request_size.
    destruct (Z.gtb_spec amount 0) as [_|]; [|lia]. cbn [andb].
    cbn [allocated peak_allocated capacity peak_request_size oom_count].
    rewrite larger_max. reflexivity.
  - intros Hguard. rewrite wrap_small in Hguard by zl.
    apply Z.leb_le in Hguard.
    assert (Hamt : 0 < amount <= capacity (diagnostics h) - O1HEAP_ALIGNMENT) by lia.
    destruct (alloc_size_vs_capacity _ _ _ _ R Hamt) as [Hbig _].
    specialize (Hbig ltac:(lia)).
    destruct (alloc_size_facts amount _ Hcap Hamt)
      as (k' & Ek & Hk' & _ & _ & Hr' & _ & _ & Elog).
    rewrite Ek in Hbig |- *. rewrite Elog.
    pose proof FMIN_pow as (EF & Hlg & Hlg').
    apply Z.bits_inj'. intros j Hj. rewrite Z.bits_0, Z.land_spec.
    rewrite testbit_candidate by lia.
    destruct (rep_mask _ _ _ R) as [Hmr Hmb].
    destruct (Z.ltb_spec j WORD_BITS) as [Hjw|Hjw]; [|rewrite andb_false_r; reflexivity].
    destruct (Z.leb_spec (k' - lgFmin) j) as [Hjk|Hjk]; [|rewrite andb_false_r; reflexivity].
    cbn [andb]. rewrite andb_true_r.
    rewrite Hmb by (unfold NUM_BINS_MAX; lia).
    destruct (Z.eqb_spec (bins h j) 0) as [|Hne]; [reflexivity|exfalso].
    destruct (rep_bins _ _ _ R j ltac:(unfold NUM_BINS_MAX; lia)) as (_ & Hhd & _).
    assert (Hinb : In (bins h j) (L j)).
    { rewrite Hhd in Hne |- *. destruct (L j); [contradiction|left; reflexivity]. }
    destruct (rep_mem _ _ _ R _ _ Hinb) as (_ & s & Hs' & Eidx).
    destruct (Rep_block _ _ _ _ _ _ R Hs') as (_ & _ & _ & Hsz & _).
    pose proof (binidx_lower s ltac:(zl)) as Hlow. rewrite Eidx in Hlow.
    assert (2 ^ k' <= 2 ^ (lgFmin + j)) by (apply Z.pow_le_mono_r; lia).
    lia.
Qed.

Lemma alloc_null h bl L amount :
  HeapInv h bl L -> 0 <= amount <= SIZE_MAX -> fst (o1heapAllocate h amount) = 0 ->
  snd (o1heapAllocate h amount) = set_diag h (note_request (diagnostics h) amount true).
Proof.
  intros HI Ham E0. pose proof (allocate_spec h bl L amount HI Ham) as Hs. cbv zeta in Hs.
  destruct Hs as [(_ & Es & _)|(b1 & f & fsz & b2 & L' & Ebl & _ & _ & Eout & _)];
    [assumption|exfalso].
  assert (Hinf : In (f, fsz, false) bl).
  { rewrite Ebl. apply in_or_app. right. left. reflexivity. }
  destruct (Rep_block _ _ _ _ _ _ (HeapInv_Rep _ _ _ HI) Hinf) as (Hf0 & _).
  pose proof PTR_pos. zl.
Qed.

Lemma note_request_failed d amount :
  0 <= amount ->
  note_request d amount true =
  mkDiag (capacity d) (allocated d) (peak_allocated d)
         (Z.max (peak_request_size d) amount)
         (if amount =? 0 then oom_count d else wrap64 (oom_count d + 1)).
Proof.
  intros Ha. unfold note_request, set_oom_count, set_peak_request_size.
  rewrite larger_max. cbn [andb].
  destruct (Z.gtb_spec amount 0), (Z.eqb_spec amount 0); try lia; reflexivity.
Qed.

(** Claim C7: a failed call never partially modifies the heap.  A call of
    [o1heapAllocate] that returns null leaves the memory with all its
    fragments, the bins, the mask, [capacity], [allocated] and
    [peak_allocated] exactly as they were; all it does is the bookkeeping
    of a refused request, which raises [peak_request_size] to the request
    and, unless the request is for zero bytes, increments [oom_count].  A
    call of [o1heapReallocate] on a live block with a nonzero size that
    returns null does the same, so the original block remains valid, with
    its contents unchanged. *)
Theorem failed_call_frame n h live :
  reachable n h live ->
  let d := diagnostics h in
  let noted amount :=
    set_diag h (mkDiag (capacity d) (allocated d) (peak_allocated d)
                       (Z.max (peak_request_size d) amount)
                       (if amount =? 0 then oom_count d else wrap64 (oom_count d + 1))) in
  (forall amount, 0 <= amount <= SIZE_MAX -> fst (o1heapAllocate h amount) = 0 ->
                  snd (o1heapAllocate h amount) = noted amount) /\
  (forall p amount, In p live -> 0 < amount <= SIZE_MAX ->
                    fst (o1heapReallocate h p amount) = 0 ->
                    snd (o1heapReallocate h p amount) = noted amount /\
                    fragIsUsed (mem (snd (o1heapReallocate h p amount)))
                               (p - O1HEAP_ALIGNMENT) = true).
Proof.
  intros Hr d noted. subst d noted. cbv beta.
  destruct (reachable_inv _ _ _ Hr) as (_ & (bl & L & HI & Hp) & _).
  split.
  - intros amount Ham E0. rewrite (alloc_null _ _ _ _ HI Ham E0).
    rewrite note_request_failed by lia. reflexivity.
  - intros p amount Hpl Ham E0.
    pose proof (Permutation_in _ Hp Hpl) as Hpu.
    pose proof (realloc_spec h bl L p amount HI Hpu Ham) as Hs. cbv zeta in Hs.
    destruct Hs as [(_ & Es & _)|[(Hpost & _)|(Hpost & _)]].
    + rewrite Es, note_request_failed by lia. split; [reflexivity|].
      cbn [set_diag mem]. apply used_ptrs_in in Hpu.
      destruct Hpu as (f & s & -> & Hin).
      replace (f + O1HEAP_ALIGNMENT - O1HEAP_ALIGNMENT) with f by lia.
      apply (Rep_block _ _ _ _ _ _ (HeapInv_Rep _ _ _ HI) Hin).
    + destruct Hpost as (_ & _ & _ & Hr0 & _). contradiction.
    + destruct Hpost as (_ & _ & _ & Hr0 & _). contradiction.
Qed.

Lemma diag_rebin h f s : diagnostics (rebin h f s) = diagnostics h.
Proof. reflexivity. Qed.

Lemma free_oom h p :
  oom_count (diagnostics (o1heapFree h p)) = oom_count (diagnostics h).
Proof.
  unfold o1heapFree. destruct (p =? 0); [reflexivity|]. cbv zeta.
  repeat match goal with
         | |- context [if ?c then _ else _] => destruct c
         end;
    rewrite ?diag_rebin; cbn [set_mem diagnostics]; rewrite ?diag_unbin; reflexivity.
Qed.

(** Claim C8: a request for zero bytes is never counted as out of memory.
    In every heap [o1heapAllocate] of zero bytes returns null and leaves
    [oom_count] as it was, and so does [o1heapReallocate] to zero bytes.
    For a block [p] the application holds, [o1heapReallocate] to zero bytes
    moreover frees it: it is [o1heapFree] of [p]; [allocated] drops by the
    size of the fragment, which is at least [FRAGMENT_SIZE_MIN], and no
    other diagnostics field changes; the heap is the one reached with [p]
    removed from the pointers held; the range of the fragment lies inside
    a free fragment of the heap, and no used fragment overlaps it. *)
Theorem zero_size_requests n h live p :
  reachable n h live -> In p live ->
  let r := o1heapReallocate h p 0 in
  let d := diagnostics h in
  let frag := p - O1HEAP_ALIGNMENT in
  let size := fragGetSize h frag in
  (forall h0 q,
     fst (o1heapAllocate h0 0) = 0 /\
     oom_count (diagnostics (snd (o1heapAllocate h0 0))) = oom_count (diagnostics h0) /\
     fst (o1heapReallocate h0 q 0) = 0 /\
     oom_count (diagnostics (snd (o1heapReallocate h0 q 0))) = oom_count (diagnostics h0)) /\
  fst r = 0 /\ snd r = o1heapFree h p /\
  FRAGMENT_SIZE_MIN <= size <= allocated d /\
  diagnostics (snd r) =
    mkDiag (capacity d) (allocated d - size) (peak_allocated d) (peak_request_size d)
           (oom_count d) /\
  reachable (n + 1) (snd r) (remove Z.eq_dec p live) /\
  ~ In p (remove Z.eq_dec p live) /\
  (exists x, frag_at (snd r) x /\ fragIsUsed (mem (snd r)) x = false /\
             x <= frag /\ frag + size <= x + fragGetSize (snd r) x) /\
  (forall g, frag_at (snd r) g -> fragIsUsed (mem (snd r)) g = true ->
             g + fragGetSize (snd r) g <= frag \/ frag + size <= g).
Proof.
  intros Hr Hpl r d frag size. subst r d frag size.
  split.
  { intros h0 q.
    assert (Ha : fst (o1heapAllocate h0 0) = 0 /\
                 oom_count (diagnostics (snd (o1heapAllocate h0 0))) =
                 oom_count (diagnostics h0)).
    { unfold o1heapAllocate. cbn [Z.gtb Z.compare andb Z.eqb fst snd]. split; reflexivity. }
    destruct Ha as [Ha1 Ha2]. split; [exact Ha1|]. split; [exact Ha2|].
    unfold o1heapReallocate. destruct (Z.eqb_spec q 0) as [->|Hq].
    - split; assumption.
    - cbn [Z.eqb fst snd]. split; [reflexivity|apply free_oom]. }
  destruct (reachable_inv _ _ _ Hr) as (_ & (bl & L & HI & Hp) & _).
  destruct (Inv_live _ _ _ _ HI Hp) as [Hnd Hn0].
  assert (Hp0 : p <> 0) by (intros ->; contradiction).
  assert (Er : o1heapReallocate h p 0 = (0, o1heapFree h p)).
  { unfold o1heapReallocate. destruct (Z.eqb_spec p 0); [contradiction|]. reflexivity. }
  assert (Hr' : reachable (n + 1) (o1heapFree h p) (remove Z.eq_dec p live)).
  { assert (Hok : call_ok h live (CReallocate p 0)).
    { cbn [call_ok]. split; [right; exact Hpl|]. unfold SIZE_MAX.
      pose proof FMAX_facts as (HW & _). pose proof PTR_pos. zl. }
    pose proof (reach_call n h live (CReallocate p 0) Hr Hok) as Hc.
    cbn [exec live_after] in Hc. rewrite Er in Hc.
    destruct (Z.eqb_spec p 0); [contradiction|]. exact Hc. }
  rewrite Er. cbn [fst snd].
  pose proof (HeapInv_Rep _ _ _ HI) as R.
  pose proof (Permutation_in _ Hp Hpl) as Hpu.
  destruct (free_mem_spec h bl L p HI Hpu)
    as (fsz & bl' & L' & Hin & HI' & _ & Hd' & _ & (x & S & Hx & Hx1 & Hx2) & _).
  destruct (Rep_block _ _ _ _ _ _ R Hin) as (_ & _ & _ & Hfsz & _ & _ & Hgsz & _).
  pose proof (HeapInv_Rep _ _ _ HI') as R'.
  rewrite Hgsz.
  split; [reflexivity|]. split; [reflexivity|].
  split.
  { destruct HI' as (_ & _ & _ & (Hal' & _)).
    pose proof (used_total_le _ _ _ _ _ _ (rep_seg _ _ _ R')) as Hu.
    rewrite <- Hal', Hd' in Hu. cbn [set_allocated allocated] in Hu. lia. }
  split; [rewrite Hd'; reflexivity|].
  split; [exact Hr'|].
  split; [apply remove_In|].
  destruct (Rep_block _ _ _ _ _ _ R' Hx) as (_ & _ & _ & _ & _ & _ & Hxs & Hxu & _).
  split.
  { exists x. split; [apply (In_frag_at _ _ _ _ _ _ R' Hx)|]. split; [exact Hxu|].
    rewrite Hxs. split; assumption. }
  intros g Hg Hgu.
  destruct (frag_at_block _ _ _ _ R' Hg) as (s & u & Hing).
  destruct (Rep_block _ _ _ _ _ _ R' Hing) as (_ & _ & _ & _ & _ & _ & Hgs & Hgu' & _).
  rewrite Hgs. rewrite Hgu in Hgu'. subst u.
  destruct (Rep_sep _ _ _ _ _ _ _ _ _ R' Hing Hx) as [(_ & _ & E)|[E|E]];
    [discriminate E|left; lia|right; lia].
Qed.


(** Claim C10: [o1heapReallocate] of a non-null pointer to a nonzero size
    above [capacity - O1HEAP_ALIGNMENT] returns null, increments
    [oom_count], raises [peak_request_size] to the maximum of itself and the
    request and changes nothing else: the memory with all the fragments,
    the bins, the mask, [capacity], [allocated] and [peak_allocated] are as
    before. *)
Theorem realloc_beyond_capacity_frame n h live p amount :
  reachable n h live ->
  p <> 0 -> 0 < amount -> capacity (diagnostics h) - O1HEAP_ALIGNMENT < amount ->
  let d := diagnostics h in
  let r := o1heapReallocate h p amount in
  realloc_case h p amount = R3 /\ fst r = 0 /\
  mem (snd r) = mem h /\ bins (snd r) = bins h /\
  nonempty_bin_mask (snd r) = nonempty_bin_mask h /\ arena_end (snd r) = arena_end h /\
  diagnostics (snd r) =
    mkDiag (capacity d) (allocated d) (peak_allocated d)
           (Z.max (peak_request_size d) amount) (wrap64 (oom_count d + 1)).
Proof.
  intros Hr Hp Hpos Hbig d r. subst d r.
  destruct (reachable_inv _ _ _ Hr) as (_ & (bl & L & HI & _) & _).
  destruct (rep_cap _ _ _ (HeapInv_Rep _ _ _ HI)) as [Hcap _].
  pose proof PTR_pos. pose proof FMAX_facts as (HW & HF & HW8).
  unfold realloc_case, o1heapReallocate.
  destruct (Z.eqb_spec p 0) as [|_]; [contradiction|].
  destruct (Z.eqb_spec amount 0) as [|_]; [lia|].
  cbv zeta. cbn [set_diag diagnostics capacity set_peak_request_size].
  rewrite (wrap_small (capacity (diagnostics h) - O1HEAP_ALIGNMENT)) by zl.
  destruct (Z.gtb_spec amount (capacity (diagnostics h) - O1HEAP_ALIGNMENT)) as [_|]; [|lia].
  cbn [fst snd set_diag mem bins nonempty_bin_mask arena_end diagnostics].
  repeat split. unfold set_oom_count.
  cbn [allocated peak_allocated capacity peak_request_size oom_count].
  rewrite larger_max. reflexivity.
Qed.

(** Claim C5, amended: in the backward-expansion case of
    [o1heapReallocate], [allocated] grows by
    [new_frag_size - frag_size] when a tail of at least
    [FRAGMENT_SIZE_MIN] is split off and by [prev_size + next_size] when the
    combined space is taken whole, and [peak_allocated] is raised to the new
    [allocated] if that is larger. *)
Theorem backward_expansion_accounting n h live p amount :
  reachable n h live -> In p live -> 0 < amount <= SIZE_MAX ->
  realloc_case h p amount = R6 ->
  let d := diagnostics h in
  let d' := diagnostics (snd (o1heapReallocate h p amount)) in
  let leftover :=
    wrap (wrap (wrap (ra_prev_size h p + ra_frag_size h p) + ra_next_size h p)
          - ra_new_frag_size amount) in
  allocated d' =
    allocated d + (if leftover >=? FRAGMENT_SIZE_MIN
                   then ra_new_frag_size amount - ra_frag_size h p
                   else ra_prev_size h p + ra_next_size h p) /\
  peak_allocated d' = Z.max (peak_allocated d) (allocated d').
Proof.
  intros Hr Hpl Ham Hcase d d' leftover. subst d d' leftover.
  destruct (reachable_inv _ _ _ Hr) as (_ & (bl & L & HI & Hp) & _).
  pose proof (Permutation_in _ Hp Hpl) as Hpu.
  pose proof (realloc_spec h bl L p amount HI Hpu Ham) as Hs. cbv zeta in Hs.
  rewrite Hcase in Hs.
  destruct Hs as [(_ & _ & [E|[E _]])|[(Hpost & [E|[E|[_ Hsz]]])|(_ & E & _)]];
    try discriminate.
  destruct Hpost as (bl' & L' & rest & _ & _ & _ & _ & _ & Hd'). rewrite Hd'.
  cbn [allocated peak_allocated].
  destruct (_ >=? FRAGMENT_SIZE_MIN).
  - split; reflexivity.
  - rewrite (Hsz eq_refl). split; reflexivity.
Qed.

Lemma noted_inv h bl L amount :
  HeapInv h bl L -> 0 <= amount <= SIZE_MAX -> HeapInv (ra_noted h amount) bl L.
Proof.
  intros HI Ham. pose proof HI as (_ & _ & _ & (Hal & Hpk & Hpd & Hprs & Hoom)).
  apply HeapInv_set_diag; [exact HI|reflexivity|].
  unfold DiagOk, set_peak_request_size.
  cbn [allocated peak_allocated capacity peak_request_size oom_count].
  rewrite larger_max. repeat split; try assumption; lia.
Qed.

(** What a call does to [peak_allocated]. *)
Lemma step_peak h live c :
  Inv h live -> call_ok h live c ->
  let d := diagnostics h in
  let d' := diagnostics (snd (exec h c)) in
  peak_allocated d' = Z.max (peak_allocated d) (Z.max (allocated d') (transient h c)).
Proof.
  intros (bl & L & HI & Hp) Hok d d'. subst d d'.
  pose proof HI as (R & _ & _ & (Hal & Hpk & _ & _ & _)).
  pose proof (used_total_le _ _ _ _ _ _ (rep_seg _ _ _ R)) as Hu. rewrite <- Hal in Hu.
  pose proof PTR_pos.
  assert (Halloc : forall amount, 0 <= amount <= SIZE_MAX ->
            let d' := diagnostics (snd (o1heapAllocate h amount)) in
            peak_allocated d' =
            Z.max (peak_allocated (diagnostics h))
                  (Z.max (allocated d') (allocated (diagnostics h)))).
  { intros amount Ham. cbv zeta.
    pose proof (allocate_spec h bl L amount HI Ham) as Hs. cbv zeta in Hs.
    destruct Hs as [(_ & Es & _)|(b1 & f & fsz & b2 & L' & _ & Hamt & _ & _ & _ & Hd')].
    - rewrite Es, note_request_failed by lia.
      cbn [set_diag diagnostics allocated peak_allocated]. lia.
    - rewrite Hd'. cbn [allocated peak_allocated]. rewrite larger_max.
      destruct (alloc_size_facts amount _ (proj1 (rep_cap _ _ _ R)) Hamt)
        as (k & Ek & _ & _ & _ & Hr' & _). rewrite Ek. zl. }
  assert (Hfree : forall p, p = 0 \/ In p live ->
            let d' := diagnostics (o1heapFree h p) in
            peak_allocated d' =
            Z.max (peak_allocated (diagnostics h))
                  (Z.max (allocated d') (allocated (diagnostics h)))).
  { intros p Hpl. cbv zeta. destruct (Z.eq_dec p 0) as [->|Hp0].
    - unfold o1heapFree. cbn [Z.eqb]. lia.
    - destruct Hpl as [|Hpl]; [contradiction|].
      pose proof (Permutation_in _ Hp Hpl) as Hpu.
      destruct (free_spec _ _ _ _ HI Hpu) as (fsz & bl' & L' & Hinf & _ & _ & Hd').
      destruct (Rep_block _ _ _ _ _ _ R Hinf) as (_ & _ & _ & Hfsz & _).
      rewrite Hd'. cbn [set_allocated allocated peak_allocated]. zl. }
  destruct c as [amount|p|p amount|addr v]; cbn [exec call_ok transient snd] in *.
  - apply Halloc. assumption.
  - apply Hfree. assumption.
  - destruct Hok as [Hpl Ham].
    destruct (Z.eq_dec p 0) as [->|Hp0].
    { change (o1heapReallocate h 0 amount) with (o1heapAllocate h amount).
      unfold realloc_case. cbn [Z.eqb]. apply Halloc. assumption. }
    destruct Hpl as [|Hpl]; [contradiction|].
    destruct (Z.eq_dec amount 0) as [->|Ha0].
    { unfold realloc_case, o1heapReallocate.
      destruct (Z.eqb_spec p 0); [contradiction|]. cbn [Z.eqb snd].
      apply Hfree. right. assumption. }
    pose proof (Permutation_in _ Hp Hpl) as Hpu.
    pose proof (realloc_spec h bl L p amount HI Hpu ltac:(lia)) as Hs. cbv zeta in Hs.
    destruct Hs as [(_ & Es & [E|[E Ea0]])|[(Hpost & Hcase)|(Hpost & E & _ & Hal')]].
    + rewrite E, Es, note_request_failed by lia.
      cbn [set_diag diagnostics allocated peak_allocated]. lia.
    + rewrite E, Es, note_request_failed by lia.
      rewrite (alloc_null (ra_noted h amount) bl L amount (noted_inv _ _ _ amount HI Ham)
                 Ham Ea0).
      rewrite note_request_failed by lia.
      cbn [ra_noted set_diag diagnostics set_peak_request_size allocated peak_allocated].
      lia.
    + destruct Hpost as (bl' & L' & rest & _ & _ & _ & _ & _ & Hd'). rewrite Hd'.
      cbn [allocated peak_allocated].
      destruct Hcase as [E|[E|[E _]]]; rewrite E; lia.
    + destruct Hpost as (bl' & L' & rest & _ & _ & _ & _ & _ & Hd'). rewrite Hd', E, Hal'.
      cbn [allocated peak_allocated].
      pose proof (wrap_range (if fragGetNext (mem h) (p - O1HEAP_ALIGNMENT) =? 0
                              then arena_end h - (p - O1HEAP_ALIGNMENT)
                              else fragGetNext (mem h) (p - O1HEAP_ALIGNMENT)
                                   - (p - O1HEAP_ALIGNMENT))) as Hw.
      assert (Hfs : 0 <= ra_frag_size h p).
      { unfold ra_frag_size, fragGetSize.
        destruct (fragGetNext (mem h) (p - O1HEAP_ALIGNMENT) =? 0); apply wrap_range. }
      lia.
  - cbn [set_mem diagnostics]. lia.
Qed.

Lemma run_inv : forall cs h live,
  Inv h live -> calls_ok h live cs -> Inv (run h cs) (run_live h live cs).
Proof.
  induction cs as [|c rest IH]; intros h live HInv Hok; cbn [run run_live calls_ok] in *.
  - assumption.
  - destruct Hok as [Hc Hrest]. apply IH; [|assumption].
    assert (HR : 2 ^ 64 < 2 ^ 64 -> ReqInv (diagnostics h) (2 ^ 64)) by lia.
    apply (step_inv (2 ^ 64) h live c ltac:(lia) HInv HR Hc).
Qed.

Lemma max_of_nonneg l : 0 <= max_of l.
Proof. induction l as [|x l IH]; cbn [max_of fold_right]; [lia|fold (max_of l); lia]. Qed.

Lemma snapshots_head h cs : allocated (diagnostics h) <= max_of (snapshots h cs).
Proof.
  destruct cs; cbn [snapshots max_of fold_right]; lia.
Qed.

Lemma peak_run : forall cs h live,
  Inv h live -> calls_ok h live cs ->
  peak_allocated (diagnostics (run h cs)) =
  Z.max (peak_allocated (diagnostics h))
        (Z.max (max_of (snapshots h cs)) (max_of (transients h cs))).
Proof.
  induction cs as [|c rest IH]; intros h live HInv Hok.
  - destruct HInv as (bl & L & (R & _ & _ & (Hal & Hpk & _)) & _).
    pose proof (used_total_le _ _ _ _ _ _ (rep_seg _ _ _ R)) as Hu.
    cbn [run snapshots transients max_of fold_right]. lia.
  - cbn [calls_ok] in Hok. destruct Hok as [Hc Hrest].
    assert (HR : 2 ^ 64 < 2 ^ 64 -> ReqInv (diagnostics h) (2 ^ 64)) by lia.
    destruct (step_inv (2 ^ 64) h live c ltac:(lia) HInv HR Hc) as [HInv' _].
    pose proof (step_peak h live c HInv Hc) as Hstep. cbv zeta in Hstep.
    specialize (IH _ _ HInv' Hrest).
    pose proof (snapshots_head (snd (exec h c)) rest) as Hhd.
    destruct HInv as (bl & L & (R & _ & _ & (Hal & Hpk & _)) & _).
    pose proof (used_total_le _ _ _ _ _ _ (rep_seg _ _ _ R)) as Hu.
    cbn [run snapshots transients max_of fold_right].
    fold (max_of (snapshots (snd (exec h c)) rest)).
    fold (max_of (transients (snd (exec h c)) rest)).
    rewrite IH, Hstep. lia.
Qed.

(** Claim C1, amended: [peak_allocated] never decreases, and after any
    sequence of calls on a freshly initialised heap it is the maximum of the
    values [allocated] had between the calls and of the values it had
    inside the calls that took the last path of [o1heapReallocate], after
    the new block was allocated and before the old one was freed. *)
Theorem peak_allocated_history m base size h cs :
  0 <= base -> 0 <= size -> base + size <= 2 ^ WORD_BITS ->
  o1heapInit m base size = Some h -> calls_ok h [] cs ->
  peak_allocated (diagnostics (run h cs)) =
    Z.max (max_of (snapshots h cs)) (max_of (transients h cs)) /\
  (forall c, call_ok (run h cs) (run_live h [] cs) c ->
             peak_allocated (diagnostics (run h cs)) <=
             peak_allocated (diagnostics (snd (exec (run h cs) c)))).
Proof.
  intros Hb Hs Hbs Hi Hok.
  destruct (init_inv _ _ _ _ Hb Hs Hbs Hi) as [HInv _].
  destruct (init_spec _ _ _ _ Hb Hs Hbs Hi) as (_ & _ & Hd & _).
  split.
  - rewrite (peak_run cs h [] HInv Hok). rewrite Hd. cbn [peak_allocated].
    pose proof (max_of_nonneg (snapshots h cs)). lia.
  - intros c Hc. pose proof (run_inv cs h [] HInv Hok) as HInv'.
    pose proof (step_peak _ _ c HInv' Hc) as Hstep. cbv zeta in Hstep. lia.
Qed.

(** ** Reachability of the states of a call sequence *)

Lemma reachable_run : forall cs n h live,
  reachable n h live -> calls_ok h live cs ->
  reachable (n + Z.of_nat (length cs)) (run h cs) (run_live h live cs).
Proof.
  induction cs as [|c rest IH]; intros n h live Hr Hok; cbn [run run_live length].
  - replace (n + Z.of_nat 0) with n by lia. assumption.
  - cbn [calls_ok] in Hok. destruct Hok as [Hc Hrest].
    replace (n + Z.of_nat (S (length rest))) with (n + 1 + Z.of_nat (length rest)) by lia.
    apply IH; [|assumption]. apply reach_call; assumption.
Qed.

Lemma sample_reachable size h :
  0 <= size -> 4096 + size <= 2 ^ WORD_BITS ->
  o1heapInit (fun _ => 0) 4096 size = Some h ->
  sample_heap size = h /\ reachable 0 h [].
Proof.
  intros Hs Hb Hi. unfold sample_heap. rewrite Hi. split; [reflexivity|].
  apply (reach_init (fun _ => 0) 4096 size); auto. lia.
Qed.


(** * Further properties *)

(** ** The arena is fixed *)

Lemma arena_rebin h f s : arena_end (rebin h f s) = arena_end h.
Proof. reflexivity. Qed.

Ltac arena_cases :=
  repeat match goal with
         | |- context [match (if ?c then _ else _) with _ => _ end] => destruct c
         | |- context [snd (if ?c then _ else _)] => destruct c
         | |- context [arena_end (if ?c then _ else _)] => destruct c
         | |- context [rebin (if ?c then _ else _)] => destruct c
         | |- context [add_allocated (if ?c then _ else _)] => destruct c
         | |- context [update_peak_allocated (if ?c then _ else _)] => destruct c
         | |- context [set_diag (if ?c then _ else _)] => destruct c
         | |- context [mem (if ?c then _ else _)] => destruct c
         | |- context [diagnostics (if ?c then _ else _)] => destruct c
         end;
  cbv beta iota zeta;
  unfold add_allocated, sub_allocated, update_peak_allocated;
  cbn [fst snd set_mem set_diag arena_end];
  rewrite ?arena_rebin; cbn [fst snd set_mem set_diag arena_end];
  rewrite ?arena_unbin; cbn [fst snd set_mem set_diag arena_end];
  rewrite ?arena_unbin; try reflexivity.

Lemma arena_allocate h amount : arena_end (snd (o1heapAllocate h amount)) = arena_end h.
Proof. unfold o1heapAllocate. cbv zeta. arena_cases. Qed.

Lemma arena_free h p : arena_end (o1heapFree h p) = arena_end h.
Proof. unfold o1heapFree. cbv zeta. arena_cases. Qed.

Lemma arena_reallocate h p amount :
  arena_end (snd (o1heapReallocate h p amount)) = arena_end h.
Proof.
  unfold o1heapReallocate.
  destruct (p =? 0); [apply arena_allocate|].
  destruct (amount =? 0); [apply arena_free|].
  cbv zeta. arena_cases.
  match goal with
  | |- context [o1heapAllocate ?h0 amount] =>
      pose proof (arena_allocate h0 amount) as Ha;
      destruct (o1heapAllocate h0 amount) as [out h1]
  end.
  cbn [snd set_diag arena_end] in Ha.
  destruct (out =? 0); cbn [snd]; [exact Ha|].
  rewrite arena_free. exact Ha.
Qed.

(** ** Initialisation *)

(** [o1heapInit] returns null exactly when the base is null or not aligned
    at [O1HEAP_ALIGNMENT] or the arena is smaller than
    [o1heapMinArenaSize]; the heap it makes otherwise has as its capacity
    the largest multiple of [FRAGMENT_SIZE_MIN] that fits behind the
    instance and is at most [FRAGMENT_SIZE_MAX], lies inside the arena, has
    nothing allocated and passes [o1heapDoInvariantsHold]. *)
Theorem init_capacity m base size :
  0 <= base -> 0 <= size -> base + size <= 2 ^ WORD_BITS ->
  (o1heapInit m base size = None <->
   base = 0 \/ base mod O1HEAP_ALIGNMENT <> 0 \/ size < o1heapMinArenaSize) /\
  (forall h, o1heapInit m base size = Some h ->
     capacity (diagnostics h) =
       Z.min (size - INSTANCE_SIZE_PADDED) FRAGMENT_SIZE_MAX / FRAGMENT_SIZE_MIN
       * FRAGMENT_SIZE_MIN /\
     FRAGMENT_SIZE_MIN <= capacity (diagnostics h) /\
     arena_end h = base + INSTANCE_SIZE_PADDED + capacity (diagnostics h) /\
     arena_end h <= base + size /\
     o1heapGetDiagnostics h = mkDiag (capacity (diagnostics h)) 0 0 0 0 /\
     o1heapDoInvariantsHold h = true).
Proof.
  intros Hb Hs Hbs. split.
  - unfold o1heapInit.
    destruct (Z.eqb_spec base 0); destruct (Z.eqb_spec (base mod O1HEAP_ALIGNMENT) 0);
      destruct (Z.leb_spec o1heapMinArenaSize size); cbn [negb andb];
      (split; [intros E; try discriminate E; lia|intros E; try reflexivity; lia]).
  - intros h Hi.
    destruct (init_spec _ _ _ _ Hb Hs Hbs Hi) as (L & HI & Hd & Ha).
    destruct (init_inv _ _ _ _ Hb Hs Hbs Hi) as [_ HR].
    pose proof (HeapInv_Rep _ _ _ HI) as R.
    destruct (rep_cap _ _ _ R) as [Hcap Hcd].
    pose proof PTR_pos as HP. pose proof FMAX_facts as (HW & HFx & HW8).
    pose proof ISP_facts as (Hisp & Hispd).
    assert (HF : 0 < FRAGMENT_SIZE_MIN) by zl.
    assert (Ecap : capacity (diagnostics h) =
                   Z.min (size - INSTANCE_SIZE_PADDED) FRAGMENT_SIZE_MAX
                   - Z.min (size - INSTANCE_SIZE_PADDED) FRAGMENT_SIZE_MAX
                     mod FRAGMENT_SIZE_MIN).
    { unfold o1heapInit in Hi.
      destruct (Z.eqb_spec base 0) as [|Hb0]; [discriminate|].
      destruct (Z.eqb_spec (base mod O1HEAP_ALIGNMENT) 0) as [Hal|]; [|discriminate].
      destruct (Z.leb_spec o1heapMinArenaSize size) as [Hmin|]; [|discriminate].
      cbn [negb andb] in Hi.
      unfold o1heapMinArenaSize in Hmin. rewrite wrap_small in Hmin by zl.
      rewrite (wrap_small (size - INSTANCE_SIZE_PADDED)) in Hi by lia.
      injection Hi as <-. rewrite diag_rebin. cbn [diagnostics capacity].
      assert (Ec : (if size - INSTANCE_SIZE_PADDED >? FRAGMENT_SIZE_MAX
                    then FRAGMENT_SIZE_MAX else size - INSTANCE_SIZE_PADDED) =
                   Z.min (size - INSTANCE_SIZE_PADDED) FRAGMENT_SIZE_MAX).
      { destruct (Z.gtb_spec (size - INSTANCE_SIZE_PADDED) FRAGMENT_SIZE_MAX); lia. }
      rewrite Ec. apply align_loop_spec; [lia|].
      pose proof (Z.mod_pos_bound (Z.min (size - INSTANCE_SIZE_PADDED) FRAGMENT_SIZE_MAX)
                    FRAGMENT_SIZE_MIN HF). lia. }
    pose proof (Z.div_mod (Z.min (size - INSTANCE_SIZE_PADDED) FRAGMENT_SIZE_MAX)
                  FRAGMENT_SIZE_MIN ltac:(lia)) as Hdm.
    pose proof (Z.mod_pos_bound (Z.min (size - INSTANCE_SIZE_PADDED) FRAGMENT_SIZE_MAX)
                  FRAGMENT_SIZE_MIN HF) as Hmb.
    split; [lia|]. split; [lia|]. split; [exact Ha|]. split; [lia|].
    split; [exact Hd|]. apply (checker_true _ _ _ _ HI HR).
Qed.


(** ** Allocation *)

(** What a successful [o1heapAllocate] does to the blocks. *)
Lemma alloc_success h bl L amount :
  HeapInv h bl L -> 0 <= amount <= SIZE_MAX -> fst (o1heapAllocate h amount) <> 0 ->
  let r := o1heapAllocate h amount in
  let d := diagnostics h in
  let asz := roundUpToPowerOf2 (amount + O1HEAP_ALIGNMENT) in
  exists fsz bl' L',
    0 < amount <= capacity d - O1HEAP_ALIGNMENT /\
    In (fst r - O1HEAP_ALIGNMENT, fsz, false) bl /\ asz <= fsz /\
    HeapInv (snd r) bl' L' /\ In (fst r - O1HEAP_ALIGNMENT, asz, true) bl' /\
    (forall g s, In (g, s, true) bl -> In (g, s, true) bl') /\
    amount + O1HEAP_ALIGNMENT <= asz < 2 * (amount + O1HEAP_ALIGNMENT) /\
    diagnostics (snd r) =
      mkDiag (capacity d) (allocated d + asz)
             (Z.max (peak_allocated d) (allocated d + asz))
             (Z.max (peak_request_size d) amount) (oom_count d).
Proof.
  intros HI Ham Hnz r d asz. subst r d asz.
  pose proof (HeapInv_Rep _ _ _ HI) as R.
  pose proof PTR_pos. pose proof FMAX_facts as (HW & HF & HW8).
  destruct (rep_cap _ _ _ R) as [Hcap _].
  pose proof (allocate_spec h bl L amount HI Ham) as Hs. cbv zeta in Hs.
  destruct Hs as [(E0 & _)|(b1 & f & fsz & b2 & L' & Ebl & Hamt & Hle & Eout & HI' & Hd')];
    [contradiction|].
  rewrite (wrap_small (amount + O1HEAP_ALIGNMENT)) in * by zl.
  destruct (alloc_size_facts amount _ Hcap Hamt)
    as (k & Ek & Hk & Hlo & Hhi & Hr & Hdv & _).
  rewrite (wrap_small (amount + O1HEAP_ALIGNMENT)) in Ek by zl.
  assert (Hinf : In (f, fsz, false) bl).
  { rewrite Ebl. apply in_or_app. right. left. reflexivity. }
  destruct (Rep_block _ _ _ _ _ _ R Hinf) as (_ & _ & _ & _ & _ & _ & _ & _ & _ & Hfd & _).
  rewrite Eout. replace (f + O1HEAP_ALIGNMENT - O1HEAP_ALIGNMENT) with f by lia.
  exists fsz.
  eexists. exists L'. split; [assumption|]. split; [assumption|]. split; [assumption|].
  split; [exact HI'|].
  rewrite Ek in *.
  split; [|split; [|split; [lia|rewrite Hd', !larger_max; reflexivity]]].
  - destruct (Z.leb_spec (2 ^ k + FRAGMENT_SIZE_MIN) fsz) as [Hsp|Hsp].
    + apply in_or_app. right. left. reflexivity.
    + assert (fsz = 2 ^ k).
      { destruct (Z.eq_dec fsz (2 ^ k)) as [|Hne]; [assumption|].
        assert (Hlt : 2 ^ k < fsz) by lia.
        pose proof (div_gap FRAGMENT_SIZE_MIN _ _ ltac:(zl) Hdv Hfd Hlt). lia. }
      subst fsz. apply in_or_app. right. left. reflexivity.
  - intros g s Hg. rewrite Ebl in Hg. apply in_app_or in Hg.
    destruct (Z.leb_spec (2 ^ k + FRAGMENT_SIZE_MIN) fsz);
      (destruct Hg as [Hg|[Hg|Hg]]; [apply in_or_app; left; assumption|discriminate Hg|]);
      apply in_or_app; right; right; [right|]; assumption.
Qed.

(** A pointer that [o1heapAllocate] returns is aligned at
    [O1HEAP_ALIGNMENT] and is none of the pointers the application holds;
    its fragment is marked used, lies inside the arena, and its size is
    [amount + O1HEAP_ALIGNMENT] rounded up to a power of two, which is less
    than twice that sum. *)
Theorem allocate_returns_block n h live amount :
  reachable n h live -> 0 <= amount <= SIZE_MAX ->
  fst (o1heapAllocate h amount) <> 0 ->
  let p := fst (o1heapAllocate h amount) in
  let h' := snd (o1heapAllocate h amount) in
  let size := fragGetSize h' (p - O1HEAP_ALIGNMENT) in
  (O1HEAP_ALIGNMENT | p) /\ ~ In p live /\
  fragIsUsed (mem h') (p - O1HEAP_ALIGNMENT) = true /\
  size = roundUpToPowerOf2 (amount + O1HEAP_ALIGNMENT) /\
  amount + O1HEAP_ALIGNMENT <= size < 2 * (amount + O1HEAP_ALIGNMENT) /\
  arena_end h - capacity (diagnostics h) <= p - O1HEAP_ALIGNMENT /\
  p - O1HEAP_ALIGNMENT + size <= arena_end h.
Proof.
  intros Hr Ham Hnz p h' size. subst p h' size.
  destruct (reachable_inv _ _ _ Hr) as (_ & (bl & L & HI & Hp) & _).
  pose proof (HeapInv_Rep _ _ _ HI) as R. pose proof PTR_pos.
  destruct (alloc_success h bl L amount HI Ham Hnz)
    as (fsz & bl' & L' & Hamt & Hinf & Hle & HI' & Hin' & Hkeep & Hsz & Hd').
  pose proof (HeapInv_Rep _ _ _ HI') as R'.
  destruct (Rep_block _ _ _ _ _ _ R' Hin')
    as (_ & Hfe & _ & _ & _ & Hfst & Hgsz & Hfu & Hfa & _).
  rewrite arena_allocate in Hfe, Hfst. rewrite Hd' in Hfst. cbn [capacity] in Hfst.
  rewrite Hgsz.
  split.
  { replace (fst (o1heapAllocate h amount))
      with (fst (o1heapAllocate h amount) - O1HEAP_ALIGNMENT + O1HEAP_ALIGNMENT) by lia.
    apply Z.divide_add_r; [assumption|apply Z.divide_refl]. }
  split.
  { intros Hl. pose proof (Permutation_in _ Hp Hl) as Hu.
    apply used_ptrs_in in Hu. destruct Hu as (f' & s' & Ef & Hf').
    replace (fst (o1heapAllocate h amount) - O1HEAP_ALIGNMENT) with f' in Hinf by lia.
    destruct (Rep_In_unique _ _ _ _ _ _ _ _ R Hf' Hinf). discriminate. }
  repeat split; try assumption; lia.
Qed.

(** A successful [o1heapAllocate] adds the size of the new fragment to
    [allocated], raises [peak_allocated] to the new value if that is larger
    and [peak_request_size] to the request, and leaves [capacity] and
    [oom_count] as they were; [allocated] stays within the capacity. *)
Theorem allocate_accounting n h live amount :
  reachable n h live -> 0 <= amount <= SIZE_MAX ->
  fst (o1heapAllocate h amount) <> 0 ->
  let d := diagnostics h in
  let h' := snd (o1heapAllocate h amount) in
  let size := fragGetSize h' (fst (o1heapAllocate h amount) - O1HEAP_ALIGNMENT) in
  o1heapGetDiagnostics h' =
    mkDiag (capacity d) (allocated d + size) (Z.max (peak_allocated d) (allocated d + size))
           (Z.max (peak_request_size d) amount) (oom_count d) /\
  allocated d + size <= capacity d.
Proof.
  intros Hr Ham Hnz d h' size. subst d h' size.
  destruct (reachable_inv _ _ _ Hr) as (_ & (bl & L & HI & Hp) & _).
  destruct (alloc_success h bl L amount HI Ham Hnz)
    as (fsz & bl' & L' & Hamt & Hinf & Hle & HI' & Hin' & Hkeep & Hsz & Hd').
  destruct (Rep_block _ _ _ _ _ _ (HeapInv_Rep _ _ _ HI') Hin')
    as (_ & _ & _ & _ & _ & _ & Hgsz & _).
  rewrite Hgsz. unfold o1heapGetDiagnostics. split; [exact Hd'|].
  destruct HI' as (_ & _ & _ & (_ & Hpk & _)). rewrite Hd' in Hpk.
  cbn [allocated peak_allocated capacity] in Hpk. lia.
Qed.

(** [o1heapAllocate] succeeds exactly when the request is nonzero and at
    most [capacity - O1HEAP_ALIGNMENT] and some free fragment is at least
    as large as the request with its header rounded up to a power of
    two. *)
Theorem allocate_succeeds_iff n h live amount :
  reachable n h live -> 0 <= amount <= SIZE_MAX ->
  (fst (o1heapAllocate h amount) <> 0 <->
   0 < amount <= capacity (diagnostics h) - O1HEAP_ALIGNMENT /\
   exists f, frag_at h f /\ fragIsUsed (mem h) f = false /\
             roundUpToPowerOf2 (amount + O1HEAP_ALIGNMENT) <= fragGetSize h f).
Proof.
  intros Hr Ham.
  destruct (reachable_inv _ _ _ Hr) as (_ & (bl & L & HI & Hp) & _).
  pose proof (HeapInv_Rep _ _ _ HI) as R. pose proof PTR_pos.
  pose proof FMAX_facts as (HW & HF & HW8).
  destruct (rep_cap _ _ _ R) as [Hcap _].
  split.
  - intros Hnz.
    destruct (alloc_success h bl L amount HI Ham Hnz)
      as (fsz & bl' & L' & Hamt & Hinf & Hle & _).
    split; [assumption|]. exists (fst (o1heapAllocate h amount) - O1HEAP_ALIGNMENT).
    destruct (Rep_block _ _ _ _ _ _ R Hinf) as (_ & _ & _ & _ & _ & _ & Hgsz & Hfu & _).
    split; [apply (In_frag_at _ _ _ _ _ _ R Hinf)|]. split; [assumption|].
    rewrite Hgsz. assumption.
  - intros (Hamt & f & Hf & Hfree & Hfit).
    destruct (frag_at_block _ _ _ _ R Hf) as (s & u & Hin).
    destruct (Rep_block _ _ _ _ _ _ R Hin) as (Hf0 & _ & _ & _ & _ & _ & Hgsz & Hfu & _).
    rewrite Hfree in Hfu. subst u. rewrite Hgsz in Hfit.
    pose proof (allocate_spec h bl L amount HI Ham) as Hs. cbv zeta in Hs.
    rewrite (wrap_small (amount + O1HEAP_ALIGNMENT)) in Hs by zl.
    destruct Hs as [(_ & _ & [E|[E|E]])|(b1 & g & fsz & b2 & L' & Ebl & _ & _ & Eout & _)].
    + lia.
    + lia.
    + specialize (E _ _ Hin). lia.
    + rewrite Eout.
      assert (Hing : In (g, fsz, false) bl).
      { rewrite Ebl. apply in_or_app. right. left. reflexivity. }
      destruct (Rep_block _ _ _ _ _ _ R Hing) as (Hg0 & _). zl.
Qed.

(** ** The blocks the application holds *)

(** Every block the application holds is aligned, marked used and inside
    the arena, and no two of them overlap. *)
Theorem live_blocks_disjoint n h live p q :
  reachable n h live -> In p live -> In q live ->
  let size r := fragGetSize h (r - O1HEAP_ALIGNMENT) in
  ((O1HEAP_ALIGNMENT | p) /\ fragIsUsed (mem h) (p - O1HEAP_ALIGNMENT) = true /\
   FRAGMENT_SIZE_MIN <= size p /\
   arena_end h - capacity (diagnostics h) <= p - O1HEAP_ALIGNMENT /\
   p - O1HEAP_ALIGNMENT + size p <= arena_end h) /\
  (p <> q ->
   p - O1HEAP_ALIGNMENT + size p <= q - O1HEAP_ALIGNMENT \/
   q - O1HEAP_ALIGNMENT + size q <= p - O1HEAP_ALIGNMENT).
Proof.
  intros Hr Hpl Hql size. subst size. cbv beta.
  destruct (reachable_inv _ _ _ Hr) as (_ & (bl & L & HI & Hp) & _).
  pose proof (HeapInv_Rep _ _ _ HI) as R. pose proof PTR_pos.
  pose proof (Permutation_in _ Hp Hpl) as Hpu. pose proof (Permutation_in _ Hp Hql) as Hqu.
  apply used_ptrs_in in Hpu. destruct Hpu as (f & s & -> & Hf).
  apply used_ptrs_in in Hqu. destruct Hqu as (g & t & -> & Hg).
  replace (f + O1HEAP_ALIGNMENT - O1HEAP_ALIGNMENT) with f by lia.
  replace (g + O1HEAP_ALIGNMENT - O1HEAP_ALIGNMENT) with g by lia.
  destruct (Rep_block _ _ _ _ _ _ R Hf)
    as (_ & Hfe & _ & Hfs & _ & Hfst & Hfsz & Hfu & Hfa & _).
  destruct (Rep_block _ _ _ _ _ _ R Hg) as (_ & _ & _ & _ & _ & _ & Hgsz & _).
  rewrite Hfsz, Hgsz. split.
  - split; [apply Z.divide_add_r; [assumption|apply Z.divide_refl]|].
    repeat split; try assumption; lia.
  - intros Hne. destruct (Rep_sep _ _ _ _ _ _ _ _ _ R Hf Hg) as [(E & _)|[E|E]]; lia.
Qed.

Lemma live_total_perm h l l' : Permutation l l' -> live_total h l = live_total h l'.
Proof. induction 1; cbn [live_total]; lia. Qed.

Lemma live_total_used h bl L :
  Rep h bl L ->
  forall c, (forall b, In b c -> In b bl) -> live_total h (used_ptrs c) = used_total c.
Proof.
  intros R. induction c as [|[[g s] u] c IH]; intros Hc; cbn [used_ptrs used_total].
  - reflexivity.
  - assert (Hin : In (g, s, u) bl) by (apply Hc; left; reflexivity).
    destruct (Rep_block _ _ _ _ _ _ R Hin) as (_ & _ & _ & _ & _ & _ & Hgsz & _).
    assert (IH' : live_total h (used_ptrs c) = used_total c)
      by (apply IH; intros b Hb; apply Hc; right; assumption).
    destruct u; cbn [live_total].
    + replace (g + O1HEAP_ALIGNMENT - O1HEAP_ALIGNMENT) with g by lia. lia.
    + lia.
Qed.

(** [allocated] is the sum of the sizes of the fragments of the blocks the
    application holds. *)
Theorem allocated_is_live_total n h live :
  reachable n h live -> allocated (o1heapGetDiagnostics h) = live_total h live.
Proof.
  intros Hr. destruct (reachable_inv _ _ _ Hr) as (_ & (bl & L & HI & Hp) & _).
  pose proof HI as (R & _ & _ & (Hal & _)).
  rewrite (live_total_perm h _ _ Hp).
  rewrite (live_total_used h bl L R bl) by auto.
  exact Hal.
Qed.

(** ** Release *)

(** [o1heapFree] of a block the application holds subtracts the size of its
    fragment from [allocated] and changes no other field of the
    diagnostics; a null pointer is ignored. *)
Theorem free_accounting n h live p :
  reachable n h live -> In p live ->
  let d := diagnostics h in
  let size := fragGetSize h (p - O1HEAP_ALIGNMENT) in
  o1heapGetDiagnostics (o1heapFree h p) =
    mkDiag (capacity d) (allocated d - size) (peak_allocated d) (peak_request_size d)
           (oom_count d) /\
  FRAGMENT_SIZE_MIN <= size <= allocated d /\
  o1heapFree h 0 = h.
Proof.
  intros Hr Hpl d size. subst d size.
  destruct (reachable_inv _ _ _ Hr) as (_ & (bl & L & HI & Hp) & _).
  pose proof (HeapInv_Rep _ _ _ HI) as R.
  pose proof (Permutation_in _ Hp Hpl) as Hpu.
  destruct (free_spec _ _ _ _ HI Hpu) as (fsz & bl' & L' & Hinf & HI' & _ & Hd').
  destruct (Rep_block _ _ _ _ _ _ R Hinf) as (_ & _ & _ & Hfsz & _ & _ & Hgsz & _).
  rewrite Hgsz. unfold o1heapGetDiagnostics. split; [rewrite Hd'; reflexivity|].
  split; [|reflexivity].
  destruct HI' as (R' & _ & _ & (Hal' & _)).
  pose proof (used_total_le _ _ _ _ _ _ (rep_seg _ _ _ R')) as Hu.
  rewrite <- Hal', Hd' in Hu. cbn [set_allocated allocated] in Hu. lia.
Qed.


(** ** The diagnostics over a call sequence *)

(** What a call does to [capacity], [peak_request_size] and [oom_count]. *)
Lemma step_stats h live c :
  Inv h live -> call_ok h live c ->
  let d := diagnostics h in
  let d' := diagnostics (snd (exec h c)) in
  capacity d' = capacity d /\
  peak_request_size d' = Z.max (peak_request_size d) (max_of (requests [c])) /\
  oom_count d' = (if refused h c then wrap64 (oom_count d + 1) else oom_count d).
Proof.
  intros (bl & L & HI & Hp) Hok d d'. subst d d'.
  pose proof HI as (R & _ & _ & (Hal & Hpk & _ & Hprs & _)).
  pose proof PTR_pos.
  assert (Halloc : forall amount, 0 <= amount <= SIZE_MAX ->
            let d' := diagnostics (snd (o1heapAllocate h amount)) in
            capacity d' = capacity (diagnostics h) /\
            peak_request_size d' = Z.max (peak_request_size (diagnostics h)) (Z.max amount 0) /\
            oom_count d' = (if (amount >? 0) && (fst (o1heapAllocate h amount) =? 0)
                            then wrap64 (oom_count (diagnostics h) + 1)
                            else oom_count (diagnostics h))).
  { intros amount Ham. cbv zeta.
    pose proof (allocate_spec h bl L amount HI Ham) as Hs. cbv zeta in Hs.
    destruct Hs as [(E0 & Es & _)|(b1 & f & fsz & b2 & L' & Ebl & Hamt & _ & Eout & _ & Hd')].
    - rewrite Es, E0, note_request_failed by lia.
      cbn [set_diag diagnostics capacity peak_request_size oom_count Z.eqb].
      rewrite andb_true_r.
      destruct (Z.gtb_spec amount 0), (Z.eqb_spec amount 0); try lia;
        (split; [reflexivity|split; [lia|reflexivity]]).
    - assert (Hinf : In (f, fsz, false) bl).
      { rewrite Ebl. apply in_or_app. right. left. reflexivity. }
      destruct (Rep_block _ _ _ _ _ _ R Hinf) as (Hf0 & _).
      destruct (Z.eqb_spec (fst (o1heapAllocate h amount)) 0) as [E|_]; [zl|].
      rewrite andb_false_r, Hd'. cbn [capacity peak_request_size oom_count].
      rewrite larger_max. split; [reflexivity|split; [lia|reflexivity]]. }
  assert (Hfree : forall p, p = 0 \/ In p live ->
            let d' := diagnostics (o1heapFree h p) in
            capacity d' = capacity (diagnostics h) /\
            peak_request_size d' = Z.max (peak_request_size (diagnostics h)) 0 /\
            oom_count d' = oom_count (diagnostics h)).
  { intros p Hpl. cbv zeta. destruct (Z.eq_dec p 0) as [->|Hp0].
    - unfold o1heapFree. cbn [Z.eqb]. repeat split; lia.
    - destruct Hpl as [|Hpl]; [contradiction|].
      pose proof (Permutation_in _ Hp Hpl) as Hpu.
      destruct (free_spec _ _ _ _ HI Hpu) as (fsz & bl' & L' & _ & _ & _ & Hd').
      rewrite Hd'. cbn [set_allocated capacity peak_request_size oom_count].
      repeat split; lia. }
  destruct c as [amount|p|p amount|addr v];
    cbn [exec call_ok refused requests max_of fold_right snd] in *.
  - apply Halloc. assumption.
  - apply Hfree. assumption.
  - destruct Hok as [Hpl Ham].
    destruct (Z.eq_dec p 0) as [->|Hp0].
    { change (o1heapReallocate h 0 amount) with (o1heapAllocate h amount).
      apply Halloc. assumption. }
    destruct Hpl as [|Hpl]; [contradiction|].
    destruct (Z.eq_dec amount 0) as [->|Ha0].
    { unfold o1heapReallocate.
      destruct (Z.eqb_spec p 0); [contradiction|]. cbn [Z.eqb Z.gtb Z.compare andb snd].
      apply Hfree. right. assumption. }
    pose proof (Permutation_in _ Hp Hpl) as Hpu.
    pose proof (realloc_spec h bl L p amount HI Hpu ltac:(lia)) as Hs. cbv zeta in Hs.
    destruct (Z.gtb_spec amount 0) as [_|]; [|lia]. cbn [andb].
    assert (Hok : forall delta top,
              realloc_post h bl p amount (o1heapReallocate h p amount) delta top ->
              capacity (diagnostics (snd (o1heapReallocate h p amount))) =
                capacity (diagnostics h) /\
              peak_request_size (diagnostics (snd (o1heapReallocate h p amount))) =
                Z.max (peak_request_size (diagnostics h)) (Z.max amount 0) /\
              oom_count (diagnostics (snd (o1heapReallocate h p amount))) =
                (if fst (o1heapReallocate h p amount) =? 0
                 then wrap64 (oom_count (diagnostics h) + 1)
                 else oom_count (diagnostics h))).
    { intros delta top (bl' & L' & rest & Hnz & _ & _ & _ & _ & Hd').
      destruct (Z.eqb_spec (fst (o1heapReallocate h p amount)) 0); [contradiction|].
      rewrite Hd'. cbn [capacity peak_request_size oom_count]. rewrite larger_max.
      split; [reflexivity|split; [lia|reflexivity]]. }
    destruct Hs as [(E0 & Es & _)|[(Hpost & _)|(Hpost & _)]].
    + rewrite Es, E0, note_request_failed by lia.
      cbn [set_diag diagnostics capacity peak_request_size oom_count Z.eqb].
      destruct (Z.eqb_spec amount 0); [lia|].
      split; [reflexivity|split; [lia|reflexivity]].
    + apply (Hok _ _ Hpost).
    + apply (Hok _ _ Hpost).
  - cbn [set_mem diagnostics]. repeat split; lia.
Qed.

Lemma stats_run : forall cs h live,
  Inv h live -> calls_ok h live cs ->
  capacity (diagnostics (run h cs)) = capacity (diagnostics h) /\
  peak_request_size (diagnostics (run h cs)) =
    Z.max (peak_request_size (diagnostics h)) (max_of (requests cs)) /\
  oom_count (diagnostics (run h cs)) =
    wrap64 (oom_count (diagnostics h) + refusals h cs).
Proof.
  induction cs as [|c rest IH]; intros h live HInv Hok.
  - destruct HInv as (bl & L & (_ & _ & _ & (_ & _ & _ & Hprs & Hoom)) & _).
    cbn [run requests refusals max_of fold_right].
    rewrite Z.add_0_r, wrap64_small by assumption. repeat split; lia.
  - cbn [calls_ok] in Hok. destruct Hok as [Hc Hrest].
    assert (HInv' : Inv (snd (exec h c)) (live_after live c (fst (exec h c)))).
    { assert (HR : 2 ^ 64 < 2 ^ 64 -> ReqInv (diagnostics h) (2 ^ 64)) by lia.
      apply (step_inv (2 ^ 64) h live c ltac:(lia) HInv HR Hc). }
    pose proof (step_stats h live c HInv Hc) as Hst. cbv zeta in Hst.
    destruct Hst as (Hcap & Hprs & Hoom).
    destruct (IH _ _ HInv' Hrest) as (IHc & IHp & IHo).
    cbn [run refusals]. rewrite IHc, IHp, IHo, Hcap, Hprs, Hoom.
    split; [reflexivity|]. split.
    + pose proof (max_of_nonneg (requests rest)).
      destruct c; cbn [requests max_of fold_right]; fold (max_of (requests rest)); lia.
    + unfold wrap64. destruct (refused h c).
      * rewrite Zplus_mod_idemp_l. f_equal; lia.
      * f_equal; lia.
Qed.

(** No call changes the capacity of the heap or the end of its arena. *)
Theorem arena_is_fixed n h live c :
  reachable n h live -> call_ok h live c ->
  capacity (o1heapGetDiagnostics (snd (exec h c))) = capacity (o1heapGetDiagnostics h) /\
  arena_end (snd (exec h c)) = arena_end h /\
  o1heapGetMaxAllocationSize (snd (exec h c)) = o1heapGetMaxAllocationSize h.
Proof.
  intros Hr Hc. destruct (reachable_inv _ _ _ Hr) as (_ & HInv & _).
  pose proof (step_stats h live c HInv Hc) as Hst. cbv zeta in Hst.
  destruct Hst as (Hcap & _). unfold o1heapGetDiagnostics, o1heapGetMaxAllocationSize.
  rewrite Hcap. split; [reflexivity|]. split; [|reflexivity].
  destruct c as [amount|p|p amount|addr v]; cbn [exec snd].
  - apply arena_allocate.
  - apply arena_free.
  - apply arena_reallocate.
  - reflexivity.
Qed.

(** After any sequence of calls on a freshly initialised heap,
    [peak_request_size] is the largest amount that was asked of
    [o1heapAllocate] or [o1heapReallocate], whether the request was served
    or not. *)
Theorem peak_request_history m base size h cs :
  0 <= base -> 0 <= size -> base + size <= 2 ^ WORD_BITS ->
  o1heapInit m base size = Some h -> calls_ok h [] cs ->
  peak_request_size (o1heapGetDiagnostics (run h cs)) = max_of (requests cs).
Proof.
  intros Hb Hs Hbs Hi Hok.
  destruct (init_inv _ _ _ _ Hb Hs Hbs Hi) as [HInv _].
  destruct (init_spec _ _ _ _ Hb Hs Hbs Hi) as (_ & _ & Hd & _).
  destruct (stats_run cs h [] HInv Hok) as (_ & Hp & _).
  unfold o1heapGetDiagnostics. rewrite Hp, Hd. cbn [peak_request_size].
  pose proof (max_of_nonneg (requests cs)). lia.
Qed.

(** After any sequence of calls on a freshly initialised heap, [oom_count]
    is the number of calls that asked for a nonzero amount and returned
    null, modulo [2 ^ 64]. *)
Theorem oom_count_history m base size h cs :
  0 <= base -> 0 <= size -> base + size <= 2 ^ WORD_BITS ->
  o1heapInit m base size = Some h -> calls_ok h [] cs ->
  oom_count (o1heapGetDiagnostics (run h cs)) = wrap64 (refusals h cs).
Proof.
  intros Hb Hs Hbs Hi Hok.
  destruct (init_inv _ _ _ _ Hb Hs Hbs Hi) as [HInv _].
  destruct (init_spec _ _ _ _ Hb Hs Hbs Hi) as (_ & _ & Hd & _).
  destruct (stats_run cs h [] HInv Hok) as (_ & _ & Ho).
  unfold o1heapGetDiagnostics. rewrite Ho, Hd. cbn [oom_count]. reflexivity.
Qed.

(** ** Logarithms and powers of two *)

(** [O1HEAP_CLZ] of a nonzero word is the number of zero bits above its
    highest set bit. *)
Theorem clz_counts_leading_zeros x :
  0 < x <= SIZE_MAX ->
  0 <= O1HEAP_CLZ x < WORD_BITS /\
  Z.testbit x (WORD_BITS - 1 - O1HEAP_CLZ x) = true /\
  (forall i, WORD_BITS - 1 - O1HEAP_CLZ x < i -> Z.testbit x i = false).
Proof.
  intros Hx. pose proof PTR_pos. pose proof FMAX_facts as (HW & HF & HW8).
  assert (Hx' : 0 < x < 2 ^ WORD_BITS) by (unfold SIZE_MAX in Hx; lia).
  pose proof (log2Floor_eq x Hx') as E. unfold log2Floor in E.
  assert (Hl : 0 <= Z.log2 x < WORD_BITS).
  { split; [apply Z.log2_nonneg|]. apply Z.log2_lt_pow2; lia. }
  split; [lia|]. rewrite E. split.
  - apply Z.bit_log2. lia.
  - intros i Hi. apply Z.bits_above_log2; lia.
Qed.

(** [log2Floor] is the binary logarithm rounded down, and [pow2] is its
    inverse on the exponents below the word size. *)
Theorem log2Floor_pow2 x k :
  0 < x <= SIZE_MAX -> 0 <= k < WORD_BITS ->
  0 <= log2Floor x < WORD_BITS /\
  pow2 (log2Floor x) <= x < 2 * pow2 (log2Floor x) /\
  log2Floor (pow2 k) = k.
Proof.
  intros Hx Hk. pose proof PTR_pos. pose proof FMAX_facts as (HW & HF & HW8).
  assert (Hx' : 0 < x < 2 ^ WORD_BITS) by (unfold SIZE_MAX in Hx; lia).
  rewrite (log2Floor_eq x Hx').
  assert (Hl : 0 <= Z.log2 x < WORD_BITS).
  { split; [apply Z.log2_nonneg|]. apply Z.log2_lt_pow2; lia. }
  split; [assumption|]. rewrite pow2_eq by assumption.
  pose proof (Z.log2_spec x ltac:(lia)) as Hs.
  replace (2 ^ Z.succ (Z.log2 x)) with (2 * 2 ^ Z.log2 x) in Hs
    by (rewrite Z.pow_succ_r; lia).
  split; [lia|].
  rewrite pow2_eq by assumption.
  rewrite log2Floor_eq.
  - apply Z.log2_pow2. lia.
  - split; [apply Z.pow_pos_nonneg; lia|apply Z.pow_lt_mono_r; lia].
Qed.

(** [roundUpToPowerOf2] returns the least power of two that is not below
    its argument; the result is less than twice the argument. *)
Theorem roundUp_least_power x :
  2 <= x <= FRAGMENT_SIZE_MAX ->
  (exists k, 0 <= k < WORD_BITS /\ roundUpToPowerOf2 x = pow2 k) /\
  x <= roundUpToPowerOf2 x < 2 * x /\
  (forall j, 0 <= j < WORD_BITS -> x <= pow2 j -> roundUpToPowerOf2 x <= pow2 j).
Proof.
  intros Hx. pose proof PTR_pos. pose proof FMAX_facts as (HW & HF & HW8).
  destruct (roundUp_spec x Hx) as (k & Ek & Hk & Hb & _).
  assert (E2 : 2 ^ k = 2 * 2 ^ (k - 1)).
  { replace k with ((k - 1) + 1) at 1 by lia. rewrite Z.pow_add_r by lia. lia. }
  split; [exists k; split; [lia|rewrite pow2_eq by lia; assumption]|].
  rewrite Ek. split; [lia|].
  intros j Hj Hle. rewrite pow2_eq in * by assumption.
  assert (Hlt : 2 ^ (k - 1) < 2 ^ j) by lia.
  apply Z.pow_lt_mono_r_iff in Hlt; [|lia|lia].
  apply Z.pow_le_mono_r; lia.
Qed.


(** ** The fragment header *)

(** The pointer to the previous fragment and the used flag share one word
    of the header: each can be written without disturbing the other or the
    pointer to the next fragment, in either order. *)
Theorem header_fields_independent m f prev used :
  0 <= prev < 2 ^ WORD_BITS -> (O1HEAP_ALIGNMENT | prev) ->
  let m1 := fragSetUsed (fragSetPrev m f prev) f used in
  let m2 := fragSetPrev (fragSetUsed m f used) f prev in
  (fragGetPrev m1 f = prev /\ fragIsUsed m1 f = used /\
   fragGetNext m1 f = fragGetNext m f) /\
  (fragGetPrev m2 f = prev /\ fragIsUsed m2 f = used /\
   fragGetNext m2 f = fragGetNext m f) /\
  fragIsUsed (fragSetPrev m f prev) f = fragIsUsed m f /\
  fragGetPrev (fragSetUsed m f used) f = fragGetPrev m f.
Proof.
  intros Hv Ha m1 m2. subst m1 m2. pose proof PTR_pos.
  repeat split.
  - rewrite getPrev_setUsed. apply getPrev_setPrev; assumption.
  - apply isUsed_setUsed.
  - rewrite getNext_setUsed by lia. apply getNext_setPrev. lia.
  - apply getPrev_setPrev; assumption.
  - rewrite isUsed_setPrev by assumption. apply isUsed_setUsed.
  - rewrite getNext_setPrev by lia. apply getNext_setUsed. lia.
  - apply isUsed_setPrev. assumption.
  - apply getPrev_setUsed.
Qed.

(** [interlink] makes [right] the successor of [left] and [left] the
    predecessor of [right], and changes neither the used flags of the two
    fragments nor their other pointers; a null fragment on either side is
    skipped. *)
Theorem interlink_links m left right :
  0 < left < 2 ^ WORD_BITS -> right <> 0 ->
  (O1HEAP_ALIGNMENT | left) -> (O1HEAP_ALIGNMENT | right) -> left <> right ->
  let m' := interlink m left right in
  (fragGetNext m' left = right /\ fragGetPrev m' right = left) /\
  (fragIsUsed m' left = fragIsUsed m left /\ fragIsUsed m' right = fragIsUsed m right) /\
  (fragGetPrev m' left = fragGetPrev m left /\ fragGetNext m' right = fragGetNext m right) /\
  (interlink m left 0 = fragSetNext m left 0 /\ interlink m 0 right = fragSetPrev m right 0 /\
   interlink m 0 0 = m).
Proof.
  intros Hl Hr Hal Har Hne m'. subst m'. pose proof PTR_pos.
  pose proof (aligned_off _ _ Hal Har) as H1. pose proof (aligned_off _ _ Har Hal) as H2.
  unfold interlink.
  destruct (Z.eqb_spec left 0) as [|_]; [lia|].
  destruct (Z.eqb_spec right 0) as [|_]; [contradiction|].
  cbn [Z.eqb].
  repeat split.
  - rewrite getNext_setPrev by assumption. unfold fragGetNext, fragSetNext. st. reflexivity.
  - apply getPrev_setPrev; [lia|assumption].
  - rewrite isUsed_setPrev_ne by assumption. apply isUsed_setNext. lia.
  - rewrite isUsed_setPrev by assumption. apply isUsed_setNext. lia.
  - rewrite getPrev_setPrev_ne by assumption. apply getPrev_setNext. lia.
  - rewrite getNext_setPrev by lia. rewrite getNext_setNext.
    destruct (Z.eqb_spec right left); [congruence|reflexivity].
Qed.

(** ** The bins *)

Lemma binidx_upper s :
  FRAGMENT_SIZE_MIN <= s < 2 ^ WORD_BITS -> s < FRAGMENT_SIZE_MIN * 2 ^ (binidx s + 1).
Proof.
  intros Hs. destruct (binidx_range s Hs) as (E & Hr & Hq).
  pose proof PTR_pos. assert (HF : 0 < FRAGMENT_SIZE_MIN) by zl.
  rewrite E.
  pose proof (Z.log2_spec (s / FRAGMENT_SIZE_MIN) ltac:(lia)) as [_ Hhi].
  replace (Z.succ (Z.log2 (s / FRAGMENT_SIZE_MIN)))
    with (Z.log2 (s / FRAGMENT_SIZE_MIN) + 1) in Hhi by lia.
  pose proof (Z.div_mod s FRAGMENT_SIZE_MIN ltac:(lia)) as Hdm.
  pose proof (Z.mod_pos_bound s FRAGMENT_SIZE_MIN HF) as Hmb.
  nia.
Qed.

(** The head of every nonempty bin is a free fragment of the heap whose
    size belongs to the size class of the bin, and every free fragment of
    the heap has the bit of its size class set in the bin mask. *)
Theorem bins_hold_size_classes n h live :
  reachable n h live ->
  (forall i, 0 <= i < NUM_BINS_MAX -> bins h i <> 0 ->
     frag_at h (bins h i) /\ fragIsUsed (mem h) (bins h i) = false /\
     log2Floor (fragGetSize h (bins h i) / FRAGMENT_SIZE_MIN) = i /\
     FRAGMENT_SIZE_MIN * 2 ^ i <= fragGetSize h (bins h i) < FRAGMENT_SIZE_MIN * 2 ^ (i + 1)) /\
  (forall f, frag_at h f -> fragIsUsed (mem h) f = false ->
     Z.testbit (nonempty_bin_mask h)
               (log2Floor (fragGetSize h f / FRAGMENT_SIZE_MIN)) = true).
Proof.
  intros Hr. destruct (reachable_inv _ _ _ Hr) as (_ & (bl & L & HI & _) & _).
  pose proof HI as (R & Hbin & _). pose proof PTR_pos.
  pose proof FMAX_facts as (HW & HF & HW8). pose proof FMIN_pow as (HFm & Hlg & _).
  destruct (rep_cap _ _ _ R) as [Hcap _].
  split.
  - intros i Hi Hnz. destruct (rep_bins _ _ _ R i Hi) as (_ & Hhd & _).
    assert (Hin : In (bins h i) (L i)).
    { rewrite Hhd in *. destruct (L i) as [|g r]; [contradiction|left; reflexivity]. }
    destruct (rep_mem _ _ _ R _ _ Hin) as (_ & s & Hs & Hidx).
    destruct (Rep_block _ _ _ _ _ _ R Hs)
      as (_ & _ & _ & Hsz & _ & _ & Hgsz & Hfu & _).
    rewrite Hgsz. split; [apply (In_frag_at _ _ _ _ _ _ R Hs)|].
    split; [assumption|]. split; [exact Hidx|].
    assert (Hsr : FRAGMENT_SIZE_MIN <= s < 2 ^ WORD_BITS) by lia.
    pose proof (binidx_lower s Hsr) as Hlo. pose proof (binidx_upper s Hsr) as Hhi.
    rewrite Hidx in Hlo, Hhi. rewrite Z.pow_add_r in Hlo by lia. rewrite <- HFm in Hlo.
    lia.
  - intros f Hf Hfree. destruct (frag_at_block _ _ _ _ R Hf) as (s & u & Hin).
    destruct (Rep_block _ _ _ _ _ _ R Hin)
      as (_ & _ & _ & Hsz & _ & _ & Hgsz & Hfu & _).
    rewrite Hfree in Hfu. subst u. rewrite Hgsz.
    assert (HinL : In f (L (binidx s))) by (apply (Hbin _ _ Hin); intros []).
    destruct (rep_mem _ _ _ R _ _ HinL) as (Hi & _).
    destruct (rep_bins _ _ _ R _ Hi) as (_ & Hhd & _).
    destruct (rep_mask _ _ _ R) as [_ Hmb]. fold (binidx s).
    rewrite (Hmb _ Hi), Hhd.
    destruct (L (binidx s)) as [|g r] eqn:EL; [contradiction|]. cbn [hd].
    assert (Hg : In g (L (binidx s))) by (rewrite EL; left; reflexivity).
    pose proof (Rep_bin_nz _ _ _ _ _ R Hg).
    destruct (Z.eqb_spec g 0); [contradiction|reflexivity].
Qed.


(** ** Blocks are left alone *)

Lemma alloc_keeps h bl L amount g s :
  HeapInv h bl L -> 0 <= amount <= SIZE_MAX -> In (g, s, true) bl ->
  let h' := snd (o1heapAllocate h amount) in
  fragGetSize h' g = s /\ fragIsUsed (mem h') g = true /\
  (forall y, g + O1HEAP_ALIGNMENT <= y < g + s -> mem h' y = mem h y).
Proof.
  intros HI Ham Hg h'. subst h'.
  pose proof (HeapInv_Rep _ _ _ HI) as R.
  destruct (Rep_block _ _ _ _ _ _ R Hg) as (_ & _ & _ & _ & _ & _ & Hgsz & Hgu & _).
  pose proof (allocate_mem_spec h bl L amount HI Ham) as Hs. cbv zeta in Hs.
  destruct Hs as [(_ & Es & _)|
                  (b1 & f & fsz & b2 & L' & Ebl & Hamt & Hle & Eout & HI' & Hd' & Hfr)].
  - rewrite Es. cbn [set_diag mem]. split; [exact Hgsz|]. split; [exact Hgu|reflexivity].
  - assert (Hg' : In (g, s, true)
                     (if roundUpToPowerOf2 (wrap (amount + O1HEAP_ALIGNMENT))
                         + FRAGMENT_SIZE_MIN <=? fsz
                      then b1 ++ (f, roundUpToPowerOf2 (wrap (amount + O1HEAP_ALIGNMENT)), true)
                              :: (f + roundUpToPowerOf2 (wrap (amount + O1HEAP_ALIGNMENT)),
                                  fsz - roundUpToPowerOf2 (wrap (amount + O1HEAP_ALIGNMENT)),
                                  false) :: b2
                      else b1 ++ (f, fsz, true) :: b2)).
    { rewrite Ebl in Hg. apply in_app_or in Hg.
      destruct (_ <=? fsz);
        (destruct Hg as [Hg|[Hg|Hg]]; [apply in_or_app; left; assumption|discriminate Hg|]);
        apply in_or_app; right; right; [right|]; assumption. }
    destruct (Rep_block _ _ _ _ _ _ (HeapInv_Rep _ _ _ HI') Hg')
      as (_ & _ & _ & _ & _ & _ & Hgsz' & Hgu' & _).
    split; [exact Hgsz'|]. split; [exact Hgu'|].
    intros y Hy. apply Hfr. exists g, s. split; [assumption|right; assumption].
Qed.

Lemma free_keeps h bl L p g s :
  HeapInv h bl L -> In p (used_ptrs bl) -> In (g, s, true) bl -> g <> p - O1HEAP_ALIGNMENT ->
  let h' := o1heapFree h p in
  fragGetSize h' g = s /\ fragIsUsed (mem h') g = true /\
  (forall y, g + O1HEAP_ALIGNMENT <= y < g + s -> mem h' y = mem h y).
Proof.
  intros HI Hp Hg Hne h'. subst h'.
  destruct (free_mem_spec h bl L p HI Hp)
    as (fsz & bl' & L' & _ & HI' & _ & _ & Hkeep & _ & Hfr).
  pose proof (Hkeep _ _ Hg Hne) as Hg'.
  destruct (Rep_block _ _ _ _ _ _ (HeapInv_Rep _ _ _ HI') Hg')
    as (_ & _ & _ & _ & _ & _ & Hgsz' & Hgu' & _).
  split; [exact Hgsz'|]. split; [exact Hgu'|].
  intros y Hy. apply Hfr. exists g, s. split; [assumption|right; assumption].
Qed.

(** [o1heapAllocate], whether it succeeds or not, leaves every block the
    application holds as it is: the fragment keeps its size and its used
    flag, and no address of the payload changes its content. *)
Theorem allocate_keeps_blocks n h live amount q :
  reachable n h live -> 0 <= amount <= SIZE_MAX -> In q live ->
  let h' := snd (o1heapAllocate h amount) in
  fragGetSize h' (q - O1HEAP_ALIGNMENT) = fragGetSize h (q - O1HEAP_ALIGNMENT) /\
  fragIsUsed (mem h') (q - O1HEAP_ALIGNMENT) = true /\
  (forall x, in_payload h q x -> mem h' x = mem h x).
Proof.
  intros Hr Ham Hq h'. subst h'.
  destruct (reachable_inv _ _ _ Hr) as (_ & (bl & L & HI & Hp) & _).
  pose proof (Permutation_in _ Hp Hq) as Hqu.
  apply used_ptrs_in in Hqu. destruct Hqu as (g & s & -> & Hg).
  unfold in_payload.
  replace (g + O1HEAP_ALIGNMENT - O1HEAP_ALIGNMENT) with g by lia.
  destruct (Rep_block _ _ _ _ _ _ (HeapInv_Rep _ _ _ HI) Hg)
    as (_ & _ & _ & _ & _ & _ & Hgsz & _).
  pose proof (alloc_keeps h bl L amount g s HI Ham Hg) as Hk. cbv zeta in Hk.
  destruct Hk as (Hs' & Hu' & Hm'). rewrite Hgsz.
  split; [exact Hs'|]. split; [exact Hu'|]. intros x Hx. apply Hm'. exact Hx.
Qed.

(** [o1heapFree] of a block leaves every other block the application holds
    as it is: the fragment keeps its size and its used flag, and no address
    of the payload changes its content. *)
Theorem free_keeps_other_blocks n h live p q :
  reachable n h live -> In p live -> In q live -> q <> p ->
  let h' := o1heapFree h p in
  fragGetSize h' (q - O1HEAP_ALIGNMENT) = fragGetSize h (q - O1HEAP_ALIGNMENT) /\
  fragIsUsed (mem h') (q - O1HEAP_ALIGNMENT) = true /\
  (forall x, in_payload h q x -> mem h' x = mem h x).
Proof.
  intros Hr Hpl Hq Hne h'. subst h'.
  destruct (reachable_inv _ _ _ Hr) as (_ & (bl & L & HI & Hp) & _).
  pose proof (Permutation_in _ Hp Hpl) as Hpu.
  pose proof (Permutation_in _ Hp Hq) as Hqu.
  apply used_ptrs_in in Hqu. destruct Hqu as (g & s & -> & Hg).
  unfold in_payload.
  replace (g + O1HEAP_ALIGNMENT - O1HEAP_ALIGNMENT) with g by lia.
  destruct (Rep_block _ _ _ _ _ _ (HeapInv_Rep _ _ _ HI) Hg)
    as (_ & _ & _ & _ & _ & _ & Hgsz & _).
  pose proof (free_keeps h bl L p g s HI Hpu Hg ltac:(lia)) as Hk. cbv zeta in Hk.
  destruct Hk as (Hs' & Hu' & Hm'). rewrite Hgsz.
  split; [exact Hs'|]. split; [exact Hu'|]. intros x Hx. apply Hm'. exact Hx.
Qed.

(** After [o1heapFree] of a block, a request whose rounded size does not
    exceed the size of the freed fragment is served. *)
Theorem free_then_allocate n h live p amount :
  reachable n h live -> In p live ->
  0 < amount <= capacity (diagnostics h) - O1HEAP_ALIGNMENT ->
  roundUpToPowerOf2 (amount + O1HEAP_ALIGNMENT) <= fragGetSize h (p - O1HEAP_ALIGNMENT) ->
  fst (o1heapAllocate (o1heapFree h p) amount) <> 0.
Proof.
  intros Hr Hpl Hamt Hfit.
  destruct (reachable_inv _ _ _ Hr) as (_ & (bl & L & HI & Hp) & _).
  pose proof (HeapInv_Rep _ _ _ HI) as R. pose proof PTR_pos.
  pose proof FMAX_facts as (HW & HF & HW8).
  destruct (rep_cap _ _ _ R) as [Hcap _].
  pose proof (Permutation_in _ Hp Hpl) as Hpu.
  destruct (free_mem_spec h bl L p HI Hpu)
    as (fsz & bl' & L' & Hin & HI' & _ & Hd & _ & (x & S & Hx & Hx1 & Hx2) & _).
  destruct (Rep_block _ _ _ _ _ _ R Hin) as (_ & _ & _ & _ & _ & _ & Hgsz & _).
  rewrite Hgsz in Hfit.
  assert (Ham : 0 <= amount <= SIZE_MAX) by (unfold SIZE_MAX; zl).
  pose proof (allocate_spec _ bl' L' amount HI' Ham) as Hs. cbv zeta in Hs.
  rewrite (wrap_small (amount + O1HEAP_ALIGNMENT)) in Hs by zl.
  rewrite Hd in Hs. cbn [set_allocated capacity] in Hs.
  destruct Hs as [(_ & _ & [E|[E|E]])|(b1 & g & gs & b2 & L'' & Ebl & _ & _ & Eout & _)].
  - lia.
  - lia.
  - specialize (E _ _ Hx). lia.
  - rewrite Eout.
    assert (Hing : In (g, gs, false) bl').
    { rewrite Ebl. apply in_or_app. right. left. reflexivity. }
    destruct (Rep_block _ _ _ _ _ _ (HeapInv_Rep _ _ _ HI') Hing) as (Hg0 & _). zl.
Qed.


(** ** Resizing *)

Lemma realloc_success h bl L p n :
  HeapInv h bl L -> In p (used_ptrs bl) -> 0 < n <= SIZE_MAX ->
  fst (o1heapReallocate h p n) <> 0 ->
  exists top,
    realloc_mem_post h bl p n (o1heapReallocate h p n)
      (ra_new_frag_size n - ra_frag_size h p) top /\
    (realloc_case h p n = R4 \/ realloc_case h p n = R5 \/ realloc_case h p n = R6 \/
     realloc_case h p n = R7).
Proof.
  intros HI Hp Hn Hnz.
  pose proof (realloc_mem_spec h bl L p n HI Hp Hn) as Hs. cbv zeta in Hs.
  destruct Hs as [(E0 & _)|[(Hpost & Hc)|(Hpost & Hc & _)]].
  - contradiction.
  - eexists. split; [exact Hpost|]. destruct Hc as [Hc|[Hc|[Hc _]]]; auto.
  - eexists. split; [exact Hpost|]. auto.
Qed.

Lemma new_frag_size_facts h bl L n :
  HeapInv h bl L -> 0 < n <= capacity (diagnostics h) - O1HEAP_ALIGNMENT ->
  ra_new_frag_size n = roundUpToPowerOf2 (n + O1HEAP_ALIGNMENT) /\
  n + O1HEAP_ALIGNMENT <= ra_new_frag_size n < 2 * (n + O1HEAP_ALIGNMENT).
Proof.
  intros (R & _) Hn.
  pose proof PTR_pos. pose proof FMAX_facts as (HW & HF & HW8).
  destruct (rep_cap _ _ _ R) as [Hcap _].
  destruct (alloc_size_facts n _ Hcap Hn) as (k & Ek & _ & Hlo & Hhi & _).
  unfold ra_new_frag_size. rewrite Ek. split; [|lia].
  rewrite <- Ek, wrap_small by zl. reflexivity.
Qed.

Lemma realloc_fits h bl L p n top r :
  HeapInv h bl L -> 0 < n ->
  realloc_mem_post h bl p n r (ra_new_frag_size n - ra_frag_size h p) top ->
  0 < n <= capacity (diagnostics h) - O1HEAP_ALIGNMENT.
Proof.
  intros HI Hn (bl' & L' & rest & _ & HI' & _ & _ & Hamt & Hd & _).
  destruct HI' as (_ & _ & _ & (_ & Hpk & _)). rewrite Hd in Hpk.
  cbn [allocated peak_allocated capacity] in Hpk. lia.
Qed.

(** A pointer that a successful [o1heapReallocate] returns is aligned and is
    none of the other pointers the application holds; its fragment is marked
    used and has the size [new_amount + O1HEAP_ALIGNMENT] rounded up to a
    power of two; and the block starts with the contents of the old one, as
    far as the payloads of both fragments reach. *)
Theorem reallocate_returns_block n h live p new_amount :
  reachable n h live -> In p live -> 0 < new_amount <= SIZE_MAX ->
  fst (o1heapReallocate h p new_amount) <> 0 ->
  let out := fst (o1heapReallocate h p new_amount) in
  let h' := snd (o1heapReallocate h p new_amount) in
  let size := roundUpToPowerOf2 (new_amount + O1HEAP_ALIGNMENT) in
  (O1HEAP_ALIGNMENT | out) /\
  (forall q, In q live -> q <> p -> out <> q) /\
  fragIsUsed (mem h') (out - O1HEAP_ALIGNMENT) = true /\
  fragGetSize h' (out - O1HEAP_ALIGNMENT) = size /\
  new_amount + O1HEAP_ALIGNMENT <= size /\
  (forall i, 0 <= i < Z.min (fragGetSize h (p - O1HEAP_ALIGNMENT)) size - O1HEAP_ALIGNMENT ->
             mem h' (out + i) = mem h (p + i)).
Proof.
  intros Hr Hpl Hn Hnz out h' size. subst out h' size.
  destruct (reachable_inv _ _ _ Hr) as (_ & (bl & L & HI & Hp) & _).
  pose proof (Permutation_in _ Hp Hpl) as Hpu.
  destruct (realloc_success h bl L p new_amount HI Hpu Hn Hnz)
    as (top & Hpost & _).
  pose proof (realloc_fits _ _ _ _ _ _ _ HI (proj1 Hn) Hpost) as Hfit.
  destruct Hpost
    as (bl' & L' & rest & _ & HI' & Hp1 & Hp2 & Hamt & Hd & Hinb & Hoth & Hfr & Hdata).
  pose proof (HeapInv_Rep _ _ _ HI') as R'. pose proof PTR_pos.
  destruct (Rep_block _ _ _ _ _ _ R' Hinb)
    as (_ & _ & _ & _ & _ & _ & Hgsz & Hfu & Hfa & _).
  destruct (new_frag_size_facts h bl L new_amount HI Hfit) as (Esz & Hlo & _).
  rewrite <- Esz.
  split.
  { replace (fst (o1heapReallocate h p new_amount))
      with (fst (o1heapReallocate h p new_amount) - O1HEAP_ALIGNMENT + O1HEAP_ALIGNMENT)
      by lia.
    apply Z.divide_add_r; [assumption|apply Z.divide_refl]. }
  split.
  { intros q Hq Hne E.
    pose proof (used_ptrs_nodup _ (seg_nodup _ _ _ _ _ _ (rep_seg _ _ _ R'))) as Hnd.
    apply (Permutation_NoDup Hp2) in Hnd. apply NoDup_cons_iff in Hnd.
    destruct Hnd as [Hni _]. apply Hni. rewrite E.
    pose proof (Permutation_in _ Hp1 (Permutation_in _ Hp Hq)) as [E'|Hin]; [congruence|].
    exact Hin. }
  split; [exact Hfu|]. split; [exact Hgsz|].
  split; [exact Hlo|]. exact Hdata.
Qed.


Lemma realloc_keeps h bl L p n g s :
  HeapInv h bl L -> In p (used_ptrs bl) -> 0 <= n <= SIZE_MAX ->
  In (g, s, true) bl -> g <> p - O1HEAP_ALIGNMENT ->
  let h' := snd (o1heapReallocate h p n) in
  fragGetSize h' g = s /\ fragIsUsed (mem h') g = true /\
  (forall y, g + O1HEAP_ALIGNMENT <= y < g + s -> mem h' y = mem h y).
Proof.
  intros HI Hp Hn Hg Hne h'. subst h'.
  pose proof (HeapInv_Rep _ _ _ HI) as R. pose proof PTR_pos.
  destruct (Rep_block _ _ _ _ _ _ R Hg) as (_ & _ & _ & _ & _ & _ & Hgsz & Hgu & _).
  assert (Hp0 : p <> 0).
  { apply used_ptrs_in in Hp. destruct Hp as (f & fs & -> & Hf).
    destruct (Rep_block _ _ _ _ _ _ R Hf) as (Hf0 & _). zl. }
  destruct (Z.eq_dec n 0) as [->|Hn0].
  - unfold o1heapReallocate. destruct (Z.eqb_spec p 0) as [|_]; [contradiction|].
    cbn [Z.eqb snd]. apply (free_keeps h bl L p g s HI Hp Hg Hne).
  - pose proof (realloc_mem_spec h bl L p n HI Hp ltac:(lia)) as Hs. cbv zeta in Hs.
    assert (Hpost : forall delta top,
              realloc_mem_post h bl p n (o1heapReallocate h p n) delta top ->
              fragGetSize (snd (o1heapReallocate h p n)) g = s /\
              fragIsUsed (mem (snd (o1heapReallocate h p n))) g = true /\
              (forall y, g + O1HEAP_ALIGNMENT <= y < g + s ->
                         mem (snd (o1heapReallocate h p n)) y = mem h y)).
    { intros delta top (bl' & L' & rest & _ & HI' & _ & _ & _ & _ & _ & Hoth & Hfr & _).
      destruct (Rep_block _ _ _ _ _ _ (HeapInv_Rep _ _ _ HI') (Hoth _ _ Hg Hne))
        as (_ & _ & _ & _ & _ & _ & Hgsz' & Hgu' & _).
      split; [exact Hgsz'|]. split; [exact Hgu'|].
      intros y Hy. apply Hfr. exists g, s. auto. }
    destruct Hs as [(_ & Es & _)|[(Hq & _)|(Hq & _)]].
    + rewrite Es. cbn [set_diag mem]. split; [exact Hgsz|]. split; [exact Hgu|reflexivity].
    + exact (Hpost _ _ Hq).
    + exact (Hpost _ _ Hq).
Qed.

(** [o1heapReallocate] of a block, whether it shrinks, grows, moves, frees
    (size zero) or fails, leaves every other block the application holds as
    it is: the fragment keeps its size and its used flag, and no address of
    the payload changes its content. *)
Theorem reallocate_keeps_other_blocks n h live p q new_amount :
  reachable n h live -> In p live -> In q live -> q <> p ->
  0 <= new_amount <= SIZE_MAX ->
  let h' := snd (o1heapReallocate h p new_amount) in
  fragGetSize h' (q - O1HEAP_ALIGNMENT) = fragGetSize h (q - O1HEAP_ALIGNMENT) /\
  fragIsUsed (mem h') (q - O1HEAP_ALIGNMENT) = true /\
  (forall x, in_payload h q x -> mem h' x = mem h x).
Proof.
  intros Hr Hpl Hq Hne Hn h'. subst h'.
  destruct (reachable_inv _ _ _ Hr) as (_ & (bl & L & HI & Hp) & _).
  pose proof (Permutation_in _ Hp Hpl) as Hpu.
  pose proof (Permutation_in _ Hp Hq) as Hqu.
  apply used_ptrs_in in Hqu. destruct Hqu as (g & s & -> & Hg).
  unfold in_payload.
  replace (g + O1HEAP_ALIGNMENT - O1HEAP_ALIGNMENT) with g by lia.
  destruct (Rep_block _ _ _ _ _ _ (HeapInv_Rep _ _ _ HI) Hg)
    as (_ & _ & _ & _ & _ & _ & Hgsz & _).
  pose proof (realloc_keeps h bl L p new_amount g s HI Hpu Hn Hg ltac:(lia)) as Hk.
  cbv zeta in Hk.
  destruct Hk as (Hs' & Hu' & Hm'). rewrite Hgsz.
  split; [exact Hs'|]. split; [exact Hu'|]. intros x Hx. apply Hm'. exact Hx.
Qed.

Lemma realloc_same_pointer h p n :
  realloc_case h p n = R4 \/ realloc_case h p n = R5 ->
  fst (o1heapReallocate h p n) = p.
Proof.
  unfold realloc_case, o1heapReallocate, ra_frag_size, ra_new_frag_size, ra_next_size,
    ra_prev_size, ra_next_free, ra_prev_free, ra_next, ra_prev.
  destruct (p =? 0); [intros [E|E]; discriminate E|].
  destruct (n =? 0); [intros [E|E]; discriminate E|].
  cbv zeta. cbn [set_diag diagnostics capacity mem set_peak_request_size].
  destruct (n >? _); [intros [E|E]; discriminate E|].
  change (fragGetSize (set_diag h _)) with (fragGetSize h).
  destruct (_ <=? fragGetSize h (p - O1HEAP_ALIGNMENT)).
  - intros _. destruct (_ >=? FRAGMENT_SIZE_MIN); [|reflexivity].
    destruct (negb _ && negb _); reflexivity.
  - destruct (_ && (_ >=? _)) eqn:E5.
    + intros _. reflexivity.
    + intros [E|E]; revert E;
        match goal with |- (if ?c then _ else _) = _ -> _ => destruct c end; discriminate.
Qed.

(** When the fragment of the block is already large enough for the new
    size, or the fragment after it is free and the two together are, a
    resize stays in place: [o1heapReallocate] returns the pointer it was
    given, the fragment takes the size of the request, and the payload is
    not moved. *)
Theorem reallocate_in_place n h live p new_amount :
  reachable n h live -> In p live -> 0 < new_amount <= SIZE_MAX ->
  realloc_case h p new_amount = R4 \/ realloc_case h p new_amount = R5 ->
  let r := o1heapReallocate h p new_amount in
  let size := roundUpToPowerOf2 (new_amount + O1HEAP_ALIGNMENT) in
  fst r = p /\
  fragGetSize (snd r) (p - O1HEAP_ALIGNMENT) = size /\
  fragIsUsed (mem (snd r)) (p - O1HEAP_ALIGNMENT) = true /\
  (forall x, p <= x < p - O1HEAP_ALIGNMENT + Z.min (fragGetSize h (p - O1HEAP_ALIGNMENT)) size ->
             mem (snd r) x = mem h x).
Proof.
  intros Hr Hpl Hn Hc r size. subst r size.
  destruct (reachable_inv _ _ _ Hr) as (_ & (bl & L & HI & Hp) & _).
  pose proof (Permutation_in _ Hp Hpl) as Hpu.
  pose proof (realloc_same_pointer h p new_amount Hc) as Eout.
  pose proof (realloc_mem_spec h bl L p new_amount HI Hpu Hn) as Hs. cbv zeta in Hs.
  assert (Hpost : exists delta top,
            realloc_mem_post h bl p new_amount (o1heapReallocate h p new_amount) delta top
            /\ delta = ra_new_frag_size new_amount - ra_frag_size h p).
  { destruct Hs as [(_ & _ & [E|[E _]])|[(Hq & _)|(_ & E & _)]].
    - destruct Hc as [Hc|Hc]; rewrite Hc in E; discriminate E.
    - destruct Hc as [Hc|Hc]; rewrite Hc in E; discriminate E.
    - eexists _, _. split; [exact Hq|reflexivity].
    - destruct Hc as [Hc|Hc]; rewrite Hc in E; discriminate E. }
  destruct Hpost as (delta & top & Hpost & ->).
  pose proof (realloc_fits _ _ _ _ _ _ _ HI (proj1 Hn) Hpost) as Hfit.
  destruct (new_frag_size_facts h bl L new_amount HI Hfit) as (Esz & _).
  destruct Hpost as (bl' & L' & rest & _ & HI' & _ & _ & _ & _ & Hinb & _ & _ & Hdata).
  rewrite Eout in Hinb, Hdata. rewrite <- Esz.
  destruct (Rep_block _ _ _ _ _ _ (HeapInv_Rep _ _ _ HI') Hinb)
    as (_ & _ & _ & _ & _ & _ & Hgsz & Hfu & _).
  split; [exact Eout|]. split; [exact Hgsz|]. split; [exact Hfu|].
  intros x Hx. replace x with (p + (x - p)) by lia. apply Hdata. lia.
Qed.

(** A successful [o1heapReallocate] changes [allocated] by the difference
    between the new and the old fragment size, raises [peak_request_size]
    to the request, never lowers [peak_allocated] and leaves [capacity] and
    [oom_count] as they were. *)
Theorem reallocate_accounting n h live p new_amount :
  reachable n h live -> In p live -> 0 < new_amount <= SIZE_MAX ->
  fst (o1heapReallocate h p new_amount) <> 0 ->
  let d := diagnostics h in
  let d' := o1heapGetDiagnostics (snd (o1heapReallocate h p new_amount)) in
  let old_size := fragGetSize h (p - O1HEAP_ALIGNMENT) in
  let new_size := roundUpToPowerOf2 (new_amount + O1HEAP_ALIGNMENT) in
  capacity d' = capacity d /\
  allocated d' = allocated d - old_size + new_size /\
  Z.max (peak_allocated d) (allocated d') <= peak_allocated d' <= capacity d /\
  peak_request_size d' = Z.max (peak_request_size d) new_amount /\
  oom_count d' = oom_count d.
Proof.
  intros Hr Hpl Hn Hnz d d' old_size new_size. subst d d' old_size new_size.
  destruct (reachable_inv _ _ _ Hr) as (_ & (bl & L & HI & Hp) & _).
  pose proof (Permutation_in _ Hp Hpl) as Hpu.
  destruct (realloc_success h bl L p new_amount HI Hpu Hn Hnz) as (top & Hpost & _).
  pose proof (realloc_fits _ _ _ _ _ _ _ HI (proj1 Hn) Hpost) as Hfit.
  destruct (new_frag_size_facts h bl L new_amount HI Hfit) as (Esz & _).
  destruct Hpost as (bl' & L' & rest & _ & HI' & _ & _ & _ & Hd & _).
  destruct HI' as (_ & _ & _ & (_ & Hpk & _)).
  unfold o1heapGetDiagnostics. rewrite Hd in Hpk |- *.
  cbn [capacity allocated peak_allocated peak_request_size oom_count] in Hpk |- *.
  rewrite <- Esz. unfold ra_frag_size in *. rewrite larger_max.
  split; [reflexivity|]. split; [lia|]. split; [lia|]. split; reflexivity.
Qed.


(** ** Round trips and fragment sizes *)

(** Releasing the block that [o1heapAllocate] has just returned undoes the
    allocation as far as the application can tell: [allocated] is back at
    its old value, and the same request is served again. *)
Theorem allocate_free_allocate n h live amount :
  reachable n h live -> 0 <= amount <= SIZE_MAX ->
  fst (o1heapAllocate h amount) <> 0 ->
  let p := fst (o1heapAllocate h amount) in
  let h1 := snd (o1heapAllocate h amount) in
  let h2 := o1heapFree h1 p in
  allocated (diagnostics h2) = allocated (diagnostics h) /\
  fst (o1heapAllocate h2 amount) <> 0.
Proof.
  intros Hr Ham Hnz p h1 h2. subst p h1 h2.
  destruct (reachable_inv _ _ _ Hr) as (_ & (bl & L & HI & Hp) & _).
  pose proof PTR_pos. pose proof FMAX_facts as (HW & HF & HW8).
  destruct (alloc_success h bl L amount HI Ham Hnz)
    as (fsz & bl1 & L1 & Hamt & _ & _ & HI1 & Hin1 & _ & Hsz & Hd1).
  cbv zeta in Hamt, Hin1, Hsz, Hd1.
  set (p := fst (o1heapAllocate h amount)) in *.
  set (h1 := snd (o1heapAllocate h amount)) in *.
  pose proof (HeapInv_Rep _ _ _ HI1) as R1.
  assert (Hpu : In p (used_ptrs bl1)).
  { apply used_ptrs_in. eexists _, _. split; [|exact Hin1]. lia. }
  destruct (free_mem_spec h1 bl1 L1 p HI1 Hpu)
    as (fs & bl2 & L2 & Hin & HI2 & _ & Hd2 & _ & (x & S & Hx & Hx1 & Hx2) & _).
  destruct (Rep_In_unique _ _ _ _ _ _ _ _ R1 Hin Hin1) as [-> _].
  split.
  { rewrite Hd2, Hd1. cbn [set_allocated allocated]. lia. }
  assert (Hcap : capacity (diagnostics (o1heapFree h1 p)) = capacity (diagnostics h)).
  { rewrite Hd2, Hd1. reflexivity. }
  destruct (rep_cap _ _ _ (HeapInv_Rep _ _ _ HI)) as [Hc _].
  pose proof (allocate_spec _ bl2 L2 amount HI2 Ham) as Hs. cbv zeta in Hs.
  rewrite (wrap_small (amount + O1HEAP_ALIGNMENT)) in Hs by zl.
  rewrite Hcap in Hs.
  destruct Hs as [(_ & _ & [E|[E|E]])|(b1 & g & gs & b2 & L'' & Ebl & _ & _ & Eout & _)].
  - lia.
  - lia.
  - specialize (E _ _ Hx). lia.
  - rewrite Eout.
    assert (Hing : In (g, gs, false) bl2).
    { rewrite Ebl. apply in_or_app. right. left. reflexivity. }
    destruct (Rep_block _ _ _ _ _ _ (HeapInv_Rep _ _ _ HI2) Hing) as (Hg0 & _). zl.
Qed.


Lemma alloc_sizes h bl L live amount q :
  HeapInv h bl L -> Permutation live (used_ptrs bl) -> 0 <= amount <= SIZE_MAX ->
  In q (if fst (o1heapAllocate h amount) =? 0 then live
        else fst (o1heapAllocate h amount) :: live) ->
  let h' := snd (o1heapAllocate h amount) in
  (In q live /\ fragGetSize h' (q - O1HEAP_ALIGNMENT) = fragGetSize h (q - O1HEAP_ALIGNMENT)) \/
  (exists k, 0 <= k /\ fragGetSize h' (q - O1HEAP_ALIGNMENT) = 2 ^ k).
Proof.
  intros HI Hp Ham Hq h'. subst h'.
  pose proof (HeapInv_Rep _ _ _ HI) as R. pose proof PTR_pos.
  pose proof FMAX_facts as (HW & HF & HW8). pose proof FMIN_pow as (_ & Hlg & _).
  assert (Hold : In q live ->
            fragGetSize (snd (o1heapAllocate h amount)) (q - O1HEAP_ALIGNMENT)
            = fragGetSize h (q - O1HEAP_ALIGNMENT)).
  { intros Hl. pose proof (Permutation_in _ Hp Hl) as Hu. apply used_ptrs_in in Hu.
    destruct Hu as (g & s & -> & Hg).
    replace (g + O1HEAP_ALIGNMENT - O1HEAP_ALIGNMENT) with g by lia.
    destruct (Rep_block _ _ _ _ _ _ R Hg) as (_ & _ & _ & _ & _ & _ & Hgsz & _).
    destruct (alloc_keeps h bl L amount g s HI Ham Hg) as (Hs' & _).
    rewrite Hs', Hgsz. reflexivity. }
  destruct (Z.eqb_spec (fst (o1heapAllocate h amount)) 0) as [E0|Hnz].
  - left. split; [exact Hq|apply Hold; exact Hq].
  - destruct Hq as [<-|Hq]; [|left; split; [exact Hq|apply Hold; exact Hq]].
    right.
    destruct (alloc_success h bl L amount HI Ham Hnz)
      as (fsz & bl' & L' & Hamt & _ & _ & HI' & Hin' & _).
    destruct (Rep_block _ _ _ _ _ _ (HeapInv_Rep _ _ _ HI') Hin')
      as (_ & _ & _ & _ & _ & _ & Hgsz & _).
    destruct (rep_cap _ _ _ R) as [Hcap _].
    destruct (alloc_size_facts amount _ Hcap Hamt) as (k & Ek & Hk & _).
    rewrite wrap_small in Ek by zl.
    exists k. split; [lia|]. rewrite Hgsz. exact Ek.
Qed.

Lemma free_sizes h bl L live p q :
  HeapInv h bl L -> Permutation live (used_ptrs bl) -> p = 0 \/ In p live ->
  In q (remove Z.eq_dec p live) ->
  In q live /\
  fragGetSize (o1heapFree h p) (q - O1HEAP_ALIGNMENT) = fragGetSize h (q - O1HEAP_ALIGNMENT).
Proof.
  intros HI Hp Hpl Hq. apply in_remove in Hq. destruct Hq as [Hq Hne].
  split; [exact Hq|].
  destruct (Z.eq_dec p 0) as [->|Hp0]; [reflexivity|].
  destruct Hpl as [|Hpl]; [contradiction|].
  pose proof (Permutation_in _ Hp Hq) as Hu. apply used_ptrs_in in Hu.
  destruct Hu as (g & s & -> & Hg).
  replace (g + O1HEAP_ALIGNMENT - O1HEAP_ALIGNMENT) with g by lia.
  destruct (Rep_block _ _ _ _ _ _ (HeapInv_Rep _ _ _ HI) Hg)
    as (_ & _ & _ & _ & _ & _ & Hgsz & _).
  destruct (free_keeps h bl L p g s HI (Permutation_in _ Hp Hpl) Hg ltac:(lia)) as (Hs' & _).
  rewrite Hs', Hgsz. reflexivity.
Qed.

Lemma step_sizes h bl L live c q :
  HeapInv h bl L -> Permutation live (used_ptrs bl) -> call_ok h live c ->
  In q (live_after live c (fst (exec h c))) ->
  let h' := snd (exec h c) in
  (In q live /\ fragGetSize h' (q - O1HEAP_ALIGNMENT) = fragGetSize h (q - O1HEAP_ALIGNMENT)) \/
  (exists k, 0 <= k /\ fragGetSize h' (q - O1HEAP_ALIGNMENT) = 2 ^ k).
Proof.
  intros HI Hp Hok Hq h'. subst h'.
  pose proof (HeapInv_Rep _ _ _ HI) as R. pose proof PTR_pos.
  pose proof FMAX_facts as (HW & HF & HW8). pose proof FMIN_pow as (_ & Hlg & _).
  destruct c as [amount|p|p amt|addr v]; cbn [exec call_ok live_after fst snd] in *.
  - apply (alloc_sizes h bl L live amount q HI Hp Hok Hq).
  - left. apply (free_sizes h bl L live p q HI Hp Hok Hq).
  - destruct Hok as [Hpl Hamt].
    destruct (Z.eqb_spec p 0) as [->|Hp0].
    { change (o1heapReallocate h 0 amt) with (o1heapAllocate h amt) in *.
      apply (alloc_sizes h bl L live amt q HI Hp Hamt Hq). }
    destruct Hpl as [|Hpl]; [contradiction|].
    pose proof (Permutation_in _ Hp Hpl) as Hpu.
    destruct (Z.eqb_spec amt 0) as [->|Ha0].
    { left. unfold o1heapReallocate. destruct (Z.eqb_spec p 0); [contradiction|].
      cbn [Z.eqb fst snd]. apply (free_sizes h bl L live p q HI Hp (or_intror Hpl) Hq). }
    assert (Hold : In q live -> q <> p ->
              fragGetSize (snd (o1heapReallocate h p amt)) (q - O1HEAP_ALIGNMENT)
              = fragGetSize h (q - O1HEAP_ALIGNMENT)).
    { intros Hl Hne. pose proof (Permutation_in _ Hp Hl) as Hu. apply used_ptrs_in in Hu.
      destruct Hu as (g & s & -> & Hg).
      replace (g + O1HEAP_ALIGNMENT - O1HEAP_ALIGNMENT) with g by lia.
      destruct (Rep_block _ _ _ _ _ _ R Hg) as (_ & _ & _ & _ & _ & _ & Hgsz & _).
      destruct (realloc_keeps h bl L p amt g s HI Hpu Hamt Hg ltac:(lia)) as (Hs' & _).
      rewrite Hs', Hgsz. reflexivity. }
    destruct (Z.eqb_spec (fst (o1heapReallocate h p amt)) 0) as [E0|Hnz].
    + left. split; [exact Hq|].
      pose proof (realloc_mem_spec h bl L p amt HI Hpu ltac:(lia)) as Hs. cbv zeta in Hs.
      destruct Hs as [(_ & Es & _)|[((? & ? & ? & Hx & _) & _)|((? & ? & ? & Hx & _) & _)]];
        [|contradiction|contradiction].
      rewrite Es. reflexivity.
    + destruct Hq as [<-|Hq].
      * right.
        destruct (realloc_success h bl L p amt HI Hpu ltac:(lia) Hnz) as (top & Hpost & _).
        assert (Ha1 : 0 < amt) by lia.
        pose proof (realloc_fits _ _ _ _ _ _ _ HI Ha1 Hpost) as Hfit.
        destruct Hpost as (bl' & L' & rest & _ & HI' & _ & _ & _ & _ & Hinb & _).
        destruct (Rep_block _ _ _ _ _ _ (HeapInv_Rep _ _ _ HI') Hinb)
          as (_ & _ & _ & _ & _ & _ & Hgsz & _).
        destruct (rep_cap _ _ _ R) as [Hcap _].
        destruct (alloc_size_facts amt _ Hcap Hfit) as (k & Ek & Hk & _).
        exists k. split; [lia|]. rewrite Hgsz. exact Ek.
      * apply in_remove in Hq. destruct Hq as [Hq Hne].
        left. split; [exact Hq|apply Hold; assumption].
  - left. split; [exact Hq|].
    destruct Hok as (p & Hpl & Hrange).
    pose proof (Permutation_in _ Hp Hpl) as Hpu. apply used_ptrs_in in Hpu.
    destruct Hpu as (f & s & -> & Hin).
    destruct (Rep_block _ _ _ _ _ _ R Hin) as (_ & _ & _ & _ & _ & _ & Hgs & _).
    replace (f + O1HEAP_ALIGNMENT - O1HEAP_ALIGNMENT) with f in Hrange by lia.
    rewrite Hgs in Hrange.
    assert (R' : Rep (set_mem h (store (mem h) addr v)) bl L).
    { apply (payload_Rep _ _ _ _ f s R Hin). intros x Hx. apply store_ne. lia. }
    pose proof (Permutation_in _ Hp Hq) as Hu. apply used_ptrs_in in Hu.
    destruct Hu as (g & s' & -> & Hg).
    replace (g + O1HEAP_ALIGNMENT - O1HEAP_ALIGNMENT) with g by lia.
    destruct (Rep_block _ _ _ _ _ _ R Hg) as (_ & _ & _ & _ & _ & _ & Hgsz & _).
    destruct (Rep_block _ _ _ _ _ _ R' Hg) as (_ & _ & _ & _ & _ & _ & Hgsz' & _).
    rewrite Hgsz, Hgsz'. reflexivity.
Qed.

(** The fragment of every block the application holds has a power of two
    as its size, whatever calls were made since the block was returned:
    fragments are handed out in power-of-two sizes only and no later call
    changes the size of a block that is held. *)
Theorem live_sizes_are_powers n h live p :
  reachable n h live -> In p live ->
  exists k, 0 <= k /\ fragGetSize h (p - O1HEAP_ALIGNMENT) = 2 ^ k.
Proof.
  intros Hr. revert p.
  induction Hr as [m base size h Hb Hs Hbs Hi|n h live c Hr IH Hok]; intros p Hpl.
  - contradiction.
  - destruct (reachable_inv _ _ _ Hr) as (_ & (bl & L & HI & Hp) & _).
    destruct (step_sizes h bl L live c p HI Hp Hok Hpl) as [[Hl E]|Hk].
    + rewrite E. apply IH. exact Hl.
    + exact Hk.
Qed.

End O1Heap.

(** * The 64-bit configuration *)

Local Abbreviation arena64 := (INSTANCE_SIZE_PADDED P64 + 4096).
Local Abbreviation heap64 := (sample_heap P64 arena64).
Local Abbreviation small64 := (sample_heap P64 (INSTANCE_SIZE_PADDED P64 + 96)).
Local Abbreviation first64 := (sample_base P64 + O1HEAP_ALIGNMENT P64).

Ltac decide_goal :=
  vm_compute;
  repeat match goal with
         | |- _ /\ _ => split
         | |- True => exact I
         | |- _ = _ => reflexivity
         | |- _ -> False => let H := fresh in intro H; discriminate H
         | |- _ \/ _ => first [left; solve [decide_goal] | right; solve [decide_goal]]
         | |- Forall _ _ => constructor
         end.

Lemma heap64_reachable : reachable P64 0 heap64 [].
Proof.
  apply (sample_reachable P64 arena64 heap64); [decide_goal|decide_goal|].
  vm_compute. reflexivity.
Qed.

Lemma small64_reachable : reachable P64 0 small64 [].
Proof.
  apply (sample_reachable P64 (INSTANCE_SIZE_PADDED P64 + 96) small64);
    [decide_goal|decide_goal|].
  vm_compute. reflexivity.
Qed.

Lemma run64_reachable cs :
  calls_ok P64 heap64 [] cs ->
  reachable P64 (Z.of_nat (length cs)) (run P64 heap64 cs) (run_live P64 heap64 [] cs).
Proof. intros Hok. apply (reachable_run P64 cs 0 heap64 [] heap64_reachable Hok). Qed.

(** Two small blocks, the first of which is then grown beyond what its
    neighbourhood offers. *)
Local Abbreviation grow_calls :=
  [CAllocate 1; CAllocate 1; CReallocate first64 100].

Lemma grow_calls_ok : calls_ok P64 heap64 [] grow_calls.
Proof. decide_goal. Qed.

Lemma grow_reachable :
  reachable P64 3 (run P64 heap64 grow_calls) (run_live P64 heap64 [] grow_calls).
Proof. exact (run64_reachable grow_calls grow_calls_ok). Qed.

(** Blocks of 64, 32, 32 and 32 bytes, of which the first and the third are
    freed. *)
Local Abbreviation hole_calls :=
  [CAllocate 40; CAllocate 1; CAllocate 1; CAllocate 1;
   CFree first64; CFree (first64 + 96)].

Lemma hole_calls_ok : calls_ok P64 heap64 [] hole_calls.
Proof. decide_goal. Qed.

Lemma hole_reachable :
  reachable P64 6 (run P64 heap64 hole_calls) (run_live P64 heap64 [] hole_calls).
Proof. exact (run64_reachable hole_calls hole_calls_ok). Qed.

Local Abbreviation one_calls := [CAllocate 1].

Lemma one_calls_ok : calls_ok P64 heap64 [] one_calls.
Proof. decide_goal. Qed.

Lemma one_reachable :
  reachable P64 1 (run P64 heap64 one_calls) (run_live P64 heap64 [] one_calls).
Proof. exact (run64_reachable one_calls one_calls_ok). Qed.

Local Abbreviation gap_calls := [CAllocate 1; CAllocate 1; CFree first64].

Lemma gap_calls_ok : calls_ok P64 heap64 [] gap_calls.
Proof. decide_goal. Qed.

Lemma gap_reachable :
  reachable P64 3 (run P64 heap64 gap_calls) (run_live P64 heap64 [] gap_calls).
Proof. exact (run64_reachable gap_calls gap_calls_ok). Qed.

(** ** Claim C1 *)

Lemma peak_allocated_history_witness :
  (0 <= 4096 /\ 0 <= arena64 /\ 4096 + arena64 <= 2 ^ WORD_BITS P64 /\
   o1heapInit P64 (fun _ => 0) 4096 arena64 = Some heap64 /\
   calls_ok P64 heap64 [] grow_calls) /\
  peak_allocated (diagnostics (run P64 heap64 grow_calls)) =
    Z.max (max_of (snapshots P64 heap64 grow_calls))
          (max_of (transients P64 heap64 grow_calls)).
Proof.
  assert (H1 : 0 <= 4096) by decide_goal.
  assert (H2 : 0 <= arena64) by decide_goal.
  assert (H3 : 4096 + arena64 <= 2 ^ WORD_BITS P64) by decide_goal.
  assert (H4 : o1heapInit P64 (fun _ => 0) 4096 arena64 = Some heap64) by decide_goal.
  pose proof (peak_allocated_history P64 (fun _ => 0) 4096 arena64 heap64 grow_calls
                H1 H2 H3 H4 grow_calls_ok) as H.
  destruct H as (Hp & _).
  exact (conj (conj H1 (conj H2 (conj H3 (conj H4 grow_calls_ok)))) Hp).
Defined.

(** The claim as stated fails: after [grow_calls], [peak_allocated] is 192
    although [allocated] was never above 160 between the calls. *)
Lemma peak_above_snapshots :
  o1heapInit P64 (fun _ => 0) 4096 arena64 = Some heap64 /\
  calls_ok P64 heap64 [] grow_calls /\
  realloc_case P64 (run P64 heap64 [CAllocate 1; CAllocate 1]) first64 100 = R7 /\
  snapshots P64 heap64 grow_calls = [0; 32; 64; 160] /\
  peak_allocated (diagnostics (run P64 heap64 grow_calls)) = 192 /\
  peak_allocated (diagnostics (run P64 heap64 grow_calls))
    <> max_of (snapshots P64 heap64 grow_calls).
Proof. decide_goal. Qed.

(** ** Claim C2 *)

Lemma invariants_hold_before_wrap_witness :
  (reachable P64 3 (run P64 heap64 grow_calls) (run_live P64 heap64 [] grow_calls) /\
   3 < 2 ^ 64) /\
  o1heapDoInvariantsHold P64 (run P64 heap64 grow_calls) = true.
Proof.
  assert (H1 : 3 < 2 ^ 64) by decide_goal.
  pose proof (invariants_hold_before_wrap P64 3 (run P64 heap64 grow_calls)
                (run_live P64 heap64 [] grow_calls) grow_reachable H1) as H.
  cbv zeta in H. destruct H as (Hc & _).
  exact (conj (conj grow_reachable H1) Hc).
Defined.

Lemma starved_step k :
  0 <= k ->
  exec P64 (starved_heap P64 arena64 k) (CAllocate (SIZE_MAX P64)) =
  (0, starved_heap P64 arena64 (k + 1)).
Proof.
  intros Hk. cbn [exec]. unfold o1heapAllocate, starved_heap.
  cbn [set_diag diagnostics capacity].
  replace (capacity (diagnostics heap64)) with 4096 by (vm_compute; reflexivity).
  replace (SIZE_MAX P64) with 18446744073709551615 by (vm_compute; reflexivity).
  replace (wrap P64 (4096 - O1HEAP_ALIGNMENT P64)) with 4080 by (vm_compute; reflexivity).
  cbn [Z.gtb Z.leb Z.compare Pos.compare Pos.compare_cont andb Z.eqb].
  unfold set_diag, set_oom_count, set_peak_request_size.
  cbn [diagnostics capacity allocated peak_allocated peak_request_size oom_count bins
       nonempty_bin_mask arena_end mem].
  f_equal. f_equal. f_equal.
  - unfold larger. destruct (Z.eqb_spec k 0), (Z.eqb_spec (k + 1) 0); try lia; reflexivity.
  - unfold wrap64. rewrite Z.add_mod_idemp_l by lia. reflexivity.
Qed.

Lemma starved_reachable k :
  0 <= k -> reachable P64 k (starved_heap P64 arena64 k) [].
Proof.
  revert k. apply natlike_ind.
  - replace (starved_heap P64 arena64 0) with heap64 by (vm_compute; reflexivity).
    exact heap64_reachable.
  - intros k Hk IH.
    pose proof (reach_call P64 k _ [] (CAllocate (SIZE_MAX P64)) IH) as Hstep.
    rewrite starved_step in Hstep by assumption.
    replace (Z.succ k) with (k + 1) by lia. apply Hstep. decide_goal.
Qed.

(** The claim as stated fails: after [2 ^ 64] requests that cannot be served
    [oom_count] is zero again, and the checker returns false. *)
Lemma invariants_fail_after_wrap :
  reachable P64 (2 ^ 64) (starved_heap P64 arena64 (2 ^ 64)) [] /\
  o1heapDoInvariantsHold P64 (starved_heap P64 arena64 (2 ^ 64)) = false.
Proof.
  split; [apply starved_reachable; lia|]. vm_compute. reflexivity.
Qed.


(** ** Claim C3 *)

Lemma drain_to_empty_witness :
  (0 <= 4096 /\ 0 <= arena64 /\ 4096 + arena64 <= 2 ^ WORD_BITS P64 /\
   o1heapInit P64 (fun _ => 0) 4096 arena64 = Some heap64 /\
   Forall (fun a => 0 <= a <= SIZE_MAX P64) [1; 100] /\
   Forall (fun p => p <> 0) (fst (allocate_all P64 heap64 [1; 100])) /\
   Permutation [first64 + 32; first64] (fst (allocate_all P64 heap64 [1; 100]))) /\
  allocated (diagnostics (free_all P64 (snd (allocate_all P64 heap64 [1; 100]))
                                   [first64 + 32; first64])) = 0.
Proof.
  assert (H1 : 0 <= 4096) by decide_goal.
  assert (H2 : 0 <= arena64) by decide_goal.
  assert (H3 : 4096 + arena64 <= 2 ^ WORD_BITS P64) by decide_goal.
  assert (H4 : o1heapInit P64 (fun _ => 0) 4096 arena64 = Some heap64) by decide_goal.
  assert (H5 : Forall (fun a => 0 <= a <= SIZE_MAX P64) [1; 100])
    by (repeat apply Forall_cons; try apply Forall_nil; split; decide_goal).
  assert (H6 : Forall (fun p => p <> 0) (fst (allocate_all P64 heap64 [1; 100])))
    by decide_goal.
  assert (H7 : Permutation [first64 + 32; first64]
                 (fst (allocate_all P64 heap64 [1; 100]))).
  { replace (fst (allocate_all P64 heap64 [1; 100])) with [first64; first64 + 32]
      by (vm_compute; reflexivity).
    apply perm_swap. }
  pose proof (drain_to_empty P64 (fun _ => 0) 4096 arena64 heap64 [1; 100]
                [first64 + 32; first64] H1 H2 H3 H4 H5 H6 H7) as H.
  cbv zeta in H. destruct H as (Ha & _).
  exact (conj (conj H1 (conj H2 (conj H3 (conj H4 (conj H5 (conj H6 H7)))))) Ha).
Defined.

(** ** Claim C4 *)

Lemma allocate_above_max_fails_witness :
  (reachable P64 0 small64 [] /\
   o1heapGetMaxAllocationSize P64 small64 < 60 <= SIZE_MAX P64) /\
  fst (o1heapAllocate P64 small64 60) = 0.
Proof.
  assert (H1 : o1heapGetMaxAllocationSize P64 small64 < 60 <= SIZE_MAX P64)
    by decide_goal.
  pose proof (allocate_above_max_fails P64 0 small64 [] 60 small64_reachable H1) as H.
  cbv zeta in H. destruct H as (_ & Hf & _).
  exact (conj (conj small64_reachable H1) Hf).
Defined.

(** The claim as stated fails: in a heap of capacity 96 a request for 60
    bytes exceeds the maximal allocation size 48 and is refused, but not by
    the capacity guard, which it passes. *)
Lemma above_max_passes_guard :
  reachable P64 0 small64 [] /\
  capacity (diagnostics small64) = 96 /\
  o1heapGetMaxAllocationSize P64 small64 = 48 /\
  ((60 >? 0) && (60 <=? wrap P64 (capacity (diagnostics small64) - O1HEAP_ALIGNMENT P64)))
    = true /\
  fst (o1heapAllocate P64 small64 60) = 0.
Proof. split; [exact small64_reachable|decide_goal]. Qed.

(** ** Claim C5 *)

Lemma backward_expansion_accounting_witness :
  (reachable P64 6 (run P64 heap64 hole_calls) (run_live P64 heap64 [] hole_calls) /\
   In (first64 + 64) (run_live P64 heap64 [] hole_calls) /\
   0 < 100 <= SIZE_MAX P64 /\
   realloc_case P64 (run P64 heap64 hole_calls) (first64 + 64) 100 = R6) /\
  peak_allocated
    (diagnostics (snd (o1heapReallocate P64 (run P64 heap64 hole_calls) (first64 + 64) 100)))
  = Z.max (peak_allocated (diagnostics (run P64 heap64 hole_calls)))
          (allocated
             (diagnostics
                (snd (o1heapReallocate P64 (run P64 heap64 hole_calls) (first64 + 64)
                        100)))).
Proof.
  assert (H1 : In (first64 + 64) (run_live P64 heap64 [] hole_calls)) by decide_goal.
  assert (H2 : 0 < 100 <= SIZE_MAX P64) by decide_goal.
  assert (H3 : realloc_case P64 (run P64 heap64 hole_calls) (first64 + 64) 100 = R6)
    by decide_goal.
  pose proof (backward_expansion_accounting P64 6 (run P64 heap64 hole_calls)
                (run_live P64 heap64 [] hole_calls) (first64 + 64) 100 hole_reachable
                H1 H2 H3) as H.
  cbv zeta in H. destruct H as (_ & Hp).
  exact (conj (conj hole_reachable (conj H1 (conj H2 H3))) Hp).
Defined.

(** The claim as stated fails: the block of 32 bytes between free fragments
    of 64 and 32 bytes takes both whole when it is grown to 128 bytes, and
    [allocated] grows by 96, not by the 32 bytes of the next fragment. *)
Lemma absorb_adds_both_neighbours :
  reachable P64 6 (run P64 heap64 hole_calls) (run_live P64 heap64 [] hole_calls) /\
  In (first64 + 64) (run_live P64 heap64 [] hole_calls) /\
  realloc_case P64 (run P64 heap64 hole_calls) (first64 + 64) 100 = R6 /\
  ra_prev_size P64 (run P64 heap64 hole_calls) (first64 + 64) = 64 /\
  ra_frag_size P64 (run P64 heap64 hole_calls) (first64 + 64) = 32 /\
  ra_next_size P64 (run P64 heap64 hole_calls) (first64 + 64) = 32 /\
  ra_new_frag_size P64 100 = 128 /\
  allocated (diagnostics (snd (o1heapReallocate P64 (run P64 heap64 hole_calls)
                                 (first64 + 64) 100))) =
    allocated (diagnostics (run P64 heap64 hole_calls)) + 96 /\
  allocated (diagnostics (snd (o1heapReallocate P64 (run P64 heap64 hole_calls)
                                 (first64 + 64) 100))) <>
    allocated (diagnostics (run P64 heap64 hole_calls))
    + ra_next_size P64 (run P64 heap64 hole_calls) (first64 + 64).
Proof. split; [exact hole_reachable|decide_goal]. Qed.

(** ** Claim C6 *)

Lemma no_adjacent_free_fragments_witness :
  (reachable P64 3 (run P64 heap64 gap_calls) (run_live P64 heap64 [] gap_calls) /\
   frag_at (run P64 heap64 gap_calls) (sample_base P64) /\
   fragGetNext (mem (run P64 heap64 gap_calls)) (sample_base P64) <> 0 /\
   fragIsUsed P64 (mem (run P64 heap64 gap_calls)) (sample_base P64) = false) /\
  fragIsUsed P64 (mem (run P64 heap64 gap_calls))
             (fragGetNext (mem (run P64 heap64 gap_calls)) (sample_base P64)) = true.
Proof.
  assert (H1 : frag_at (run P64 heap64 gap_calls) (sample_base P64)).
  { replace (sample_base P64)
      with (arena_end (run P64 heap64 gap_calls)
            - capacity (diagnostics (run P64 heap64 gap_calls)))
      by (vm_compute; reflexivity).
    apply frag_root. }
  assert (H2 : fragGetNext (mem (run P64 heap64 gap_calls)) (sample_base P64) <> 0)
    by decide_goal.
  assert (H3 : fragIsUsed P64 (mem (run P64 heap64 gap_calls)) (sample_base P64) = false)
    by decide_goal.
  exact (conj (conj gap_reachable (conj H1 (conj H2 H3)))
           (no_adjacent_free_fragments P64 3 (run P64 heap64 gap_calls)
              (run_live P64 heap64 [] gap_calls) (sample_base P64) gap_reachable
              H1 H2 H3)).
Defined.

(** ** Claim C7 *)

Lemma failed_call_frame_witness :
  (reachable P64 1 (run P64 heap64 one_calls) (run_live P64 heap64 [] one_calls) /\
   0 <= 5000 <= SIZE_MAX P64 /\
   fst (o1heapAllocate P64 (run P64 heap64 one_calls) 5000) = 0) /\
  snd (o1heapAllocate P64 (run P64 heap64 one_calls) 5000) =
  set_diag (run P64 heap64 one_calls)
    (mkDiag (capacity (diagnostics (run P64 heap64 one_calls)))
            (allocated (diagnostics (run P64 heap64 one_calls)))
            (peak_allocated (diagnostics (run P64 heap64 one_calls)))
            (Z.max (peak_request_size (diagnostics (run P64 heap64 one_calls))) 5000)
            (if 5000 =? 0 then oom_count (diagnostics (run P64 heap64 one_calls))
             else wrap64 (oom_count (diagnostics (run P64 heap64 one_calls)) + 1))).
Proof.
  assert (H1 : 0 <= 5000 <= SIZE_MAX P64) by decide_goal.
  assert (H2 : fst (o1heapAllocate P64 (run P64 heap64 one_calls) 5000) = 0)
    by decide_goal.
  pose proof (failed_call_frame P64 1 (run P64 heap64 one_calls)
                (run_live P64 heap64 [] one_calls) one_reachable) as H.
  cbv zeta in H. destruct H as (Ha & _).
  exact (conj (conj one_reachable (conj H1 H2)) (Ha 5000 H1 H2)).
Defined.

(** ** Claim C8 *)

Lemma zero_size_requests_witness :
  (reachable P64 1 (run P64 heap64 one_calls) (run_live P64 heap64 [] one_calls) /\
   In first64 (run_live P64 heap64 [] one_calls)) /\
  fst (o1heapReallocate P64 (run P64 heap64 one_calls) first64 0) = 0 /\
  FRAGMENT_SIZE_MIN P64
  <= fragGetSize P64 (run P64 heap64 one_calls) (first64 - O1HEAP_ALIGNMENT P64)
  <= allocated (diagnostics (run P64 heap64 one_calls)) /\
  diagnostics (snd (o1heapReallocate P64 (run P64 heap64 one_calls) first64 0)) =
  mkDiag (capacity (diagnostics (run P64 heap64 one_calls)))
         (allocated (diagnostics (run P64 heap64 one_calls))
          - fragGetSize P64 (run P64 heap64 one_calls) (first64 - O1HEAP_ALIGNMENT P64))
         (peak_allocated (diagnostics (run P64 heap64 one_calls)))
         (peak_request_size (diagnostics (run P64 heap64 one_calls)))
         (oom_count (diagnostics (run P64 heap64 one_calls))).
Proof.
  assert (H1 : In first64 (run_live P64 heap64 [] one_calls)) by decide_goal.
  pose proof (zero_size_requests P64 1 (run P64 heap64 one_calls)
                (run_live P64 heap64 [] one_calls) first64 one_reachable H1) as H.
  cbv zeta in H. destruct H as (_ & H0 & _ & Hs & Hd & _).
  exact (conj (conj one_reachable H1) (conj H0 (conj Hs Hd))).
Defined.

(** ** Claim C9 *)



(** ** Claim C10 *)

Lemma realloc_beyond_capacity_frame_witness :
  (reachable P64 1 (run P64 heap64 one_calls) (run_live P64 heap64 [] one_calls) /\
   first64 <> 0 /\ 0 < 5000 /\
   capacity (diagnostics (run P64 heap64 one_calls)) - O1HEAP_ALIGNMENT P64 < 5000) /\
  fst (o1heapReallocate P64 (run P64 heap64 one_calls) first64 5000) = 0 /\
  mem (snd (o1heapReallocate P64 (run P64 heap64 one_calls) first64 5000)) =
  mem (run P64 heap64 one_calls).
Proof.
  assert (H1 : first64 <> 0) by decide_goal.
  assert (H2 : 0 < 5000) by decide_goal.
  assert (H3 : capacity (diagnostics (run P64 heap64 one_calls)) - O1HEAP_ALIGNMENT P64
               < 5000) by decide_goal.
  pose proof (realloc_beyond_capacity_frame P64 1 (run P64 heap64 one_calls)
                (run_live P64 heap64 [] one_calls) first64 5000 one_reachable
                H1 H2 H3) as H.
  cbv zeta in H. destruct H as (_ & Hf & Hm & _).
  exact (conj (conj one_reachable (conj H1 (conj H2 H3))) (conj Hf Hm)).
Defined.

(** * Instances of the further properties *)

Lemma init_capacity_witness :
  (0 <= 4096 /\ 0 <= arena64 /\ 4096 + arena64 <= 2 ^ WORD_BITS P64 /\
   o1heapInit P64 (fun _ => 0) 4096 arena64 = Some heap64) /\
  capacity (diagnostics heap64) =
    Z.min (arena64 - INSTANCE_SIZE_PADDED P64) (FRAGMENT_SIZE_MAX P64)
    / FRAGMENT_SIZE_MIN P64 * FRAGMENT_SIZE_MIN P64.
Proof.
  assert (H1 : 0 <= 4096) by decide_goal.
  assert (H2 : 0 <= arena64) by decide_goal.
  assert (H3 : 4096 + arena64 <= 2 ^ WORD_BITS P64) by decide_goal.
  assert (H4 : o1heapInit P64 (fun _ => 0) 4096 arena64 = Some heap64) by decide_goal.
  pose proof (init_capacity P64 (fun _ => 0) 4096 arena64 H1 H2 H3) as [_ H].
  pose proof (H heap64 H4) as (Hc & _).
  exact (conj (conj H1 (conj H2 (conj H3 H4))) Hc).
Defined.

Lemma allocate_returns_block_witness :
  (reachable P64 0 heap64 [] /\ 0 <= 100 <= SIZE_MAX P64 /\
   fst (o1heapAllocate P64 heap64 100) <> 0) /\
  (O1HEAP_ALIGNMENT P64 | fst (o1heapAllocate P64 heap64 100)).
Proof.
  assert (H1 : 0 <= 100 <= SIZE_MAX P64) by decide_goal.
  assert (H2 : fst (o1heapAllocate P64 heap64 100) <> 0) by decide_goal.
  pose proof (allocate_returns_block P64 0 heap64 [] 100 heap64_reachable H1 H2) as H.
  cbv zeta in H. destruct H as (Ha & _).
  exact (conj (conj heap64_reachable (conj H1 H2)) Ha).
Defined.

Lemma allocate_accounting_witness :
  (reachable P64 0 heap64 [] /\ 0 <= 100 <= SIZE_MAX P64 /\
   fst (o1heapAllocate P64 heap64 100) <> 0) /\
  allocated (diagnostics heap64)
  + fragGetSize P64 (snd (o1heapAllocate P64 heap64 100))
                (fst (o1heapAllocate P64 heap64 100) - O1HEAP_ALIGNMENT P64)
  <= capacity (diagnostics heap64).
Proof.
  assert (H1 : 0 <= 100 <= SIZE_MAX P64) by decide_goal.
  assert (H2 : fst (o1heapAllocate P64 heap64 100) <> 0) by decide_goal.
  pose proof (allocate_accounting P64 0 heap64 [] 100 heap64_reachable H1 H2) as H.
  cbv zeta in H. destruct H as (_ & Ha).
  exact (conj (conj heap64_reachable (conj H1 H2)) Ha).
Defined.

Lemma allocate_succeeds_iff_witness :
  (reachable P64 0 heap64 [] /\ 0 <= 100 <= SIZE_MAX P64) /\
  (fst (o1heapAllocate P64 heap64 100) <> 0 <->
   0 < 100 <= capacity (diagnostics heap64) - O1HEAP_ALIGNMENT P64 /\
   exists f, frag_at heap64 f /\ fragIsUsed P64 (mem heap64) f = false /\
             roundUpToPowerOf2 P64 (100 + O1HEAP_ALIGNMENT P64) <= fragGetSize P64 heap64 f).
Proof.
  assert (H1 : 0 <= 100 <= SIZE_MAX P64) by decide_goal.
  exact (conj (conj heap64_reachable H1)
              (allocate_succeeds_iff P64 0 heap64 [] 100 heap64_reachable H1)).
Defined.

Lemma live_blocks_disjoint_witness :
  (reachable P64 6 (run P64 heap64 hole_calls) (run_live P64 heap64 [] hole_calls) /\
   In (first64 + 64) (run_live P64 heap64 [] hole_calls) /\
   In (first64 + 128) (run_live P64 heap64 [] hole_calls)) /\
  (first64 + 64 <> first64 + 128 ->
   first64 + 64 - O1HEAP_ALIGNMENT P64
   + fragGetSize P64 (run P64 heap64 hole_calls) (first64 + 64 - O1HEAP_ALIGNMENT P64)
   <= first64 + 128 - O1HEAP_ALIGNMENT P64 \/
   first64 + 128 - O1HEAP_ALIGNMENT P64
   + fragGetSize P64 (run P64 heap64 hole_calls) (first64 + 128 - O1HEAP_ALIGNMENT P64)
   <= first64 + 64 - O1HEAP_ALIGNMENT P64).
Proof.
  assert (H1 : In (first64 + 64) (run_live P64 heap64 [] hole_calls)) by decide_goal.
  assert (H2 : In (first64 + 128) (run_live P64 heap64 [] hole_calls)) by decide_goal.
  pose proof (live_blocks_disjoint P64 6 (run P64 heap64 hole_calls)
                (run_live P64 heap64 [] hole_calls) (first64 + 64) (first64 + 128)
                hole_reachable H1 H2) as H.
  cbv beta zeta in H. destruct H as (_ & Hd).
  exact (conj (conj hole_reachable (conj H1 H2)) Hd).
Defined.

Lemma allocated_is_live_total_witness :
  reachable P64 6 (run P64 heap64 hole_calls) (run_live P64 heap64 [] hole_calls) /\
  allocated (o1heapGetDiagnostics (run P64 heap64 hole_calls)) =
    live_total P64 (run P64 heap64 hole_calls) (run_live P64 heap64 [] hole_calls).
Proof.
  exact (conj hole_reachable
              (allocated_is_live_total P64 6 (run P64 heap64 hole_calls)
                 (run_live P64 heap64 [] hole_calls) hole_reachable)).
Defined.

Lemma free_accounting_witness :
  (reachable P64 1 (run P64 heap64 one_calls) (run_live P64 heap64 [] one_calls) /\
   In first64 (run_live P64 heap64 [] one_calls)) /\
  FRAGMENT_SIZE_MIN P64
  <= fragGetSize P64 (run P64 heap64 one_calls) (first64 - O1HEAP_ALIGNMENT P64)
  <= allocated (diagnostics (run P64 heap64 one_calls)).
Proof.
  assert (H1 : In first64 (run_live P64 heap64 [] one_calls)) by decide_goal.
  pose proof (free_accounting P64 1 (run P64 heap64 one_calls)
                (run_live P64 heap64 [] one_calls) first64 one_reachable H1) as H.
  cbv zeta in H. destruct H as (_ & Hs & _).
  exact (conj (conj one_reachable H1) Hs).
Defined.

Lemma arena_is_fixed_witness :
  (reachable P64 0 heap64 [] /\ call_ok P64 heap64 [] (CAllocate 100)) /\
  arena_end (snd (exec P64 heap64 (CAllocate 100))) = arena_end heap64.
Proof.
  assert (H1 : call_ok P64 heap64 [] (CAllocate 100)) by decide_goal.
  pose proof (arena_is_fixed P64 0 heap64 [] (CAllocate 100) heap64_reachable H1) as H.
  destruct H as (_ & Ha & _).
  exact (conj (conj heap64_reachable H1) Ha).
Defined.

(** A request that cannot be served, then one that can. *)
Local Abbreviation refused_calls := [CAllocate 5000; CAllocate 1].

Lemma refused_calls_ok : calls_ok P64 heap64 [] refused_calls.
Proof. decide_goal. Qed.

Lemma peak_request_history_witness :
  (0 <= 4096 /\ 0 <= arena64 /\ 4096 + arena64 <= 2 ^ WORD_BITS P64 /\
   o1heapInit P64 (fun _ => 0) 4096 arena64 = Some heap64 /\
   calls_ok P64 heap64 [] grow_calls) /\
  peak_request_size (o1heapGetDiagnostics (run P64 heap64 grow_calls)) =
    max_of (requests grow_calls).
Proof.
  assert (H1 : 0 <= 4096) by decide_goal.
  assert (H2 : 0 <= arena64) by decide_goal.
  assert (H3 : 4096 + arena64 <= 2 ^ WORD_BITS P64) by decide_goal.
  assert (H4 : o1heapInit P64 (fun _ => 0) 4096 arena64 = Some heap64) by decide_goal.
  exact (conj (conj H1 (conj H2 (conj H3 (conj H4 grow_calls_ok))))
              (peak_request_history P64 (fun _ => 0) 4096 arena64 heap64 grow_calls
                 H1 H2 H3 H4 grow_calls_ok)).
Defined.

Lemma oom_count_history_witness :
  (0 <= 4096 /\ 0 <= arena64 /\ 4096 + arena64 <= 2 ^ WORD_BITS P64 /\
   o1heapInit P64 (fun _ => 0) 4096 arena64 = Some heap64 /\
   calls_ok P64 heap64 [] refused_calls) /\
  oom_count (o1heapGetDiagnostics (run P64 heap64 refused_calls)) =
    wrap64 (refusals P64 heap64 refused_calls).
Proof.
  assert (H1 : 0 <= 4096) by decide_goal.
  assert (H2 : 0 <= arena64) by decide_goal.
  assert (H3 : 4096 + arena64 <= 2 ^ WORD_BITS P64) by decide_goal.
  assert (H4 : o1heapInit P64 (fun _ => 0) 4096 arena64 = Some heap64) by decide_goal.
  exact (conj (conj H1 (conj H2 (conj H3 (conj H4 refused_calls_ok))))
              (oom_count_history P64 (fun _ => 0) 4096 arena64 heap64 refused_calls
                 H1 H2 H3 H4 refused_calls_ok)).
Defined.

Lemma clz_counts_leading_zeros_witness :
  0 < 100 <= SIZE_MAX P64 /\ Z.testbit 100 (WORD_BITS P64 - 1 - O1HEAP_CLZ P64 100) = true.
Proof.
  assert (H1 : 0 < 100 <= SIZE_MAX P64) by decide_goal.
  pose proof (clz_counts_leading_zeros P64 100 H1) as (_ & Hb & _).
  exact (conj H1 Hb).
Defined.

Lemma log2Floor_pow2_witness :
  (0 < 100 <= SIZE_MAX P64 /\ 0 <= 5 < WORD_BITS P64) /\ log2Floor P64 (pow2 P64 5) = 5.
Proof.
  assert (H1 : 0 < 100 <= SIZE_MAX P64) by decide_goal.
  assert (H2 : 0 <= 5 < WORD_BITS P64) by decide_goal.
  pose proof (log2Floor_pow2 P64 100 5 H1 H2) as (_ & _ & Hk).
  exact (conj (conj H1 H2) Hk).
Defined.

Lemma roundUp_least_power_witness :
  2 <= 100 <= FRAGMENT_SIZE_MAX P64 /\
  100 <= roundUpToPowerOf2 P64 100 < 2 * 100.
Proof.
  assert (H1 : 2 <= 100 <= FRAGMENT_SIZE_MAX P64) by decide_goal.
  pose proof (roundUp_least_power P64 100 H1) as (_ & Hb & _).
  exact (conj H1 Hb).
Defined.

Lemma header_fields_independent_witness :
  (0 <= 4688 < 2 ^ WORD_BITS P64 /\ (O1HEAP_ALIGNMENT P64 | 4688)) /\
  fragGetPrev P64 (fragSetUsed P64 (fragSetPrev P64 (fun _ => 0) 4720 4688) 4720 true) 4720
  = 4688.
Proof.
  assert (H1 : 0 <= 4688 < 2 ^ WORD_BITS P64) by decide_goal.
  assert (H2 : (O1HEAP_ALIGNMENT P64 | 4688)) by (exists 293; reflexivity).
  pose proof (header_fields_independent P64 (fun _ => 0) 4720 4688 true H1 H2) as H.
  cbv zeta in H. destruct H as ((Hp & _) & _).
  exact (conj (conj H1 H2) Hp).
Defined.

Lemma interlink_links_witness :
  (0 < 4688 < 2 ^ WORD_BITS P64 /\ 4720 <> 0 /\ (O1HEAP_ALIGNMENT P64 | 4688) /\
   (O1HEAP_ALIGNMENT P64 | 4720) /\ 4688 <> 4720) /\
  (fragGetNext (interlink P64 (fun _ => 0) 4688 4720) 4688 = 4720 /\
   fragGetPrev P64 (interlink P64 (fun _ => 0) 4688 4720) 4720 = 4688).
Proof.
  assert (H1 : 0 < 4688 < 2 ^ WORD_BITS P64) by decide_goal.
  assert (H2 : 4720 <> 0) by decide_goal.
  assert (H3 : (O1HEAP_ALIGNMENT P64 | 4688)) by (exists 293; reflexivity).
  assert (H4 : (O1HEAP_ALIGNMENT P64 | 4720)) by (exists 295; reflexivity).
  assert (H5 : 4688 <> 4720) by decide_goal.
  pose proof (interlink_links P64 (fun _ => 0) 4688 4720 H1 H2 H3 H4 H5) as H.
  cbv zeta in H. destruct H as (Hl & _).
  exact (conj (conj H1 (conj H2 (conj H3 (conj H4 H5)))) Hl).
Defined.

Lemma bins_hold_size_classes_witness :
  (reachable P64 0 heap64 [] /\ 0 <= 7 < NUM_BINS_MAX P64 /\ bins heap64 7 <> 0) /\
  fragIsUsed P64 (mem heap64) (bins heap64 7) = false.
Proof.
  assert (H1 : 0 <= 7 < NUM_BINS_MAX P64) by decide_goal.
  assert (H2 : bins heap64 7 <> 0) by decide_goal.
  pose proof (bins_hold_size_classes P64 0 heap64 [] heap64_reachable) as [H _].
  pose proof (H 7 H1 H2) as (_ & Hu & _).
  exact (conj (conj heap64_reachable (conj H1 H2)) Hu).
Defined.

Lemma allocate_keeps_blocks_witness :
  (reachable P64 1 (run P64 heap64 one_calls) (run_live P64 heap64 [] one_calls) /\
   0 <= 1 <= SIZE_MAX P64 /\ In first64 (run_live P64 heap64 [] one_calls)) /\
  fragGetSize P64 (snd (o1heapAllocate P64 (run P64 heap64 one_calls) 1))
    (first64 - O1HEAP_ALIGNMENT P64)
  = fragGetSize P64 (run P64 heap64 one_calls) (first64 - O1HEAP_ALIGNMENT P64).
Proof.
  assert (H1 : 0 <= 1 <= SIZE_MAX P64) by decide_goal.
  assert (H2 : In first64 (run_live P64 heap64 [] one_calls)) by decide_goal.
  pose proof (allocate_keeps_blocks P64 1 (run P64 heap64 one_calls)
                (run_live P64 heap64 [] one_calls) 1 first64 one_reachable H1 H2) as H.
  cbv zeta in H. destruct H as (Hs & _).
  exact (conj (conj one_reachable (conj H1 H2)) Hs).
Defined.

Lemma free_keeps_other_blocks_witness :
  (reachable P64 6 (run P64 heap64 hole_calls) (run_live P64 heap64 [] hole_calls) /\
   In (first64 + 64) (run_live P64 heap64 [] hole_calls) /\
   In (first64 + 128) (run_live P64 heap64 [] hole_calls) /\
   first64 + 128 <> first64 + 64) /\
  fragGetSize P64 (o1heapFree P64 (run P64 heap64 hole_calls) (first64 + 64))
    (first64 + 128 - O1HEAP_ALIGNMENT P64)
  = fragGetSize P64 (run P64 heap64 hole_calls) (first64 + 128 - O1HEAP_ALIGNMENT P64).
Proof.
  assert (H1 : In (first64 + 64) (run_live P64 heap64 [] hole_calls)) by decide_goal.
  assert (H2 : In (first64 + 128) (run_live P64 heap64 [] hole_calls)) by decide_goal.
  assert (H3 : first64 + 128 <> first64 + 64) by decide_goal.
  pose proof (free_keeps_other_blocks P64 6 (run P64 heap64 hole_calls)
                (run_live P64 heap64 [] hole_calls) (first64 + 64) (first64 + 128)
                hole_reachable H1 H2 H3) as H.
  cbv zeta in H. destruct H as (Hs & _).
  exact (conj (conj hole_reachable (conj H1 (conj H2 H3))) Hs).
Defined.

Lemma free_then_allocate_witness :
  (reachable P64 1 (run P64 heap64 one_calls) (run_live P64 heap64 [] one_calls) /\
   In first64 (run_live P64 heap64 [] one_calls) /\
   0 < 1 <= capacity (diagnostics (run P64 heap64 one_calls)) - O1HEAP_ALIGNMENT P64 /\
   roundUpToPowerOf2 P64 (1 + O1HEAP_ALIGNMENT P64)
   <= fragGetSize P64 (run P64 heap64 one_calls) (first64 - O1HEAP_ALIGNMENT P64)) /\
  fst (o1heapAllocate P64 (o1heapFree P64 (run P64 heap64 one_calls) first64) 1) <> 0.
Proof.
  assert (H1 : In first64 (run_live P64 heap64 [] one_calls)) by decide_goal.
  assert (H2 : 0 < 1 <= capacity (diagnostics (run P64 heap64 one_calls))
                        - O1HEAP_ALIGNMENT P64) by decide_goal.
  assert (H3 : roundUpToPowerOf2 P64 (1 + O1HEAP_ALIGNMENT P64)
               <= fragGetSize P64 (run P64 heap64 one_calls)
                    (first64 - O1HEAP_ALIGNMENT P64)) by decide_goal.
  pose proof (free_then_allocate P64 1 (run P64 heap64 one_calls)
                (run_live P64 heap64 [] one_calls) first64 1 one_reachable H1 H2 H3) as H.
  exact (conj (conj one_reachable (conj H1 (conj H2 H3))) H).
Defined.

Lemma reallocate_returns_block_witness :
  (reachable P64 6 (run P64 heap64 hole_calls) (run_live P64 heap64 [] hole_calls) /\
   In (first64 + 64) (run_live P64 heap64 [] hole_calls) /\
   0 < 100 <= SIZE_MAX P64 /\
   fst (o1heapReallocate P64 (run P64 heap64 hole_calls) (first64 + 64) 100) <> 0) /\
  fragGetSize P64 (snd (o1heapReallocate P64 (run P64 heap64 hole_calls) (first64 + 64) 100))
    (fst (o1heapReallocate P64 (run P64 heap64 hole_calls) (first64 + 64) 100)
     - O1HEAP_ALIGNMENT P64)
  = roundUpToPowerOf2 P64 (100 + O1HEAP_ALIGNMENT P64).
Proof.
  assert (H1 : In (first64 + 64) (run_live P64 heap64 [] hole_calls)) by decide_goal.
  assert (H2 : 0 < 100 <= SIZE_MAX P64) by decide_goal.
  assert (H3 : fst (o1heapReallocate P64 (run P64 heap64 hole_calls) (first64 + 64) 100)
               <> 0) by decide_goal.
  pose proof (reallocate_returns_block P64 6 (run P64 heap64 hole_calls)
                (run_live P64 heap64 [] hole_calls) (first64 + 64) 100 hole_reachable
                H1 H2 H3) as H.
  cbv zeta in H. destruct H as (_ & _ & _ & Hs & _).
  exact (conj (conj hole_reachable (conj H1 (conj H2 H3))) Hs).
Defined.

Lemma reallocate_keeps_other_blocks_witness :
  (reachable P64 6 (run P64 heap64 hole_calls) (run_live P64 heap64 [] hole_calls) /\
   In (first64 + 64) (run_live P64 heap64 [] hole_calls) /\
   In (first64 + 128) (run_live P64 heap64 [] hole_calls) /\
   first64 + 128 <> first64 + 64 /\ 0 <= 100 <= SIZE_MAX P64) /\
  fragGetSize P64 (snd (o1heapReallocate P64 (run P64 heap64 hole_calls) (first64 + 64) 100))
    (first64 + 128 - O1HEAP_ALIGNMENT P64)
  = fragGetSize P64 (run P64 heap64 hole_calls) (first64 + 128 - O1HEAP_ALIGNMENT P64).
Proof.
  assert (H1 : In (first64 + 64) (run_live P64 heap64 [] hole_calls)) by decide_goal.
  assert (H2 : In (first64 + 128) (run_live P64 heap64 [] hole_calls)) by decide_goal.
  assert (H3 : first64 + 128 <> first64 + 64) by decide_goal.
  assert (H4 : 0 <= 100 <= SIZE_MAX P64) by decide_goal.
  pose proof (reallocate_keeps_other_blocks P64 6 (run P64 heap64 hole_calls)
                (run_live P64 heap64 [] hole_calls) (first64 + 64) (first64 + 128) 100
                hole_reachable H1 H2 H3 H4) as H.
  cbv zeta in H. destruct H as (Hs & _).
  exact (conj (conj hole_reachable (conj H1 (conj H2 (conj H3 H4)))) Hs).
Defined.

Lemma reallocate_in_place_witness :
  (reachable P64 1 (run P64 heap64 one_calls) (run_live P64 heap64 [] one_calls) /\
   In first64 (run_live P64 heap64 [] one_calls) /\
   0 < 100 <= SIZE_MAX P64 /\
   (realloc_case P64 (run P64 heap64 one_calls) first64 100 = R4 \/
    realloc_case P64 (run P64 heap64 one_calls) first64 100 = R5)) /\
  fst (o1heapReallocate P64 (run P64 heap64 one_calls) first64 100) = first64.
Proof.
  assert (H1 : In first64 (run_live P64 heap64 [] one_calls)) by decide_goal.
  assert (H2 : 0 < 100 <= SIZE_MAX P64) by decide_goal.
  assert (H3 : realloc_case P64 (run P64 heap64 one_calls) first64 100 = R4 \/
               realloc_case P64 (run P64 heap64 one_calls) first64 100 = R5)
    by (right; vm_compute; reflexivity).
  pose proof (reallocate_in_place P64 1 (run P64 heap64 one_calls)
                (run_live P64 heap64 [] one_calls) first64 100 one_reachable
                H1 H2 H3) as H.
  cbv zeta in H. destruct H as (Hs & _).
  exact (conj (conj one_reachable (conj H1 (conj H2 H3))) Hs).
Defined.

Lemma reallocate_accounting_witness :
  (reachable P64 6 (run P64 heap64 hole_calls) (run_live P64 heap64 [] hole_calls) /\
   In (first64 + 64) (run_live P64 heap64 [] hole_calls) /\
   0 < 100 <= SIZE_MAX P64 /\
   fst (o1heapReallocate P64 (run P64 heap64 hole_calls) (first64 + 64) 100) <> 0) /\
  allocated
    (o1heapGetDiagnostics
       (snd (o1heapReallocate P64 (run P64 heap64 hole_calls) (first64 + 64) 100)))
  = allocated (diagnostics (run P64 heap64 hole_calls))
    - fragGetSize P64 (run P64 heap64 hole_calls) (first64 + 64 - O1HEAP_ALIGNMENT P64)
    + roundUpToPowerOf2 P64 (100 + O1HEAP_ALIGNMENT P64).
Proof.
  assert (H1 : In (first64 + 64) (run_live P64 heap64 [] hole_calls)) by decide_goal.
  assert (H2 : 0 < 100 <= SIZE_MAX P64) by decide_goal.
  assert (H3 : fst (o1heapReallocate P64 (run P64 heap64 hole_calls) (first64 + 64) 100)
               <> 0) by decide_goal.
  pose proof (reallocate_accounting P64 6 (run P64 heap64 hole_calls)
                (run_live P64 heap64 [] hole_calls) (first64 + 64) 100 hole_reachable
                H1 H2 H3) as H.
  cbv zeta in H. destruct H as (_ & Hs & _).
  exact (conj (conj hole_reachable (conj H1 (conj H2 H3))) Hs).
Defined.

Lemma allocate_free_allocate_witness :
  (reachable P64 0 heap64 [] /\ 0 <= 1 <= SIZE_MAX P64 /\
   fst (o1heapAllocate P64 heap64 1) <> 0) /\
  fst (o1heapAllocate P64
         (o1heapFree P64 (snd (o1heapAllocate P64 heap64 1))
            (fst (o1heapAllocate P64 heap64 1))) 1) <> 0.
Proof.
  assert (H1 : 0 <= 1 <= SIZE_MAX P64) by decide_goal.
  assert (H2 : fst (o1heapAllocate P64 heap64 1) <> 0) by decide_goal.
  pose proof (allocate_free_allocate P64 0 heap64 [] 1 heap64_reachable H1 H2) as H.
  cbv zeta in H. destruct H as (_ & Hs).
  exact (conj (conj heap64_reachable (conj H1 H2)) Hs).
Defined.

Lemma live_sizes_are_powers_witness :
  (reachable P64 6 (run P64 heap64 hole_calls) (run_live P64 heap64 [] hole_calls) /\
   In (first64 + 64) (run_live P64 heap64 [] hole_calls)) /\
  exists k, 0 <= k /\
    fragGetSize P64 (run P64 heap64 hole_calls) (first64 + 64 - O1HEAP_ALIGNMENT P64) = 2 ^ k.
Proof.
  assert (H1 : In (first64 + 64) (run_live P64 heap64 [] hole_calls)) by decide_goal.
  exact (conj (conj hole_reachable H1)
           (live_sizes_are_powers P64 6 (run P64 heap64 hole_calls)
              (run_live P64 heap64 [] hole_calls) (first64 + 64) hole_reachable H1)).
Defined.
